(** * Stats-card renderer: a shallow embedding of [renderer.py]

    The development follows the renderer module of the repository: the
    coordinate scaler, the language colour lookup, the vertical language
    bar (segment sizing, gradient rows, drawing), the greedy and balanced
    word wrappers and the blurb auto-fit search.

    Conventions of the embedding.
    - Python [int] is [Z].  Python [float] has two models.  Where the
      property at hand depends on the value a float computation gives
      (the scaled dimensions, the proportional segment heights, the
      language percentages, the sprite sizes) the model is [B64]:
      binary64 with rounding to nearest, ties to even, with gradual
      underflow, overflow to the infinities, [nan], and the exceptions
      Python raises on them.  The modules [Scaler64], [Bar64],
      [GitHubStats64] and [PokemonFetcher] compute in it.  Elsewhere (the
      layout, where scaled lengths are only compared and added, and the
      blend of two colours) a float is the exact rational [Q] that the
      computation approximates.
    - Pillow (fonts, text measurement) and the table of [language_colors]
      are not part of the sources; they are type classes, instantiated
      only to evaluate examples.
    - Python [str] is [list ascii], holding ASCII text: [lower],
      [casefold], [strip] and [split] are those of Python on such text.
    - A raised exception is [None] in the option monad.
    - Drawing calls are recorded, in call order, as a list of [draw_op]. *)

From Stdlib Require Import ZArith QArith Qround Qpower Qabs Lqa Lia List Ascii
  String Bool.
From stdpp Require Import base option list strings.

Open Scope Z_scope.

(** ** Python numerics *)

Module PyNum.

(** [int(x)] on a float: truncation toward zero. *)
Definition py_int (x : Q) : Z := Z.quot (Qnum x) (Zpos (Qden x)).

(** [round(x)] on a float: nearest integer, ties to the even one. *)
Definition py_round (x : Q) : Z :=
  let f := Qfloor x in
  match Qcompare (x - inject_Z f) (1 # 2) with
  | Lt => f
  | Gt => f + 1
  | Eq => if Z.even f then f else f + 1
  end.

(** [float(n)] for an integer. *)
Definition py_float (n : Z) : Q := inject_Z n.

(** [min(a, b)] and [max(a, b)] on two floats: the second argument is
    returned only when it is strictly smaller (larger). *)
Definition py_min (a b : Q) : Q :=
  match Qcompare b a with Lt => b | _ => a end.

Definition py_max (a b : Q) : Q :=
  match Qcompare b a with Gt => b | _ => a end.

End PyNum.
Import PyNum.

(** ** Coordinate scaler: [StatsCardRenderer.__init__] and [_s] *)

Module Scaler.

Definition BASE_CARD_WIDTH : Z := 800.
Definition BASE_CARD_HEIGHT : Z := 400.
Definition BASE_PADDING : Z := 30.
Definition BASE_CORNER_RADIUS : Z := 20.
Definition BASE_POKEMON_SPRITE_SIZE : Z := 55.
Definition BASE_POKEMON_SPACING : Z := 5.
Definition BASE_STATS_START_X : Z := 320.
Definition BASE_LANGUAGE_BAR_WIDTH : Z := 11.
Definition BASE_LANGUAGE_BAR_HEIGHT : Z := 201.

(** The [scale] argument as the constructor receives it: a value that
    [float()] converts to a finite float, or one on which it raises
    [TypeError] or [ValueError] (such as [None] or a non-numeric
    string).  [Scaler64.scale_arg] has [nan], the infinities and the
    overflow of [float()] as well. *)
Inductive scale_arg : Type :=
| ScaleNum (q : Q)
| ScaleNotNumeric.

(** The [try]/[except] and the clamp at the top of [__init__]. *)
Definition coerce_scale (a : scale_arg) : Q :=
  let scale := match a with
               | ScaleNum q => q
               | ScaleNotNumeric => 2 # 1
               end in
  if Qle_bool scale (0 # 1) then 2 # 1 else scale.

(** [_s]: [int(round(float(value) * self.scale))], the product being the
    exact one; [Scaler64._s] takes it in binary64. *)
Definition _s (scale : Q) (value : Z) : Z :=
  py_round (py_float value * scale).

Record dims : Type := mk_dims {
  scale : Q;
  CARD_WIDTH : Z;
  CARD_HEIGHT : Z;
  PADDING : Z;
  CORNER_RADIUS : Z;
  POKEMON_SPRITE_SIZE : Z;
  POKEMON_SPACING : Z;
  STATS_START_X : Z;
  LANGUAGE_BAR_WIDTH : Z;
  LANGUAGE_BAR_HEIGHT : Z
}.

(** The scaled dimensions computed by [__init__]. *)
Definition init (a : scale_arg) : dims :=
  let sc := coerce_scale a in
  {| scale := sc;
     CARD_WIDTH := _s sc BASE_CARD_WIDTH;
     CARD_HEIGHT := _s sc BASE_CARD_HEIGHT;
     PADDING := _s sc BASE_PADDING;
     CORNER_RADIUS := _s sc BASE_CORNER_RADIUS;
     POKEMON_SPRITE_SIZE := _s sc BASE_POKEMON_SPRITE_SIZE;
     POKEMON_SPACING := _s sc BASE_POKEMON_SPACING;
     STATS_START_X := _s sc BASE_STATS_START_X;
     LANGUAGE_BAR_WIDTH := _s sc BASE_LANGUAGE_BAR_WIDTH;
     LANGUAGE_BAR_HEIGHT := _s sc BASE_LANGUAGE_BAR_HEIGHT |}.

End Scaler.

(** ** Strings *)

Definition str : Type := list ascii.

Definition lit (s : string) : str := list_ascii_of_string s.

Module PyStr.

Definition code (c : ascii) : N := N_of_ascii c.

(** [str.isspace] on one ASCII character: tab to carriage return, the
    four separators 28 to 31, and the blank. *)
Definition is_space (c : ascii) : bool :=
  let n := code c in
  ((9 <=? n) && (n <=? 13) || (28 <=? n) && (n <=? 32))%N.

(** [str.lower] and, on ASCII text, [str.casefold]. *)
Definition lower_char (c : ascii) : ascii :=
  let n := code c in
  if ((65 <=? n) && (n <=? 90))%N then ascii_of_N (n + 32) else c.

Definition lower (s : str) : str := map lower_char s.

Definition casefold (s : str) : str := lower s.

Fixpoint lstrip (s : str) : str :=
  match s with
  | [] => []
  | c :: r => if is_space c then lstrip r else s
  end.

Definition rstrip (s : str) : str := rev (lstrip (rev s)).

(** [s.strip()]. *)
Definition strip (s : str) : str := rstrip (lstrip s).

(** [s.lstrip(ch)] for a single character [ch]. *)
Fixpoint lstrip_char (ch : ascii) (s : str) : str :=
  match s with
  | [] => []
  | c :: r => if bool_decide (c = ch) then lstrip_char ch r else s
  end.

(** [s.split()]: the maximal runs of non-blank characters; [acc] is the
    run being read. *)
Fixpoint split_from (acc : str) (s : str) : list str :=
  match s with
  | [] => match acc with [] => [] | _ => [acc] end
  | c :: r =>
      if is_space c
      then match acc with
           | [] => split_from [] r
           | _ => acc :: split_from [] r
           end
      else split_from (acc ++ [c]) r
  end.

Definition split (s : str) : list str := split_from [] s.

(** [sep.join(ws)]. *)
Fixpoint join (sep : str) (ws : list str) : str :=
  match ws with
  | [] => []
  | [w] => w
  | w :: rest => w ++ sep ++ join sep rest
  end.

(** The slice [l[i:j]] for [0 <= i], [0 <= j]. *)
Definition slice {A} (l : list A) (i j : nat) : list A :=
  take (j - i) (drop i l).

Definition hex_digit (c : ascii) : option Z :=
  let n := code c in
  if ((48 <=? n) && (n <=? 57))%N then Some (Z.of_N n - 48)
  else if ((97 <=? n) && (n <=? 102))%N then Some (Z.of_N n - 87)
  else if ((65 <=? n) && (n <=? 70))%N then Some (Z.of_N n - 55)
  else None.

(** The blanks that [int] drops around a literal: tab to carriage
    return and the blank, not the separators 28 to 31. *)
Definition is_int_space (c : ascii) : bool :=
  let n := code c in
  ((9 <=? n) && (n <=? 13) || (n =? 32))%N.

Fixpoint lstrip_int (s : str) : str :=
  match s with
  | [] => []
  | c :: r => if is_int_space c then lstrip_int r else s
  end.

Definition strip_int (s : str) : str :=
  rev (lstrip_int (rev (lstrip_int s))).

(** [int(s, 16)] for a slice [s] of at most two characters: blanks
    around are dropped, then one digit, two digits, or a sign and a
    digit are read; anything else raises [ValueError]. *)
Definition int16 (s : str) : option Z :=
  match strip_int s with
  | [d] => hex_digit d
  | [a; b] =>
      if bool_decide (a = "+"%char) then hex_digit b
      else if bool_decide (a = "-"%char) then Z.opp <$> hex_digit b
      else d1 ← hex_digit a; d2 ← hex_digit b; Some (16 * d1 + d2)
  | _ => None
  end.

End PyStr.
Import PyStr.

(** ** Colours *)

Definition rgba : Type := Z * Z * Z * Z.

(** [hex_to_rgb]. *)
Definition hex_to_rgb (hex_color : str) : option (Z * Z * Z) :=
  let hex_color := lstrip_char "#"%char hex_color in
  r ← int16 (slice hex_color 0 2);
  g ← int16 (slice hex_color 2 4);
  b ← int16 (slice hex_color 4 6);
  Some (r, g, b).

(** [hex_to_rgba] with its default [alpha=255] made explicit by callers. *)
Definition hex_to_rgba (hex_color : str) (alpha : Z) : option rgba :=
  '(r, g, b) ← hex_to_rgb hex_color;
  Some (r, g, b, alpha).

Definition FALLBACK_LANGUAGE_COLORS : list str :=
  [ lit "#e06c75"; lit "#98c379"; lit "#e5c07b"; lit "#61afef"; lit "#c678dd";
    lit "#56b6c2"; lit "#be5046"; lit "#d19a66"; lit "#abb2bf"; lit "#5c6370" ].

(** The module [language_colors] is imported by the renderer and is not
    part of the sources at hand: its table is a parameter, a dictionary in
    insertion order. *)
Class LanguageTable : Type := {
  GITHUB_LANGUAGE_COLORS : list (str * str)
}.

(** [key in d] and [d[key]] together. *)
Definition dict_get (d : list (str * str)) (key : str) : option str :=
  snd <$> find (fun kv => bool_decide (kv.1 = key)) d.

(** [get_language_color]. *)
Definition get_language_color `{LanguageTable}
    (language : str) (fallback_index : Z) : option str :=
  match dict_get GITHUB_LANGUAGE_COLORS language with
  | Some color => Some color
  | None =>
      let language_lower := lower language in
      match find (fun kv => bool_decide (lower kv.1 = language_lower))
                 GITHUB_LANGUAGE_COLORS with
      | Some (_, color) => Some color
      | None =>
          FALLBACK_LANGUAGE_COLORS
            !! Z.to_nat (fallback_index
                         `mod` Z.of_nat (length FALLBACK_LANGUAGE_COLORS))
      end
  end.

(** The colour both the bar and the legend give the entry at position
    [i]: [hex_to_rgba(get_language_color(lang, i))]. *)
Definition entry_color `{LanguageTable} (lang : str) (i : nat) : option rgba :=
  c ← get_language_color lang (Z.of_nat i);
  hex_to_rgba c 255.

(** [_blend_colors], the products being the exact ones. *)
Definition _blend_colors (color1 color2 : rgba) (factor : Q) : rgba :=
  let factor := py_max (0 # 1) (py_min (1 # 1) factor) in
  let '(r1, g1, b1, a1) := color1 in
  let '(r2, g2, b2, a2) := color2 in
  ( py_int (py_float r1 + py_float (r2 - r1) * factor),
    py_int (py_float g1 + py_float (g2 - g1) * factor),
    py_int (py_float b1 + py_float (b2 - b1) * factor),
    py_int (py_float a1 + py_float (a2 - a1) * factor) ).


(** ** External capabilities *)

(** Pillow's font loading and text measurement, as the renderer uses them:
    [_load_font(size)] and [draw.textbbox((0, 0), text, font=font)], the
    latter giving [(left, top, right, bottom)]. *)
Class Pillow : Type := {
  font : Type;
  load_font : Z -> font;
  textbbox : font -> str -> Z * Z * Z * Z
}.

(** [str(x)] for a float [x], as the f-string of the legend needs it. *)
Class FloatFormat : Type := {
  float_str : Q -> str
}.

(** The renderer instance after [__init__]: the coerced scale and the
    theme colours the language panel reads. *)
Record renderer : Type := mk_renderer {
  r_scale : Q;
  secondary_color : rgba;
  text_color : rgba;
  language_bar_border_color : rgba
}.

(** [self._s(value)]. *)
Definition self_s (self : renderer) (value : Z) : Z :=
  Scaler._s (r_scale self) value.

Definition body_font `{Pillow} (self : renderer) : font := load_font (self_s self 16).
Definition small_font `{Pillow} (self : renderer) : font := load_font (self_s self 14).

(** Width and height of a bounding box: [bbox[2] - bbox[0]] and
    [bbox[3] - bbox[1]]. *)
Definition bbox_width (bbox : Z * Z * Z * Z) : Z :=
  let '(l, _, r, _) := bbox in r - l.

Definition bbox_height (bbox : Z * Z * Z * Z) : Z :=
  let '(_, t, _, b) := bbox in b - t.

(** ** Drawing calls *)

(** One call on the off-screen bar surface ([bar_draw]). *)
Inductive surface_op : Type :=
| Line (p1 p2 : Z * Z) (fill : rgba)
| Rectangle (box : Z * Z * Z * Z) (fill : rgba).

(** One call on the card.  [PasteMasked] is the off-screen bar surface
    with the calls made on it, clipped by a rounded mask of the given
    radius and pasted at a position. *)
Inductive draw_op `{Pillow} : Type :=
| RoundedRectangle (box : Z * Z * Z * Z) (radius : Z)
                   (fill outline : option rgba) (width : Z)
| Text (xy : Z * Z) (text : str) (fnt : font) (fill : rgba)
| Ellipse (box : Z * Z * Z * Z) (fill : rgba)
| PasteMasked (surface : list surface_op) (size : Z * Z) (mask_radius : Z)
              (xy : Z * Z).

(** ** Language bar: segments *)

Definition segment : Type := Z * Z * rgba.

Definition seg_start (s : segment) : Z := s.1.1.
Definition seg_end (s : segment) : Z := s.1.2.
Definition seg_color (s : segment) : rgba := s.2.

(** [enumerate(l)]. *)
Definition enumerate {A} (l : list A) : list (nat * A) :=
  zip (seq 0 (length l)) l.

(** [sum(pct for _, pct in visible_languages)]. *)
Definition sum_pct (visible_languages : list (str * Q)) : Q :=
  fold_left Qplus (map snd visible_languages) (0 # 1).

(** The height the loop body computes for entry [i] before the
    [segment_height < 1] test.  In proportional mode the quotient and the
    product are the exact ones here; [Bar64.segment_height] takes them in
    binary64. *)
Definition segment_height (h : Z) (scale_bars : bool) (num_languages : nat)
    (total_pct : Q) (current_y : Z) (i : nat) (percentage : Q) : Z :=
  if scale_bars then
    py_int ((percentage / total_pct) * py_float h)
  else
    let segment_height := h `div` Z.of_nat num_languages in
    if bool_decide (i = (num_languages - 1)%nat) then h - current_y
    else segment_height.

(** The loop over [enumerate(visible_languages)] that fills [segments]. *)
Fixpoint segments_loop `{LanguageTable} (h : Z) (scale_bars : bool)
    (num_languages : nat) (total_pct : Q)
    (items : list (nat * (str * Q))) (current_y : Z)
    (segments : list segment) : option (list segment) :=
  match items with
  | [] => Some segments
  | (i, (lang, percentage)) :: rest =>
      let sh := segment_height h scale_bars num_languages total_pct
                               current_y i percentage in
      if sh <? 1 then
        segments_loop h scale_bars num_languages total_pct rest
                      current_y segments
      else
        color ← entry_color lang i;
        segments_loop h scale_bars num_languages total_pct rest
                      (current_y + sh)
                      (segments ++ [(current_y, current_y + sh, color)])
  end.

Definition compute_segments `{LanguageTable} (h : Z) (scale_bars : bool)
    (visible_languages : list (str * Q)) (total_pct : Q)
    : option (list segment) :=
  segments_loop h scale_bars (length visible_languages) total_pct
                (enumerate visible_languages) 0 [].

(** ** Language bar: gradient rows *)

(** True division of two integers; [ZeroDivisionError] is [None]. *)
Definition py_truediv (a b : Z) : option Q :=
  if b =? 0 then None else Some (py_float a / py_float b)%Q.

(** The second test inside a segment (the transition TO the next one) and
    the solid colour after it.  [segments !! S seg_idx] is defined exactly
    when [seg_idx < len(segments) - 1]. *)
Definition to_next_or_solid (segments : list segment) (gradient_size : Z)
    (row_y : Z) (seg_idx : nat) (color : rgba) : option rgba :=
  match segments !! S seg_idx with
  | Some (next_seg_start, _, next_color) =>
      let dist_to_next := next_seg_start - row_y in
      if dist_to_next <=? gradient_size then
        q ← py_truediv dist_to_next gradient_size;
        Some (_blend_colors color next_color ((1 # 1) - q)%Q)
      else Some color
  | None => Some color
  end.

(** The body run for the segment that contains the row: the transition
    FROM the previous segment is tested first. *)
Definition color_in_segment (segments : list segment) (gradient_size : Z)
    (row_y : Z) (seg_idx : nat) (seg : segment) : option rgba :=
  let '(start, _, color) := seg in
  match seg_idx with
  | S k =>
      match segments !! k with
      | Some (_, _, prev_color) =>
          let dist_from_prev := row_y - start in
          if dist_from_prev <? gradient_size then
            blend_factor ← py_truediv dist_from_prev gradient_size;
            Some (_blend_colors prev_color color blend_factor)
          else to_next_or_solid segments gradient_size row_y seg_idx color
      | None => None
      end
  | O => to_next_or_solid segments gradient_size row_y seg_idx color
  end.

(** The scan [for seg_idx, seg in enumerate(segments)] for one row, with
    the fallback taken when no segment contains the row. *)
Fixpoint row_scan (self : renderer) (segments : list segment)
    (gradient_size : Z) (row_y : Z) (seg_idx : nat) (rest : list segment)
    : option rgba :=
  match rest with
  | [] => Some (match last segments with
                | Some s => seg_color s
                | None => secondary_color self
                end)
  | seg :: rest' =>
      if (seg_start seg <=? row_y) && (row_y <? seg_end seg) then
        color_in_segment segments gradient_size row_y seg_idx seg
      else row_scan self segments gradient_size row_y (S seg_idx) rest'
  end.

Definition row_color (self : renderer) (segments : list segment)
    (gradient_size : Z) (row_y : Z) : option rgba :=
  row_scan self segments gradient_size row_y 0 segments.

(** The rows drawn on the off-screen surface in gradient mode. *)
Definition gradient_rows (self : renderer) (w h : Z)
    (segments : list segment) : option (list surface_op) :=
  let gradient_size := self_s self 8 in
  mapM (fun row_y =>
          c ← row_color self segments gradient_size row_y;
          Some (Line (0, row_y) (w, row_y) c))
       (seqZ 0 h).

(** The rectangles drawn in block mode. *)
Definition block_fill (w : Z) (segments : list segment)
    : list surface_op :=
  map (fun s => Rectangle (0, seg_start s, w, seg_end s) (seg_color s))
      segments.

(** ** Language bar, legend and the language part of the stats section *)

(** [_draw_vertical_language_bar]: the calls made on the card, in order,
    or [None] when an exception leaves the function.  The percentages are
    exact rationals here and [Image.new] accepts every size;
    [Bar64._draw_vertical_language_bar] computes in binary64 and has
    [Image.new] refuse a negative size. *)
Definition _draw_vertical_language_bar `{LanguageTable} `{Pillow}
    (self : renderer) (x y w h : Z) (languages : list (str * Q))
    (scale_bars use_gradient show_border : bool) : option (list draw_op) :=
  let radius := Z.max 1 (w `div` 2) in
  let background :=
    RoundedRectangle (x, y, x + w, y + h) radius
                     (Some (secondary_color self)) None 1 in
  let visible_languages := take 5 languages in
  match visible_languages with
  | [] => Some [background]
  | _ =>
      let total_pct := sum_pct visible_languages in
      if Qeq_bool total_pct (0 # 1) then Some [background]
      else
        segments ← compute_segments h scale_bars visible_languages total_pct;
        match segments with
        | [] => Some [background]
        | _ =>
            fill ← (if use_gradient then gradient_rows self w h segments
                    else Some (block_fill w segments));
            let border :=
              if show_border then
                [RoundedRectangle (x, y, x + w, y + h) radius None
                   (Some (language_bar_border_color self))
                   (Z.max 1 (self_s self 1))]
              else [] in
            Some ([background; PasteMasked fill (w, h) radius (x, y)]
                  ++ border)
        end
  end.

(** The loop of [_draw_vertical_language_legend]. *)
Fixpoint legend_loop `{LanguageTable} `{Pillow} `{FloatFormat}
    (self : renderer) (x : Z) (items : list (nat * (str * Q)))
    (current_y : Z) : option (list draw_op) :=
  match items with
  | [] => Some []
  | (i, (lang, percentage)) :: rest =>
      color ← entry_color lang i;
      let lang_bbox := textbbox (body_font self) lang in
      let lang_text_height := bbox_height lang_bbox in
      let pct_text := float_str percentage ++ lit "%" in
      let pct_bbox := textbbox (small_font self) pct_text in
      let pct_text_height := bbox_height pct_bbox in
      let text_height := Z.max lang_text_height pct_text_height in
      let dot_size := self_s self 10 in
      let row_center_y := current_y + text_height `div` 2 in
      let dot_y := row_center_y - dot_size `div` 2 in
      let text_x := x + self_s self 20 in
      let lang_y := row_center_y - lang_text_height `div` 2 in
      let lang_width := bbox_width lang_bbox in
      let pct_y := row_center_y - pct_text_height `div` 2 in
      more ← legend_loop self x rest (current_y + self_s self 36);
      Some ([ Ellipse (x, dot_y, x + dot_size, dot_y + dot_size) color;
              Text (text_x, lang_y) lang (body_font self) (text_color self);
              Text (text_x + lang_width + self_s self 8, pct_y) pct_text
                   (small_font self) (secondary_color self) ] ++ more)
  end.

(** [_draw_vertical_language_legend]. *)
Definition _draw_vertical_language_legend `{LanguageTable} `{Pillow}
    `{FloatFormat} (self : renderer) (x y bar_height : Z)
    (languages : list (str * Q)) : option (list draw_op) :=
  legend_loop self x (enumerate (take 5 languages)) y.

(** [_normalize_language_name]. *)
Definition _normalize_language_name (name : str) : str :=
  casefold (strip name).

(** [_filter_languages]; the set of excluded names is kept as a list. *)
Definition _filter_languages (languages : list (str * Q))
    (excluded : list str) : list (str * Q) :=
  let excluded_set :=
    map _normalize_language_name
        (filter (fun x => x <> []) excluded) in
  match excluded_set with
  | [] => languages
  | _ => filter (fun lp => _normalize_language_name lp.1 ∉ excluded_set)
                languages
  end.

(** The keys of the [stats] dictionary the language panel reads; a missing
    key is [None]. *)
Record stats : Type := mk_stats {
  st_languages : option (list (str * Q));
  st_excluded_languages : option (list str);
  st_scale_language_bars : option bool;
  st_language_gradient : option bool;
  st_language_bar_border : option bool
}.

(** The languages a call of [_draw_stats_section] works with, after the
    exclusion filter. *)
Definition section_languages (st : stats) : list (str * Q) :=
  let languages := default [] (st_languages st) in
  let excluded_languages := default [] (st_excluded_languages st) in
  match excluded_languages with
  | [] => languages
  | _ => _filter_languages languages excluded_languages
  end.

(** The language part of [_draw_stats_section] (from the bar geometry to
    the end of the function): section label, bar and legend. *)
Definition _draw_stats_section_languages `{LanguageTable} `{Pillow}
    `{FloatFormat} (self : renderer) (st : stats) (languages_label : str)
    : option (list draw_op) :=
  let label_y := self_s self 140 in
  let bar_x := self_s self 558 in
  let bar_y := self_s self 180 in
  let bar_w := self_s self 11 in
  let bar_h := self_s self 164 in
  let languages := section_languages st in
  match languages with
  | [] => Some []
  | _ =>
      let label := Text (bar_x + self_s self 30, label_y) languages_label
                        (body_font self) (secondary_color self) in
      let scale_bars := default true (st_scale_language_bars st) in
      let use_gradient := default true (st_language_gradient st) in
      let show_border := default false (st_language_bar_border st) in
      bar ← _draw_vertical_language_bar self bar_x bar_y bar_w bar_h
              languages scale_bars use_gradient show_border;
      legend ← _draw_vertical_language_legend self (bar_x + self_s self 30)
                 bar_y bar_h languages;
      Some ([label] ++ bar ++ legend)
  end.

(** ** Text layout: greedy wrap *)

Definition SPACE : str := [" "%char].

Definition text_width `{Pillow} (fnt : font) (s : str) : Z :=
  bbox_width (textbbox fnt s).

Definition text_height `{Pillow} (fnt : font) (s : str) : Z :=
  bbox_height (textbbox fnt s).

(** The body of [for w in words] in [_wrap_text_to_width], on the pair
    [(lines, current)]. *)
Definition greedy_step `{Pillow} (fnt : font) (max_width : Z)
    (st : list str * str) (w : str) : list str * str :=
  let '(lines, current) := st in
  let candidate := strip (current ++ SPACE ++ w) in
  if text_width fnt candidate <=? max_width then (lines, candidate)
  else match current with
       | [] => (lines ++ [w], [])
       | _ => (lines ++ [current], w)
       end.

(** [_wrap_text_to_width]. *)
Definition _wrap_text_to_width `{Pillow} (fnt : font) (text : str)
    (max_width : Z) : list str :=
  let text := strip text in
  match text with
  | [] => []
  | _ =>
      let words := split text in
      let '(lines, current) :=
        fold_left (greedy_step fnt max_width) words ([], []) in
      match current with
      | [] => lines
      | _ => lines ++ [current]
      end
  end.

(** ** Text layout: balanced wrap *)

Definition inf : Z := 10 ^ 18.

Section Balanced.
Context `{Pillow} (fnt : font) (words : list str) (max_width : Z).

(** [line_width(i, j)]; the cache of the source only memoises it. *)
Definition line_width (i j : nat) : Z :=
  text_width fnt (join SPACE (slice words i j)).

(** [for j in range(i + 1, n + 1)] with its [break]; the indices stay
    within [cost] and [breaks] by the loop bounds. *)
Fixpoint inner_loop (i : nat) (js : list nat) (cost : list Z)
    (breaks : list nat) : list Z * list nat :=
  match js with
  | [] => (cost, breaks)
  | j :: js' =>
      let width := line_width i j in
      if width >? max_width then (cost, breaks)
      else
        let remaining := max_width - width in
        let penalty := remaining * remaining in
        let total := penalty + cost !!! j in
        if total <? cost !!! i
        then inner_loop i js' (<[i := total]> cost) (<[i := j]> breaks)
        else inner_loop i js' cost breaks
  end.

(** The two nested loops, from the initial arrays. *)
Definition dp_table : list Z * list nat :=
  let n := length words in
  fold_left
    (fun cb i => inner_loop i (seq (S i) (n - i)) cb.1 cb.2)
    (rev (seq 0 n))
    (<[n := 0]> (replicate (S n) inf), replicate n n).

(** [while idx < n], run for at most [fuel] iterations. *)
Fixpoint collect_lines (fuel : nat) (breaks : list nat) (idx : nat)
    (lines : list str) : list str :=
  match fuel with
  | O => lines
  | S fuel' =>
      if bool_decide (idx < length words)%nat then
        let nxt := breaks !!! idx in
        if bool_decide (nxt <= idx)%nat then lines
        else collect_lines fuel' breaks nxt
               (lines ++ [join SPACE (slice words idx nxt)])
      else lines
  end.

End Balanced.

(** [_wrap_text_balanced].  The [while] loop advances [idx] at every
    iteration, so [len(words)] iterations are all it can make. *)
Definition _wrap_text_balanced `{Pillow} (fnt : font) (text : str)
    (max_width : Z) : list str :=
  let text := strip text in
  match text with
  | [] => []
  | _ =>
      let words := split text in
      match words with
      | [] => []
      | _ =>
          if existsb (fun word => text_width fnt word >? max_width) words
          then _wrap_text_to_width fnt text max_width
          else
            let n := length words in
            let '(cost, breaks) := dp_table fnt words max_width in
            if inf <=? cost !!! 0%nat
            then _wrap_text_to_width fnt text max_width
            else
              match collect_lines words n breaks 0 [] with
              | [] => _wrap_text_to_width fnt text max_width
              | lines => lines
              end
      end
  end.

(** ** Text layout: auto-fit *)

(** The loop of [_calculate_blurb_height] over [enumerate(blurb_lines)]. *)
Fixpoint blurb_loop `{Pillow} (fnt : font) (max_w line_gap para_gap : Z)
    (len : nat) (items : list (nat * str)) (total_height : Z) : Z :=
  match items with
  | [] => total_height
  | (idx, para) :: rest =>
      let wrapped := _wrap_text_balanced fnt para max_w in
      let total_height :=
        fold_left (fun t line => t + (text_height fnt line + line_gap))
                  wrapped total_height in
      let total_height :=
        match wrapped with
        | [] => total_height
        | _ => total_height - line_gap
        end in
      let total_height :=
        if bool_decide (idx < len - 1)%nat then total_height + para_gap
        else total_height in
      blurb_loop fnt max_w line_gap para_gap len rest total_height
  end.

(** [_calculate_blurb_height]. *)
Definition _calculate_blurb_height `{Pillow} (fnt : font)
    (blurb_lines : list str) (max_w line_gap para_gap : Z) : Z :=
  blurb_loop fnt max_w line_gap para_gap (length blurb_lines)
             (enumerate blurb_lines) 0.

(** [range(max_size, min_size - 1, -1)] for [min_size = 10] and
    [max_size = 24]. *)
Definition candidate_sizes : list Z := rev (seqZ 10 15).

(** The height the search measures at one base size. *)
Definition height_at `{Pillow} (self : renderer) (blurb_lines : list str)
    (max_w : Z) (base_size : Z) : Z :=
  let fnt := load_font (self_s self base_size) in
  let line_gap := self_s self 4 in
  let para_gap := self_s self 8 in
  _calculate_blurb_height fnt blurb_lines max_w line_gap para_gap.

(** The loop of [_find_optimal_blurb_font_size]. *)
Fixpoint size_scan `{Pillow} (self : renderer) (blurb_lines : list str)
    (max_w max_h : Z) (sizes : list Z) (best_font : font) : font :=
  match sizes with
  | [] => best_font
  | base_size :: rest =>
      let fnt := load_font (self_s self base_size) in
      let total_height := height_at self blurb_lines max_w base_size in
      if total_height <=? max_h then fnt
      else size_scan self blurb_lines max_w max_h rest best_font
  end.

(** [_find_optimal_blurb_font_size]. *)
Definition _find_optimal_blurb_font_size `{Pillow} (self : renderer)
    (blurb_lines : list str) (max_w max_h : Z) : font :=
  let best_font := load_font (self_s self 10) in
  size_scan self blurb_lines max_w max_h candidate_sizes best_font.

(** ** Comparison definitions for the colour rule *)

(** A colour string of the form [#rrggbb]. *)
Definition is_hex_color (c : str) : bool :=
  match c with
  | ch :: digits =>
      bool_decide (ch = "#"%char) && bool_decide (length digits = 6%nat)
      && forallb (fun d => bool_decide (is_Some (hex_digit d))) digits
  | [] => false
  end.

(** Whether [get_language_color] reaches its last line for a name. *)
Definition needs_fallback `{LanguageTable} (language : str) : bool :=
  match dict_get GITHUB_LANGUAGE_COLORS language with
  | Some _ => false
  | None =>
      match find (fun kv => bool_decide (lower kv.1 = lower language))
                 GITHUB_LANGUAGE_COLORS with
      | Some _ => false
      | None => true
      end
  end.

(** The colour rule in the words of the specification: an entry that needs
    the fallback palette takes the colour indexed by its rank among the
    entries that needed it; [rank] counts those seen so far. *)
Fixpoint spec_colors_from `{LanguageTable} (rank : nat)
    (visible_languages : list (str * Q)) : list (option str) :=
  match visible_languages with
  | [] => []
  | (lang, _) :: rest =>
      if needs_fallback lang
      then FALLBACK_LANGUAGE_COLORS !! (rank mod 10)%nat
           :: spec_colors_from (S rank) rest
      else get_language_color lang 0 :: spec_colors_from rank rest
  end.

Definition spec_colors `{LanguageTable}
    (visible_languages : list (str * Q)) : list (option str) :=
  spec_colors_from 0 visible_languages.

(** The colours the renderer asks for, entry by entry. *)
Definition code_colors `{LanguageTable}
    (visible_languages : list (str * Q)) : list (option str) :=
  map (fun item => get_language_color item.2.1 (Z.of_nat item.1))
      (enumerate visible_languages).

(** ** Measures on segments *)

Definition seg_height (s : segment) : Z := seg_end s - seg_start s.

(** The heights of a list of segments, summed. *)
Definition total_height (segments : list segment) : Z :=
  foldr (fun s acc => seg_height s + acc) 0 segments.

(** ** Comparison definitions for the gradient rows *)

(** The row colour with the two transition tests in the other order (the
    transition TO the next segment first), to compare with
    [color_in_segment]. *)
Definition color_in_segment_next_first (segments : list segment)
    (gradient_size : Z) (row_y : Z) (seg_idx : nat) (seg : segment)
    : option rgba :=
  let '(start, _, color) := seg in
  let from_prev_or_solid :=
    match seg_idx with
    | S k =>
        match segments !! k with
        | Some (_, _, prev_color) =>
            let dist_from_prev := row_y - start in
            if dist_from_prev <? gradient_size then
              blend_factor ← py_truediv dist_from_prev gradient_size;
              Some (_blend_colors prev_color color blend_factor)
            else Some color
        | None => None
        end
    | O => Some color
    end in
  match segments !! S seg_idx with
  | Some (next_seg_start, _, next_color) =>
      let dist_to_next := next_seg_start - row_y in
      if dist_to_next <=? gradient_size then
        q ← py_truediv dist_to_next gradient_size;
        Some (_blend_colors color next_color ((1 # 1) - q)%Q)
      else from_prev_or_solid
  | None => from_prev_or_solid
  end.

Fixpoint row_scan_next_first (self : renderer) (segments : list segment)
    (gradient_size : Z) (row_y : Z) (seg_idx : nat) (rest : list segment)
    : option rgba :=
  match rest with
  | [] => Some (match last segments with
                | Some s => seg_color s
                | None => secondary_color self
                end)
  | seg :: rest' =>
      if (seg_start seg <=? row_y) && (row_y <? seg_end seg) then
        color_in_segment_next_first segments gradient_size row_y seg_idx seg
      else row_scan_next_first self segments gradient_size row_y
                               (S seg_idx) rest'
  end.

Definition row_color_next_first (self : renderer) (segments : list segment)
    (gradient_size : Z) (row_y : Z) : option rgba :=
  row_scan_next_first self segments gradient_size row_y 0 segments.

(** The test [seg_start <= row_y < seg_end] of the scan. *)
Definition row_in_segment (row_y : Z) (s : segment) : Prop :=
  seg_start s <= row_y < seg_end s.

(** Three segments whose middle one is narrower than two bands of 8. *)
Definition narrow_middle : list segment :=
  [ (0, 10, (0, 0, 0, 255));
    (10, 14, (80, 80, 80, 255));
    (14, 30, (160, 160, 160, 255)) ].

(** ** Comparison definitions for the wrappers *)

Definition not_space (c : ascii) : Prop := is_space c = false.

(** A word as [split] makes them: not empty, no blank inside. *)
Definition good_word (w : str) : Prop := w <> [] /\ Forall not_space w.

(** A string that neither starts nor ends with a blank. *)
Definition trimmed (s : str) : Prop :=
  exists c d, head s = Some c /\ last s = Some d /\ not_space c /\ not_space d.

(** A line of the greedy wrapper, as the words it holds: it fits, or it is
    one word wider than the maximum. *)
Definition line_ok `{Pillow} (fnt : font) (max_width : Z) (g : list str)
    : Prop :=
  g <> [] /\
  (text_width fnt (join SPACE g) <= max_width \/
   exists w, g = [w] /\ max_width < text_width fnt w).

(** The penalty of one line, [remaining * remaining]. *)
Definition penalty `{Pillow} (fnt : font) (max_width : Z) (g : list str) : Z :=
  (max_width - text_width fnt (join SPACE g))
  * (max_width - text_width fnt (join SPACE g)).

(** The cost of a layout: the sum of the penalties of its lines. *)
Definition layout_cost `{Pillow} (fnt : font) (max_width : Z)
    (groups : list (list str)) : Z :=
  foldr (fun g acc => penalty fnt max_width g + acc) 0 groups.

(** A layout all of whose lines hold a word or more and fit. *)
Definition feasible `{Pillow} (fnt : font) (max_width : Z)
    (groups : list (list str)) : Prop :=
  Forall (fun g => g <> [] /\ text_width fnt (join SPACE g) <= max_width)
         groups.

(** The tie-break of the dynamic program, on layouts: from any line on, a
    feasible layout of the remaining words that starts with a shorter line
    costs strictly more. *)
Definition first_found `{Pillow} (fnt : font) (max_width : Z)
    (groups : list (list str)) : Prop :=
  forall pre g post,
    groups = pre ++ g :: post ->
    forall g' rest',
      feasible fnt max_width (g' :: rest') ->
      concat (g' :: rest') = concat (g :: post) ->
      (length g' < length g)%nat ->
      layout_cost fnt max_width (g :: post)
      < layout_cost fnt max_width (g' :: rest').

(** ** Invariants of the dynamic program *)

Section BalancedSpec.
Context `{Pillow} (fnt : font) (words : list str) (max_width : Z).

(** The penalty of the line made of the words [i] to [j - 1]. *)
Definition pen (i j : nat) : Z := penalty fnt max_width (slice words i j).

(** Entry [k] of the two arrays is final: [breaks[k]] ends a fitting
    line, [cost[k]] is the least cost over the fitting line ends, and
    [breaks[k]] is the first line end that reaches it. *)
Definition solved (cost : list Z) (breaks : list nat) (k : nat) : Prop :=
  let n := length words in
  let b := breaks !!! k in
  (k < b <= n)%nat /\
  line_width fnt words k b <= max_width /\
  cost !!! k = pen k b + cost !!! b /\
  0 <= cost !!! k <= Z.of_nat (n - k) * (max_width * max_width) /\
  (forall j, (k < j <= n)%nat -> line_width fnt words k j <= max_width ->
             cost !!! k <= pen k j + cost !!! j) /\
  (forall j, (k < j < b)%nat -> line_width fnt words k j <= max_width ->
             cost !!! k < pen k j + cost !!! j).

(** The outer loop before it runs for [i - 1]: the entries from [i] on are
    final and the earlier ones untouched. *)
Definition dp_inv (i : nat) (cost : list Z) (breaks : list nat) : Prop :=
  let n := length words in
  length cost = S n /\ length breaks = n /\ cost !!! n = 0 /\
  (forall k, (k < i)%nat -> cost !!! k = inf) /\
  (forall k, (i <= k < n)%nat -> solved cost breaks k).

(** The inner loop for [i] before it looks at the line end [m]. *)
Definition inner_inv (i m : nat) (cost : list Z) (breaks : list nat) : Prop :=
  let n := length words in
  length cost = S n /\ length breaks = n /\
  (forall j, (i < j < m)%nat -> line_width fnt words i j <= max_width) /\
  (forall j, (i < j < m)%nat -> cost !!! i <= pen i j + cost !!! j) /\
  (m = S i -> cost !!! i = inf) /\
  ((S i < m)%nat ->
   (i < breaks !!! i < m)%nat /\
   cost !!! i = pen i (breaks !!! i) + cost !!! (breaks !!! i) /\
   cost !!! i < inf /\
   forall j, (i < j < breaks !!! i)%nat -> cost !!! i < pen i j + cost !!! j).

(** The inner loop for [i] once it has ended, from the arrays [cost0] and
    [breaks0] it started with. *)
Definition inner_done (i : nat) (cost0 : list Z) (breaks0 : list nat)
    (cost : list Z) (breaks : list nat) : Prop :=
  let n := length words in
  let b := breaks !!! i in
  length cost = S n /\ length breaks = n /\
  (forall k, k <> i -> cost !!! k = cost0 !!! k /\ breaks !!! k = breaks0 !!! k) /\
  (i < b <= n)%nat /\
  line_width fnt words i b <= max_width /\
  cost !!! i = pen i b + cost !!! b /\
  cost !!! i < inf /\
  (forall j, (i < j <= n)%nat -> line_width fnt words i j <= max_width ->
             cost !!! i <= pen i j + cost !!! j) /\
  (forall j, (i < j < b)%nat -> line_width fnt words i j <= max_width ->
             cost !!! i < pen i j + cost !!! j).

End BalancedSpec.

(** ** Comparison definitions for the auto-fit *)

(** The height of one wrapped paragraph in the words of the
    specification: line height plus inter-line gap for every line, less
    one trailing gap when the paragraph has a line. *)
Definition paragraph_height `{Pillow} (fnt : font) (max_w line_gap : Z)
    (para : str) : Z :=
  let wrapped := _wrap_text_balanced fnt para max_w in
  foldr (fun line acc => (text_height fnt line + line_gap) + acc) 0 wrapped
  - match wrapped with [] => 0 | _ => line_gap end.

(** The height of the block: the paragraphs, and one inter-paragraph gap
    between consecutive paragraphs. *)
Definition block_height `{Pillow} (fnt : font) (blurb_lines : list str)
    (max_w line_gap para_gap : Z) : Z :=
  foldr (fun para acc => paragraph_height fnt max_w line_gap para + acc) 0
        blurb_lines
  + para_gap * Z.of_nat (length blurb_lines - 1).

(** ** Instances used to evaluate the embedding on concrete inputs *)

(** Modelled from the spec: a two-entry excerpt of the language-to-colour
    table of [language_colors], whose source is not at hand; the spec only
    says it is a fixed table from language names to colours. *)
Definition sample_table : LanguageTable :=
  {| GITHUB_LANGUAGE_COLORS :=
       [ (lit "Python", lit "#3572A5"); (lit "Go", lit "#00ADD8") ] |}.

(** A fixed-pitch font: a font is its pixel size, every character is as
    wide as the size and a line is twice as high. *)
Definition fixed_pitch : Pillow :=
  {| font := Z;
     load_font := fun size => size;
     textbbox := fun size s => (0, 0, size * Z.of_nat (length s), 2 * size) |}.

(** A float printer that prints nothing, for examples that do not look at
    the legend text. *)
Definition blank_format : FloatFormat := {| float_str := fun _ => [] |}.

Definition sample_renderer (sc : Q) : renderer :=
  {| r_scale := sc;
     secondary_color := (86, 95, 137, 255);
     text_color := (192, 202, 245, 255);
     language_bar_border_color := (255, 255, 255, 255) |}.

(** ** Further comparison definitions *)

(** Segments that follow one another from the row [from]: each starts
    where the one before it ends and is at least one pixel high. *)
Fixpoint chained (from : Z) (segments : list segment) : Prop :=
  match segments with
  | [] => True
  | s :: rest =>
      seg_start s = from /\ from + 1 <= seg_end s /\ chained (seg_end s) rest
  end.

Definition sumZ (l : list Z) : Z := foldr Z.add 0 l.

Definition sumQ (l : list Q) : Q := foldr Qplus (0 # 1) l.

(** The three calls the legend makes for one entry, with the row starting
    at [current_y]; the comparison form of one pass of its loop. *)
Definition legend_row `{Pillow} `{FloatFormat} (self : renderer) (x : Z)
    (current_y : Z) (lang : str) (percentage : Q) (color : rgba)
    : list draw_op :=
  let lang_bbox := textbbox (body_font self) lang in
  let pct_text := float_str percentage ++ lit "%" in
  let pct_bbox := textbbox (small_font self) pct_text in
  let text_height := Z.max (bbox_height lang_bbox) (bbox_height pct_bbox) in
  let row_center_y := current_y + text_height `div` 2 in
  let dot_y := row_center_y - self_s self 10 `div` 2 in
  [ Ellipse (x, dot_y, x + self_s self 10, dot_y + self_s self 10) color;
    Text (x + self_s self 20, row_center_y - bbox_height lang_bbox `div` 2)
         lang (body_font self) (text_color self);
    Text (x + self_s self 20 + bbox_width lang_bbox + self_s self 8,
          row_center_y - bbox_height pct_bbox `div` 2)
         pct_text (small_font self) (secondary_color self) ].

(** ** Rainbow text *)

(** The palette of [_draw_multicolor_text]. *)
Definition gradient_colors : list str :=
  [ lit "#ff6b6b"; lit "#ffa94d"; lit "#ffd43b"; lit "#69db7c"; lit "#4dabf7";
    lit "#9775fa"; lit "#f783ac" ].

(** The loop of [_draw_multicolor_text] over [enumerate(text)]: the calls
    made and the final [total_width]. *)
Fixpoint multicolor_loop `{Pillow} (y : Z) (fnt : font)
    (items : list (nat * ascii)) (current_x total_width : Z)
    : option (list draw_op * Z) :=
  match items with
  | [] => Some ([], total_width)
  | (i, char) :: rest =>
      let color_idx := (i mod length gradient_colors)%nat in
      hex ← gradient_colors !! color_idx;
      color ← hex_to_rgba hex 255;
      let bbox := textbbox fnt [char] in
      let char_width := bbox_width bbox in
      '(ops, total) ← multicolor_loop y fnt rest (current_x + char_width)
                                      (total_width + char_width);
      Some (Text (current_x, y) [char] fnt color :: ops, total)
  end.

(** [_draw_multicolor_text]: the calls made and the returned width. *)
Definition _draw_multicolor_text `{Pillow} (x y : Z) (text : str)
    (fnt : font) : option (list draw_op * Z) :=
  multicolor_loop y fnt (enumerate text) x 0.

(** Width of one character, and the colour of the palette at a position;
    comparison forms for the statements about the rainbow text. *)
Definition char_width `{Pillow} (fnt : font) (c : ascii) : Z :=
  bbox_width (textbbox fnt [c]).

Definition palette_color (j : nat) : option rgba :=
  hex ← gradient_colors !! (j mod 7)%nat; hex_to_rgba hex 255.

(** ** Team header *)

(** Pillow images as the header uses them: [im.size] and
    [im.resize(size, Image.Resampling.NEAREST)]. *)
Class PillowImage : Type := {
  image : Type;
  image_size : image -> Z * Z;
  resize : image -> Z * Z -> image
}.

(** [image.paste(sprite, xy, sprite)] on the card. *)
Inductive paste_op `{PillowImage} : Type :=
| Paste (im : image) (xy : Z * Z).

(** [[s for s in (sprites or [])[:6] if s is not None]]. *)
Definition team_of `{PillowImage} (sprites : list (option image))
    : list image :=
  omap id (take 6 sprites).

(** The values [spacing], [sprite_size] and [start_x] hold when the loop
    of [_draw_team_header] starts, for a team of [n] sprites. *)
Definition team_spacing (self : renderer) : Z :=
  Z.max (self_s self 4) (self_s self Scaler.BASE_POKEMON_SPACING).

Definition team_available_w (self : renderer) : Z :=
  self_s self 555 - 2 * self_s self 24.

Definition team_sprite_size (self : renderer) (n : Z) : Z :=
  let available_w := team_available_w self in
  let spacing := team_spacing self in
  let sprite_size := self_s self Scaler.BASE_POKEMON_SPRITE_SIZE in
  let total_needed := n * sprite_size + (n - 1) * spacing in
  if total_needed >? available_w then
    Z.max (self_s self 20)
          (py_int (py_float (available_w - (n - 1) * spacing)
                   / py_float (Z.max 1 n)))
  else sprite_size.

Definition team_start_x (self : renderer) (n : Z) : Z :=
  let start_x := self_s self 236 + self_s self 24 in
  let available_w := team_available_w self in
  let sprite_size := team_sprite_size self n in
  let total_needed := n * sprite_size + (n - 1) * team_spacing self in
  if total_needed <? available_w then
    start_x + (available_w - total_needed) `div` 2
  else start_x.

(** The sprite as pasted: resized unless it already has the size. *)
Definition fit_sprite `{PillowImage} (sprite : image) (sprite_size : Z)
    : image :=
  if bool_decide (image_size sprite <> (sprite_size, sprite_size))
  then resize sprite (sprite_size, sprite_size)
  else sprite.

(** The loop over [enumerate(team)], left by [break] at the first sprite
    that would pass the right edge of the padded box. *)
Fixpoint team_loop `{PillowImage} (start_x sprite_size spacing sprite_y
    right_edge : Z) (items : list (nat * image)) : list paste_op :=
  match items with
  | [] => []
  | (i, sprite) :: rest =>
      let x := start_x + Z.of_nat i * (sprite_size + spacing) in
      if x + sprite_size >? right_edge then []
      else Paste (fit_sprite sprite sprite_size) (x, sprite_y)
           :: team_loop start_x sprite_size spacing sprite_y right_edge rest
  end.

(** [_draw_team_header]: the sprites pasted, in order. *)
Definition _draw_team_header `{PillowImage} (self : renderer)
    (sprites : list (option image)) : list paste_op :=
  let container_x := self_s self 236 in
  let container_y := self_s self 24 in
  let container_w := self_s self 555 in
  let container_h := self_s self 84 in
  let pad_x := self_s self 24 in
  let available_w := container_w - 2 * pad_x in
  let team := team_of sprites in
  match team with
  | [] => []
  | _ =>
      if available_w <=? 0 then []
      else
        let n := Z.of_nat (length team) in
        let spacing := team_spacing self in
        let sprite_size := team_sprite_size self n in
        let sprite_y := container_y + (container_h - sprite_size) `div` 2 in
        let start_x := team_start_x self n in
        team_loop start_x sprite_size spacing sprite_y
                  (container_x + container_w - pad_x) (enumerate team)
  end.

(** Where a pasted image lies, for an image of the given side. *)
Definition paste_x `{PillowImage} (op : paste_op) : Z :=
  match op with Paste _ (x, _) => x end.

Definition paste_y `{PillowImage} (op : paste_op) : Z :=
  match op with Paste _ (_, y) => y end.

(** Images that are nothing but their size, for examples. *)
Definition sized_images : PillowImage :=
  {| image := Z * Z;
     image_size := fun im => im;
     resize := fun _ size => size |}.

(** ** Blurb section *)

(** The inner loop [for line in wrapped] of [_draw_blurb_section]: the
    calls made and the value of [y] after it. *)
Fixpoint blurb_lines_draw `{Pillow} (self : renderer) (fnt : font)
    (x line_gap : Z) (wrapped : list str) (y : Z) : list draw_op * Z :=
  match wrapped with
  | [] => ([], y)
  | line :: rest =>
      let line_h := text_height fnt line in
      let '(ops, y') :=
        blurb_lines_draw self fnt x line_gap rest (y + (line_h + line_gap)) in
      (Text (x, y) line fnt (text_color self) :: ops, y')
  end.

(** The outer loop over [enumerate(blurb_lines)]. *)
Fixpoint blurb_draw_loop `{Pillow} (self : renderer) (fnt : font)
    (x max_w line_gap para_gap : Z) (len : nat) (items : list (nat * str))
    (y : Z) : list draw_op * Z :=
  match items with
  | [] => ([], y)
  | (idx, para) :: rest =>
      let wrapped := _wrap_text_balanced fnt para max_w in
      let '(ops, y) := blurb_lines_draw self fnt x line_gap wrapped y in
      let y := match wrapped with
               | [] => y
               | _ => y - line_gap
               end in
      let y := if bool_decide (idx < len - 1)%nat then y + para_gap else y in
      let '(more, y) :=
        blurb_draw_loop self fnt x max_w line_gap para_gap len rest y in
      (ops ++ more, y)
  end.

(** [_draw_blurb_section]: the calls made on the card, in order. *)
Definition _draw_blurb_section `{Pillow} (self : renderer)
    (blurb_lines : list str) : list draw_op :=
  let container_x := self_s self 22 in
  let container_y := self_s self 209 in
  let container_w := self_s self 200 in
  let container_h := self_s self 169 in
  let pad := self_s self 20 in
  let x := container_x + pad in
  let y := container_y + pad in
  let max_w := container_w - 2 * pad in
  let max_h := container_h - 2 * pad in
  match blurb_lines with
  | [] => []
  | _ =>
      let fnt := _find_optimal_blurb_font_size self blurb_lines max_w max_h in
      let line_gap := self_s self 4 in
      let para_gap := self_s self 8 in
      (blurb_draw_loop self fnt x max_w line_gap para_gap
                       (length blurb_lines) (enumerate blurb_lines) y).1
  end.

(** A call that draws one line of text in the font [fnt] at the column
    [x], with its top at or below [lo] and its bottom at or above [hi]. *)
Definition line_within `{Pillow} (self : renderer) (fnt : font) (x lo hi : Z)
    (op : draw_op) : Prop :=
  exists line y,
    op = Text (x, y) line fnt (text_color self) /\
    lo <= y /\ y + text_height fnt line <= hi.

(** ** github_stats.py: language percentages *)

Module GitHubStats.

(** [_normalize_language_name]: [(name or "").strip().casefold()]. *)
Definition _normalize_language_name (name : str) : str :=
  casefold (strip name).

(** [round(x, 1)]: the nearest multiple of one tenth, ties to the even
    one. *)
Definition py_round1 (x : Q) : Q :=
  (inject_Z (py_round (x * (10 # 1))) / (10 # 1))%Q.

(** [sorted(items, key=lambda x: x[1], reverse=True)].  The sort is
    stable, so its result is the one of this insertion sort, which puts an
    item in front of the items after it that have the same count. *)
Fixpoint insert_by_bytes (x : str * Z) (l : list (str * Z))
    : list (str * Z) :=
  match l with
  | [] => [x]
  | y :: r => if x.2 <? y.2 then y :: insert_by_bytes x r else x :: y :: r
  end.

Definition sorted_by_bytes (l : list (str * Z)) : list (str * Z) :=
  foldr insert_by_bytes [] l.

(** The dictionary [language_bytes] after the exclusion step; the
    dictionary is the list of its items in insertion order. *)
Definition without_excluded (language_bytes : list (str * Z))
    (excluded_languages : option (list str)) : list (str * Z) :=
  match excluded_languages with
  | Some (x :: xs) =>
      let excluded :=
        map _normalize_language_name
            (filter (fun x => x <> []) (x :: xs)) in
      match excluded with
      | [] => language_bytes
      | _ => filter (fun lb => _normalize_language_name lb.1 ∉ excluded)
                    language_bytes
      end
  | _ => language_bytes
  end.

(** [get_language_percentages], from the dictionary that
    [get_language_breakdown] returns; [None] is [ZeroDivisionError].  The
    exact percentage is rounded to one decimal here;
    [GitHubStats64.get_language_percentages] rounds the binary64 one. *)
Definition get_language_percentages (language_bytes : list (str * Z))
    (top_n : nat) (excluded_languages : option (list str))
    : option (list (str * Q)) :=
  match language_bytes with
  | [] => Some []
  | _ =>
      let language_bytes :=
        without_excluded language_bytes excluded_languages in
      match language_bytes with
      | [] => Some []
      | _ =>
          let total_bytes := fold_left Z.add (map snd language_bytes) 0 in
          let sorted_languages := sorted_by_bytes language_bytes in
          let top_languages := take top_n sorted_languages in
          mapM (fun item : str * Z =>
                  let '(lang, bytes_count) := item in
                  q ← py_truediv bytes_count total_bytes;
                  let percentage := (q * (100 # 1))%Q in
                  Some (lang, py_round1 percentage))
               top_languages
      end
  end.

End GitHubStats.

(** Counts of a list in which no item is below a later one. *)
Fixpoint bytes_descending (l : list (str * Z)) : Prop :=
  match l with
  | [] => True
  | x :: r => Forall (fun y => y.2 <= x.2) r /\ bytes_descending r
  end.

(** A list whose every item is at most the items before it. *)
Fixpoint descending (l : list Q) : Prop :=
  match l with
  | [] => True
  | x :: r => Forall (fun y => (y <= x)%Q) r /\ descending r
  end.

(** The percentage [get_language_percentages] reports for a count. *)
Definition percentage_of (total_bytes bytes_count : Z) : Q :=
  GitHubStats.py_round1
    (py_float bytes_count / py_float total_bytes * (100 # 1))%Q.

(** What the arrays of the balanced wrapper satisfy for every font: the
    costs lie between 0 and the sentinel, every break points forward, and
    an entry below the sentinel starts a line that fits and continues at
    an entry below the sentinel. *)
Definition chain_inv `{Pillow} (fnt : font) (words : list str)
    (max_width : Z) (cost : list Z) (breaks : list nat) : Prop :=
  length cost = S (length words) /\
  length breaks = length words /\
  cost !!! length words = 0 /\
  (forall i, (i <= length words)%nat -> 0 <= cost !!! i <= inf) /\
  (forall i, (i < length words)%nat ->
     (i < breaks !!! i <= length words)%nat) /\
  (forall i, (i < length words)%nat -> cost !!! i < inf ->
     line_width fnt words i (breaks !!! i) <= max_width /\
     cost !!! (breaks !!! i) < inf).

(** ** Layout containers *)

(** One call of [_draw_rounded_rectangle] on the card. *)
Inductive shape_op : Type :=
| FilledRectangle (box : Z * Z * Z * Z) (fill : rgba)
| Pieslice (box : Z * Z * Z * Z) (start_angle end_angle : Z) (fill : rgba).

(** [_draw_rounded_rectangle]. *)
Definition _draw_rounded_rectangle (xy : Z * Z * Z * Z) (radius : Z)
    (fill : rgba) : list shape_op :=
  let '(x1, y1, x2, y2) := xy in
  [ FilledRectangle (x1 + radius, y1, x2 - radius, y2) fill;
    FilledRectangle (x1, y1 + radius, x2, y2 - radius) fill;
    Pieslice (x1, y1, x1 + radius * 2, y1 + radius * 2) 180 270 fill;
    Pieslice (x2 - radius * 2, y1, x2, y1 + radius * 2) 270 360 fill;
    Pieslice (x1, y2 - radius * 2, x1 + radius * 2, y2) 90 180 fill;
    Pieslice (x2 - radius * 2, y2 - radius * 2, x2, y2) 0 90 fill ].

(** The boxes [_draw_layout_containers] passes on: the header box and the
    speech bubble. *)
Definition header_box (self : renderer) : Z * Z * Z * Z :=
  (self_s self 236, self_s self 24, self_s self (236 + 555),
   self_s self (24 + 84)).

Definition bubble_box (self : renderer) : Z * Z * Z * Z :=
  (self_s self 22, self_s self 209, self_s self (22 + 200),
   self_s self (209 + 169)).

(** [_draw_layout_containers]; the two theme colours it reads from
    [self] are arguments here. *)
Definition _draw_layout_containers (self : renderer)
    (header_box_color team_box_color : rgba) : list shape_op :=
  _draw_rounded_rectangle (header_box self) (self_s self 40)
                          header_box_color
  ++ _draw_rounded_rectangle (bubble_box self) (self_s self 20)
                             team_box_color.

(** The rectangle between the corners of a box. *)
Definition box_contains (box : Z * Z * Z * Z) (x y w h : Z) : Prop :=
  let '(x1, y1, x2, y2) := box in
  x1 <= x /\ x + w <= x2 /\ y1 <= y /\ y + h <= y2.

(** ** Binary64 arithmetic *)

(** Python's [float] as the renderer computes with it: IEEE 754 binary64
    with rounding to nearest, ties to even.  A finite value is the
    rational it denotes (the two zeros are one value here: no operation
    of the sources tells them apart); the infinities and [nan] are
    values of their own. *)
Module B64.

Definition pow2 (k : Z) : Q := ((2 # 1) ^ k)%Q.

(** [floor(log2 x)] for a positive [x]. *)
Definition ilog2 (x : Q) : Z :=
  let e := Z.log2 (Qnum x) - Z.log2 (Zpos (Qden x)) in
  if Qle_bool (pow2 e) x then e else e - 1.

(** The exponent of the unit in the last place of the binary64 values
    around a positive [x]: 53 bits of precision, and the spacing of the
    subnormal values, [2^-1074], below [2^-1022]. *)
Definition ulp_exp (x : Q) : Z := Z.max (ilog2 x - 52) (-1074).

(** Rounding to nearest, ties to even, with the exponent unbounded
    above. *)
Definition round_pos (x : Q) : Q :=
  let e := ulp_exp x in
  (inject_Z (py_round (x / pow2 e)) * pow2 e)%Q.

Definition rne (x : Q) : Q :=
  match (x ?= 0)%Q with
  | Gt => round_pos x
  | Lt => (- round_pos (- x))%Q
  | Eq => 0%Q
  end.

Inductive float : Type :=
| Fin (q : Q)
| Inf (negative : bool)
| NaN.

Definition is_negative (x : Q) : bool :=
  match (x ?= 0)%Q with Lt => true | _ => false end.

(** The binary64 value of a real result: the rounded value, or an
    infinity when it reaches [2^1024]. *)
Definition fl (x : Q) : float :=
  let r := rne x in
  if Qle_bool (pow2 1024) (Qabs r) then Inf (is_negative x) else Fin r.

Definition is_zero (q : Q) : bool := Qeq_bool q 0.

Definition fopp (a : float) : float :=
  match a with
  | Fin x => Fin (- x)
  | Inf s => Inf (negb s)
  | NaN => NaN
  end.

(** [a + b]. *)
Definition fadd (a b : float) : float :=
  match a, b with
  | NaN, _ | _, NaN => NaN
  | Inf s, Inf t => if Bool.eqb s t then Inf s else NaN
  | Inf s, Fin _ | Fin _, Inf s => Inf s
  | Fin x, Fin y => fl (x + y)
  end.

(** [a - b]. *)
Definition fsub (a b : float) : float := fadd a (fopp b).

(** [a * b]. *)
Definition fmul (a b : float) : float :=
  match a, b with
  | NaN, _ | _, NaN => NaN
  | Inf s, Inf t => Inf (xorb s t)
  | Inf s, Fin y => if is_zero y then NaN else Inf (xorb s (is_negative y))
  | Fin x, Inf t => if is_zero x then NaN else Inf (xorb (is_negative x) t)
  | Fin x, Fin y => fl (x * y)
  end.

(** [a / b]; division by a zero raises [ZeroDivisionError]. *)
Definition fdiv (a b : float) : option float :=
  match b with
  | Fin y =>
      if is_zero y then None
      else Some (match a with
                 | Fin x => fl (x / y)
                 | Inf s => Inf (xorb s (is_negative y))
                 | NaN => NaN
                 end)
  | Inf t =>
      Some (match a with
            | Fin _ => Fin 0
            | Inf _ | NaN => NaN
            end)
  | NaN => Some NaN
  end.

(** [a == 0], [a <= b] and [a < b]; every comparison with [nan] is
    false. *)
Definition feq_zero (a : float) : bool :=
  match a with Fin x => is_zero x | _ => false end.

Definition fle (a b : float) : bool :=
  match a, b with
  | NaN, _ | _, NaN => false
  | Inf true, _ | _, Inf false => true
  | Inf false, _ | _, Inf true => false
  | Fin x, Fin y => Qle_bool x y
  end.

Definition flt (a b : float) : bool :=
  match a, b with
  | NaN, _ | _, NaN => false
  | _, _ => negb (fle b a)
  end.

(** [float(n)] for an integer; [OverflowError] beyond the finite
    range. *)
Definition of_int (n : Z) : option float :=
  match fl (inject_Z n) with
  | Fin q => Some (Fin q)
  | _ => None
  end.

(** [a / b] for two integers: the quotient correctly rounded;
    [ZeroDivisionError], or [OverflowError] beyond the finite range. *)
Definition int_truediv (a b : Z) : option float :=
  if b =? 0 then None
  else match fl (inject_Z a / inject_Z b) with
       | Fin q => Some (Fin q)
       | _ => None
       end.

(** [int(a)]: truncation; [OverflowError] on an infinity, [ValueError]
    on [nan]. *)
Definition to_int (a : float) : option Z :=
  match a with Fin x => Some (py_int x) | _ => None end.

(** [round(a)]: the nearest integer, ties to even; [OverflowError] on an
    infinity, [ValueError] on [nan]. *)
Definition round_int (a : float) : option Z :=
  match a with Fin x => Some (py_round x) | _ => None end.

(** A binary64 value: a rational that rounding leaves as it is, below
    [2^1024] in magnitude; an infinity; or [nan]. *)
Definition is_float (a : float) : Prop :=
  match a with
  | Fin x => (rne x == x)%Q /\ (Qabs x < pow2 1024)%Q
  | _ => True
  end.

End B64.

(** ** Pillow images *)

(** [Image.new(mode, (w, h))] raises [ValueError] for a negative width or
    height; the limits of memory are not part of the model. *)
Definition image_new (w h : Z) : option unit :=
  if (w <? 0) || (h <? 0) then None else Some tt.

(** ** Coordinate scaler in binary64 *)

(** The constructor's scale handling and [_s] with the product
    [float(value) * self.scale] taken in binary64. *)
Module Scaler64.
Import B64.

(** What [float(scale)] does with the argument: it returns a float, it
    raises [TypeError] or [ValueError] (such as for [None] or a
    non-numeric string), or it raises [OverflowError] (an integer beyond
    the range of floats). *)
Inductive scale_arg : Type :=
| ScaleFloat (f : float)
| ScaleNotNumeric
| ScaleTooLarge.

(** The [try]/[except] and the clamp at the top of [__init__]; the
    [OverflowError] is not caught.  [nan <= 0] is false. *)
Definition coerce_scale (a : scale_arg) : option float :=
  match a with
  | ScaleFloat f => Some (if fle f (Fin 0) then Fin (2 # 1) else f)
  | ScaleNotNumeric => Some (Fin (2 # 1))
  | ScaleTooLarge => None
  end.

(** [_s]: [int(round(float(value) * self.scale))] for an integer
    [value]. *)
Definition _s (scale : float) (value : Z) : option Z :=
  v ← of_int value;
  round_int (fmul v scale).

Record dims : Type := mk_dims {
  scale : float;
  CARD_WIDTH : Z;
  CARD_HEIGHT : Z;
  PADDING : Z;
  CORNER_RADIUS : Z;
  POKEMON_SPRITE_SIZE : Z;
  POKEMON_SPACING : Z;
  STATS_START_X : Z;
  LANGUAGE_BAR_WIDTH : Z;
  LANGUAGE_BAR_HEIGHT : Z
}.

(** The scaled dimensions computed by [__init__], in the order of the
    source; [None] when an exception leaves the constructor. *)
Definition init (a : scale_arg) : option dims :=
  sc ← coerce_scale a;
  card_width ← _s sc Scaler.BASE_CARD_WIDTH;
  card_height ← _s sc Scaler.BASE_CARD_HEIGHT;
  padding ← _s sc Scaler.BASE_PADDING;
  corner_radius ← _s sc Scaler.BASE_CORNER_RADIUS;
  pokemon_sprite_size ← _s sc Scaler.BASE_POKEMON_SPRITE_SIZE;
  pokemon_spacing ← _s sc Scaler.BASE_POKEMON_SPACING;
  stats_start_x ← _s sc Scaler.BASE_STATS_START_X;
  language_bar_width ← _s sc Scaler.BASE_LANGUAGE_BAR_WIDTH;
  language_bar_height ← _s sc Scaler.BASE_LANGUAGE_BAR_HEIGHT;
  Some {| scale := sc;
          CARD_WIDTH := card_width;
          CARD_HEIGHT := card_height;
          PADDING := padding;
          CORNER_RADIUS := corner_radius;
          POKEMON_SPRITE_SIZE := pokemon_sprite_size;
          POKEMON_SPACING := pokemon_spacing;
          STATS_START_X := stats_start_x;
          LANGUAGE_BAR_WIDTH := language_bar_width;
          LANGUAGE_BAR_HEIGHT := language_bar_height |}.

End Scaler64.

(** [round(base * s)] with the product rounded to binary64 first. *)
Definition round_of_product (base : Z) (s : Q) : Z :=
  py_round (B64.rne (inject_Z base * s)).

(** ** Segment sizing in binary64 *)

(** The segment loop of [_draw_vertical_language_bar] with the
    percentages as binary64 values and [(percentage / total_pct) * h]
    computed in binary64. *)
Module Bar64.
Import B64.

(** [sum(pct for _, pct in visible_languages)]: from the integer 0, one
    binary64 addition for each percentage, left to right, as CPython
    computes it up to version 3.11.  From 3.12 on, [sum] also carries a
    correction for the rounding errors of the additions; the sizes of
    the segments are established for every positive total of which each
    percentage is a share ([proportional_for_total]). *)
Definition sum_pct (visible_languages : list (str * float)) : float :=
  fold_left fadd (map snd visible_languages) (Fin 0).

(** [(percentage / total_pct) * h] with its exceptions:
    [ZeroDivisionError], and [OverflowError] from [float(h)]. *)
Definition proportional_product (h : Z) (total_pct percentage : float)
    : option float :=
  ratio ← fdiv percentage total_pct;
  hf ← of_int h;
  Some (fmul ratio hf).

(** The height the loop body computes for entry [i] before the
    [segment_height < 1] test. *)
Definition segment_height (h : Z) (scale_bars : bool) (num_languages : nat)
    (total_pct : float) (current_y : Z) (i : nat) (percentage : float)
    : option Z :=
  if scale_bars then
    product ← proportional_product h total_pct percentage;
    to_int product
  else
    let segment_height := h `div` Z.of_nat num_languages in
    Some (if bool_decide (i = (num_languages - 1)%nat) then h - current_y
          else segment_height).

(** The loop over [enumerate(visible_languages)] that fills [segments]. *)
Fixpoint segments_loop `{LanguageTable} (h : Z) (scale_bars : bool)
    (num_languages : nat) (total_pct : float)
    (items : list (nat * (str * float))) (current_y : Z)
    (segments : list segment) : option (list segment) :=
  match items with
  | [] => Some segments
  | (i, (lang, percentage)) :: rest =>
      sh ← segment_height h scale_bars num_languages total_pct
                          current_y i percentage;
      if sh <? 1 then
        segments_loop h scale_bars num_languages total_pct rest
                      current_y segments
      else
        color ← entry_color lang i;
        segments_loop h scale_bars num_languages total_pct rest
                      (current_y + sh)
                      (segments ++ [(current_y, current_y + sh, color)])
  end.

Definition compute_segments `{LanguageTable} (h : Z) (scale_bars : bool)
    (visible_languages : list (str * float)) (total_pct : float)
    : option (list segment) :=
  segments_loop h scale_bars (length visible_languages) total_pct
                (enumerate visible_languages) 0 [].

(** [_draw_vertical_language_bar] with the percentages as binary64
    values: the calls made on the card, in order, or [None] when an
    exception leaves the function.  Of a negative [w] or [h] the model
    knows that [Image.new] refuses it. *)
Definition _draw_vertical_language_bar `{LanguageTable} `{Pillow}
    (self : renderer) (x y w h : Z) (languages : list (str * float))
    (scale_bars use_gradient show_border : bool) : option (list draw_op) :=
  let radius := Z.max 1 (w `div` 2) in
  let background :=
    RoundedRectangle (x, y, x + w, y + h) radius
                     (Some (secondary_color self)) None 1 in
  let visible_languages := take 5 languages in
  match visible_languages with
  | [] => Some [background]
  | _ =>
      let total_pct := sum_pct visible_languages in
      if feq_zero total_pct then Some [background]
      else
        _ ← image_new w h;
        segments ← compute_segments h scale_bars visible_languages total_pct;
        match segments with
        | [] => Some [background]
        | _ =>
            fill ← (if use_gradient then gradient_rows self w h segments
                    else Some (block_fill w segments));
            let border :=
              if show_border then
                [RoundedRectangle (x, y, x + w, y + h) radius None
                   (Some (language_bar_border_color self))
                   (Z.max 1 (self_s self 1))]
              else [] in
            Some ([background; PasteMasked fill (w, h) radius (x, y)]
                  ++ border)
        end
  end.

End Bar64.

(** A total that is positive: a positive finite value or [+inf]. *)
Definition positive_total (total_pct : B64.float) : Prop :=
  match total_pct with
  | B64.Fin t => (0 < t)%Q
  | B64.Inf negative => negative = false
  | B64.NaN => False
  end.

(** A percentage that is finite, not negative and at most the total. *)
Definition share_of (total_pct percentage : B64.float) : Prop :=
  match percentage with
  | B64.Fin p => (0 <= p)%Q /\ B64.fle percentage total_pct = true
  | _ => False
  end.

(** A binary64 value that is finite and not negative. *)
Definition nonneg_binary64 (a : B64.float) : Prop :=
  match a with
  | B64.Fin p => (0 <= p)%Q /\ B64.is_float a
  | _ => False
  end.

(** What the specification says of a segment: its height is
    [round(percentage / sum * bar_height)], in the same arithmetic. *)
Definition spec_segment_height (h : Z) (total_pct percentage : B64.float)
    : option Z :=
  product ← Bar64.proportional_product h total_pct percentage;
  B64.round_int product.

(** An accumulated sum of such values: finite and not negative, or
    [+inf]. *)
Definition nonneg_sum (a : B64.float) : Prop :=
  match a with
  | B64.Fin p => (0 <= p)%Q /\ (B64.rne p == p)%Q
  | B64.Inf negative => negative = false
  | B64.NaN => False
  end.

(** A percentage that is zero or a normal binary64 value of at most
    [2^1000]. *)
Definition ordinary_percentage (a : B64.float) : Prop :=
  match a with
  | B64.Fin p =>
      (B64.rne p == p)%Q /\
      ((p == 0)%Q \/ (B64.pow2 (-1022) <= p <= B64.pow2 1000)%Q)
  | _ => False
  end.

(** The exact sum of finite percentages. *)
Definition exact_sum (percentages : list B64.float) : Q :=
  sumQ (map (fun a => match a with B64.Fin p => p | _ => 0%Q end)
            percentages).

(** ** Language percentages in binary64 *)

Module GitHubStats64.
Import B64.

(** [round(a, 1)] on a float: the value is rounded to one decimal, ties
    to the even digit, and the decimal is converted to the nearest
    binary64 value; an infinity or [nan] is returned as it is. *)
Definition round1 (a : float) : float :=
  match a with
  | Fin x => fl (GitHubStats.py_round1 x)
  | _ => a
  end.

(** [round((bytes_count / total_bytes) * 100, 1)]. *)
Definition percentage (total_bytes bytes_count : Z) : option float :=
  q ← int_truediv bytes_count total_bytes;
  Some (round1 (fmul q (Fin (100 # 1)))).

(** [get_language_percentages], from the dictionary that
    [get_language_breakdown] returns; [None] is [ZeroDivisionError] or
    [OverflowError]. *)
Definition get_language_percentages (language_bytes : list (str * Z))
    (top_n : nat) (excluded_languages : option (list str))
    : option (list (str * float)) :=
  match language_bytes with
  | [] => Some []
  | _ =>
      let language_bytes :=
        GitHubStats.without_excluded language_bytes excluded_languages in
      match language_bytes with
      | [] => Some []
      | _ =>
          let total_bytes := fold_left Z.add (map snd language_bytes) 0 in
          let sorted_languages :=
            GitHubStats.sorted_by_bytes language_bytes in
          let top_languages := take top_n sorted_languages in
          mapM (fun item : str * Z =>
                  let '(lang, bytes_count) := item in
                  value ← percentage total_bytes bytes_count;
                  Some (lang, value))
               top_languages
      end
  end.

End GitHubStats64.

(** A percentage as reported for [bytes_count] out of [total_bytes]: the
    binary64 value nearest to [k / 10] for a whole number [k] of tenths
    from 0 to 1000, with [k / 10] within [0.05 + 2^-44] of the exact
    percentage. *)
Definition reported_percentage (total_bytes bytes_count : Z)
    (value : B64.float) : Prop :=
  exists k : Z,
    0 <= k <= 1000 /\
    value = B64.Fin (B64.rne (inject_Z k / (10 # 1))) /\
    ((100 # 1) * inject_Z bytes_count / inject_Z total_bytes
       - ((1 # 20) + B64.pow2 (-44))
     <= inject_Z k / (10 # 1)
     <= (100 # 1) * inject_Z bytes_count / inject_Z total_bytes
        + ((1 # 20) + B64.pow2 (-44)))%Q.

(** ** pokemon.py: the team sprites *)

Module PokemonFetcher.
Import B64.

(** One entry of the list [get_team_sprites] returns: a transparent image
    of the target size with the resized sprite pasted at an offset, or
    the grey placeholder of the target size. *)
Inductive team_sprite : Type :=
| Centered (target new_size offset : Z * Z)
| Placeholder (target : Z * Z).

(** [min(a, b)] on two floats: [b] when [b < a], else [a]. *)
Definition fmin (a b : float) : float := if flt b a then b else a.

(** [sprite.resize((new_width, new_height), NEAREST)]: a copy when the
    size does not change, else [ValueError] unless both sides are at
    least 1. *)
Definition resize (size new_size : Z * Z) : option (Z * Z) :=
  if bool_decide (size = new_size) then Some new_size
  else if (new_size.1 <? 1) || (new_size.2 <? 1) then None
  else Some new_size.

(** The two sides [int(sprite.width * scale_factor)] and
    [int(sprite.height * scale_factor)] asked of [resize]. *)
Definition new_size (sprite_size : Z * Z) (size : Z * Z) : option (Z * Z) :=
  fx ← int_truediv sprite_size.1 size.1;
  fy ← int_truediv sprite_size.2 size.2;
  let scale_factor := fmin fx fy in
  wf ← of_int size.1;
  new_width ← to_int (fmul wf scale_factor);
  hf ← of_int size.2;
  new_height ← to_int (fmul hf scale_factor);
  Some (new_width, new_height).

(** The body of the loop for one team member, from what
    [get_pokemon_sprite] returned for it: the size of the sprite, or
    [None]. *)
Definition fit_sprite (sprite_size : Z * Z) (sprite : option (Z * Z))
    : option team_sprite :=
  match sprite with
  | Some size =>
      asked ← new_size sprite_size size;
      resized ← resize size asked;
      _ ← image_new sprite_size.1 sprite_size.2;
      let offset := ((sprite_size.1 - resized.1) `div` 2,
                     (sprite_size.2 - resized.2) `div` 2) in
      Some (Centered sprite_size resized offset)
  | None =>
      _ ← image_new sprite_size.1 sprite_size.2;
      Some (Placeholder sprite_size)
  end.

(** [get_team_sprites], from the results of [get_pokemon_sprite] for the
    members of the team; [None] is an exception. *)
Definition get_team_sprites (fetched : list (option (Z * Z)))
    (sprite_size : Z * Z) : option (list team_sprite) :=
  mapM (fit_sprite sprite_size) fetched.

End PokemonFetcher.

(** * Part II: properties of the embedding *)

(** ** Facts about rounding *)

Section RoundFacts.

Lemma py_round_near (x : Q) :
  (inject_Z (py_round x) - (1 # 2) <= x <= inject_Z (py_round x) + (1 # 2))%Q.
Proof.
  unfold py_round; cbv zeta.
  pose proof (Qfloor_le x) as Hlo.
  pose proof (Qlt_floor x) as Hhi.
  rewrite inject_Z_plus in Hhi.
  change (inject_Z 1) with 1%Q in Hhi.
  destruct (Qcompare_spec (x - inject_Z (Qfloor x)) (1 # 2)) as [He|Hl|Hg].
  - destruct (Z.even (Qfloor x)); [lra|].
    rewrite inject_Z_plus; change (inject_Z 1) with 1%Q; lra.
  - lra.
  - rewrite inject_Z_plus; change (inject_Z 1) with 1%Q; lra.
Qed.

(** An integer is its own rounding. *)
Lemma py_round_inject (n : Z) : py_round (inject_Z n) = n.
Proof.
  unfold py_round; cbv zeta.
  rewrite Qfloor_Z.
  destruct (Qcompare_spec (inject_Z n - inject_Z n) (1 # 2)) as [He|Hl|Hg];
    [exfalso; lra | reflexivity | exfalso; lra].
Qed.

Lemma py_round_proper (x y : Q) : (x == y)%Q -> py_round x = py_round y.
Proof.
  intros E. unfold py_round; cbv zeta.
  assert (Qfloor x = Qfloor y) as -> by (apply Qfloor_comp; exact E).
  assert (Qcompare (x - inject_Z (Qfloor y)) (1 # 2)
          = Qcompare (y - inject_Z (Qfloor y)) (1 # 2)) as ->; [|reflexivity].
  apply Qcompare_comp; [rewrite E|]; reflexivity.
Qed.

(** Rounding lands within one of any integer that is within one of the
    argument. *)
Lemma py_round_within_one (y : Q) (m : Z) :
  (inject_Z m - 1 <= y <= inject_Z m + 1)%Q ->
  m - 1 <= py_round y <= m + 1.
Proof.
  intros [Hlo Hhi].
  pose proof (py_round_near y) as [Hn1 Hn2].
  assert (inject_Z (m - 2) < inject_Z (py_round y))%Q as H1.
  { unfold Z.sub. rewrite inject_Z_plus, inject_Z_opp.
    change (inject_Z 2) with (2 # 1)%Q. lra. }
  assert (inject_Z (py_round y) < inject_Z (m + 2))%Q as H2.
  { rewrite inject_Z_plus. change (inject_Z 2) with (2 # 1)%Q. lra. }
  rewrite <- Zlt_Qlt in H1, H2.
  destruct (Z.eq_dec (py_round y) (m - 1)) as [E|N1]; [lia|].
  destruct (Z.eq_dec (py_round y) (m + 1)) as [E|N2]; [lia|].
  lia.
Qed.

End RoundFacts.

(** ** Colour lookup *)

Section ColorProps.
Context `{LanguageTable}.

Lemma fallback_length : length FALLBACK_LANGUAGE_COLORS = 10%nat.
Proof. reflexivity. Qed.

Lemma fallback_all_hex :
  Forall (fun c => is_hex_color c = true) FALLBACK_LANGUAGE_COLORS.
Proof. repeat constructor. Qed.

(** The palette lookup of the last line never leaves the list. *)
Lemma fallback_lookup (fallback_index : Z) :
  exists c,
    FALLBACK_LANGUAGE_COLORS
      !! Z.to_nat (fallback_index
                   `mod` Z.of_nat (length FALLBACK_LANGUAGE_COLORS)) = Some c
    /\ is_hex_color c = true.
Proof.
  rewrite fallback_length.
  pose proof (Z.mod_pos_bound fallback_index 10 ltac:(lia)) as Hb.
  change (Z.of_nat 10) with 10.
  destruct (lookup_lt_is_Some_2 FALLBACK_LANGUAGE_COLORS
              (Z.to_nat (fallback_index `mod` 10))) as [c Hc].
  { rewrite fallback_length. lia. }
  exists c. split; [exact Hc|].
  pose proof fallback_all_hex as Hall.
  rewrite Forall_lookup in Hall. exact (Hall _ _ Hc).
Qed.

Lemma dict_get_value (d : list (str * str)) (key c : str) :
  dict_get d key = Some c -> exists k, (k, c) ∈ d.
Proof.
  unfold dict_get. intros Hg.
  destruct (find _ d) as [[k v]|] eqn:Hf; [|discriminate].
  injection Hg as <-. exists k.
  apply find_some in Hf as [Hin _]. apply list_elem_of_In. exact Hin.
Qed.

(** The three steps of [get_language_color], in order. *)
Lemma get_language_color_cases (language : str) (fallback_index : Z) :
  get_language_color language fallback_index =
  match dict_get GITHUB_LANGUAGE_COLORS language with
  | Some color => Some color
  | None =>
      match find (fun kv => bool_decide (lower kv.1 = lower language))
                 GITHUB_LANGUAGE_COLORS with
      | Some kv => Some kv.2
      | None => FALLBACK_LANGUAGE_COLORS !! Z.to_nat (fallback_index `mod` 10)
      end
  end.
Proof.
  unfold get_language_color.
  destruct (dict_get _ _); [reflexivity|].
  destruct (find _ _) as [[k v]|]; reflexivity.
Qed.

Lemma get_language_color_some (language : str) (fallback_index : Z) :
  exists c,
    get_language_color language fallback_index = Some c /\
    ((exists k, (k, c) ∈ GITHUB_LANGUAGE_COLORS) \/
     (needs_fallback language = true /\
      FALLBACK_LANGUAGE_COLORS !! Z.to_nat (fallback_index `mod` 10) = Some c /\
      is_hex_color c = true)).
Proof.
  unfold get_language_color, needs_fallback.
  destruct (dict_get _ _) as [c|] eqn:Hd.
  - exists c. split; [reflexivity|]. left. eapply dict_get_value; eauto.
  - cbv zeta.
    destruct (find _ _) as [[k v]|] eqn:Hf.
    + exists v. split; [reflexivity|]. left. exists k.
      apply find_some in Hf as [Hin _]. apply list_elem_of_In. exact Hin.
    + destruct (fallback_lookup fallback_index) as (c & Hc & Hhex).
      exists c. split; [exact Hc|]. right. repeat split; assumption.
Qed.

End ColorProps.

(** C10: [get_language_color] returns a colour for every language name and
    every fallback index (negative ones and those of 10 or more
    included): it never raises, the palette being indexed modulo its
    length 10; the colour is a [#rrggbb] string as soon as the table's
    values are; and the result is a function of the two arguments. *)
Theorem get_language_color_total `{LanguageTable}
    (Htable : Forall (fun kv => is_hex_color kv.2 = true)
                     GITHUB_LANGUAGE_COLORS)
    (language : str) (fallback_index : Z) :
  (exists c, get_language_color language fallback_index = Some c /\
             is_hex_color c = true) /\
  length FALLBACK_LANGUAGE_COLORS = 10%nat /\
  (needs_fallback language = true ->
     get_language_color language fallback_index
     = FALLBACK_LANGUAGE_COLORS !! Z.to_nat (fallback_index `mod` 10) /\
     get_language_color language (fallback_index + 10)
     = get_language_color language fallback_index) /\
  (forall language' fallback_index',
     language' = language -> fallback_index' = fallback_index ->
     get_language_color language' fallback_index'
     = get_language_color language fallback_index).
Proof.
  split; [|split; [reflexivity|split]].
  - destruct (get_language_color_some language fallback_index)
      as (c & Hc & [[k Hin]|(_ & _ & Hhex)]).
    + exists c. split; [exact Hc|].
      rewrite Forall_forall in Htable. exact (Htable _ Hin).
    + exists c. split; assumption.
  - intros Hn. rewrite !get_language_color_cases.
    unfold needs_fallback in Hn.
    destruct (dict_get _ _); [discriminate|].
    destruct (find _ _); [discriminate|].
    split; [reflexivity|].
    replace ((fallback_index + 10) `mod` 10) with (fallback_index `mod` 10);
      [reflexivity|].
    rewrite <- (Z.mod_add fallback_index 1 10) by lia. f_equal; lia.
  - intros ? ? -> ->. reflexivity.
Qed.

Lemma get_language_color_total_witness :
  exists c,
    @get_language_color sample_table (lit "Brainfuck") 13 = Some c /\
    is_hex_color c = true.
Proof.
  refine (proj1 (@get_language_color_total sample_table _ (lit "Brainfuck") 13)).
  repeat constructor.
Defined.

(** ** The colour of a visible entry *)

Lemma enumerate_lookup {A} (l : list A) (i : nat) (x : A) :
  l !! i = Some x -> enumerate l !! i = Some (i, x).
Proof.
  intros Hx. unfold enumerate.
  apply lookup_zip_with_Some. exists i, x. split; [reflexivity|].
  split; [|exact Hx].
  apply lookup_seq. split; [reflexivity|].
  eapply lookup_lt_Some; eauto.
Qed.

Section SegmentColors.
Context `{LanguageTable}.

(** Every segment the loop appends is coloured by [entry_color] at the
    [enumerate] index of the entry it stands for. *)
Lemma segments_loop_colors h scale_bars num total items :
  forall current_y segments out,
    segments_loop h scale_bars num total items current_y segments = Some out ->
    exists new kept,
      out = segments ++ new /\
      sublist kept items /\
      Forall2 (fun seg item => entry_color item.2.1 item.1 = Some (seg_color seg))
              new kept.
Proof.
  induction items as [|[i [lang pct]] rest IH]; intros cy segs out Hout.
  - injection Hout as <-. exists [], []. rewrite app_nil_r.
    repeat split; constructor.
  - cbn [segments_loop] in Hout.
    destruct (_ <? 1).
    + destruct (IH _ _ _ Hout) as (new & kept & -> & Hsub & Hall).
      exists new, kept. repeat split; [|exact Hall].
      apply sublist_cons. exact Hsub.
    + destruct (entry_color lang i) as [color|] eqn:Hc; [|discriminate].
      cbn in Hout.
      destruct (IH _ _ _ Hout) as (new & kept & -> & Hsub & Hall).
      eexists (_ :: new), ((i, (lang, pct)) :: kept).
      rewrite <- app_assoc. split; [reflexivity|].
      split; [apply sublist_skip; exact Hsub|].
      constructor; [exact Hc|exact Hall].
Qed.

End SegmentColors.

(** C2, counterexample: with Python in the table and an unknown second
    language, the renderer colours the second entry with palette entry 1,
    where the rule of the specification gives palette entry 0. *)
Lemma fallback_rank_counterexample :
  let visible := [(lit "Python", 75 # 1); (lit "Brainfuck", 25 # 1)] in
  @code_colors sample_table visible
    = [Some (lit "#3572A5"); Some (lit "#98c379")] /\
  @spec_colors sample_table visible
    = [Some (lit "#3572A5"); Some (lit "#e06c75")] /\
  @code_colors sample_table visible <> @spec_colors sample_table visible /\
  (map seg_color <$> @compute_segments sample_table 328 true visible (100 # 1))
    = Some [(53, 114, 165, 255); (152, 195, 121, 255)].
Proof. vm_compute. repeat split; congruence. Qed.

(** C2, as amended: the colour of a visible entry is the exact match of
    its name in the table, otherwise the first case-insensitive match,
    otherwise the fallback palette colour indexed by the entry's position
    in the visible list, modulo 10; the bar passes that position for every
    segment it keeps. *)
Theorem entry_color_by_position `{LanguageTable} (h : Z) (scale_bars : bool)
    (visible_languages : list (str * Q)) (total_pct : Q)
    (segments : list segment)
    (Hseg : compute_segments h scale_bars visible_languages total_pct
            = Some segments) :
  (forall lang (i : nat),
     entry_color lang i =
     (match dict_get GITHUB_LANGUAGE_COLORS lang with
      | Some color => Some color
      | None =>
          match find (fun kv => bool_decide (lower kv.1 = lower lang))
                     GITHUB_LANGUAGE_COLORS with
          | Some kv => Some kv.2
          | None => FALLBACK_LANGUAGE_COLORS !! (i mod 10)%nat
          end
      end) ≫= fun c => hex_to_rgba c 255) /\
  (forall i entry, visible_languages !! i = Some entry ->
     enumerate visible_languages !! i = Some (i, entry)) /\
  exists kept,
    sublist kept (enumerate visible_languages) /\
    Forall2 (fun seg item => entry_color item.2.1 item.1 = Some (seg_color seg))
            segments kept.
Proof.
  split; [|split].
  - intros lang i. unfold entry_color.
    rewrite get_language_color_cases.
    replace (Z.to_nat (Z.of_nat i `mod` 10)) with (i mod 10)%nat; [reflexivity|].
    change 10 with (Z.of_nat 10). rewrite <- Nat2Z.inj_mod, Nat2Z.id.
    reflexivity.
  - intros i entry. apply enumerate_lookup.
  - unfold compute_segments in Hseg.
    destruct (segments_loop_colors _ _ _ _ _ _ _ _ Hseg)
      as (new & kept & -> & Hsub & Hall).
    exists kept. split; [exact Hsub|exact Hall].
Qed.

Lemma entry_color_by_position_witness :
  @entry_color sample_table (lit "Brainfuck") 1 = Some (152, 195, 121, 255) /\
  @entry_color sample_table (lit "python") 4 = Some (53, 114, 165, 255).
Proof.
  pose proof (@entry_color_by_position sample_table 328 true
                [(lit "Python", 75 # 1); (lit "Brainfuck", 25 # 1)] (100 # 1)
                [(0, 246, (53, 114, 165, 255)); (246, 328, (152, 195, 121, 255))]
                eq_refl) as (Hc & _).
  split; rewrite Hc; reflexivity.
Defined.

(** ** Parsing colours *)

Lemma hex_digit_plain (d : ascii) :
  is_Some (hex_digit d) ->
  is_int_space d = false /\ d <> "#"%char /\ d <> "+"%char /\ d <> "-"%char.
Proof.
  intros [z Hz]. revert Hz.
  destruct d as [[] [] [] [] [] [] [] []]; vm_compute; intros Hz;
    try discriminate Hz; repeat split; discriminate.
Qed.

Lemma int16_two_digits (a b : ascii) :
  is_Some (hex_digit a) -> is_Some (hex_digit b) -> is_Some (int16 [a; b]).
Proof.
  intros Ha Hb.
  destruct (hex_digit_plain a Ha) as (Sa & _ & Pa & Ma).
  destruct (hex_digit_plain b Hb) as (Sb & _ & _ & _).
  unfold int16, strip_int. cbn [lstrip_int]. rewrite Sa.
  cbn [rev app lstrip_int]. rewrite Sb. cbn [rev app].
  rewrite !bool_decide_eq_false_2 by assumption.
  destruct Ha as [x ->], Hb as [y ->]. cbn. eauto.
Qed.

(** A [#rrggbb] string always parses. *)
Lemma hex_to_rgba_some (c : str) (alpha : Z) :
  is_hex_color c = true -> is_Some (hex_to_rgba c alpha).
Proof.
  intros Hc. destruct c as [|ch ds]; [discriminate|].
  cbn [is_hex_color] in Hc.
  apply andb_prop in Hc as [Hc Hd]. apply andb_prop in Hc as [Hch Hlen].
  apply bool_decide_eq_true in Hch, Hlen. subst ch.
  destruct ds as [|d1 [|d2 [|d3 [|d4 [|d5 [|d6 [|]]]]]]]; try discriminate.
  cbn [forallb] in Hd.
  repeat (apply andb_prop in Hd as [?%bool_decide_eq_true Hd]).
  destruct (hex_digit_plain d1) as (_ & N1 & _); [assumption|].
  unfold hex_to_rgba, hex_to_rgb. cbn [lstrip_char].
  rewrite bool_decide_eq_true_2 by reflexivity.
  rewrite (bool_decide_eq_false_2 _ N1).
  change (slice [d1; d2; d3; d4; d5; d6] 0 2) with [d1; d2].
  change (slice [d1; d2; d3; d4; d5; d6] 2 4) with [d3; d4].
  change (slice [d1; d2; d3; d4; d5; d6] 4 6) with [d5; d6].
  destruct (int16_two_digits d1 d2) as [r ->]; [assumption..|].
  destruct (int16_two_digits d3 d4) as [g ->]; [assumption..|].
  destruct (int16_two_digits d5 d6) as [b ->]; [assumption..|].
  cbn. eauto.
Qed.

(** With a table of [#rrggbb] values, every entry has a colour. *)
Lemma entry_color_some `{LanguageTable}
    (Htable : Forall (fun kv => is_hex_color kv.2 = true)
                     GITHUB_LANGUAGE_COLORS)
    (lang : str) (i : nat) :
  is_Some (entry_color lang i).
Proof.
  unfold entry_color.
  destruct (get_language_color_some lang (Z.of_nat i))
    as (c & -> & [[k Hin]|(_ & _ & Hhex)]); cbn.
  - apply hex_to_rgba_some.
    rewrite Forall_forall in Htable. exact (Htable _ Hin).
  - apply hex_to_rgba_some. exact Hhex.
Qed.

(** ** Truncation and sums *)

Lemma py_int_floor (x : Q) : (0 <= x)%Q -> py_int x = Qfloor x.
Proof.
  intros Hx. destruct x as [n d]. unfold py_int, Qfloor. cbn [Qnum Qden].
  apply Z.quot_div_nonneg; [|lia].
  unfold Qle in Hx. cbn in Hx. lia.
Qed.

Lemma total_height_snoc (segments : list segment) (s : segment) :
  total_height (segments ++ [s]) = total_height segments + seg_height s.
Proof.
  unfold total_height. induction segments as [|x r IH]; cbn [foldr app].
  - lia.
  - rewrite IH. lia.
Qed.

Lemma enumerate_snd {A} (l : list A) : map snd (enumerate l) = l.
Proof. unfold enumerate. apply snd_zip. rewrite length_seq. lia. Qed.

(** ** Segment sizing *)

Section SegmentSizing.
Context `{LanguageTable}.
Hypothesis Htable :
  Forall (fun kv => is_hex_color kv.2 = true) GITHUB_LANGUAGE_COLORS.

(** Equal mode: whatever the heights kept, they sum to the bar height. *)
Lemma equal_loop_sum (h : Z) (num : nat) (total : Q) :
  0 <= h -> (1 <= num)%nat ->
  forall (l : list (str * Q)) (i : nat) current_y segments,
    (i + length l = num)%nat -> l <> [] ->
    0 <= current_y <= Z.of_nat i * (h `div` Z.of_nat num) ->
    total_height segments = current_y ->
    exists out,
      segments_loop h false num total (zip (seq i (length l)) l)
                    current_y segments = Some out /\
      total_height out = h.
Proof.
  intros Hh Hnum.
  assert (0 <= h `div` Z.of_nat num) as Hq by (apply Z.div_pos; lia).
  assert (Z.of_nat num * (h `div` Z.of_nat num) <= h) as Hqn
    by (apply Z.mul_div_le; lia).
  set (q := h `div` Z.of_nat num) in *.
  induction l as [|[lang pct] rest IH]; intros i cy segs Hlen Hne Hcy Hsum;
    [contradiction|].
  cbn [length seq zip zip_with segments_loop segment_height].
  fold q. destruct rest as [|y rest'].
  - (* the last entry *)
    cbn [length] in Hlen.
    rewrite bool_decide_eq_true_2 by lia.
    cbn [length seq zip zip_with segments_loop].
    assert (Z.of_nat i * q <= h) by nia.
    destruct (Z.ltb_spec (h - cy) 1) as [Hlt|Hge].
    + exists segs. split; [reflexivity|]. lia.
    + destruct (entry_color_some Htable lang i) as [color ->]. cbn [mbind option_bind].
      eexists. split; [reflexivity|].
      rewrite total_height_snoc. unfold seg_height, seg_end, seg_start. cbn.
      lia.
  - cbn [length] in Hlen.
    rewrite bool_decide_eq_false_2 by lia.
    destruct (Z.ltb_spec q 1) as [Hlt|Hge].
    + apply (IH (S i) cy segs); [cbn [length]; lia|discriminate|nia|exact Hsum].
    + destruct (entry_color_some Htable lang i) as [color ->]. cbn [mbind option_bind].
      apply (IH (S i)); [cbn [length]; lia|discriminate|nia|].
      rewrite total_height_snoc. unfold seg_height, seg_end, seg_start. cbn.
      lia.
Qed.

(** Equal mode with at least one pixel per entry: every segment but the
    last is [h // num] high and the last takes what is left. *)
Lemma equal_loop_heights (h : Z) (num : nat) (total : Q) :
  (1 <= num)%nat -> Z.of_nat num <= h ->
  forall (l : list (str * Q)) (i : nat) segments,
    (i + length l = num)%nat -> l <> [] ->
    exists out,
      segments_loop h false num total (zip (seq i (length l)) l)
                    (Z.of_nat i * (h `div` Z.of_nat num)) segments = Some out /\
      map seg_height out
      = map seg_height segments
        ++ replicate (length l - 1) (h `div` Z.of_nat num)
        ++ [h - (Z.of_nat num - 1) * (h `div` Z.of_nat num)].
Proof.
  intros Hnum Hh.
  assert (1 <= h `div` Z.of_nat num) as Hq.
  { apply Z.div_le_lower_bound; lia. }
  assert (Z.of_nat num * (h `div` Z.of_nat num) <= h) as Hqn
    by (apply Z.mul_div_le; lia).
  set (q := h `div` Z.of_nat num) in *.
  induction l as [|[lang pct] rest IH]; intros i segs Hlen Hne;
    [contradiction|].
  cbn [length seq zip zip_with segments_loop segment_height].
  fold q. destruct rest as [|y rest'].
  - cbn [length] in Hlen.
    rewrite bool_decide_eq_true_2 by lia.
    cbn [length seq zip zip_with segments_loop].
    assert (Z.of_nat i = Z.of_nat num - 1) as Hi by lia.
    destruct (Z.ltb_spec (h - Z.of_nat i * q) 1) as [Hlt|Hge]; [nia|].
    destruct (entry_color_some Htable lang i) as [color ->]. cbn [mbind option_bind].
    eexists. split; [reflexivity|].
    rewrite map_app. cbn. do 2 f_equal.
    unfold seg_height, seg_end, seg_start. cbn. rewrite Hi. lia.
  - cbn [length] in Hlen.
    rewrite bool_decide_eq_false_2 by lia.
    destruct (Z.ltb_spec q 1) as [Hlt|Hge]; [lia|].
    destruct (entry_color_some Htable lang i) as [color ->]. cbn [mbind option_bind].
    replace (Z.of_nat i * q + q) with (Z.of_nat (S i) * q) by lia.
    destruct (IH (S i) (segs ++ [(Z.of_nat i * q, Z.of_nat (S i) * q, color)]))
      as (out & Hout & Hmap); [cbn [length]; lia|discriminate|].
    exists out. split; [exact Hout|].
    rewrite Hmap, map_app, <- app_assoc. cbn [length]. cbn.
    do 2 f_equal; unfold seg_height, seg_end, seg_start; cbn.
    + lia.
    + rewrite Nat.sub_0_r. reflexivity.
Qed.

End SegmentSizing.

(** The bar past its first early return. *)
Lemma bar_of_visible `{LanguageTable} `{Pillow} (self : renderer)
    (x y w h : Z) (languages : list (str * Q))
    (scale_bars use_gradient show_border : bool) :
  take 5 languages <> [] ->
  _draw_vertical_language_bar self x y w h languages
                              scale_bars use_gradient show_border
  = let radius := Z.max 1 (w `div` 2) in
    let background :=
      RoundedRectangle (x, y, x + w, y + h) radius
                       (Some (secondary_color self)) None 1 in
    let visible_languages := take 5 languages in
    let total_pct := sum_pct visible_languages in
    if Qeq_bool total_pct (0 # 1) then Some [background]
    else
      segments ← compute_segments h scale_bars visible_languages total_pct;
      match segments with
      | [] => Some [background]
      | _ =>
          fill ← (if use_gradient then gradient_rows self w h segments
                  else Some (block_fill w segments));
          Some ([background; PasteMasked fill (w, h) radius (x, y)]
                ++ (if show_border then
                      [RoundedRectangle (x, y, x + w, y + h) radius None
                         (Some (language_bar_border_color self))
                         (Z.max 1 (self_s self 1))]
                    else []))
      end.
Proof.
  intros Hne. unfold _draw_vertical_language_bar.
  destruct (take 5 languages); [contradiction|reflexivity].
Qed.

(** C3: in equal mode, for one visible language or more (so for 1 to 5)
    and a bar height [h >= 0], every entry but the last is given the
    height [h // count], the last is given what is left of [h], the loop
    ends without error and the heights of its segments sum to [h]
    exactly; when [h >= count] the heights are [count - 1] times
    [h // count] followed by the remainder. *)
Theorem equal_mode_segments `{LanguageTable}
    (Htable : Forall (fun kv => is_hex_color kv.2 = true)
                     GITHUB_LANGUAGE_COLORS)
    (h : Z) (Hh : 0 <= h) (visible_languages : list (str * Q))
    (Hcount : (1 <= length visible_languages)%nat) (total_pct : Q) :
  let count := length visible_languages in
  (forall (i : nat) percentage current_y,
     (i < count - 1)%nat ->
     segment_height h false count total_pct current_y i percentage
     = h `div` Z.of_nat count) /\
  (forall percentage current_y,
     segment_height h false count total_pct current_y (count - 1) percentage
     = h - current_y) /\
  exists segments,
    compute_segments h false visible_languages total_pct = Some segments /\
    total_height segments = h /\
    (Z.of_nat count <= h ->
     map seg_height segments
     = replicate (count - 1) (h `div` Z.of_nat count)
       ++ [h - (Z.of_nat count - 1) * (h `div` Z.of_nat count)]).
Proof.
  intros count. split; [|split].
  - intros i p cy Hi. unfold segment_height.
    rewrite bool_decide_eq_false_2 by lia. reflexivity.
  - intros p cy. unfold segment_height.
    rewrite bool_decide_eq_true_2 by reflexivity. reflexivity.
  - assert (visible_languages <> []) as Hne.
    { intros ->. cbn in Hcount. lia. }
    destruct (equal_loop_sum Htable h count total_pct Hh Hcount
                visible_languages 0 0 [])
      as (segments & Hsegs & Hsum);
      [reflexivity|exact Hne|lia|reflexivity|].
    exists segments. split; [exact Hsegs|]. split; [exact Hsum|].
    intros Hfit.
    destruct (equal_loop_heights Htable h count total_pct Hcount Hfit
                visible_languages 0 [])
      as (segments' & Hsegs' & Hmap); [reflexivity|exact Hne|].
    assert (Some segments' = Some segments) as E
      by exact (eq_trans (eq_sym Hsegs') Hsegs).
    injection E as <-. exact Hmap.
Qed.

Lemma equal_mode_segments_witness :
  exists segments,
    @compute_segments sample_table 328 false
       [(lit "Python", 50 # 1); (lit "Go", 30 # 1); (lit "Zig", 20 # 1)]
       (100 # 1) = Some segments /\
    total_height segments = 328 /\
    map seg_height segments = [109; 109; 110].
Proof.
  destruct (@equal_mode_segments sample_table ltac:(repeat constructor)
              328 ltac:(lia)
              [(lit "Python", 50 # 1); (lit "Go", 30 # 1); (lit "Zig", 20 # 1)]
              ltac:(cbn; lia) (100 # 1))
    as (_ & _ & segments & Hs & Hsum & Hmap).
  exists segments. split; [exact Hs|]. split; [exact Hsum|].
  apply Hmap. cbn. lia.
Defined.

(** ** Nothing to draw *)

Section PanelProps.
Context `{LanguageTable} `{Pillow} `{FloatFormat}.
Hypothesis Htable :
  Forall (fun kv => is_hex_color kv.2 = true) GITHUB_LANGUAGE_COLORS.

(** The legend draws a dot and two texts for every entry. *)
Lemma legend_loop_some (self : renderer) (x : Z)
    (items : list (nat * (str * Q))) :
  forall current_y,
  exists ops,
    legend_loop self x items current_y = Some ops /\
    length ops = (3 * length items)%nat.
Proof.
  induction items as [|[i [lang pct]] rest IH]; intros cy.
  - exists []. split; reflexivity.
  - cbn [legend_loop].
    destruct (entry_color_some Htable lang i) as [color ->].
    cbn [mbind option_bind].
    destruct (IH (cy + self_s self 36)) as (more & -> & Hlen).
    cbn [mbind option_bind]. eexists. split; [reflexivity|].
    cbn [length app]. rewrite Hlen. lia.
Qed.

End PanelProps.

(** The language part of the section when some language is left. *)
Lemma panel_of_languages `{LanguageTable} `{Pillow} `{FloatFormat}
    (self : renderer) (st : stats) (languages_label : str) :
  section_languages st <> [] ->
  _draw_stats_section_languages self st languages_label
  = bar ← _draw_vertical_language_bar self (self_s self 558) (self_s self 180)
            (self_s self 11) (self_s self 164) (section_languages st)
            (default true (st_scale_language_bars st))
            (default true (st_language_gradient st))
            (default false (st_language_bar_border st));
    legend ← _draw_vertical_language_legend self
               (self_s self 558 + self_s self 30) (self_s self 180)
               (self_s self 164) (section_languages st);
    Some ([Text (self_s self 558 + self_s self 30, self_s self 140)
                languages_label (body_font self) (secondary_color self)]
          ++ bar ++ legend).
Proof.
  intros Hne. unfold _draw_stats_section_languages.
  destruct (section_languages st); [contradiction|reflexivity].
Qed.

(** C8, counterexample: one visible language with percentage 0.  The bar
    still draws its background track, and the section draws five calls in
    all (label, track, dot and two legend texts): the zero sum is not
    nothing to draw. *)
Lemma zero_sum_counterexample :
  let self := sample_renderer (2 # 1) in
  let languages := [(lit "Python", 0 # 1)] in
  let st := {| st_languages := Some languages;
               st_excluded_languages := None;
               st_scale_language_bars := None;
               st_language_gradient := None;
               st_language_bar_border := None |} in
  Qeq_bool (sum_pct (take 5 languages)) (0 # 1) = true /\
  @_draw_vertical_language_bar sample_table fixed_pitch self
     1116 360 22 328 languages true true false
  = Some [ @RoundedRectangle fixed_pitch (1116, 360, 1138, 688) 11
             (Some (86, 95, 137, 255)) None 1 ] /\
  (length <$> @_draw_stats_section_languages sample_table fixed_pitch
                 blank_format self st (lit "languages")) = Some 5%nat.
Proof. vm_compute. repeat split; reflexivity. Qed.

(** C8, as amended: with no language left after the exclusion filter, the
    section label, the bar and the legend are all skipped and no error is
    raised; with visible languages whose percentages sum to zero, the bar
    draws its background track only (no fill, no paste, no border, and no
    division), the label and the legend are still drawn, and no error is
    raised. *)
Theorem languages_panel_skips `{LanguageTable} `{Pillow} `{FloatFormat}
    (Htable : Forall (fun kv => is_hex_color kv.2 = true)
                     GITHUB_LANGUAGE_COLORS)
    (self : renderer) (st : stats) (languages_label : str) :
  let bar_x := self_s self 558 in
  let bar_y := self_s self 180 in
  let bar_w := self_s self 11 in
  let bar_h := self_s self 164 in
  let track :=
    RoundedRectangle (bar_x, bar_y, bar_x + bar_w, bar_y + bar_h)
                     (Z.max 1 (bar_w `div` 2))
                     (Some (secondary_color self)) None 1 in
  (section_languages st = [] ->
   _draw_stats_section_languages self st languages_label = Some []) /\
  (forall x y w h scale_bars use_gradient show_border,
     _draw_vertical_language_bar self x y w h [] scale_bars use_gradient
                                 show_border
     = Some [RoundedRectangle (x, y, x + w, y + h) (Z.max 1 (w `div` 2))
               (Some (secondary_color self)) None 1]) /\
  (section_languages st <> [] ->
   (sum_pct (take 5 (section_languages st)) == 0)%Q ->
   (forall scale_bars use_gradient show_border,
      _draw_vertical_language_bar self bar_x bar_y bar_w bar_h
        (section_languages st) scale_bars use_gradient show_border
      = Some [track]) /\
   exists legend,
     _draw_vertical_language_legend self (bar_x + self_s self 30) bar_y bar_h
       (section_languages st) = Some legend /\
     length legend = (3 * length (take 5 (section_languages st)))%nat /\
     _draw_stats_section_languages self st languages_label
     = Some ([ Text (bar_x + self_s self 30, self_s self 140) languages_label
                    (body_font self) (secondary_color self);
               track ] ++ legend)).
Proof.
  intros bar_x bar_y bar_w bar_h track.
  split; [|split].
  - intros Hnone. unfold _draw_stats_section_languages.
    rewrite Hnone. reflexivity.
  - reflexivity.
  - intros Hsome Hzero.
    assert (take 5 (section_languages st) <> []) as Hvis.
    { destruct (section_languages st); [contradiction|discriminate]. }
    assert (forall scale_bars use_gradient show_border,
              _draw_vertical_language_bar self bar_x bar_y bar_w bar_h
                (section_languages st) scale_bars use_gradient show_border
              = Some [track]) as Hbar.
    { intros sb ug bd. rewrite bar_of_visible by exact Hvis. cbv zeta.
      apply Qeq_bool_iff in Hzero. rewrite Hzero. reflexivity. }
    split; [exact Hbar|].
    destruct (legend_loop_some Htable self (bar_x + self_s self 30)
                (enumerate (take 5 (section_languages st))) bar_y)
      as (legend & Hleg & Hlen).
    exists legend. split; [exact Hleg|]. split.
    + rewrite Hlen. unfold enumerate.
      rewrite length_zip_with, length_seq. lia.
    + rewrite panel_of_languages by exact Hsome.
      fold bar_x bar_y bar_w bar_h.
      rewrite Hbar. cbn [mbind option_bind].
      unfold _draw_vertical_language_legend. rewrite Hleg.
      reflexivity.
Qed.

Lemma languages_panel_skips_witness :
  @_draw_stats_section_languages sample_table fixed_pitch blank_format
     (sample_renderer (2 # 1))
     {| st_languages := Some [(lit "Python", 60 # 1)];
        st_excluded_languages := Some [lit " python "];
        st_scale_language_bars := None;
        st_language_gradient := None;
        st_language_bar_border := None |}
     (lit "languages") = Some [].
Proof.
  refine (proj1 (@languages_panel_skips sample_table fixed_pitch blank_format
                   _ (sample_renderer (2 # 1)) _ (lit "languages")) _).
  - repeat constructor.
  - reflexivity.
Defined.

(** ** Gradient rows *)

Section GradientProps.
Variable self : renderer.
Variable segments : list segment.
Variable gradient_size : Z.
Variable row_y : Z.

(** The scan stops at the first segment that contains the row. *)
Lemma row_scan_first (rest : list segment) :
  forall (idx j : nat) (seg : segment),
    rest !! j = Some seg ->
    row_in_segment row_y seg ->
    (forall j' s, (j' < j)%nat -> rest !! j' = Some s -> ~ row_in_segment row_y s) ->
    row_scan self segments gradient_size row_y idx rest
    = color_in_segment segments gradient_size row_y (idx + j) seg.
Proof.
  unfold row_in_segment.
  induction rest as [|s rest IH]; intros idx j seg Hj Hin Hfirst;
    [discriminate|].
  cbn [row_scan]. destruct j as [|j].
  - injection Hj as ->. rewrite Nat.add_0_r.
    destruct (Z.leb_spec (seg_start seg) row_y); [|lia].
    destruct (Z.ltb_spec row_y (seg_end seg)); [|lia].
    reflexivity.
  - assert (~ (seg_start s <= row_y < seg_end s)) as Hout
      by (apply (Hfirst 0%nat); [lia|reflexivity]).
    replace ((seg_start s <=? row_y) && (row_y <? seg_end s)) with false.
    + rewrite (IH (S idx) j seg Hj Hin).
      * f_equal. lia.
      * intros j' s' Hlt Hs'. apply (Hfirst (S j')); [lia|exact Hs'].
    + symmetry. apply andb_false_iff.
      destruct (Z.leb_spec (seg_start s) row_y); [|left; reflexivity].
      destruct (Z.ltb_spec row_y (seg_end s)); [lia|right; reflexivity].
Qed.

Lemma row_scan_next_first_first (rest : list segment) :
  forall (idx j : nat) (seg : segment),
    rest !! j = Some seg ->
    row_in_segment row_y seg ->
    (forall j' s, (j' < j)%nat -> rest !! j' = Some s -> ~ row_in_segment row_y s) ->
    row_scan_next_first self segments gradient_size row_y idx rest
    = color_in_segment_next_first segments gradient_size row_y (idx + j) seg.
Proof.
  unfold row_in_segment.
  induction rest as [|s rest IH]; intros idx j seg Hj Hin Hfirst;
    [discriminate|].
  cbn [row_scan_next_first]. destruct j as [|j].
  - injection Hj as ->. rewrite Nat.add_0_r.
    destruct (Z.leb_spec (seg_start seg) row_y); [|lia].
    destruct (Z.ltb_spec row_y (seg_end seg)); [|lia].
    reflexivity.
  - assert (~ (seg_start s <= row_y < seg_end s)) as Hout
      by (apply (Hfirst 0%nat); [lia|reflexivity]).
    replace ((seg_start s <=? row_y) && (row_y <? seg_end s)) with false.
    + rewrite (IH (S idx) j seg Hj Hin).
      * f_equal. lia.
      * intros j' s' Hlt Hs'. apply (Hfirst (S j')); [lia|exact Hs'].
    + symmetry. apply andb_false_iff.
      destruct (Z.leb_spec (seg_start s) row_y); [|left; reflexivity].
      destruct (Z.ltb_spec row_y (seg_end s)); [lia|right; reflexivity].
Qed.

End GradientProps.

(** A row lies in both bands of a middle segment exactly when the segment
    is shorter than two bands. *)
Lemma bands_overlap_iff (start stop gradient_size : Z) :
  start < stop -> 0 < gradient_size ->
  (exists row_y, start <= row_y < stop /\
                 row_y - start < gradient_size /\
                 stop - row_y <= gradient_size)
  <-> stop - start < 2 * gradient_size.
Proof.
  intros Hlen Hg. split.
  - intros (row_y & Hin & Hprev & Hnext). lia.
  - intros Hshort. exists (Z.max start (stop - gradient_size)). lia.
Qed.

(** C9: in gradient mode, a row of a segment that lies in the band after
    the previous boundary takes the blend with the previous segment's
    colour, whether or not it also lies in the band before the next
    boundary (the test on the previous segment comes first); a row in the
    band before the next boundary only takes the blend with the next
    colour; a row outside both bands takes its segment's solid colour.
    Rows in both bands exist exactly when the segment is shorter than two
    bands, and there the other order of the tests gives the blend with
    the next colour, which is a different colour on [narrow_middle]. *)
Theorem gradient_row_color (self : renderer) (segments : list segment)
    (gradient_size row_y : Z) (k : nat) (seg : segment)
    (Hk : segments !! k = Some seg)
    (Hin : row_in_segment row_y seg)
    (Hfirst : forall j s, (j < k)%nat -> segments !! j = Some s ->
                          ~ row_in_segment row_y s) :
  let from_prev := row_y - seg_start seg in
  (forall k' prev,
     k = S k' -> segments !! k' = Some prev ->
     from_prev < gradient_size ->
     row_color self segments gradient_size row_y
     = Some (_blend_colors (seg_color prev) (seg_color seg)
               (py_float from_prev / py_float gradient_size)%Q)) /\
  (forall next,
     segments !! S k = Some next ->
     k = 0%nat \/ gradient_size <= from_prev ->
     seg_start next - row_y <= gradient_size ->
     gradient_size <> 0 ->
     row_color self segments gradient_size row_y
     = Some (_blend_colors (seg_color seg) (seg_color next)
               ((1 # 1) - py_float (seg_start next - row_y)
                          / py_float gradient_size)%Q)) /\
  (k = 0%nat \/ gradient_size <= from_prev ->
   (forall next, segments !! S k = Some next ->
                 gradient_size < seg_start next - row_y) ->
   row_color self segments gradient_size row_y = Some (seg_color seg)) /\
  (forall k' prev next,
     k = S k' -> segments !! k' = Some prev ->
     segments !! S k = Some next ->
     from_prev < gradient_size ->
     seg_start next - row_y <= gradient_size ->
     row_color_next_first self segments gradient_size row_y
     = Some (_blend_colors (seg_color seg) (seg_color next)
               ((1 # 1) - py_float (seg_start next - row_y)
                          / py_float gradient_size)%Q)) /\
  (forall start stop,
     start < stop -> 0 < gradient_size ->
     (exists y, start <= y < stop /\ y - start < gradient_size /\
                stop - y <= gradient_size)
     <-> stop - start < 2 * gradient_size) /\
  row_color self narrow_middle 8 12
    = Some (_blend_colors (0, 0, 0, 255) (80, 80, 80, 255) (2 # 8)) /\
  row_color self narrow_middle 8 12
    <> row_color_next_first self narrow_middle 8 12.
Proof.
  intros from_prev.
  assert (row_color self segments gradient_size row_y
          = color_in_segment segments gradient_size row_y k seg) as Hscan.
  { unfold row_color.
    rewrite (row_scan_first self segments gradient_size row_y segments 0 k seg);
      [reflexivity|assumption..]. }
  assert (row_color_next_first self segments gradient_size row_y
          = color_in_segment_next_first segments gradient_size row_y k seg)
    as Hscan'.
  { unfold row_color_next_first.
    rewrite (row_scan_next_first_first self segments gradient_size row_y
               segments 0 k seg); [reflexivity|assumption..]. }
  destruct seg as [[start stop] color].
  unfold segment in *.
  unfold row_in_segment, seg_start, seg_end in Hin. cbn [fst snd] in Hin.
  unfold seg_start, seg_color in from_prev |- *. cbn [fst snd] in from_prev |- *.
  assert (0 <= from_prev) as Hnn by (unfold from_prev; lia).
  repeat split.
  - intros k' [[ps pe] pc] -> Hprev Hband. rewrite Hscan.
    unfold color_in_segment. unfold segment in *; cbv beta iota zeta. rewrite Hprev. fold from_prev.
    destruct (Z.ltb_spec from_prev gradient_size); [|lia].
    unfold py_truediv.
    destruct (Z.eqb_spec gradient_size 0); [lia|]. reflexivity.
  - intros [[ns ne] nc] Hnext Hnoprev Hband Hg. rewrite Hscan.
    unfold seg_start. cbn [fst snd] in Hband |- *.
    assert (to_next_or_solid segments gradient_size row_y k color
            = Some (_blend_colors color nc
                      ((1 # 1) - py_float (ns - row_y)
                                 / py_float gradient_size)%Q)) as Hto.
    { unfold to_next_or_solid. unfold segment in *. rewrite Hnext. unfold segment in *; cbv beta iota zeta.
      destruct (Z.leb_spec (ns - row_y) gradient_size); [|lia].
      unfold py_truediv.
      destruct (Z.eqb_spec gradient_size 0); [contradiction|]. reflexivity. }
    unfold color_in_segment. unfold segment in *; cbv beta iota zeta.
    destruct k as [|k']; [exact Hto|].
    destruct Hnoprev as [Hk0|Hfar]; [discriminate|].
    destruct (segments !! k') as [[[ps pe] pc]|] eqn:Hprev.
    + fold from_prev.
      destruct (Z.ltb_spec from_prev gradient_size); [lia|exact Hto].
    + apply lookup_ge_None in Hprev. apply lookup_lt_Some in Hk. lia.
  - intros Hnoprev Hfar. rewrite Hscan.
    assert (to_next_or_solid segments gradient_size row_y k color
            = Some color) as Hto.
    { unfold to_next_or_solid. unfold segment in *.
      destruct (segments !! S k) as [[[ns ne] nc]|] eqn:Hnext; [|reflexivity].
      specialize (Hfar _ eq_refl). unfold seg_start in Hfar.
      cbn [fst snd] in Hfar.
      destruct (Z.leb_spec (ns - row_y) gradient_size); [lia|reflexivity]. }
    unfold color_in_segment. unfold segment in *; cbv beta iota zeta.
    destruct k as [|k']; [exact Hto|].
    destruct Hnoprev as [Hk0|Hfar']; [discriminate|].
    destruct (segments !! k') as [[[ps pe] pc]|] eqn:Hprev.
    + fold from_prev.
      destruct (Z.ltb_spec from_prev gradient_size); [lia|exact Hto].
    + apply lookup_ge_None in Hprev. apply lookup_lt_Some in Hk. lia.
  - intros k' prev [[ns ne] nc] -> Hprev Hnext Hband Hband'.
    rewrite Hscan'. unfold seg_start in Hband' |- *.
    cbn [fst snd] in Hband' |- *.
    unfold color_in_segment_next_first. unfold segment in *; cbv beta iota zeta. rewrite Hnext.
    unfold segment in *; cbv beta iota zeta.
    destruct (Z.leb_spec (ns - row_y) gradient_size); [|lia].
    unfold py_truediv.
    destruct (Z.eqb_spec gradient_size 0); [lia|]. reflexivity.
  - apply bands_overlap_iff; assumption.
  - apply bands_overlap_iff; assumption.
  - vm_compute. discriminate.
Qed.

Lemma gradient_row_color_witness :
  row_color (sample_renderer (1 # 1)) narrow_middle 8 12
  = Some (20, 20, 20, 255).
Proof.
  pose proof (gradient_row_color (sample_renderer (1 # 1)) narrow_middle 8 12
                1 (10, 14, (80, 80, 80, 255)) eq_refl) as Hthm.
  destruct Hthm as (Hprev & _).
  - unfold row_in_segment. cbn. lia.
  - intros j s Hj Hs. destruct j as [|j]; [|lia].
    injection Hs as <-. unfold row_in_segment. cbn. lia.
  - rewrite (Hprev 0%nat (0, 10, (0, 0, 0, 255)) eq_refl eq_refl);
      [reflexivity|cbn; lia].
Defined.

(** ** Strings: strip, split and join *)

Lemma lstrip_decomp (t : str) :
  exists sp, Forall (fun c => is_space c = true) sp /\ t = sp ++ lstrip t /\
             (lstrip t = [] \/ exists c r, lstrip t = c :: r /\ not_space c).
Proof.
  induction t as [|c r IH].
  - exists []. repeat split; [constructor|left; reflexivity].
  - cbn [lstrip]. destruct (is_space c) eqn:Hc.
    + destruct IH as (sp & Hsp & Heq & Hhead).
      exists (c :: sp). split; [constructor; assumption|].
      split; [cbn; f_equal; exact Heq|exact Hhead].
    + exists []. split; [constructor|]. split; [reflexivity|].
      right. exists c, r. split; [reflexivity|exact Hc].
Qed.

Lemma rstrip_decomp (t : str) :
  exists sp, Forall (fun c => is_space c = true) sp /\ t = rstrip t ++ sp /\
             (rstrip t = [] \/ exists m d, rstrip t = m ++ [d] /\ not_space d).
Proof.
  unfold rstrip.
  destruct (lstrip_decomp (rev t)) as (sp & Hsp & Heq & Hhead).
  exists (rev sp). split.
  - rewrite Forall_forall in *. intros c Hc. apply Hsp.
    apply list_elem_of_In. apply in_rev. apply list_elem_of_In. exact Hc.
  - split.
    + rewrite <- rev_app_distr, <- Heq, rev_involutive. reflexivity.
    + destruct Hhead as [->|(c & r & -> & Hc)]; [left; reflexivity|].
      right. exists (rev r), c. split; [reflexivity|exact Hc].
Qed.

Lemma strip_nil : strip [] = [].
Proof. reflexivity. Qed.

(** A stripped string is empty or trimmed, and the string it comes from
    is that string between two runs of blanks. *)
Lemma strip_decomp (t : str) :
  exists sp1 sp2,
    Forall (fun c => is_space c = true) sp1 /\
    Forall (fun c => is_space c = true) sp2 /\
    t = sp1 ++ strip t ++ sp2 /\
    (strip t = [] \/ trimmed (strip t)).
Proof.
  unfold strip.
  destruct (lstrip_decomp t) as (sp1 & Hsp1 & Ht & Hhead).
  destruct (rstrip_decomp (lstrip t)) as (sp2 & Hsp2 & Hl & Hlast).
  exists sp1, sp2. split; [exact Hsp1|]. split; [exact Hsp2|].
  split; [rewrite <- Hl; exact Ht|].
  destruct Hlast as [Hnil|(m & d & Hr & Hd)]; [left; exact Hnil|].
  right. destruct Hhead as [Hnil|(c & r & Hc & Hcs)].
  - rewrite Hnil in Hr. cbn in Hr. destruct m; discriminate.
  - rewrite Hr in Hl. rewrite Hc in Hl.
    exists (match m with [] => d | x :: _ => x end), d.
    rewrite Hr. split; [destruct m; reflexivity|].
    split; [apply last_snoc|]. split; [|exact Hd].
    destruct m as [|x m']; [exact Hd|].
    cbn in Hl. injection Hl as -> _. exact Hcs.
Qed.

Lemma strip_trimmed (s : str) : trimmed s -> strip s = s.
Proof.
  intros (c & d & Hh & Hl & Hc & Hd).
  apply head_Some in Hh as [r ->].
  unfold strip. cbn [lstrip]. rewrite Hc.
  apply last_Some in Hl as [m Hm]. rewrite Hm.
  unfold rstrip. rewrite rev_app_distr. cbn [rev app lstrip]. rewrite Hd.
  change (d :: rev m) with (rev [d] ++ rev m).
  rewrite <- rev_app_distr, rev_involutive. reflexivity.
Qed.

Lemma strip_idempotent (t : str) : strip (strip t) = strip t.
Proof.
  destruct (strip_decomp t) as (_ & _ & _ & _ & _ & [->|Ht]);
    [reflexivity|apply strip_trimmed; exact Ht].
Qed.

Lemma split_from_blanks (sp : str) :
  Forall (fun c => is_space c = true) sp ->
  forall acc, split_from acc sp = match acc with [] => [] | _ => [acc] end.
Proof.
  induction 1 as [|c r Hc Hr IH]; intros acc; [reflexivity|].
  cbn [split_from]. rewrite Hc. rewrite (IH []).
  destruct acc; reflexivity.
Qed.

Lemma split_from_skip_tail (u sp : str) :
  Forall (fun c => is_space c = true) sp ->
  forall acc, split_from acc (u ++ sp) = split_from acc u.
Proof.
  intros Hsp. induction u as [|c r IH]; intros acc.
  - cbn [app split_from]. apply split_from_blanks. exact Hsp.
  - cbn [app split_from]. destruct (is_space c).
    + rewrite (IH []). reflexivity.
    + apply IH.
Qed.

Lemma split_skip_head (sp u : str) :
  Forall (fun c => is_space c = true) sp ->
  split (sp ++ u) = split u.
Proof.
  unfold split. induction 1 as [|c r Hc Hr IH]; [reflexivity|].
  cbn [app split_from]. rewrite Hc. exact IH.
Qed.

(** Splitting the stripped text gives the words of the text. *)
Lemma split_strip (t : str) : split (strip t) = split t.
Proof.
  destruct (strip_decomp t) as (sp1 & sp2 & H1 & H2 & Ht & _).
  rewrite Ht at 2. rewrite split_skip_head by exact H1.
  unfold split. rewrite split_from_skip_tail by exact H2. reflexivity.
Qed.

Lemma split_from_good (s : str) :
  forall acc, Forall not_space acc -> Forall good_word (split_from acc s).
Proof.
  induction s as [|c r IH]; intros acc Hacc.
  - cbn [split_from]. destruct acc as [|a acc'].
    + constructor.
    + constructor; [|constructor]. split; [discriminate|exact Hacc].
  - cbn [split_from]. destruct (is_space c) eqn:Hc.
    + destruct acc as [|a acc'].
      * apply IH. constructor.
      * constructor; [split; [discriminate|exact Hacc]|].
        apply IH. constructor.
    + apply IH. apply Forall_app. split; [exact Hacc|].
      constructor; [exact Hc|constructor].
Qed.

Lemma split_good (s : str) : Forall good_word (split s).
Proof. apply split_from_good. constructor. Qed.

Lemma good_word_trimmed (w : str) : good_word w -> trimmed w.
Proof.
  intros [Hne Hall].
  destruct (proj2 (head_is_Some w) Hne) as [c Hc].
  destruct (proj2 (last_is_Some w) Hne) as [d Hd].
  exists c, d. split; [exact Hc|]. split; [exact Hd|].
  rewrite Forall_forall in Hall.
  split; apply Hall; [eapply head_Some_elem_of|eapply last_Some_elem_of]; eauto.
Qed.

Lemma trimmed_glue (a b : str) :
  trimmed a -> trimmed b -> trimmed (a ++ SPACE ++ b).
Proof.
  intros (c & _ & Hc & _ & Hcs & _) (_ & d & _ & Hd & _ & Hds).
  exists c, d. split.
  - rewrite head_app, Hc. reflexivity.
  - split; [|split; assumption].
    rewrite app_assoc, last_app, Hd. reflexivity.
Qed.

Lemma join_cons (sep w : str) (ws : list str) :
  ws <> [] -> join sep (w :: ws) = w ++ sep ++ join sep ws.
Proof. destruct ws; [contradiction|reflexivity]. Qed.

Lemma join_snoc (sep : str) (ws : list str) (w : str) :
  ws <> [] -> join sep (ws ++ [w]) = join sep ws ++ sep ++ w.
Proof.
  induction ws as [|x r IH]; intros Hne; [contradiction|].
  destruct r as [|y r'].
  - reflexivity.
  - change ((x :: y :: r') ++ [w]) with (x :: ((y :: r') ++ [w])).
    rewrite join_cons by (destruct r'; discriminate).
    rewrite IH by discriminate.
    rewrite (join_cons sep x (y :: r')) by discriminate.
    rewrite <- !app_assoc. reflexivity.
Qed.

Lemma join_app (sep : str) (a b : list str) :
  a <> [] -> b <> [] -> join sep (a ++ b) = join sep a ++ sep ++ join sep b.
Proof.
  intros Ha Hb. induction a as [|x r IH]; [contradiction|].
  destruct r as [|y r'].
  - cbn [app]. apply join_cons. exact Hb.
  - change ((x :: y :: r') ++ b) with (x :: ((y :: r') ++ b)).
    rewrite join_cons by discriminate.
    rewrite IH by discriminate.
    rewrite (join_cons sep x (y :: r')) by discriminate.
    rewrite <- !app_assoc. reflexivity.
Qed.

Lemma join_trimmed (ws : list str) :
  ws <> [] -> Forall good_word ws -> trimmed (join SPACE ws).
Proof.
  induction ws as [|w r IH]; intros Hne Hall; [contradiction|].
  inversion Hall as [|? ? Hw Hr]; subst.
  destruct r as [|y r'].
  - apply good_word_trimmed. exact Hw.
  - rewrite join_cons by discriminate.
    apply trimmed_glue; [apply good_word_trimmed; exact Hw|].
    apply IH; [discriminate|exact Hr].
Qed.

Lemma trimmed_not_nil (s : str) : trimmed s -> s <> [].
Proof. intros (c & _ & Hc & _) ->. discriminate. Qed.

(** Joining the joined groups is joining all the words. *)
Lemma join_concat (groups : list (list str)) :
  Forall (fun g => g <> []) groups ->
  join SPACE (map (join SPACE) groups) = join SPACE (concat groups).
Proof.
  induction groups as [|g r IH]; intros Hall; [reflexivity|].
  inversion Hall as [|? ? Hg Hr]; subst.
  destruct r as [|g2 r'].
  - cbn. rewrite app_nil_r. reflexivity.
  - cbn [map concat].
    rewrite join_cons by discriminate.
    rewrite join_app; [|exact Hg|].
    + f_equal. f_equal. apply (IH Hr).
    + inversion Hr; subst. cbn [concat]. destruct g2; [contradiction|discriminate].
Qed.

(** ** Greedy wrap *)

Section GreedyProps.
Context `{Pillow} (fnt : font) (max_width : Z).

Lemma greedy_candidate_first (w : str) :
  good_word w -> strip ([] ++ SPACE ++ w) = w.
Proof.
  intros Hw. change ([] ++ SPACE ++ w) with (" "%char :: w).
  unfold strip. cbn [lstrip].
  change (is_space " "%char) with true. cbn iota.
  apply (strip_trimmed w). apply good_word_trimmed. exact Hw.
Qed.

Lemma greedy_candidate_more (cur : list str) (w : str) :
  cur <> [] -> Forall good_word cur -> good_word w ->
  strip (join SPACE cur ++ SPACE ++ w) = join SPACE (cur ++ [w]).
Proof.
  intros Hne Hcur Hw. rewrite join_snoc by exact Hne.
  apply strip_trimmed. apply trimmed_glue.
  - apply join_trimmed; assumption.
  - apply good_word_trimmed. exact Hw.
Qed.

Lemma line_ok_single (w : str) : line_ok fnt max_width [w].
Proof.
  split; [discriminate|].
  destruct (Z.le_gt_cases (text_width fnt w) max_width) as [Hfit|Hwide].
  - left. exact Hfit.
  - right. exists w. split; [reflexivity|lia].
Qed.

(** The loop keeps its lines as groups of consecutive words. *)
Lemma greedy_fold (words : list str) :
  Forall good_word words ->
  forall groups cur,
    Forall (line_ok fnt max_width) groups ->
    Forall good_word cur ->
    cur = [] \/ line_ok fnt max_width cur ->
    exists groups' cur',
      fold_left (greedy_step fnt max_width) words
                (map (join SPACE) groups, join SPACE cur)
      = (map (join SPACE) groups', join SPACE cur') /\
      Forall (line_ok fnt max_width) groups' /\
      Forall good_word cur' /\
      (cur' = [] \/ line_ok fnt max_width cur') /\
      concat groups' ++ cur' = concat groups ++ cur ++ words.
Proof.
  induction words as [|w rest IH]; intros Hwords groups cur Hgroups Hcur Hok.
  - exists groups, cur. rewrite app_nil_r. repeat split; assumption.
  - inversion Hwords as [|? ? Hw Hrest]; subst.
    cbn [fold_left]. unfold greedy_step at 2.
    destruct cur as [|c cur'].
    + (* an empty current line *)
      change (join SPACE []) with (@nil ascii).
      rewrite greedy_candidate_first by exact Hw.
      destruct (Z.leb_spec (text_width fnt w) max_width) as [Hfit|Hwide].
      * destruct (IH Hrest groups [w] Hgroups) as (g' & c' & Hf & H1 & H2 & H3 & H4).
        { constructor; [exact Hw|constructor]. }
        { right. apply line_ok_single. }
        exists g', c'. split; [exact Hf|]. split; [exact H1|]. split; [exact H2|]. split; [exact H3|].
        rewrite H4. reflexivity.
      * destruct (IH Hrest (groups ++ [[w]]) []) as (g' & c' & Hf & H1 & H2 & H3 & H4).
        { apply Forall_app. split; [exact Hgroups|].
          constructor; [apply line_ok_single|constructor]. }
        { constructor. }
        { left. reflexivity. }
        exists g', c'. rewrite map_app in Hf. split; [exact Hf|].
        split; [exact H1|]. split; [exact H2|]. split; [exact H3|].
        rewrite H4, concat_app. cbn. rewrite <- !app_assoc. reflexivity.
    + (* a current line with words *)
      set (cur := c :: cur') in *.
      assert (cur <> []) as Hne by discriminate.
      rewrite greedy_candidate_more by assumption.
      assert (join SPACE cur <> []) as Hjoin
        by (apply trimmed_not_nil, join_trimmed; assumption).
      destruct (Z.leb_spec (text_width fnt (join SPACE (cur ++ [w]))) max_width)
        as [Hfit|Hwide].
      * destruct (IH Hrest groups (cur ++ [w]) Hgroups)
          as (g' & c' & Hf & H1 & H2 & H3 & H4).
        { apply Forall_app. split; [exact Hcur|].
          constructor; [exact Hw|constructor]. }
        { right. split; [destruct cur; discriminate|]. left. exact Hfit. }
        exists g', c'. split; [exact Hf|]. split; [exact H1|]. split; [exact H2|]. split; [exact H3|].
        rewrite H4, <- !app_assoc. reflexivity.
      * destruct (join SPACE cur) as [|jc jr] eqn:Hj; [contradiction|].
        rewrite <- Hj.
        destruct (IH Hrest (groups ++ [cur]) [w])
          as (g' & c' & Hf & H1 & H2 & H3 & H4).
        { apply Forall_app. split; [exact Hgroups|].
          constructor; [|constructor].
          destruct Hok as [Hnil|Hok]; [contradiction|exact Hok]. }
        { constructor; [exact Hw|constructor]. }
        { right. apply line_ok_single. }
        exists g', c'. rewrite map_app in Hf. split; [exact Hf|].
        split; [exact H1|]. split; [exact H2|]. split; [exact H3|].
        rewrite H4, concat_app. cbn. rewrite app_nil_r, <- !app_assoc.
        reflexivity.
Qed.

End GreedyProps.

(** C6: the lines of the greedy wrapper are the words of the text, in
    order and grouped: joining the lines with single blanks gives the
    same string as joining the words; every line fits the maximum width,
    except a line that is one word wider than the maximum, which stands
    alone and whole. *)
Theorem greedy_wrap_correct `{Pillow} (fnt : font) (text : str)
    (max_width : Z) :
  exists groups,
    _wrap_text_to_width fnt text max_width = map (join SPACE) groups /\
    concat groups = split text /\
    Forall (line_ok fnt max_width) groups /\
    join SPACE (_wrap_text_to_width fnt text max_width)
    = join SPACE (split text) /\
    Forall (fun line =>
              text_width fnt line <= max_width \/
              (line ∈ split text /\ max_width < text_width fnt line))
           (_wrap_text_to_width fnt text max_width).
Proof.
  assert (exists groups,
            _wrap_text_to_width fnt text max_width = map (join SPACE) groups /\
            concat groups = split text /\
            Forall (line_ok fnt max_width) groups) as (groups & Hw & Hc & Hok).
  { unfold _wrap_text_to_width. rewrite <- (split_strip text).
    destruct (strip text) as [|c r] eqn:Hs.
    - exists []. repeat split. constructor.
    - rewrite <- Hs.
      destruct (greedy_fold fnt max_width (split (strip text))
                  (split_good _) [] [])
        as (g' & c' & Hf & H1 & H2 & H3 & H4);
        [constructor|constructor|left; reflexivity|].
      change (map (join SPACE) [], join SPACE []) with (@nil str, @nil ascii) in Hf.
      rewrite Hf. cbn in H4.
      destruct c' as [|w c''].
      + exists g'. rewrite app_nil_r in H4. repeat split; assumption.
      + set (cur := w :: c'') in *.
        assert (join SPACE cur <> []) as Hjoin
          by (apply trimmed_not_nil, join_trimmed; [discriminate|assumption]).
        destruct (join SPACE cur) as [|jc jr] eqn:Hj; [contradiction|].
        rewrite <- Hj. exists (g' ++ [cur]).
        rewrite map_app, concat_app. cbn. rewrite app_nil_r.
        split; [reflexivity|]. split; [exact H4|].
        apply Forall_app. split; [exact H1|].
        constructor; [|constructor].
        destruct H3 as [Hnil|H3]; [discriminate|exact H3]. }
  exists groups. split; [exact Hw|]. split; [exact Hc|]. split; [exact Hok|].
  split.
  - rewrite Hw, <- Hc. apply join_concat.
    eapply Forall_impl; [exact Hok|]. intros g [Hg _]. exact Hg.
  - rewrite Hw. rewrite Forall_forall. intros line Hline.
    apply list_elem_of_In, in_map_iff in Hline as (g & <- & Hg).
    rewrite Forall_forall in Hok.
    destruct (Hok g (proj2 (list_elem_of_In _ _) Hg))
      as [_ [Hfit|(w & -> & Hwide)]]; [left; exact Hfit|].
    right. split; [|exact Hwide].
    rewrite <- Hc. cbn [join].
    apply list_elem_of_In, in_concat. exists [w].
    split; [exact Hg|left; reflexivity].
Qed.

(** ** Balanced wrap: the dynamic program *)

Section BalancedProps.
Context `{Pillow} (fnt : font) (words : list str) (max_width : Z).

Local Abbreviation n := (length words).
Local Abbreviation W := (line_width fnt words).
Local Abbreviation P := (pen fnt words max_width).

Hypothesis Hword : forall i, (i < n)%nat -> W i (S i) <= max_width.
Hypothesis Hnonneg : forall i j, 0 <= W i j.
Hypothesis Hmono : forall i j, (i < j)%nat -> (j < n)%nat -> W i j <= W i (S j).
Hypothesis Hbound : Z.of_nat n * (max_width * max_width) < inf.

Lemma pen_unfold (i j : nat) :
  P i j = (max_width - W i j) * (max_width - W i j).
Proof. reflexivity. Qed.

Lemma pen_nonneg (i j : nat) : 0 <= P i j.
Proof. rewrite pen_unfold. apply Z.square_nonneg. Qed.

Lemma pen_bounded (i j : nat) :
  W i j <= max_width -> P i j <= max_width * max_width.
Proof. intros Hfit. rewrite pen_unfold. pose proof (Hnonneg i j). nia. Qed.

(** Past a line end that overflows, every line end overflows: the
    [break] loses nothing. *)
Lemma overflow_onwards (i m : nat) :
  (i < m)%nat -> max_width < W i m ->
  forall j, (m <= j <= n)%nat -> max_width < W i j.
Proof.
  intros Him Hover j [Hmj Hjn].
  induction j as [|j IH]; [replace m with 0%nat in * by lia; lia|].
  destruct (decide (m = S j)) as [->|Hne]; [exact Hover|].
  assert (max_width < W i j) by (apply IH; lia).
  pose proof (Hmono i j ltac:(lia) ltac:(lia)). lia.
Qed.

Lemma inner_loop_ok (i : nat) (Hi : (i < n)%nat)
    (cost0 : list Z) (breaks0 : list nat)
    (Hfirst : P i (S i) + cost0 !!! S i < inf) :
  forall len m cost breaks,
    (m + len = S n)%nat -> (i < m)%nat ->
    inner_inv fnt words max_width i m cost breaks ->
    (forall k, k <> i ->
       cost !!! k = cost0 !!! k /\ breaks !!! k = breaks0 !!! k) ->
    inner_done fnt words max_width i cost0 breaks0
      (inner_loop fnt words max_width i (seq m len) cost breaks).1
      (inner_loop fnt words max_width i (seq m len) cost breaks).2.
Proof.
  induction len as [|len IH]; intros m cost breaks Hlen Him Hinv Hframe.
  - (* the range is exhausted *)
    cbn [seq inner_loop fst snd].
    destruct Hinv as (Hlc & Hlb & Hfit & Hle & _ & Hbest).
    destruct Hbest as (Hb & Hcost & Hinf & Hstrict); [lia|].
    unfold inner_done; cbv zeta.
    split; [exact Hlc|]. split; [exact Hlb|]. split; [exact Hframe|].
    split; [lia|]. split; [apply Hfit; lia|]. split; [exact Hcost|].
    split; [exact Hinf|]. split.
    + intros j Hj _. apply Hle. lia.
    + intros j Hj _. apply Hstrict. lia.
  - cbn [seq inner_loop]. cbv zeta.
    destruct (Z.gtb_spec (W i m) max_width) as [Hover|Hfits].
    + (* break *)
      cbn [fst snd].
      destruct Hinv as (Hlc & Hlb & Hfit & Hle & _ & Hbest).
      assert (S i < m)%nat as Hlater.
      { destruct (decide (m = S i)) as [->|]; [|lia].
        pose proof (Hword i Hi). lia. }
      destruct Hbest as (Hb & Hcost & Hinf & Hstrict); [exact Hlater|].
      unfold inner_done; cbv zeta.
      split; [exact Hlc|]. split; [exact Hlb|]. split; [exact Hframe|].
      split; [lia|]. split; [apply Hfit; lia|]. split; [exact Hcost|].
      split; [exact Hinf|]. split.
      * intros j Hj Hjfit. apply Hle.
        destruct (decide (j < m)%nat); [lia|].
        pose proof (overflow_onwards i m Him Hover j ltac:(lia)). lia.
      * intros j Hj _. apply Hstrict. lia.
    + cbv zeta. rewrite <- (pen_unfold i m).
      destruct Hinv as (Hlc & Hlb & Hfit & Hle & Hinit & Hbest).
      assert (cost !!! m = cost0 !!! m) as Hm by (apply Hframe; lia).
      destruct (Z.ltb_spec (P i m + cost !!! m) (cost !!! i)) as [Hbetter|Hworse].
      * (* a strictly better line end *)
        apply (IH (S m)); [lia|lia| |].
        -- unfold inner_inv. rewrite !length_insert.
           rewrite list_lookup_total_insert_eq by lia.
           split; [exact Hlc|]. split; [exact Hlb|].
           split.
           { intros j Hj. destruct (decide (j = m)) as [->|]; [lia|].
             apply Hfit. lia. }
           split.
           { intros j Hj. rewrite list_lookup_total_insert_ne by lia.
             destruct (decide (j = m)) as [->|]; [lia|].
             pose proof (Hle j ltac:(lia)). lia. }
           split; [lia|]. intros _.
           rewrite list_lookup_total_insert_eq by lia.
           rewrite list_lookup_total_insert_ne by lia.
           split; [lia|]. split; [reflexivity|]. split.
           { destruct (decide (m = S i)) as [->|].
             - rewrite Hm. exact Hfirst.
             - destruct Hbest as (_ & _ & Hinf & _); [lia|]. lia. }
           intros j Hj. rewrite list_lookup_total_insert_ne by lia.
           pose proof (Hle j ltac:(lia)). lia.
        -- intros k Hk. rewrite !list_lookup_total_insert_ne by congruence.
           apply Hframe. exact Hk.
      * (* no improvement *)
        assert (S i < m)%nat as Hlater.
        { destruct (decide (m = S i)) as [->|]; [|lia].
          rewrite (Hinit eq_refl) in Hworse. rewrite Hm in Hworse. lia. }
        apply (IH (S m)); [lia|lia| |exact Hframe].
        unfold inner_inv.
        split; [exact Hlc|]. split; [exact Hlb|].
        split.
        { intros j Hj. destruct (decide (j = m)) as [->|]; [lia|].
          apply Hfit. lia. }
        split.
        { intros j Hj. destruct (decide (j = m)) as [->|]; [lia|].
          apply Hle. lia. }
        split; [lia|]. intros _.
        destruct Hbest as (Hb & Hcost & Hinf & Hstrict); [exact Hlater|].
        split; [lia|]. split; [exact Hcost|]. split; [exact Hinf|exact Hstrict].
Qed.

Lemma solved_frame (cost cost' : list Z) (breaks breaks' : list nat) (k : nat) :
  (forall j, (k <= j)%nat ->
     cost' !!! j = cost !!! j /\ breaks' !!! j = breaks !!! j) ->
  solved fnt words max_width cost breaks k ->
  solved fnt words max_width cost' breaks' k.
Proof.
  intros Hsame (Hb & Hfit & Hcost & Hrange & Hopt & Hstrict).
  unfold solved; cbv zeta.
  destruct (Hsame k ltac:(lia)) as [-> ->].
  destruct (Hsame (breaks !!! k) ltac:(lia)) as [-> _].
  split; [exact Hb|]. split; [exact Hfit|]. split; [exact Hcost|].
  split; [exact Hrange|]. split.
  - intros j Hj Hjfit. destruct (Hsame j ltac:(lia)) as [-> _].
    apply Hopt; assumption.
  - intros j Hj Hjfit. destruct (Hsame j ltac:(lia)) as [-> _].
    apply Hstrict; assumption.
Qed.

Lemma solved_cost_range (cost : list Z) (breaks : list nat) (k : nat) :
  (k <= n)%nat -> cost !!! n = 0 ->
  (forall k', (k <= k' < n)%nat -> solved fnt words max_width cost breaks k') ->
  0 <= cost !!! k <= Z.of_nat (n - k) * (max_width * max_width).
Proof.
  intros Hk Hn Hsolved.
  destruct (decide (k = n)) as [->|Hne].
  - rewrite Hn, Nat.sub_diag. lia.
  - destruct (Hsolved k ltac:(lia)) as (_ & _ & _ & Hrange & _). exact Hrange.
Qed.

(** One round of the outer loop. *)
Lemma outer_step_ok (i : nat) (cost : list Z) (breaks : list nat) :
  (i < n)%nat ->
  dp_inv fnt words max_width (S i) cost breaks ->
  dp_inv fnt words max_width i
    (inner_loop fnt words max_width i (seq (S i) (n - i)) cost breaks).1
    (inner_loop fnt words max_width i (seq (S i) (n - i)) cost breaks).2.
Proof.
  intros Hi (Hlc & Hlb & Hn & Huntouched & Hsolved).
  pose proof (solved_cost_range cost breaks (S i) ltac:(lia) Hn Hsolved)
    as Hnext.
  pose proof (pen_bounded i (S i) (Hword i Hi)) as Hpen.
  pose proof (pen_nonneg i (S i)) as Hpen0.
  assert (0 <= max_width * max_width) as HM by apply Z.square_nonneg.
  assert (Z.of_nat (n - S i) * (max_width * max_width)
          + max_width * max_width
          = Z.of_nat (n - i) * (max_width * max_width)) as Hsum.
  { replace (Z.of_nat (n - i)) with (Z.of_nat (n - S i) + 1) by lia. ring. }
  assert (Z.of_nat (n - i) * (max_width * max_width)
          <= Z.of_nat n * (max_width * max_width)) as Hle.
  { apply Z.mul_le_mono_nonneg_r; [exact HM|lia]. }
  assert (P i (S i) + cost !!! S i < inf) as Hfirst by lia.
  pose proof (inner_loop_ok i Hi cost breaks Hfirst (n - i) (S i) cost breaks)
    as Hdone.
  destruct Hdone as (Hlc' & Hlb' & Hframe & Hb & Hfit & Hcost & Hinf & Hopt & Hstrict).
  { lia. }
  { lia. }
  { unfold inner_inv; cbv zeta.
    split; [exact Hlc|]. split; [exact Hlb|].
    split; [intros j Hj; lia|]. split; [intros j Hj; lia|].
    split; [intros _; apply Huntouched; lia|]. intros Hcontra. lia. }
  { intros k _. split; reflexivity. }
  set (cost' := (inner_loop fnt words max_width i (seq (S i) (n - i)) cost breaks).1) in *.
  set (breaks' := (inner_loop fnt words max_width i (seq (S i) (n - i)) cost breaks).2) in *.
  unfold dp_inv; cbv zeta.
  split; [exact Hlc'|]. split; [exact Hlb'|].
  split; [destruct (Hframe n ltac:(lia)) as [-> _]; exact Hn|].
  split.
  - intros k Hk. destruct (Hframe k ltac:(lia)) as [-> _].
    apply Huntouched. lia.
  - intros k Hk. destruct (decide (k = i)) as [->|Hne].
    + unfold solved; cbv zeta.
      split; [exact Hb|]. split; [exact Hfit|]. split; [exact Hcost|].
      split; [|split; [exact Hopt|exact Hstrict]].
      split.
      * rewrite Hcost. pose proof (pen_nonneg i (breaks' !!! i)).
        destruct (Hframe (breaks' !!! i) ltac:(lia)) as [-> _].
        pose proof (solved_cost_range cost breaks (breaks' !!! i)
                      ltac:(lia) Hn
                      ltac:(intros; apply Hsolved; lia)). lia.
      * pose proof (Hopt (S i) ltac:(lia) (Hword i Hi)) as H1.
        destruct (Hframe (S i) ltac:(lia)) as [E _]. rewrite E in H1. lia.
    + apply (solved_frame cost cost' breaks breaks').
      * intros j Hj. apply Hframe. lia.
      * apply Hsolved. lia.
Qed.

Lemma outer_loop_ok (i : nat) :
  (i <= n)%nat ->
  forall cb : list Z * list nat,
    dp_inv fnt words max_width i cb.1 cb.2 ->
    dp_inv fnt words max_width 0
      (fold_left
         (fun cb i => inner_loop fnt words max_width i (seq (S i) (n - i))
                                 cb.1 cb.2)
         (rev (seq 0 i)) cb).1
      (fold_left
         (fun cb i => inner_loop fnt words max_width i (seq (S i) (n - i))
                                 cb.1 cb.2)
         (rev (seq 0 i)) cb).2.
Proof.
  induction i as [|i IH]; intros Hi cb Hinv; [exact Hinv|].
  rewrite seq_S, rev_app_distr. cbn [rev app fold_left Nat.add].
  apply IH; [lia|].
  apply outer_step_ok; [lia|exact Hinv].
Qed.

(** The arrays the two loops leave behind are final everywhere. *)
Lemma dp_table_ok :
  dp_inv fnt words max_width 0
         (dp_table fnt words max_width).1 (dp_table fnt words max_width).2.
Proof.
  unfold dp_table; cbv zeta.
  apply (outer_loop_ok n (Nat.le_refl _)
           (<[n := 0]> (replicate (S n) inf), replicate n n)).
  unfold dp_inv; cbv zeta. cbn [fst snd].
  rewrite length_insert, !length_replicate.
  split; [reflexivity|]. split; [reflexivity|].
  split.
  - apply list_lookup_total_insert_eq. rewrite length_replicate. lia.
  - split; [|intros k Hk; lia].
    intros k Hk. rewrite list_lookup_total_insert_ne by lia.
    apply lookup_total_replicate_2. lia.
Qed.

Lemma prefix_slice (g r : list str) (k : nat) :
  g ++ r = drop k words ->
  slice words k (k + length g) = g /\ drop (k + length g) words = r.
Proof.
  intros Hg. unfold slice.
  replace (k + length g - k)%nat with (length g) by lia.
  rewrite <- Hg, take_app_length. split; [reflexivity|].
  rewrite <- drop_drop, <- Hg. apply drop_app_length.
Qed.

Section Solved.
Variables (cost : list Z) (breaks : list nat).
Hypothesis Hinv : dp_inv fnt words max_width 0 cost breaks.

(** No feasible layout of the words from [k] on is cheaper than
    [cost[k]]. *)
Lemma cost_lower_bound (Q : list (list str)) :
  forall k, (k <= n)%nat ->
    concat Q = drop k words ->
    feasible fnt max_width Q ->
    cost !!! k <= layout_cost fnt max_width Q.
Proof.
  destruct Hinv as (_ & _ & Hn & _ & Hsolved).
  induction Q as [|g Q' IH]; intros k Hk Hcat Hfeas.
  - cbn in Hcat. assert (length (drop k words) = 0%nat) as Hl
      by (rewrite <- Hcat; reflexivity).
    rewrite length_drop in Hl.
    replace k with n by lia. rewrite Hn. reflexivity.
  - inversion Hfeas as [|? ? [Hg Hfit] Hfeas']; subst.
    cbn [concat] in Hcat.
    destruct (prefix_slice g (concat Q') k Hcat) as [Hslice Hdrop].
    assert (length g + length (concat Q') = n - k)%nat as Hlen.
    { rewrite <- length_app, Hcat, length_drop. reflexivity. }
    assert (0 < length g)%nat by (destruct g; [contradiction|cbn; lia]).
    destruct (Hsolved k ltac:(lia)) as (_ & _ & _ & _ & Hopt & _).
    specialize (Hopt (k + length g)%nat ltac:(lia)).
    unfold line_width, pen in Hopt. rewrite Hslice in Hopt.
    specialize (Hopt Hfit).
    specialize (IH (k + length g)%nat ltac:(lia) (eq_sym Hdrop) Hfeas').
    cbn [layout_cost foldr]. fold (layout_cost fnt max_width Q'). lia.
Qed.

(** Following [breaks] from [k] gives a feasible layout of the remaining
    words whose cost is [cost[k]], with the first-found tie-break. *)
Lemma collect_lines_ok (fuel : nat) :
  forall k lines, (k <= n)%nat -> (n - k <= fuel)%nat ->
    exists groups,
      collect_lines words fuel breaks k lines
      = lines ++ map (join SPACE) groups /\
      concat groups = drop k words /\
      feasible fnt max_width groups /\
      layout_cost fnt max_width groups = cost !!! k /\
      first_found fnt max_width groups.
Proof.
  pose proof Hinv as (_ & _ & Hn & _ & Hsolved).
  induction fuel as [|fuel IH]; intros k lines Hk Hfuel.
  - exists []. replace k with n by lia.
    cbn [collect_lines map concat layout_cost foldr].
    rewrite app_nil_r, drop_ge by lia.
    split; [reflexivity|]. split; [reflexivity|]. split; [constructor|].
    split; [symmetry; exact Hn|].
    intros pre g post Hsplit. destruct pre; discriminate.
  - cbn [collect_lines].
    destruct (decide (k < n)%nat) as [Hlt|Hge].
    + rewrite bool_decide_eq_true_2 by exact Hlt.
      destruct (Hsolved k ltac:(lia)) as (Hb & Hfit & Hcost & _ & _ & Hstrict).
      rewrite bool_decide_eq_false_2 by lia.
      destruct (IH (breaks !!! k)
                   (lines ++ [join SPACE (slice words k (breaks !!! k))])
                   ltac:(lia) ltac:(lia))
        as (groups & Hcollect & Hcat & Hfeas & Hlayout & Htie).
      set (b := breaks !!! k) in *.
      assert (length (slice words k b) = (b - k)%nat) as Hslen.
      { unfold slice. rewrite length_take, length_drop. lia. }
      assert (slice words k b ++ drop b words = drop k words) as Hcat'.
      { unfold slice. replace b with (k + (b - k))%nat at 2 by lia.
        rewrite <- drop_drop. apply take_drop. }
      exists (slice words k b :: groups).
      split; [rewrite Hcollect, <- app_assoc; reflexivity|].
      split; [cbn [concat]; rewrite Hcat; exact Hcat'|].
      split.
      { constructor; [|exact Hfeas]. split; [|exact Hfit].
        intros E. rewrite E in Hslen. cbn in Hslen. lia. }
      split.
      { cbn [layout_cost foldr]. fold (layout_cost fnt max_width groups).
        rewrite Hlayout, Hcost. reflexivity. }
      intros pre g post Hsplit g' rest' Hfeas' Hcat'' Hshort.
      destruct pre as [|x pre'].
      * cbn [app] in Hsplit. injection Hsplit as <- <-.
        inversion Hfeas' as [|? ? [Hg' Hfit'] Hfeasr]; subst.
        cbn [concat] in Hcat''. rewrite Hcat, Hcat' in Hcat''.
        destruct (prefix_slice g' (concat rest') k Hcat'') as [Hslice Hdrop].
        assert (0 < length g')%nat by (destruct g'; [contradiction|cbn; lia]).
        rewrite Hslen in Hshort.
        specialize (Hstrict (k + length g')%nat ltac:(lia)).
        unfold line_width, pen in Hstrict. rewrite Hslice in Hstrict.
        specialize (Hstrict Hfit').
        pose proof (cost_lower_bound rest' (k + length g')%nat ltac:(lia)
                      (eq_sym Hdrop) Hfeasr) as Hlow.
        cbn [layout_cost foldr]. fold (layout_cost fnt max_width rest').
        fold (layout_cost fnt max_width groups).
        rewrite Hlayout. fold (pen fnt words max_width k b).
        rewrite <- Hcost. lia.
      * cbn [app] in Hsplit. injection Hsplit as _ Hsplit.
        apply (Htie pre' g post Hsplit g' rest'); assumption.
    + rewrite bool_decide_eq_false_2 by exact Hge.
      exists []. replace k with n by lia.
      cbn [map concat layout_cost foldr].
      rewrite app_nil_r, drop_ge by lia.
      split; [reflexivity|]. split; [reflexivity|]. split; [constructor|].
      split; [symmetry; exact Hn|].
      intros pre g post Hsplit. destruct pre; discriminate.
Qed.

Lemma collect_lines_S (fuel k : nat) (lines : list str) :
  collect_lines words (S fuel) breaks k lines
  = if bool_decide (k < n)%nat then
      if bool_decide (breaks !!! k <= k)%nat then lines
      else collect_lines words fuel breaks (breaks !!! k)
             (lines ++ [join SPACE (slice words k (breaks !!! k))])
    else lines.
Proof. reflexivity. Qed.

(** Once the fuel covers the words that are left, more fuel changes
    nothing: the loop has ended. *)
Lemma collect_lines_stable (fuel : nat) :
  forall k lines, (k <= n)%nat -> (n - k <= fuel)%nat ->
    collect_lines words (S fuel) breaks k lines
    = collect_lines words fuel breaks k lines.
Proof.
  pose proof Hinv as (_ & _ & _ & _ & Hsolved).
  induction fuel as [|fuel IH]; intros k lines Hk Hfuel.
  - rewrite collect_lines_S.
    rewrite bool_decide_eq_false_2 by lia. reflexivity.
  - rewrite (collect_lines_S (S fuel) k lines), (collect_lines_S fuel k lines).
    destruct (decide (k < n)%nat) as [Hlt|Hge].
    + rewrite bool_decide_eq_true_2 by exact Hlt.
      destruct (Hsolved k ltac:(lia)) as (Hb & _).
      rewrite bool_decide_eq_false_2 by lia.
      apply IH; lia.
    + rewrite bool_decide_eq_false_2 by exact Hge. reflexivity.
Qed.

Lemma collect_lines_enough (fuel : nat) :
  (n <= fuel)%nat ->
  collect_lines words fuel breaks 0 [] = collect_lines words n breaks 0 [].
Proof.
  induction 1 as [|fuel Hle IH]; [reflexivity|].
  rewrite collect_lines_stable by lia. exact IH.
Qed.

End Solved.

End BalancedProps.

(** ** Balanced wrap: the result *)

Lemma layout_cost_nonneg `{Pillow} (fnt : font) (max_width : Z)
    (Q : list (list str)) :
  0 <= layout_cost fnt max_width Q.
Proof.
  induction Q as [|g Q' IH]; [reflexivity|].
  cbn [layout_cost foldr]. fold (layout_cost fnt max_width Q').
  pose proof (Z.square_nonneg (max_width - text_width fnt (join SPACE g))).
  unfold penalty. lia.
Qed.

Lemma slice_single (words : list str) (i : nat) :
  (i < length words)%nat ->
  exists w, w ∈ words /\ slice words i (S i) = [w].
Proof.
  intros Hi. destruct (lookup_lt_is_Some_2 words i Hi) as [w Hw].
  exists w. split; [eapply list_elem_of_lookup_2; exact Hw|].
  unfold slice. replace (S i - i)%nat with 1%nat by lia.
  rewrite (drop_S _ _ _ Hw). reflexivity.
Qed.

Lemma slice_snoc (words : list str) (i j : nat) :
  (i < j)%nat -> (j < length words)%nat ->
  exists w, slice words i (S j) = slice words i j ++ [w] /\
            slice words i j <> [].
Proof.
  intros Hij Hj. destruct (lookup_lt_is_Some_2 words j Hj) as [w Hw].
  exists w. unfold slice. split.
  - replace (S j - i)%nat with (S (j - i)) by lia.
    apply take_S_r. rewrite lookup_drop.
    replace (i + (j - i))%nat with j by lia. exact Hw.
  - intros E. apply (f_equal length) in E.
    rewrite length_take, length_drop in E. cbn in E. lia.
Qed.

Lemma split_from_word (w s acc : str) :
  Forall not_space w -> split_from acc (w ++ s) = split_from (acc ++ w) s.
Proof.
  intros Hw. revert acc. induction Hw as [|c r Hc Hr IH]; intros acc.
  - rewrite app_nil_r. reflexivity.
  - cbn [app split_from]. rewrite Hc. rewrite IH, <- app_assoc. reflexivity.
Qed.

Lemma split_two (a b : str) :
  good_word a -> good_word b -> split (a ++ SPACE ++ b) = [a; b].
Proof.
  intros [Ha Ha'] [Hb Hb']. unfold split.
  rewrite split_from_word by exact Ha'. cbn [app SPACE split_from].
  change (is_space " "%char) with true. cbn iota.
  destruct a as [|c r]; [contradiction|]. f_equal.
  transitivity (split_from ([] ++ b) []).
  - rewrite <- split_from_word by exact Hb'. rewrite app_nil_r. reflexivity.
  - cbn [app split_from]. destruct b; [contradiction|reflexivity].
Qed.

Lemma groups_of_two (a b : str) (groups : list (list str)) :
  concat groups = [a; b] -> Forall (fun g => g <> []) groups ->
  groups = [[a; b]] \/ groups = [[a]; [b]].
Proof.
  intros Hcat Hne.
  destruct groups as [|g1 rest]; [discriminate|].
  inversion Hne as [|? ? Hg1 Hrest]; subst.
  destruct g1 as [|x [|y [|z g1']]]; [contradiction| | |discriminate].
  - cbn in Hcat. injection Hcat as -> Hcat.
    destruct rest as [|g2 rest']; [discriminate|].
    inversion Hrest as [|? ? Hg2 Hrest']; subst.
    destruct g2 as [|y [|z g2']]; [contradiction| |discriminate].
    cbn in Hcat. injection Hcat as -> Hcat.
    destruct rest' as [|g3 rest'']; [right; reflexivity|].
    inversion Hrest' as [|? ? Hg3 _]; subst.
    destruct g3; [contradiction|discriminate].
  - cbn in Hcat. injection Hcat as -> -> Hcat.
    destruct rest as [|g2 rest']; [left; reflexivity|].
    inversion Hrest as [|? ? Hg2 _]; subst.
    destruct g2; [contradiction|discriminate].
Qed.

Lemma greedy_unfold `{Pillow} (fnt : font) (text : str) (max_width : Z) :
  strip text <> [] ->
  _wrap_text_to_width fnt text max_width
  = let st := fold_left (greedy_step fnt max_width) (split (strip text))
                        ([], []) in
    match st.2 with
    | [] => st.1
    | _ => st.1 ++ [st.2]
    end.
Proof.
  intros Hne. unfold _wrap_text_to_width.
  destruct (strip text) as [|c r]; [contradiction|].
  cbv zeta. destruct (fold_left _ _ _) as [lines current]. reflexivity.
Qed.

Lemma greedy_step_first `{Pillow} (fnt : font) (max_width : Z)
    (lines : list str) (w : str) :
  good_word w -> text_width fnt w <= max_width ->
  greedy_step fnt max_width (lines, []) w = (lines, w).
Proof.
  intros Hw Hfit. unfold greedy_step.
  rewrite greedy_candidate_first by exact Hw.
  destruct (Z.leb_spec (text_width fnt w) max_width); [reflexivity|lia].
Qed.

Lemma greedy_step_append `{Pillow} (fnt : font) (max_width : Z)
    (lines : list str) (current w : str) :
  trimmed (current ++ SPACE ++ w) ->
  text_width fnt (current ++ SPACE ++ w) <= max_width ->
  greedy_step fnt max_width (lines, current) w
  = (lines, current ++ SPACE ++ w).
Proof.
  intros Ht Hfit. unfold greedy_step. rewrite (strip_trimmed _ Ht).
  destruct (Z.leb_spec (text_width fnt (current ++ SPACE ++ w)) max_width);
    [reflexivity|lia].
Qed.

(** A text of two words that fits on a line is one line of the greedy
    wrapper. *)
Lemma greedy_two `{Pillow} (fnt : font) (a b : str) (max_width : Z) :
  good_word a -> good_word b ->
  text_width fnt a <= max_width ->
  text_width fnt (a ++ SPACE ++ b) <= max_width ->
  _wrap_text_to_width fnt (a ++ SPACE ++ b) max_width = [a ++ SPACE ++ b].
Proof.
  intros Ha Hb Hfa Hfab.
  assert (trimmed (a ++ SPACE ++ b)) as Ht
    by (apply trimmed_glue; apply good_word_trimmed; assumption).
  pose proof (trimmed_not_nil _ Ht) as Hne.
  rewrite greedy_unfold by (rewrite (strip_trimmed _ Ht); exact Hne).
  rewrite (strip_trimmed _ Ht), split_two by assumption.
  cbn [fold_left].
  rewrite greedy_step_first, greedy_step_append by assumption.
  cbv zeta. cbn [fst snd].
  destruct (a ++ SPACE ++ b) as [|c r]; [contradiction|reflexivity].
Qed.

Lemma greedy_strip `{Pillow} (fnt : font) (text : str) (max_width : Z) :
  _wrap_text_to_width fnt (strip text) max_width
  = _wrap_text_to_width fnt text max_width.
Proof. unfold _wrap_text_to_width. rewrite strip_idempotent. reflexivity. Qed.

Lemma balanced_nil `{Pillow} (fnt : font) (text : str) (max_width : Z) :
  split (strip text) = [] -> _wrap_text_balanced fnt text max_width = [].
Proof.
  intros Hnil. unfold _wrap_text_balanced.
  destruct (strip text) as [|c r]; [reflexivity|].
  rewrite Hnil. reflexivity.
Qed.

Lemma balanced_unfold `{Pillow} (fnt : font) (text : str) (max_width : Z) :
  split (strip text) <> [] ->
  _wrap_text_balanced fnt text max_width
  = let words := split (strip text) in
    if existsb (fun word => text_width fnt word >? max_width) words
    then _wrap_text_to_width fnt text max_width
    else
      let cb := dp_table fnt words max_width in
      if inf <=? cb.1 !!! 0%nat
      then _wrap_text_to_width fnt text max_width
      else match collect_lines words (length words) cb.2 0 [] with
           | [] => _wrap_text_to_width fnt text max_width
           | lines => lines
           end.
Proof.
  intros Hne. unfold _wrap_text_balanced. rewrite <- (greedy_strip fnt text).
  destruct (strip text) as [|c r] eqn:Hs; [contradiction|].
  destruct (split (c :: r)) as [|w ws] eqn:Hw; [contradiction|].
  cbv zeta. destruct (dp_table fnt (w :: ws) max_width) as [cost breaks].
  reflexivity.
Qed.

(** C5: the balanced wrapper falls back to the greedy one when a word is
    wider than the maximum; otherwise, for a font whose measure is never
    negative and never shrinks when a word is added to a line, and while
    the total cost stays below the sentinel [10^18], it returns a layout
    of the words in which every line fits, of least cost (the sum of
    [(max_width - line_width)^2]) among such layouts, where from any line
    on every layout of the remaining words with a shorter first line
    costs strictly more (the first-found minimum), and the [while] loop
    gives that result for any number of iterations from [len(words)] on;
    a text of two words that fits on one line, the second word adding to
    the width, comes back as that one line. *)
Theorem balanced_wrap_optimal `{Pillow} (fnt : font) (text : str)
    (max_width : Z)
    (Hnonneg : forall s, 0 <= text_width fnt s)
    (Hmono : forall (ws : list str) (w : str), ws <> [] ->
       text_width fnt (join SPACE ws)
       <= text_width fnt (join SPACE (ws ++ [w])))
    (Hbound : Z.of_nat (length (split text)) * (max_width * max_width) < inf) :
  let words := split text in
  (Exists (fun w => max_width < text_width fnt w) words ->
   _wrap_text_balanced fnt text max_width
   = _wrap_text_to_width fnt text max_width) /\
  (Forall (fun w => text_width fnt w <= max_width) words ->
   exists groups,
     _wrap_text_balanced fnt text max_width = map (join SPACE) groups /\
     concat groups = words /\
     feasible fnt max_width groups /\
     (forall Q, concat Q = words -> feasible fnt max_width Q ->
        layout_cost fnt max_width groups <= layout_cost fnt max_width Q) /\
     first_found fnt max_width groups /\
     (forall fuel, (length words <= fuel)%nat ->
        collect_lines words fuel (dp_table fnt words max_width).2 0 []
        = map (join SPACE) groups)) /\
  (forall a b,
     good_word a -> good_word b -> text = a ++ SPACE ++ b ->
     text_width fnt text <= max_width ->
     text_width fnt a < text_width fnt text ->
     _wrap_text_balanced fnt text max_width = [text]).
Proof.
  intros words.
  assert (split (strip text) = words) as Hwords by apply split_strip.
  (* a word is too wide: the greedy wrapper *)
  assert (Exists (fun w => max_width < text_width fnt w) words ->
          _wrap_text_balanced fnt text max_width
          = _wrap_text_to_width fnt text max_width) as Hfallback.
  { intros Hwide.
    assert (words <> []) as Hne by (intros E; rewrite E in Hwide; inversion Hwide).
    rewrite balanced_unfold by (rewrite Hwords; exact Hne).
    cbv zeta. rewrite Hwords.
    apply Exists_exists in Hwide as (w & Hin & Hw).
    assert (existsb (fun word => text_width fnt word >? max_width) words = true)
      as ->; [|reflexivity].
    apply existsb_exists. exists w.
    split; [apply list_elem_of_In; exact Hin|].
    destruct (Z.gtb_spec (text_width fnt w) max_width); [reflexivity|lia]. }
  (* every word fits: the dynamic program *)
  assert (Forall (fun w => text_width fnt w <= max_width) words ->
          exists groups,
            _wrap_text_balanced fnt text max_width = map (join SPACE) groups /\
            concat groups = words /\
            feasible fnt max_width groups /\
            (forall Q, concat Q = words -> feasible fnt max_width Q ->
               layout_cost fnt max_width groups
               <= layout_cost fnt max_width Q) /\
            first_found fnt max_width groups /\
            (forall fuel, (length words <= fuel)%nat ->
               collect_lines words fuel (dp_table fnt words max_width).2 0 []
               = map (join SPACE) groups)) as Hdp.
  { intros Hfits.
    destruct (decide (words = [])) as [Hnil|Hne].
    { exists []. rewrite Hnil in *.
      split; [apply balanced_nil; exact Hwords|].
      split; [reflexivity|]. split; [constructor|].
      split; [intros Q _ _; apply layout_cost_nonneg|].
      split; [intros pre g post E; destruct pre; discriminate|].
      intros fuel _. destruct fuel; reflexivity. }
    assert (forall i, (i < length words)%nat ->
              line_width fnt words i (S i) <= max_width) as Hword.
    { intros i Hi. destruct (slice_single words i Hi) as (w & Hin & Hs).
      unfold line_width. rewrite Hs. cbn [join].
      rewrite Forall_forall in Hfits. exact (Hfits w Hin). }
    assert (forall i j, 0 <= line_width fnt words i j) as Hnn
      by (intros; apply Hnonneg).
    assert (forall i j, (i < j)%nat -> (j < length words)%nat ->
              line_width fnt words i j <= line_width fnt words i (S j))
      as Hgrow.
    { intros i j Hij Hj.
      destruct (slice_snoc words i j Hij Hj) as (w & Hs & Hne').
      unfold line_width. rewrite Hs. apply Hmono. exact Hne'. }
    pose proof (dp_table_ok fnt words max_width Hword Hnn Hgrow Hbound) as Hinv.
    destruct (collect_lines_ok fnt words max_width _ _ Hinv (length words)
                0%nat [] ltac:(lia) ltac:(lia))
      as (groups & Hcollect & Hcat & Hfeas & Hcost & Htie).
    rewrite drop_0 in Hcat. cbn [app] in Hcollect.
    exists groups.
    assert ((dp_table fnt words max_width).1 !!! 0%nat < inf) as Hfinite.
    { destruct Hinv as (_ & _ & Hn & _ & Hsolved).
      destruct (Hsolved 0%nat) as (_ & _ & _ & Hrange & _).
      { destruct words; [contradiction|cbn; lia]. }
      rewrite Nat.sub_0_r in Hrange. fold words in Hbound. lia. }
    assert (groups <> []) as Hgroups
      by (intros ->; cbn in Hcat; congruence).
    split.
    { rewrite balanced_unfold by (rewrite Hwords; exact Hne).
      cbv zeta. rewrite Hwords.
      assert (existsb (fun word => text_width fnt word >? max_width) words
              = false) as ->.
      { destruct (existsb _ words) eqn:E; [|reflexivity].
        apply existsb_exists in E as (w & Hin & Hw).
        rewrite Forall_forall in Hfits.
        pose proof (Hfits w (proj2 (list_elem_of_In _ _) Hin)).
        destruct (Z.gtb_spec (text_width fnt w) max_width); [lia|discriminate]. }
      destruct (Z.leb_spec inf ((dp_table fnt words max_width).1 !!! 0%nat));
        [lia|].
      rewrite Hcollect. destruct groups; [contradiction|reflexivity]. }
    split; [exact Hcat|]. split; [exact Hfeas|].
    split.
    { intros Q HQ HfQ. rewrite Hcost.
      apply (cost_lower_bound fnt words max_width _ _ Hinv Q 0%nat);
        [lia|rewrite drop_0; exact HQ|exact HfQ]. }
    split; [exact Htie|].
    intros fuel Hfuel.
    rewrite (collect_lines_enough fnt words max_width _ _ Hinv fuel Hfuel).
    exact Hcollect. }
  split; [exact Hfallback|]. split; [exact Hdp|].
  (* two words on one line *)
  intros a b Ha Hb Htext Hfit Hgrowth.
  assert (words = [a; b]) as Htwo
    by (unfold words; rewrite Htext; apply split_two; assumption).
  rewrite Htext in Hfit, Hgrowth.
  destruct (Z.le_gt_cases (text_width fnt b) max_width) as [Hbfit|Hbwide].
  - destruct Hdp as (groups & Hres & Hcat & Hfeas & Hopt & _).
    { rewrite Htwo. repeat constructor; [lia|exact Hbfit]. }
    rewrite Hres. rewrite Htwo in Hcat.
    destruct (groups_of_two a b groups Hcat) as [->| ->].
    + eapply Forall_impl; [exact Hfeas|]. intros g [Hg _]. exact Hg.
    + cbn [map join]. rewrite Htext. reflexivity.
    + exfalso.
      specialize (Hopt [[a; b]]). rewrite Htwo in Hopt.
      specialize (Hopt eq_refl).
      assert (feasible fnt max_width [[a; b]]) as Hone.
      { constructor; [|constructor]. split; [discriminate|].
        cbn [join]. exact Hfit. }
      specialize (Hopt Hone).
      cbn [layout_cost foldr] in Hopt. unfold penalty in Hopt.
      cbn [join] in Hopt.
      pose proof (Z.square_nonneg (max_width - text_width fnt b)). nia.
  - rewrite Hfallback.
    + rewrite Htext. apply greedy_two; [exact Ha|exact Hb|lia|exact Hfit].
    + rewrite Htwo. apply Exists_cons_tl, Exists_cons_hd. lia.
Qed.

Lemma balanced_wrap_optimal_witness :
  @_wrap_text_balanced fixed_pitch 10 (lit "ab cd") 100 = [lit "ab cd"].
Proof.
  assert (forall s : str, 0 <= @text_width fixed_pitch 10 s) as Hnonneg.
  { intros s. unfold text_width, bbox_width. cbn. lia. }
  assert (forall (ws : list str) (w : str), ws <> [] ->
            @text_width fixed_pitch 10 (join SPACE ws)
            <= @text_width fixed_pitch 10 (join SPACE (ws ++ [w]))) as Hmono.
  { intros ws w Hne. rewrite join_snoc by exact Hne.
    unfold text_width, bbox_width. cbn [textbbox fixed_pitch].
    rewrite !length_app. lia. }
  assert (Z.of_nat (length (split (lit "ab cd"))) * (100 * 100) < inf) as Hbound
    by reflexivity.
  destruct (@balanced_wrap_optimal fixed_pitch 10 (lit "ab cd") 100
              Hnonneg Hmono Hbound) as (_ & _ & Htwo).
  apply (Htwo (lit "ab") (lit "cd")).
  - split; [discriminate|repeat constructor].
  - split; [discriminate|repeat constructor].
  - reflexivity.
  - vm_compute. discriminate.
  - reflexivity.
Defined.


(** ** Auto-fit *)

Lemma candidate_sizes_list :
  candidate_sizes = [24; 23; 22; 21; 20; 19; 18; 17; 16; 15; 14; 13; 12; 11; 10].
Proof. reflexivity. Qed.

Section AutofitProps.
Context `{Pillow} (self : renderer) (blurb_lines : list str) (max_w max_h : Z).

Lemma fold_line_heights (fnt : font) (line_gap : Z) (wrapped : list str) :
  forall total,
    fold_left (fun t line => t + (text_height fnt line + line_gap))
              wrapped total
    = total
      + foldr (fun line acc => (text_height fnt line + line_gap) + acc) 0
              wrapped.
Proof.
  induction wrapped as [|line rest IH]; intros total; cbn [fold_left foldr].
  - lia.
  - rewrite IH. lia.
Qed.

Lemma blurb_loop_height (fnt : font) (line_gap para_gap : Z) (len : nat) :
  forall (l : list str) (i : nat) (total : Z),
    (i + length l = len)%nat ->
    blurb_loop fnt max_w line_gap para_gap len (zip (seq i (length l)) l) total
    = total
      + foldr (fun para acc => paragraph_height fnt max_w line_gap para + acc)
              0 l
      + para_gap * Z.of_nat (length l - 1).
Proof.
  induction l as [|para rest IH]; intros i total Hlen.
  - cbn. lia.
  - cbn [length seq zip zip_with blurb_loop foldr]. cbv zeta.
    rewrite fold_line_heights.
    cbn [length] in Hlen.
    rewrite (IH (S i)) by lia.
    unfold paragraph_height at 2. cbv zeta.
    destruct rest as [|para' rest'].
    + rewrite bool_decide_eq_false_2 by (cbn [length] in Hlen; lia).
      cbn [foldr length Nat.sub]. 
      destruct (_wrap_text_balanced fnt para max_w); cbv beta iota; lia.
    + rewrite bool_decide_eq_true_2 by (cbn [length] in Hlen; lia).
      replace (Z.of_nat (S (length (para' :: rest')) - 1))
        with (Z.of_nat (length (para' :: rest') - 1) + 1)
        by (cbn [length]; lia).
      rewrite Z.mul_add_distr_l.
      destruct (_wrap_text_balanced fnt para max_w); cbv beta iota; lia.
Qed.

(** The scan over the sizes [lo + k - 1] down to [lo]. *)
Lemma size_scan_desc (lo : Z) (best_font : font) (k : nat) :
  let result := size_scan self blurb_lines max_w max_h
                          (rev (seqZ lo (Z.of_nat k))) best_font in
  (exists size,
     lo <= size < lo + Z.of_nat k /\
     height_at self blurb_lines max_w size <= max_h /\
     (forall s, size < s < lo + Z.of_nat k ->
                max_h < height_at self blurb_lines max_w s) /\
     result = load_font (self_s self size))
  \/
  ((forall s, lo <= s < lo + Z.of_nat k ->
              max_h < height_at self blurb_lines max_w s) /\
   result = best_font).
Proof.
  induction k as [|k IH]; cbv zeta.
  - right. split; [intros s Hs; lia|reflexivity].
  - replace (Z.of_nat (S k)) with (Z.of_nat k + 1) by lia.
    rewrite seqZ_app by lia.
    rewrite (seqZ_cons (lo + Z.of_nat k) 1) by lia.
    rewrite (seqZ_nil _ (Z.pred 1)) by lia.
    rewrite rev_app_distr. cbn [rev app size_scan]. cbv zeta.
    destruct (Z.leb_spec (height_at self blurb_lines max_w (lo + Z.of_nat k))
                         max_h) as [Hfit|Hover].
    + left. exists (lo + Z.of_nat k).
      split; [lia|]. split; [exact Hfit|]. split; [intros s Hs; lia|reflexivity].
    + cbv zeta in IH. destruct IH as [(size & Hr & Hfit & Habove & Hres)|[Hall Hres]].
      * left. exists size. split; [lia|]. split; [exact Hfit|].
        split; [|exact Hres].
        intros s Hs. destruct (decide (s = lo + Z.of_nat k)) as [->|];
          [exact Hover|apply Habove; lia].
      * right. split; [|exact Hres].
        intros s Hs. destruct (decide (s = lo + Z.of_nat k)) as [->|];
          [exact Hover|apply Hall; lia].
Qed.

End AutofitProps.

(** C7: the auto-fit scans the base sizes 24 down to 10 and returns the
    font of the largest one whose block height is at most the box height,
    or the font of size 10 when none fits: no size above the selected one
    fits, and the selected one fits whenever some candidate does.  The
    block height it measures is the sum over the paragraphs of (line
    height plus inter-line gap for every wrapped line, less one gap for a
    paragraph that has a line), plus one inter-paragraph gap between
    consecutive paragraphs. *)
Theorem autofit_largest_fitting `{Pillow} (self : renderer)
    (blurb_lines : list str) (max_w max_h : Z) :
  candidate_sizes
  = [24; 23; 22; 21; 20; 19; 18; 17; 16; 15; 14; 13; 12; 11; 10] /\
  (forall base_size,
     height_at self blurb_lines max_w base_size
     = block_height (load_font (self_s self base_size)) blurb_lines max_w
                    (self_s self 4) (self_s self 8)) /\
  exists size,
    10 <= size <= 24 /\
    _find_optimal_blurb_font_size self blurb_lines max_w max_h
    = load_font (self_s self size) /\
    (forall s, size < s <= 24 -> max_h < height_at self blurb_lines max_w s) /\
    (height_at self blurb_lines max_w size <= max_h \/
     (size = 10 /\
      forall s, 10 <= s <= 24 -> max_h < height_at self blurb_lines max_w s)) /\
    ((exists s, 10 <= s <= 24 /\ height_at self blurb_lines max_w s <= max_h) ->
     height_at self blurb_lines max_w size <= max_h).
Proof.
  split; [reflexivity|]. split.
  - intros base_size. unfold height_at, _calculate_blurb_height, block_height.
    cbv zeta. unfold enumerate.
    rewrite (blurb_loop_height max_w _ _ _ (length blurb_lines) blurb_lines 0 0)
      by reflexivity.
    lia.
  - unfold _find_optimal_blurb_font_size; cbv zeta.
    destruct (size_scan_desc self blurb_lines max_w max_h 10
                (load_font (self_s self 10)) 15)
      as [(size & Hr & Hfit & Habove & Hres)|[Hall Hres]].
    + exists size. split; [lia|]. split; [exact Hres|].
      split; [intros s Hs; apply Habove; lia|]. split; [left; exact Hfit|].
      intros _. exact Hfit.
    + exists 10. split; [lia|]. split; [exact Hres|].
      split; [intros s Hs; apply Hall; lia|].
      split; [right; split; [reflexivity|intros s Hs; apply Hall; lia]|].
      intros (s & Hs & Hfit). pose proof (Hall s ltac:(lia)). lia.
Qed.

(** The auto-fit on a short blurb in a box of 60 by 40 pixels, with the
    fixed-pitch font at scale 1: size 20 is the largest whose single line
    of height 40 fits. *)
Example autofit_example :
  @_find_optimal_blurb_font_size fixed_pitch (sample_renderer (1 # 1))
     [lit "ab"] 60 40 = 20.
Proof. vm_compute. reflexivity. Qed.


Lemma autofit_largest_fitting_witness :
  exists size,
    10 <= size <= 24 /\
    @_find_optimal_blurb_font_size fixed_pitch (sample_renderer (1 # 1))
       [lit "ab"] 60 40
    = @load_font fixed_pitch (self_s (sample_renderer (1 # 1)) size) /\
    @height_at fixed_pitch (sample_renderer (1 # 1)) [lit "ab"] 60 size <= 40.
Proof.
  destruct (@autofit_largest_fitting fixed_pitch (sample_renderer (1 # 1))
              [lit "ab"] 60 40)
    as (_ & _ & size & Hr & Hres & _ & _ & Hfit).
  exists size. split; [exact Hr|]. split; [exact Hres|].
  apply Hfit. exists 10. split; [lia|]. vm_compute. discriminate.
Defined.

(** ** Gradient rows as drawn *)

(** In gradient mode the surface gets one line per pixel row, coloured by
    [row_color] with a band of [_s(8)] pixels. *)
Lemma gradient_rows_lookup (self : renderer) (w h : Z)
    (segments : list segment) (ops : list surface_op) (i : nat) :
  gradient_rows self w h segments = Some ops ->
  Z.of_nat i < h ->
  exists c,
    row_color self segments (self_s self 8) (Z.of_nat i) = Some c /\
    ops !! i = Some (Line (0, Z.of_nat i) (w, Z.of_nat i) c).
Proof.
  unfold gradient_rows; cbv zeta. intros Hrows Hi.
  apply mapM_Some in Hrows.
  destruct (Forall2_lookup_l _ _ _ i (0 + Z.of_nat i) Hrows) as (op & Hop & Hc).
  { apply lookup_seqZ_lt. exact Hi. }
  rewrite Z.add_0_l in Hc.
  destruct (row_color self segments (self_s self 8) (Z.of_nat i)) as [c|];
    [|discriminate].
  exists c. split; [reflexivity|]. cbn in Hc. injection Hc as <-. exact Hop.
Qed.

(** ** Evaluated scenarios *)

(** The scenario of the specification: shares 60 and 40 of a bar of 164
    pixels make segments of 98 and 65 pixels. *)
Example scenario_60_40 :
  (map seg_height
     <$> @compute_segments sample_table 164 true
           [(lit "Python", 60 # 1); (lit "Go", 40 # 1)] (100 # 1))
  = Some [98; 65].
Proof. reflexivity. Qed.

(** Equal mode with more languages than pixels: the last segment takes
    the whole bar. *)
Example equal_mode_tiny_bar :
  (map seg_height
     <$> @compute_segments sample_table 2 false
           [(lit "Python", 50 # 1); (lit "Go", 30 # 1); (lit "C", 20 # 1)]
           (100 # 1))
  = Some [2].
Proof. reflexivity. Qed.

(** Greedy wrap with a word wider than the line: it stands alone. *)
Example greedy_overlong_word :
  @_wrap_text_to_width fixed_pitch 10 (lit "  ab  incomprehensible cd e ") 60
  = [lit "ab"; lit "incomprehensible"; lit "cd e"].
Proof. vm_compute. reflexivity. Qed.

(** Balanced wrap evens out what greedy wrap leaves ragged. *)
Example balanced_versus_greedy :
  @_wrap_text_to_width fixed_pitch 10 (lit "aaa bb cc d") 90
  = [lit "aaa bb cc"; lit "d"] /\
  @_wrap_text_balanced fixed_pitch 10 (lit "aaa bb cc d") 90
  = [lit "aaa bb"; lit "cc d"].
Proof. vm_compute. split; reflexivity. Qed.

(** The exclusion filter compares names stripped and case-folded. *)
Example filter_case_insensitive :
  _filter_languages [(lit "Python", 60 # 1); (lit "Go", 40 # 1)]
                    [lit " python "; lit ""]
  = [(lit "Go", 40 # 1)].
Proof. vm_compute. reflexivity. Qed.

(** * Part III: further properties of the renderer and its callers *)

(** ** The exclusion filter *)

Lemma filter_all {A} (P : A -> Prop) `{!forall x, Decision (P x)} (l : list A) :
  (forall x, P x) -> filter P l = l.
Proof.
  intros HP. induction l as [|x r IH]; [reflexivity|].
  rewrite filter_cons_True by apply HP. rewrite IH. reflexivity.
Qed.

Lemma filter_twice {A} (P : A -> Prop) `{!forall x, Decision (P x)} (l : list A) :
  filter P (filter P l) = filter P l.
Proof.
  induction l as [|x r IH]; [reflexivity|].
  rewrite filter_cons. destruct (decide (P x)) as [Hx|Hx]; [|exact IH].
  rewrite filter_cons_True by exact Hx. rewrite IH. reflexivity.
Qed.

(** Both branches of [_filter_languages] are one filter. *)
Lemma filter_languages_unfold (languages : list (str * Q)) (excluded : list str) :
  _filter_languages languages excluded
  = filter (fun lp => _normalize_language_name lp.1
                      ∉ map _normalize_language_name
                            (filter (fun x => x <> []) excluded))
           languages.
Proof.
  unfold _filter_languages; cbv zeta.
  destruct (map _normalize_language_name (filter (fun x => x <> []) excluded))
    as [|e es]; [|reflexivity].
  symmetry. apply filter_all. intros lp Hin. inversion Hin.
Qed.

(** X1: filtering twice by the same exclusion list is filtering once. *)
Theorem filter_languages_idempotent (languages : list (str * Q))
    (excluded : list str) :
  _filter_languages (_filter_languages languages excluded) excluded
  = _filter_languages languages excluded.
Proof. rewrite !filter_languages_unfold. apply filter_twice. Qed.

(** X2: the filter keeps the order of the list and keeps exactly the
    entries whose name, stripped and case-folded, differs from every
    non-empty excluded name stripped and case-folded; with no excluded
    name, or only empty ones, it changes nothing. *)
Theorem filter_languages_spec (languages : list (str * Q))
    (excluded : list str) :
  sublist (_filter_languages languages excluded) languages /\
  (forall lp,
     lp ∈ _filter_languages languages excluded <->
     lp ∈ languages /\
     forall x, x ∈ excluded -> x <> [] ->
               _normalize_language_name x <> _normalize_language_name lp.1) /\
  (Forall (fun x => x = []) excluded ->
   _filter_languages languages excluded = languages).
Proof.
  rewrite filter_languages_unfold. split; [apply sublist_filter|]. split.
  - intros lp. rewrite list_elem_of_filter. split.
    + intros [Hnot Hin]. split; [exact Hin|].
      intros x Hx Hne Heq. apply Hnot. rewrite <- Heq.
      apply list_elem_of_In, in_map, list_elem_of_In.
      apply list_elem_of_filter. split; assumption.
    + intros [Hin Hall]. split; [|exact Hin].
      intros Hmem. apply list_elem_of_In, in_map_iff in Hmem as (x & Heq & Hx).
      apply list_elem_of_In, list_elem_of_filter in Hx as [Hne Hx].
      exact (Hall x Hx Hne Heq).
  - intros Hempty. apply filter_all. intros lp Hmem.
    apply list_elem_of_In, in_map_iff in Hmem as (x & _ & Hx).
    apply list_elem_of_In, list_elem_of_filter in Hx as [Hne Hx].
    rewrite Forall_forall in Hempty. exact (Hne (Hempty x Hx)).
Qed.

Lemma filter_languages_spec_witness :
  _filter_languages [(lit "Python", 60 # 1); (lit "Go", 40 # 1)] [[]; []]
  = [(lit "Python", 60 # 1); (lit "Go", 40 # 1)].
Proof.
  refine (proj2 (proj2 (filter_languages_spec _ _)) _).
  repeat constructor.
Defined.

(** ** Colour parsing *)

Lemma hex_digit_range (d : ascii) (z : Z) :
  hex_digit d = Some z -> 0 <= z <= 15.
Proof.
  destruct d as [[] [] [] [] [] [] [] []]; vm_compute; intros Hz;
    try discriminate Hz; injection Hz as <-; split; discriminate.
Qed.

Lemma int16_two_digits_value (a b : ascii) (x y : Z) :
  hex_digit a = Some x -> hex_digit b = Some y ->
  int16 [a; b] = Some (16 * x + y).
Proof.
  intros Ha Hb.
  destruct (hex_digit_plain a) as (Sa & _ & Pa & Ma); [eauto|].
  destruct (hex_digit_plain b) as (Sb & _ & _ & _); [eauto|].
  unfold int16, strip_int. cbn [lstrip_int]. rewrite Sa.
  cbn [rev app lstrip_int]. rewrite Sb. cbn [rev app].
  rewrite !bool_decide_eq_false_2 by assumption.
  rewrite Ha, Hb. reflexivity.
Qed.

(** X3: a colour of the form [#rrggbb] parses to three channels between
    0 and 255, with the alpha it is given; the same digits without the
    [#] parse to the same colour. *)
Theorem hex_to_rgba_channels (c : str) (alpha : Z)
    (Hc : is_hex_color c = true) :
  exists r g b,
    hex_to_rgba c alpha = Some (r, g, b, alpha) /\
    0 <= r <= 255 /\ 0 <= g <= 255 /\ 0 <= b <= 255 /\
    hex_to_rgba (drop 1 c) alpha = Some (r, g, b, alpha).
Proof.
  destruct c as [|ch ds]; [discriminate|].
  cbn [is_hex_color] in Hc.
  apply andb_prop in Hc as [Hc Hd]. apply andb_prop in Hc as [Hch Hlen].
  apply bool_decide_eq_true in Hch, Hlen. subst ch.
  destruct ds as [|d1 [|d2 [|d3 [|d4 [|d5 [|d6 [|]]]]]]]; try discriminate.
  cbn [forallb] in Hd.
  repeat (apply andb_prop in Hd as [?%bool_decide_eq_true Hd]).
  destruct (hex_digit_plain d1) as (_ & N1 & _); [assumption|].
  destruct (hex_digit d1) as [x1|] eqn:E1; [|exfalso; eapply is_Some_None; eauto].
  destruct (hex_digit d2) as [x2|] eqn:E2; [|exfalso; eapply is_Some_None; eauto].
  destruct (hex_digit d3) as [x3|] eqn:E3; [|exfalso; eapply is_Some_None; eauto].
  destruct (hex_digit d4) as [x4|] eqn:E4; [|exfalso; eapply is_Some_None; eauto].
  destruct (hex_digit d5) as [x5|] eqn:E5; [|exfalso; eapply is_Some_None; eauto].
  destruct (hex_digit d6) as [x6|] eqn:E6; [|exfalso; eapply is_Some_None; eauto].
  pose proof (hex_digit_range _ _ E1). pose proof (hex_digit_range _ _ E2).
  pose proof (hex_digit_range _ _ E3). pose proof (hex_digit_range _ _ E4).
  pose proof (hex_digit_range _ _ E5). pose proof (hex_digit_range _ _ E6).
  exists (16 * x1 + x2), (16 * x3 + x4), (16 * x5 + x6).
  assert (hex_to_rgba [d1; d2; d3; d4; d5; d6] alpha
          = Some (16 * x1 + x2, 16 * x3 + x4, 16 * x5 + x6, alpha)) as Hbare.
  { unfold hex_to_rgba, hex_to_rgb. cbn [lstrip_char].
    rewrite (bool_decide_eq_false_2 _ N1).
    change (slice [d1; d2; d3; d4; d5; d6] 0 2) with [d1; d2].
    change (slice [d1; d2; d3; d4; d5; d6] 2 4) with [d3; d4].
    change (slice [d1; d2; d3; d4; d5; d6] 4 6) with [d5; d6].
    rewrite (int16_two_digits_value d1 d2 x1 x2 E1 E2).
    rewrite (int16_two_digits_value d3 d4 x3 x4 E3 E4).
    rewrite (int16_two_digits_value d5 d6 x5 x6 E5 E6).
    reflexivity. }
  split.
  - unfold hex_to_rgba, hex_to_rgb in *. cbn [lstrip_char] in *.
    rewrite bool_decide_eq_true_2 by reflexivity. exact Hbare.
  - split; [lia|]. split; [lia|]. split; [lia|exact Hbare].
Qed.

Lemma hex_to_rgba_channels_witness :
  hex_to_rgba (lit "#E5E5E5") 178 = Some (229, 229, 229, 178).
Proof.
  destruct (hex_to_rgba_channels (lit "#E5E5E5") 178 eq_refl)
    as (r & g & b & Hp & _).
  rewrite Hp. vm_compute in Hp. injection Hp as <- <- <-. reflexivity.
Defined.

(** X4: a colour with fewer than five characters after its [#] signs,
    such as the short form [#abc], is not parsed: the third slice is
    empty and [int] raises. *)
Theorem hex_to_rgb_short (c : str)
    (Hshort : (length (lstrip_char "#"%char c) <= 4)%nat) :
  hex_to_rgb c = None.
Proof.
  unfold hex_to_rgb; cbv zeta.
  assert (slice (lstrip_char "#"%char c) 4 6 = []) as ->.
  { unfold slice. rewrite drop_ge by exact Hshort. reflexivity. }
  destruct (int16 (slice (lstrip_char "#"%char c) 0 2)); [|reflexivity].
  destruct (int16 (slice (lstrip_char "#"%char c) 2 4)); reflexivity.
Qed.

Lemma hex_to_rgb_short_witness : hex_to_rgb (lit "#abc") = None.
Proof. apply hex_to_rgb_short. vm_compute. lia. Defined.

(** ** Blending *)

(** Truncation keeps a value between the integers that bound it. *)
Lemma py_int_between (x : Q) (a b : Z) :
  (inject_Z a <= x)%Q -> (x <= inject_Z b)%Q -> a <= py_int x <= b.
Proof.
  destruct x as [n d]. unfold Qle, py_int. cbn [Qnum Qden inject_Z].
  intros Ha Hb. rewrite Z.mul_1_r in Ha, Hb.
  destruct (Z.le_gt_cases 0 n) as [Hn|Hn].
  - rewrite Z.quot_div_nonneg by lia. split.
    + apply Z.div_le_lower_bound; lia.
    + apply Z.div_le_upper_bound; lia.
  - replace n with (- - n) by lia. rewrite Z.quot_opp_l by lia.
    rewrite Z.quot_div_nonneg by lia. split.
    + assert (- n / Z.pos d <= - a); [|lia].
      apply Z.div_le_upper_bound; lia.
    + assert (- b <= - n / Z.pos d); [|lia].
      apply Z.div_le_lower_bound; lia.
Qed.

Lemma clamp_range (factor : Q) :
  (0 <= py_max (0 # 1) (py_min (1 # 1) factor) <= 1)%Q.
Proof.
  unfold py_max, py_min.
  destruct (Qcompare_spec factor (1 # 1)) as [E|L|G].
  - destruct (Qcompare_spec (1 # 1) (0 # 1)); lra.
  - destruct (Qcompare_spec factor (0 # 1)); lra.
  - destruct (Qcompare_spec (1 # 1) (0 # 1)); lra.
Qed.

Lemma clamp_low (factor : Q) :
  (factor <= 0)%Q -> (py_max (0 # 1) (py_min (1 # 1) factor) == 0)%Q.
Proof.
  intros Hf. unfold py_max, py_min.
  destruct (Qcompare_spec factor (1 # 1)) as [E|L|G]; try lra.
  destruct (Qcompare_spec factor (0 # 1)); lra.
Qed.

Lemma clamp_high (factor : Q) :
  (1 <= factor)%Q -> (py_max (0 # 1) (py_min (1 # 1) factor) == 1)%Q.
Proof.
  intros Hf. unfold py_max, py_min.
  destruct (Qcompare_spec factor (1 # 1)) as [E|L|G]; try lra;
    destruct (Qcompare_spec (1 # 1) (0 # 1)); lra.
Qed.

Lemma inject_Z_sub (a b : Z) : (inject_Z (a - b) == inject_Z a - inject_Z b)%Q.
Proof. unfold Z.sub. rewrite inject_Z_plus, inject_Z_opp. ring. Qed.

(** One channel of [_blend_colors]. *)
Lemma blend_channel_range (c1 c2 : Z) (t : Q) :
  (0 <= t <= 1)%Q ->
  Z.min c1 c2 <= py_int (py_float c1 + py_float (c2 - c1) * t) <= Z.max c1 c2.
Proof.
  intros [H0 H1]. unfold py_float.
  pose proof (inject_Z_sub c2 c1) as Hs.
  apply py_int_between.
  - destruct (Z.le_gt_cases c1 c2) as [Hle|Hgt].
    + rewrite Z.min_l by lia. rewrite Zle_Qle in Hle. nra.
    + rewrite Z.min_r by lia.
      assert (inject_Z c2 <= inject_Z c1)%Q by (rewrite <- Zle_Qle; lia). nra.
  - destruct (Z.le_gt_cases c1 c2) as [Hle|Hgt].
    + rewrite Z.max_r by lia. rewrite Zle_Qle in Hle. nra.
    + rewrite Z.max_l by lia.
      assert (inject_Z c2 <= inject_Z c1)%Q by (rewrite <- Zle_Qle; lia). nra.
Qed.

Lemma blend_channel_exact (c1 c2 c : Z) (t : Q) :
  (py_float c1 + py_float (c2 - c1) * t == inject_Z c)%Q ->
  py_int (py_float c1 + py_float (c2 - c1) * t) = c.
Proof.
  intros E.
  assert (c <= py_int (py_float c1 + py_float (c2 - c1) * t) <= c); [|lia].
  apply py_int_between; rewrite E; lra.
Qed.

(** X5: [_blend_colors] returns its first colour for a factor of 0 or
    less and its second colour for a factor of 1 or more. *)
Theorem blend_colors_endpoints (color1 color2 : rgba) (factor : Q) :
  ((factor <= 0)%Q -> _blend_colors color1 color2 factor = color1) /\
  ((1 <= factor)%Q -> _blend_colors color1 color2 factor = color2).
Proof.
  destruct color1 as [[[r1 g1] b1] a1], color2 as [[[r2 g2] b2] a2].
  unfold _blend_colors; cbv zeta.
  split; intros Hf.
  - pose proof (clamp_low factor Hf) as Ht.
    repeat f_equal; apply blend_channel_exact; rewrite Ht; unfold py_float; ring.
  - pose proof (clamp_high factor Hf) as Ht.
    repeat f_equal; apply blend_channel_exact; rewrite Ht; unfold py_float;
      rewrite inject_Z_sub; ring.
Qed.

Lemma blend_colors_endpoints_witness :
  _blend_colors (0, 0, 0, 255) (80, 80, 80, 255) (- (1 # 2)) = (0, 0, 0, 255) /\
  _blend_colors (0, 0, 0, 255) (80, 80, 80, 255) (3 # 2) = (80, 80, 80, 255).
Proof.
  split.
  - apply (proj1 (blend_colors_endpoints _ _ _)). discriminate.
  - apply (proj2 (blend_colors_endpoints _ _ _)). discriminate.
Defined.

(** X6: whatever the factor, every channel of a blend lies between the
    two channels it blends, so that blending two colours with channels in
    0..255 gives a colour with channels in 0..255. *)
Theorem blend_colors_in_range (color1 color2 : rgba) (factor : Q) :
  let '(r1, g1, b1, a1) := color1 in
  let '(r2, g2, b2, a2) := color2 in
  let '(r, g, b, a) := _blend_colors color1 color2 factor in
  Z.min r1 r2 <= r <= Z.max r1 r2 /\
  Z.min g1 g2 <= g <= Z.max g1 g2 /\
  Z.min b1 b2 <= b <= Z.max b1 b2 /\
  Z.min a1 a2 <= a <= Z.max a1 a2.
Proof.
  destruct color1 as [[[r1 g1] b1] a1], color2 as [[[r2 g2] b2] a2].
  unfold _blend_colors; cbv zeta.
  pose proof (clamp_range factor) as Ht.
  repeat split; apply blend_channel_range; exact Ht.
Qed.

(** ** Scaling *)

Lemma py_round_mono (x y : Q) : (x <= y)%Q -> py_round x <= py_round y.
Proof.
  intros Hxy.
  destruct (Z.le_gt_cases (py_round x) (py_round y)) as [Hle|Hgt]; [exact Hle|].
  exfalso.
  pose proof (py_round_near x) as [Hx1 Hx2].
  pose proof (py_round_near y) as [Hy1 Hy2].
  assert (inject_Z (py_round y) + 1 <= inject_Z (py_round x))%Q as Hstep.
  { change 1%Q with (inject_Z 1). rewrite <- inject_Z_plus, <- Zle_Qle. lia. }
  assert (x == y)%Q as E by lra.
  pose proof (py_round_proper x y E). lia.
Qed.

Lemma coerce_scale_positive (a : Scaler.scale_arg) : (0 < Scaler.coerce_scale a)%Q.
Proof.
  unfold Scaler.coerce_scale.
  destruct a as [q|]; cbv zeta.
  - destruct (Qle_bool q (0 # 1)) eqn:E; [reflexivity|].
    destruct (Qlt_le_dec 0 q) as [Hpos|Hle]; [exact Hpos|].
    apply Qle_bool_iff in Hle. congruence.
  - reflexivity.
Qed.

(** X7: whatever the constructor is given, the scale it keeps is
    positive; scaling then keeps the order of base values and maps 0 to
    0, so that a non-negative base value never scales to a negative
    pixel count. *)
Theorem scaler_monotone (a : Scaler.scale_arg) :
  let s := Scaler.coerce_scale a in
  (0 < s)%Q /\
  (forall v w, v <= w -> Scaler._s s v <= Scaler._s s w) /\
  Scaler._s s 0 = 0 /\
  (forall v, 0 <= v -> 0 <= Scaler._s s v).
Proof.
  intros s. pose proof (coerce_scale_positive a) as Hs. fold s in Hs.
  assert (forall v w, v <= w -> Scaler._s s v <= Scaler._s s w) as Hmono.
  { intros v w Hvw. unfold Scaler._s, py_float. apply py_round_mono.
    rewrite Zle_Qle in Hvw. nra. }
  assert (Scaler._s s 0 = 0) as Hzero.
  { unfold Scaler._s, py_float.
    rewrite (py_round_proper _ (inject_Z 0)) by ring. apply py_round_inject. }
  split; [exact Hs|]. split; [exact Hmono|]. split; [exact Hzero|].
  intros v Hv. rewrite <- Hzero. apply Hmono. exact Hv.
Qed.

(** ** Segments: contiguity and bounds *)

Lemma chained_snoc (from : Z) (segments : list segment) (s : segment) :
  chained from segments ->
  seg_start s = from + total_height segments ->
  seg_start s + 1 <= seg_end s ->
  chained from (segments ++ [s]).
Proof.
  revert from. induction segments as [|x r IH]; intros from Hc Hs Hh.
  - cbn in *. split; [lia|]. split; [lia|exact I].
  - cbn [chained app] in *. destruct Hc as (Hx & Hxh & Hr).
    split; [exact Hx|]. split; [exact Hxh|].
    apply IH; [exact Hr| |exact Hh].
    rewrite Hs. unfold total_height at 1. cbn [foldr].
    fold (total_height r). unfold seg_height. lia.
Qed.

Lemma chained_bounds (segments : list segment) :
  forall from, chained from segments ->
    Forall (fun s => from <= seg_start s /\ seg_start s + 1 <= seg_end s
                     /\ seg_end s <= from + total_height segments) segments.
Proof.
  induction segments as [|x r IH]; intros from Hc; [constructor|].
  cbn [chained] in Hc. destruct Hc as (Hx & Hxh & Hr).
  unfold total_height. cbn [foldr]. fold (total_height r).
  specialize (IH _ Hr).
  assert (0 <= total_height r) as Hnn.
  { clear -Hr. revert Hr. generalize (seg_end x). induction r as [|y r' IHr];
      intros e Hr; [reflexivity|].
    cbn [chained] in Hr. destruct Hr as (Hy & Hyh & Hr').
    unfold total_height. cbn [foldr]. fold (total_height r').
    specialize (IHr _ Hr'). unfold seg_height. lia. }
  constructor.
  - unfold seg_height. lia.
  - eapply Forall_impl; [exact IH|]. intros s (H1 & H2 & H3). cbn beta.
    unfold seg_height. lia.
Qed.

Lemma chained_next (segments : list segment) :
  forall from k s s',
    chained from segments ->
    segments !! k = Some s -> segments !! S k = Some s' ->
    seg_start s' = seg_end s.
Proof.
  induction segments as [|x r IH]; intros from k s s' Hc Hk Hk';
    [discriminate|].
  cbn [chained] in Hc. destruct Hc as (_ & _ & Hr).
  destruct k as [|k].
  - cbn in Hk. injection Hk as ->. destruct r as [|y r']; [discriminate|].
    cbn in Hk'. injection Hk' as ->. cbn [chained] in Hr. tauto.
  - cbn in Hk, Hk'. exact (IH _ _ _ _ Hr Hk Hk').
Qed.

Section SegmentInvariants.
Context `{LanguageTable}.

(** The loop keeps its segments chained from row 0, with [current_y] the
    row after the last one. *)
Lemma segments_loop_chained h scale_bars num total items :
  forall current_y segments out,
    segments_loop h scale_bars num total items current_y segments = Some out ->
    chained 0 segments ->
    total_height segments = current_y ->
    chained 0 out.
Proof.
  induction items as [|[i [lang pct]] rest IH]; intros cy segs out Hout Hc Hsum.
  - injection Hout as <-. exact Hc.
  - cbn [segments_loop] in Hout.
    destruct (Z.ltb_spec
                (segment_height h scale_bars num total cy i pct) 1) as [Hlt|Hge].
    + exact (IH _ _ _ Hout Hc Hsum).
    + destruct (entry_color lang i) as [color|]; [|discriminate].
      cbn [mbind option_bind] in Hout.
      apply (IH _ _ _ Hout).
      * apply chained_snoc; [exact Hc| |];
          unfold seg_start, seg_end; cbn [fst snd]; lia.
      * rewrite total_height_snoc. unfold seg_height, seg_start, seg_end.
        cbn [fst snd]. lia.
Qed.

End SegmentInvariants.

(** X8: whatever the mode and the percentages, the segments the bar
    computes tile the rows from 0 on without gap or overlap: the first
    starts at row 0, each next one starts where the one before ends, and
    each is at least one pixel high. *)
Theorem segments_contiguous `{LanguageTable} (h : Z) (scale_bars : bool)
    (visible_languages : list (str * Q)) (total_pct : Q)
    (segments : list segment)
    (Hseg : compute_segments h scale_bars visible_languages total_pct
            = Some segments) :
  chained 0 segments /\
  Forall (fun s => 0 <= seg_start s /\ 1 <= seg_height s
                   /\ seg_end s <= total_height segments) segments /\
  (forall k s s', segments !! k = Some s -> segments !! S k = Some s' ->
                  seg_start s' = seg_end s).
Proof.
  assert (chained 0 segments) as Hc.
  { unfold compute_segments in Hseg.
    apply (segments_loop_chained _ _ _ _ _ _ _ _ Hseg); [exact I|reflexivity]. }
  split; [exact Hc|]. split.
  - eapply Forall_impl; [apply (chained_bounds _ 0 Hc)|].
    intros s (H1 & H2 & H3). cbn beta. unfold seg_height. lia.
  - intros k s s'. apply (chained_next segments 0). exact Hc.
Qed.

Lemma segments_contiguous_witness :
  chained 0 [(0, 109, (53, 114, 165, 255)); (109, 218, (0, 173, 216, 255));
             (218, 328, (229, 192, 123, 255))].
Proof.
  refine (proj1 (@segments_contiguous sample_table 328 false
                   [(lit "Python", 50 # 1); (lit "Go", 30 # 1);
                    (lit "Zig", 20 # 1)] (100 # 1) _ _)).
  vm_compute. reflexivity.
Defined.


(** ** Proportional segments stay within the bar *)

Lemma total_height_sumZ (segments : list segment) :
  total_height segments = sumZ (map seg_height segments).
Proof.
  unfold total_height, sumZ.
  induction segments as [|s r IH]; [reflexivity|].
  cbn [map foldr]. rewrite IH. reflexivity.
Qed.

Lemma sumZ_filter_pos (l : list Z) :
  Forall (fun z => 0 <= z) l -> sumZ (filter (fun z => 1 <= z) l) = sumZ l.
Proof.
  induction 1 as [|z r Hz Hr IH]; [reflexivity|].
  rewrite filter_cons. destruct (decide (1 <= z)) as [Hk|Hd].
  - unfold sumZ in *. cbn [foldr]. rewrite IH. reflexivity.
  - rewrite IH. unfold sumZ. cbn [foldr]. lia.
Qed.

(** ** The gradient scan never fails on chained segments *)

Lemma chained_app_inv (pre rest : list segment) :
  forall from, chained from (pre ++ rest) ->
    chained (from + total_height pre) rest.
Proof.
  induction pre as [|x r IH]; intros from Hc.
  - unfold total_height. cbn [foldr]. rewrite Z.add_0_r. exact Hc.
  - cbn [app chained] in Hc. destruct Hc as (Hx & _ & Hr).
    specialize (IH _ Hr). unfold total_height. cbn [foldr].
    fold (total_height r). unfold seg_height. rewrite Hx.
    replace (from + (seg_end x - from + total_height r))
      with (seg_end x + total_height r) by lia.
    exact IH.
Qed.

Lemma chained_last (segments : list segment) :
  forall from s, chained from segments -> last segments = Some s ->
    seg_end s = from + total_height segments.
Proof.
  induction segments as [|x r IH]; intros from s Hc Hl; [discriminate|].
  cbn [chained] in Hc. destruct Hc as (Hx & Hxh & Hr).
  unfold total_height. cbn [foldr]. fold (total_height r).
  destruct r as [|y r'].
  - cbn in Hl. injection Hl as <-. unfold total_height, seg_height.
    cbn [foldr]. lia.
  - rewrite (IH _ s Hr); [unfold seg_height; lia|exact Hl].
Qed.

Lemma py_truediv_some (a b : Z) :
  b <> 0 -> py_truediv a b = Some (py_float a / py_float b)%Q.
Proof.
  intros Hb. unfold py_truediv.
  destruct (Z.eqb_spec b 0); [contradiction|reflexivity].
Qed.

(** Inside a chained sequence the colour of a row is always defined:
    each quotient is taken only where the gradient size is positive. *)
Lemma color_in_segment_some (segments pre rest : list segment)
    (seg : segment) (gradient_size row_y from : Z) :
  segments = pre ++ seg :: rest ->
  chained from segments ->
  seg_start seg <= row_y < seg_end seg ->
  is_Some (color_in_segment segments gradient_size row_y (length pre) seg).
Proof.
  intros Hsegs Hc Hrow.
  assert (segments !! length pre = Some seg) as Hcur.
  { rewrite Hsegs. rewrite lookup_app_r by lia.
    rewrite Nat.sub_diag. reflexivity. }
  assert (is_Some (to_next_or_solid segments gradient_size row_y
                                    (length pre) (seg_color seg))) as Hnext.
  { unfold to_next_or_solid.
    destruct (segments !! S (length pre)) as [[[ns ne] nc]|] eqn:Hn;
      [|eexists; reflexivity].
    pose proof (chained_next _ _ _ _ _ Hc Hcur Hn) as Hcn.
    unfold seg_start at 1 in Hcn. cbn [fst snd] in Hcn.
    cbv zeta. destruct (Z.leb_spec (ns - row_y) gradient_size) as [Hle|Hgt];
      [|eexists; reflexivity].
    rewrite py_truediv_some by lia. cbn [mbind option_bind].
    eexists; reflexivity. }
  destruct seg as [[start e] color].
  unfold seg_start, seg_end, seg_color in *. cbn [fst snd] in *.
  unfold color_in_segment.
  destruct (length pre) as [|k] eqn:Hlen; [exact Hnext|].
  destruct (lookup_lt_is_Some_2 segments k) as [[[ps pe] pc] Hprev].
  { rewrite Hsegs, length_app. lia. }
  unfold segment in *. rewrite Hprev. cbv zeta.
  destruct (Z.ltb_spec (row_y - start) gradient_size) as [Hlt|Hge].
  - rewrite py_truediv_some by lia. cbn [mbind option_bind].
    eexists; reflexivity.
  - exact Hnext.
Qed.

Lemma row_scan_some (self : renderer) (segments : list segment)
    (gradient_size row_y from : Z) (Hc : chained from segments)
    (rest : list segment) :
  forall pre, segments = pre ++ rest ->
    is_Some (row_scan self segments gradient_size row_y (length pre) rest).
Proof.
  induction rest as [|seg rest' IH]; intros pre Hsegs.
  - cbn [row_scan]. eexists; reflexivity.
  - cbn [row_scan].
    destruct (Z.leb_spec (seg_start seg) row_y) as [H1|H1];
      destruct (Z.ltb_spec row_y (seg_end seg)) as [H2|H2]; cbn [andb].
    2-4: specialize (IH (pre ++ [seg]));
         rewrite length_app in IH; cbn [length] in IH;
         rewrite Nat.add_1_r in IH; apply IH;
         rewrite <- app_assoc; exact Hsegs.
    eapply color_in_segment_some; [exact Hsegs|exact Hc|lia].
Qed.

(** A row that no remaining segment contains takes the fallback colour. *)
Lemma row_scan_past (self : renderer) (segments : list segment)
    (gradient_size row_y : Z) (rest : list segment) :
  Forall (fun s => seg_end s <= row_y) rest ->
  forall seg_idx,
    row_scan self segments gradient_size row_y seg_idx rest
    = Some (match last segments with
            | Some s => seg_color s
            | None => secondary_color self
            end).
Proof.
  induction 1 as [|seg rest' Hs Hr IH]; intros seg_idx; [reflexivity|].
  cbn [row_scan].
  destruct (Z.ltb_spec row_y (seg_end seg)) as [H2|H2]; [lia|].
  rewrite andb_false_r. apply IH.
Qed.

(** X10: in gradient mode every row of the bar gets a colour: on the
    segments the bar computes, no quotient by the gradient size is taken
    while that size is zero, so one line is drawn for each of the [h] rows.
    A row at or below the end of the last segment is drawn in the last
    segment's colour, unblended. *)
Theorem gradient_rows_total `{LanguageTable} (self : renderer)
    (w h : Z) (scale_bars : bool) (visible_languages : list (str * Q))
    (total_pct : Q) (segments : list segment)
    (Hsegs : compute_segments h scale_bars visible_languages total_pct
             = Some segments) :
  (exists ops, gradient_rows self w h segments = Some ops /\
               length ops = Z.to_nat h) /\
  (forall row_y, is_Some (row_color self segments (self_s self 8) row_y)) /\
  (forall s row_y, last segments = Some s -> seg_end s <= row_y ->
     row_color self segments (self_s self 8) row_y = Some (seg_color s)).
Proof.
  assert (chained 0 segments) as Hc.
  { apply (segments_loop_chained _ _ _ _ _ _ _ _ Hsegs); [exact I|reflexivity]. }
  assert (forall row_y,
            is_Some (row_color self segments (self_s self 8) row_y)) as Hall.
  { intros row_y. unfold row_color.
    exact (row_scan_some self segments _ row_y 0 Hc segments [] eq_refl). }
  split; [|split; [exact Hall|]].
  - unfold gradient_rows; cbv zeta.
    destruct (mapM (fun row_y =>
                      c ← row_color self segments (self_s self 8) row_y;
                      Some (Line (0, row_y) (w, row_y) c)) (seqZ 0 h))
      as [ops|] eqn:Hm.
    + exists ops. split; [reflexivity|].
      apply mapM_Some in Hm. apply Forall2_length in Hm.
      rewrite <- Hm. apply length_seqZ.
    + exfalso. apply mapM_None in Hm. rewrite Exists_exists in Hm.
      destruct Hm as (row_y & _ & Hnone).
      destruct (Hall row_y) as [c Hcol]. rewrite Hcol in Hnone.
      discriminate.
  - intros s row_y Hlast Hrow. unfold row_color.
    rewrite row_scan_past.
    + rewrite Hlast. reflexivity.
    + pose proof (chained_last _ _ _ Hc Hlast) as Hend.
      eapply Forall_impl; [apply (chained_bounds _ 0 Hc)|].
      intros x (_ & _ & Hx). cbn beta. lia.
Qed.

Lemma gradient_rows_total_witness :
  row_color (sample_renderer (2 # 1))
    [(0, 98, (53, 114, 165, 255)); (98, 163, (0, 173, 216, 255))]
    (self_s (sample_renderer (2 # 1)) 8) 163
  = Some (0, 173, 216, 255).
Proof.
  refine (proj2 (proj2 (@gradient_rows_total sample_table
            (sample_renderer (2 # 1)) 22 164 true
            [(lit "Python", 60 # 1); (lit "Go", 40 # 1)] (100 # 1)
            [(0, 98, (53, 114, 165, 255)); (98, 163, (0, 173, 216, 255))]
            _)) (98, 163, (0, 173, 216, 255)) 163 _ _).
  - vm_compute. reflexivity.
  - reflexivity.
  - unfold seg_end. cbn [fst snd]. lia.
Defined.

(** ** Rows of the legend *)

Section LegendRows.
Context `{LanguageTable} `{Pillow} `{FloatFormat}.

Lemma legend_loop_rows (self : renderer) (x : Z) (l : list (str * Q)) :
  forall k current_y ops j lang percentage,
    legend_loop self x (zip (seq k (length l)) l) current_y = Some ops ->
    l !! j = Some (lang, percentage) ->
    exists color,
      entry_color lang (k + j) = Some color /\
      take 3 (drop (3 * j) ops)
      = legend_row self x (current_y + Z.of_nat j * self_s self 36)
                   lang percentage color.
Proof.
  induction l as [|[lang0 pct0] rest IH];
    intros k cy ops j lang pct Hops Hj; [discriminate|].
  cbn [length seq zip zip_with legend_loop] in Hops.
  destruct (entry_color lang0 k) as [color0|] eqn:Hcol; [|discriminate].
  cbn [mbind option_bind] in Hops.
  destruct (legend_loop self x (zip (seq (S k) (length rest)) rest)
                        (cy + self_s self 36)) as [more|] eqn:Hmore;
    [|discriminate].
  cbn [mbind option_bind] in Hops. injection Hops as <-.
  destruct j as [|j].
  - cbn in Hj. injection Hj as <- <-. exists color0.
    rewrite Nat.add_0_r. split; [exact Hcol|].
    cbn [Nat.mul drop app take]. unfold legend_row. cbv zeta.
    rewrite Z.mul_0_l, Z.add_0_r. reflexivity.
  - cbn [lookup list_lookup] in Hj.
    destruct (IH _ _ _ _ _ _ Hmore Hj) as (color & Hc & Hrow).
    exists color. rewrite Nat.add_succ_r. split; [exact Hc|].
    replace (3 * S j)%nat with (3 + 3 * j)%nat by lia.
    rewrite <- drop_drop. cbn [drop app].
    replace (cy + Z.of_nat (S j) * self_s self 36)
      with (cy + self_s self 36 + Z.of_nat j * self_s self 36) by lia.
    exact Hrow.
Qed.

End LegendRows.

(** X12: the legend lists the first five languages only, three calls
    each, in order.  Row [j] starts [j * _s(36)] below [y] whatever the
    text heights are, its dot takes the colour of [get_language_color]
    at index [j], and the bar height passed in plays no part. *)
Theorem legend_rows `{LanguageTable} `{Pillow} `{FloatFormat}
    (self : renderer) (x y bar_height : Z) (languages : list (str * Q))
    (ops : list draw_op)
    (Hops : _draw_vertical_language_legend self x y bar_height languages
            = Some ops) :
  length ops = (3 * Nat.min 5 (length languages))%nat /\
  (forall j lang percentage,
     (j < 5)%nat -> languages !! j = Some (lang, percentage) ->
     exists color,
       entry_color lang j = Some color /\
       take 3 (drop (3 * j) ops)
       = legend_row self x (y + Z.of_nat j * self_s self 36)
                    lang percentage color) /\
  (forall bar_height',
     _draw_vertical_language_legend self x y bar_height' languages
     = Some ops).
Proof.
  unfold _draw_vertical_language_legend, enumerate in *.
  split; [|split].
  - assert (forall items cy out,
              legend_loop self x items cy = Some out ->
              length out = (3 * length items)%nat) as Hlen.
    { clear. induction items as [|[i [lang pct]] rest IH]; intros cy out Hout.
      - injection Hout as <-. reflexivity.
      - cbn [legend_loop] in Hout.
        destruct (entry_color lang i); [|discriminate].
        cbn [mbind option_bind] in Hout.
        destruct (legend_loop self x rest (cy + self_s self 36)) as [more|]
          eqn:Hmore; [|discriminate].
        cbn [mbind option_bind] in Hout. injection Hout as <-.
        cbn [length app]. rewrite (IH _ _ Hmore). lia. }
    rewrite (Hlen _ _ _ Hops), length_zip, length_seq, length_take. lia.
  - intros j lang pct Hj Hlang.
    apply (legend_loop_rows self x (take 5 languages) 0 y ops j lang pct Hops).
    rewrite lookup_take_lt by exact Hj. exact Hlang.
  - intros bh. exact Hops.
Qed.

Lemma legend_rows_witness :
  exists ops,
    @_draw_vertical_language_legend sample_table fixed_pitch blank_format
       (sample_renderer (2 # 1)) 1176 360 328
       [(lit "Python", 60 # 1); (lit "Go", 40 # 1)] = Some ops /\
    length ops = 6%nat /\
    take 3 (drop 3 ops)
    = @legend_row fixed_pitch blank_format (sample_renderer (2 # 1)) 1176
        (360 + 1 * 72) (lit "Go") (40 # 1) (0, 173, 216, 255).
Proof.
  eexists. split; [vm_compute; reflexivity|].
  match goal with
  | |- length ?o = _ /\ _ =>
      pose proof (@legend_rows sample_table fixed_pitch blank_format
                    (sample_renderer (2 # 1)) 1176 360 328
                    [(lit "Python", 60 # 1); (lit "Go", 40 # 1)] o
                    ltac:(vm_compute; reflexivity)) as (Hlen & Hrows & _)
  end.
  split; [exact Hlen|].
  destruct (Hrows 1%nat (lit "Go") (40 # 1) ltac:(lia) eq_refl)
    as (color & Hc & Hrow).
  vm_compute in Hc. injection Hc as <-. exact Hrow.
Defined.

(** ** Rainbow text *)

Lemma palette_color_some (j : nat) : is_Some (palette_color j).
Proof.
  unfold palette_color.
  pose proof (Nat.mod_upper_bound j 7 ltac:(lia)) as Hlt.
  destruct (j mod 7)%nat as [|[|[|[|[|[|[|k]]]]]]]; try lia;
    vm_compute; eexists; reflexivity.
Qed.

Lemma palette_color_period (j : nat) :
  palette_color (j + 7) = palette_color j.
Proof.
  unfold palette_color.
  replace (j + 7)%nat with (j + 1 * 7)%nat by lia.
  rewrite Nat.Div0.mod_add. reflexivity.
Qed.

Section Multicolor.
Context `{Pillow}.

Lemma multicolor_loop_layout (y : Z) (fnt : font) (text : str) :
  forall k current_x total_width,
  exists ops,
    multicolor_loop y fnt (zip (seq k (length text)) text)
                    current_x total_width
    = Some (ops, total_width + sumZ (map (char_width fnt) text)) /\
    length ops = length text /\
    forall j c, text !! j = Some c ->
      exists color,
        palette_color (k + j) = Some color /\
        ops !! j
        = Some (Text (current_x
                      + sumZ (map (char_width fnt) (take j text)), y)
                     [c] fnt color).
Proof.
  induction text as [|c0 rest IH]; intros k cx tw.
  - exists []. unfold sumZ. cbn. rewrite Z.add_0_r.
    split; [reflexivity|]. split; [reflexivity|]. intros j c Hj.
    discriminate.
  - cbn [length seq zip zip_with multicolor_loop]. cbv zeta.
    destruct (palette_color_some k) as [color0 Hpal].
    pose proof Hpal as Hcol. unfold palette_color in Hcol. change (length gradient_colors) with 7%nat.
    destruct (gradient_colors !! (k mod 7)%nat) as [hex|]; [|discriminate].
    cbn [mbind option_bind] in Hcol |- *. rewrite Hcol.
    cbn [mbind option_bind].
    destruct (IH (S k) (cx + bbox_width (textbbox fnt [c0]))
                 (tw + bbox_width (textbbox fnt [c0])))
      as (ops & Hops & Hlen & Hat).
    rewrite Hops. cbn [mbind option_bind].
    eexists. split; [|split].
    + unfold sumZ, char_width. cbn [map foldr]. do 2 f_equal. lia.
    + cbn [length]. rewrite Hlen. reflexivity.
    + intros j c Hj. destruct j as [|j].
      * cbn in Hj. injection Hj as <-. exists color0.
        rewrite Nat.add_0_r. split; [exact Hpal|].
        cbn. unfold sumZ. cbn. rewrite Z.add_0_r. reflexivity.
      * cbn [lookup list_lookup] in Hj.
        destruct (Hat j c Hj) as (color & Hc & Hop).
        exists color. rewrite Nat.add_succ_r. split; [exact Hc|].
        cbn [lookup list_lookup]. etransitivity; [exact Hop|].
        cbn [take map]. unfold sumZ, char_width. cbn [foldr].
        do 3 f_equal. lia.
Qed.

End Multicolor.

(** X13: the rainbow text never raises.  It draws one call for each
    character, in order; character [j] is drawn at [x] plus the widths of
    the characters before it, in the palette colour at [j mod 7], so the
    colours repeat every seven characters; the value returned is the sum
    of the character widths. *)
Theorem multicolor_text_layout `{Pillow} (x y : Z) (text : str)
    (fnt : font) :
  exists ops,
    _draw_multicolor_text x y text fnt
    = Some (ops, sumZ (map (char_width fnt) text)) /\
    length ops = length text /\
    (forall j c, text !! j = Some c ->
       exists color,
         palette_color j = Some color /\
         palette_color (j + 7) = Some color /\
         ops !! j
         = Some (Text (x + sumZ (map (char_width fnt) (take j text)), y)
                      [c] fnt color)).
Proof.
  destruct (multicolor_loop_layout y fnt text 0 x 0)
    as (ops & Hops & Hlen & Hat).
  exists ops. split; [exact Hops|]. split; [exact Hlen|].
  intros j c Hj. destruct (Hat j c Hj) as (color & Hc & Hop).
  exists color. rewrite palette_color_period.
  split; [exact Hc|]. split; [exact Hc|exact Hop].
Qed.

(** ** Team header *)

Section ScaledLengths.
Variable self : renderer.
Hypothesis Hscale : (0 < r_scale self)%Q.

Lemma self_s_mono (a b : Z) : a <= b -> self_s self a <= self_s self b.
Proof.
  intros Hab. unfold self_s, Scaler._s, py_float. apply py_round_mono.
  apply Qmult_le_compat_r; [|lra]. rewrite <- Zle_Qle. exact Hab.
Qed.

Lemma self_s_zero : self_s self 0 = 0.
Proof.
  unfold self_s, Scaler._s, py_float.
  assert (inject_Z 0 * r_scale self == inject_Z 0)%Q as E by ring.
  rewrite (py_round_proper _ _ E). apply py_round_inject.
Qed.

Lemma self_s_nonneg (v : Z) : 0 <= v -> 0 <= self_s self v.
Proof.
  intros Hv. rewrite <- self_s_zero. apply self_s_mono. exact Hv.
Qed.

Lemma self_s_near (v : Z) :
  (inject_Z (self_s self v) - (1 # 2) <= inject_Z v * r_scale self
   <= inject_Z (self_s self v) + (1 # 2))%Q.
Proof. apply py_round_near. Qed.

End ScaledLengths.

Section TeamHeader.
Context `{PillowImage}.

Lemma team_of_length (sprites : list (option image)) :
  (length (team_of sprites) <= 6)%nat.
Proof.
  unfold team_of.
  assert (forall l : list (option image),
            (length (omap id l) <= length l)%nat) as Hle.
  { induction l as [|[x|] r IH]; cbn; lia. }
  specialize (Hle (take 6 sprites)). rewrite length_take in Hle. lia.
Qed.

Lemma team_loop_length start_x sprite_size spacing sprite_y right_edge
    (items : list (nat * image)) :
  (length (team_loop start_x sprite_size spacing sprite_y right_edge items)
   <= length items)%nat.
Proof.
  induction items as [|[i sprite] rest IH]; [reflexivity|].
  cbn [team_loop]. cbv zeta.
  destruct (_ >? right_edge); cbn [length]; lia.
Qed.

(** Whatever is pasted starts at or after [start_x], ends at or before
    the right edge and sits on the row [sprite_y]. *)
Lemma team_loop_inside start_x sprite_size spacing sprite_y right_edge
    (items : list (nat * image)) :
  0 <= sprite_size + spacing ->
  Forall (fun op => start_x <= paste_x op /\
                    paste_x op + sprite_size <= right_edge /\
                    paste_y op = sprite_y)
         (team_loop start_x sprite_size spacing sprite_y right_edge items).
Proof.
  intros Hstep. induction items as [|[i sprite] rest IH]; [constructor|].
  cbn [team_loop]. cbv zeta.
  destruct (Z.gtb_spec
              (start_x + Z.of_nat i * (sprite_size + spacing) + sprite_size)
              right_edge) as [Hgt|Hle]; [constructor|].
  constructor; [|exact IH]. cbn [paste_x paste_y].
  split; [nia|]. split; [lia|reflexivity].
Qed.

(** When the whole row fits, the loop is never left early. *)
Lemma team_loop_all start_x sprite_size spacing sprite_y right_edge
    (n : nat) (l : list image) :
  0 <= sprite_size -> 0 <= spacing ->
  start_x + Z.of_nat n * sprite_size + (Z.of_nat n - 1) * spacing
  <= right_edge ->
  forall k, (k + length l <= n)%nat ->
    team_loop start_x sprite_size spacing sprite_y right_edge
              (zip (seq k (length l)) l)
    = map (fun item : nat * image =>
             Paste (fit_sprite item.2 sprite_size)
                   (start_x + Z.of_nat item.1 * (sprite_size + spacing),
                    sprite_y))
          (zip (seq k (length l)) l).
Proof.
  intros Hss Hsp Hfit. induction l as [|sprite rest IH]; intros k Hk;
    [reflexivity|].
  cbn [length seq zip zip_with team_loop map fst snd]. cbv zeta.
  cbn [length] in Hk.
  destruct (Z.gtb_spec
              (start_x + Z.of_nat k * (sprite_size + spacing) + sprite_size)
              right_edge) as [Hgt|Hle].
  - exfalso. nia.
  - f_equal. apply IH. lia.
Qed.

End TeamHeader.

Section TeamGeometry.
Variable self : renderer.
Hypothesis Hscale : (0 < r_scale self)%Q.

Lemma team_spacing_nonneg : 0 <= team_spacing self.
Proof.
  unfold team_spacing. pose proof (self_s_nonneg self Hscale 4 ltac:(lia)).
  lia.
Qed.

Lemma team_sprite_size_bounds (n : Z) :
  1 <= n -> 0 <= team_sprite_size self n <= self_s self 55.
Proof.
  intros Hn. unfold team_sprite_size. cbv zeta.
  change Scaler.BASE_POKEMON_SPRITE_SIZE with 55.
  pose proof (self_s_nonneg self Hscale 20 ltac:(lia)) as H20.
  pose proof (self_s_mono self Hscale 20 55 ltac:(lia)) as H2055.
  destruct (Z.gtb_spec (n * self_s self 55 + (n - 1) * team_spacing self)
                       (team_available_w self)) as [Hgt|Hle]; [|lia].
  rewrite (Z.max_r 1 n) by lia.
  set (a := team_available_w self - (n - 1) * team_spacing self) in *.
  assert (py_int (py_float a / py_float n) <= self_s self 55) as Hq.
  { unfold py_float.
    apply (py_int_between _ (Qfloor (inject_Z a / inject_Z n))).
    - apply Qfloor_le.
    - assert (0 < inject_Z n)%Q as Hnq
        by (change 0%Q with (inject_Z 0); rewrite <- Zlt_Qlt; lia).
      apply Qle_shift_div_r; [exact Hnq|].
      rewrite <- inject_Z_mult, <- Zle_Qle. unfold a. lia. }
  lia.
Qed.

Lemma team_start_x_lower (n : Z) :
  self_s self 236 + self_s self 24 <= team_start_x self n.
Proof.
  unfold team_start_x. cbv zeta.
  destruct (Z.ltb_spec
              (n * team_sprite_size self n + (n - 1) * team_spacing self)
              (team_available_w self)) as [Hlt|Hge]; [|lia].
  assert (0 <= (team_available_w self
                - (n * team_sprite_size self n + (n - 1) * team_spacing self))
               `div` 2) by (apply Z.div_pos; lia).
  lia.
Qed.

End TeamGeometry.

(** X14: the header pastes at most six sprites, the ones that are not
    [None] among the first six, in order and possibly cut short; at a
    positive scale every sprite pasted lies inside the header box:
    between the two paddings horizontally and between the top and the
    bottom of the box vertically, for the side the sprites are given. *)
Theorem team_header_inside `{PillowImage} (self : renderer)
    (sprites : list (option image)) (Hscale : (0 < r_scale self)%Q) :
  let team := team_of sprites in
  let size := team_sprite_size self (Z.of_nat (length team)) in
  (length (_draw_team_header self sprites) <= length team)%nat /\
  (length team <= 6)%nat /\
  Forall (fun op =>
            self_s self 236 + self_s self 24 <= paste_x op /\
            paste_x op + size
            <= self_s self 236 + self_s self 555 - self_s self 24 /\
            self_s self 24 <= paste_y op /\
            paste_y op + size <= self_s self 24 + self_s self 84)
         (_draw_team_header self sprites).
Proof.
  intros team size. subst size.
  split; [|split; [apply team_of_length|]].
  - unfold _draw_team_header. cbv zeta. fold team.
    destruct team as [|t0 rest] eqn:Ht; [cbn; lia|].
    destruct (_ <=? 0); [cbn; lia|].
    etransitivity; [apply team_loop_length|].
    unfold enumerate. rewrite length_zip, length_seq. lia.
  - unfold _draw_team_header. cbv zeta. fold team.
    destruct team as [|t0 rest] eqn:Ht; [constructor|].
    destruct (_ <=? 0); [constructor|].
    set (n := Z.of_nat (length (t0 :: rest))).
    assert (1 <= n) as Hn by (unfold n; cbn [length]; lia).
    pose proof (team_sprite_size_bounds self Hscale n Hn) as [Hs0 Hs55].
    pose proof (team_spacing_nonneg self Hscale) as Hsp.
    pose proof (team_start_x_lower self n) as Hstart.
    pose proof (self_s_mono self Hscale 55 84 ltac:(lia)) as H5584.
    eapply Forall_impl;
      [apply (team_loop_inside (team_start_x self n)
                (team_sprite_size self n) (team_spacing self)); lia|].
    intros op (Hx1 & Hx2 & Hy). cbn beta. rewrite Hy.
    assert (0 <= (self_s self 84 - team_sprite_size self n) `div` 2)
      by (apply Z.div_pos; lia).
    assert ((self_s self 84 - team_sprite_size self n) `div` 2
            <= self_s self 84 - team_sprite_size self n)
      by (apply Z.div_le_upper_bound; lia).
    lia.
Qed.

Lemma team_header_inside_witness :
  Forall (fun op => 520 <= @paste_x sized_images op /\
                    paste_x op + 110 <= 1534 /\
                    48 <= paste_y op /\ paste_y op + 110 <= 216)
         (@_draw_team_header sized_images (sample_renderer (2 # 1))
            [Some (96, 96); None; Some (110, 110)]).
Proof.
  exact (proj2 (proj2 (@team_header_inside sized_images
                         (sample_renderer (2 # 1))
                         [Some (96, 96); None; Some (110, 110)]
                         ltac:(reflexivity)))).
Defined.

(** At a scale of one or more the row of six sprites at their default
    size is narrower than the space between the paddings. *)
Lemma header_row_fits (self : renderer) (n : Z) :
  (1 <= r_scale self)%Q -> 1 <= n <= 6 ->
  n * self_s self 55 + (n - 1) * team_spacing self < team_available_w self.
Proof.
  intros Hs Hn.
  assert (0 < r_scale self)%Q as Hpos by lra.
  pose proof (self_s_nonneg self Hpos 55 ltac:(lia)) as H55.
  pose proof (team_spacing_nonneg self Hpos) as Hsp.
  assert (self_s self 55 + self_s self 55 + self_s self 55 + self_s self 55
          + self_s self 55 + self_s self 55
          + team_spacing self + team_spacing self + team_spacing self
          + team_spacing self + team_spacing self
          + self_s self 24 + self_s self 24 < self_s self 555) as Hsix.
  { pose proof (self_s_near self 55) as [N55 _].
    pose proof (self_s_near self 24) as [N24 _].
    pose proof (self_s_near self 555) as [_ N555].
    assert (inject_Z (team_spacing self)
            <= inject_Z 5 * r_scale self + (1 # 2))%Q as Nsp.
    { unfold team_spacing. change Scaler.BASE_POKEMON_SPACING with 5.
      pose proof (self_s_near self 4) as [N4 _].
      pose proof (self_s_near self 5) as [N5 _].
      change (inject_Z 5) with (5 # 1)%Q in *.
      change (inject_Z 4) with (4 # 1)%Q in *.
      destruct (Z.max_spec (self_s self 4) (self_s self 5)) as [[_ ->]|[_ ->]];
        [set (u := inject_Z (self_s self 5)) in *
        |set (u := inject_Z (self_s self 4)) in *]; lra. }
    change (inject_Z 55) with (55 # 1)%Q in *.
    change (inject_Z 24) with (24 # 1)%Q in *.
    change (inject_Z 555) with (555 # 1)%Q in *.
    change (inject_Z 5) with (5 # 1)%Q in *.
    rewrite Zlt_Qlt, !inject_Z_plus.
    set (a := inject_Z (self_s self 55)) in *.
    set (b := inject_Z (team_spacing self)) in *.
    set (c := inject_Z (self_s self 24)) in *.
    set (d := inject_Z (self_s self 555)) in *.
    lra. }
  unfold team_available_w. nia.
Qed.

(** X15: at a scale of one or more no sprite is dropped or shrunk: every
    sprite that is not [None] among the first six is pasted at the default
    side [_s(55)], the row is centred between the paddings, and sprite [i]
    sits [i] steps of side plus spacing to the right of the first. *)
Theorem team_header_all_pasted `{PillowImage} (self : renderer)
    (sprites : list (option image)) (Hscale : (1 <= r_scale self)%Q) :
  let team := team_of sprites in
  let n := Z.of_nat (length team) in
  let size := self_s self 55 in
  let spacing := Z.max (self_s self 4) (self_s self 5) in
  let total_needed := n * size + (n - 1) * spacing in
  let available_w := self_s self 555 - 2 * self_s self 24 in
  let start_x := self_s self 236 + self_s self 24
                 + (available_w - total_needed) `div` 2 in
  let sprite_y := self_s self 24 + (self_s self 84 - size) `div` 2 in
  _draw_team_header self sprites
  = map (fun item : nat * image =>
           Paste (fit_sprite item.2 size)
                 (start_x + Z.of_nat item.1 * (size + spacing), sprite_y))
        (enumerate team).
Proof.
  intros team n size spacing total_needed available_w start_x sprite_y.
  assert (0 < r_scale self)%Q as Hpos by lra.
  unfold _draw_team_header. cbv zeta. fold team.
  destruct team as [|t0 rest] eqn:Ht; [reflexivity|].
  assert (1 <= n <= 6) as Hn.
  { unfold n. pose proof (team_of_length sprites) as H6. fold team in H6.
    rewrite Ht in H6. cbn [length] in *. lia. }
  fold n.
  pose proof (header_row_fits self n Hscale Hn) as Hfit.
  pose proof (self_s_nonneg self Hpos 55 ltac:(lia)) as H55.
  pose proof (team_spacing_nonneg self Hpos) as Hsp.
  fold (team_available_w self).
  assert (team_sprite_size self n = size) as Hsize.
  { unfold team_sprite_size. cbv zeta.
    change Scaler.BASE_POKEMON_SPRITE_SIZE with 55.
    destruct (Z.gtb_spec (n * self_s self 55 + (n - 1) * team_spacing self)
                         (team_available_w self)); [lia|reflexivity]. }
  assert (team_start_x self n = start_x) as Hstart.
  { unfold team_start_x. cbv zeta. rewrite Hsize.
    destruct (Z.ltb_spec (n * size + (n - 1) * team_spacing self)
                         (team_available_w self)); [reflexivity|].
    unfold size in *. lia. }
  destruct (Z.leb_spec (team_available_w self) 0) as [Hle|Hgt].
  { exfalso. nia. }
  rewrite Hsize, Hstart.
  change (team_spacing self) with spacing in *.
  unfold enumerate.
  apply (team_loop_all start_x size spacing sprite_y _
                       (length (t0 :: rest)) (t0 :: rest)); [exact H55|exact Hsp| |lia].
  fold n. unfold start_x, total_needed, available_w.
  change (self_s self 555 - 2 * self_s self 24) with (team_available_w self).
  assert ((team_available_w self - (n * size + (n - 1) * spacing)) `div` 2
          <= team_available_w self - (n * size + (n - 1) * spacing))
    by (apply Z.div_le_upper_bound; unfold size in *; lia).
  unfold team_available_w in *. lia.
Qed.

Lemma team_header_all_pasted_witness :
  @_draw_team_header sized_images (sample_renderer (2 # 1))
     [Some (96, 96); None; Some (110, 110)]
  = [@Paste sized_images (110, 110) (912, 77);
     @Paste sized_images (110, 110) (1032, 77)].
Proof.
  exact (@team_header_all_pasted sized_images (sample_renderer (2 # 1))
           [Some (96, 96); None; Some (110, 110)] ltac:(discriminate)).
Defined.

(** ** Blurb section *)

Section BlurbDraw.
Context `{Pillow} (self : renderer) (fnt : font) (x max_w line_gap para_gap : Z).
Hypothesis Hheight : forall line, 0 <= text_height fnt line.
Hypothesis Hline_gap : 0 <= line_gap.
Hypothesis Hpara_gap : 0 <= para_gap.

Lemma line_within_widen (lo hi lo' hi' : Z) (ops : list draw_op) :
  lo' <= lo -> hi <= hi' ->
  Forall (line_within self fnt x lo hi) ops ->
  Forall (line_within self fnt x lo' hi') ops.
Proof.
  intros Hlo Hhi Hf. eapply Forall_impl; [exact Hf|].
  intros op (line & y & -> & H1 & H2). exists line, y.
  split; [reflexivity|]. lia.
Qed.

(** The inner loop advances [y] by the heights and gaps of the lines it
    draws, and every line ends a gap or more above the final [y]. *)
Lemma blurb_lines_draw_spec (wrapped : list str) :
  forall y,
    let '(ops, y') := blurb_lines_draw self fnt x line_gap wrapped y in
    y' = fold_left (fun t line => t + (text_height fnt line + line_gap))
                   wrapped y /\
    y <= y' /\
    length ops = length wrapped /\
    (wrapped <> [] -> y + line_gap <= y') /\
    Forall (line_within self fnt x y (y' - line_gap)) ops.
Proof.
  induction wrapped as [|line rest IH]; intros y.
  - cbn. split; [reflexivity|]. split; [lia|]. split; [reflexivity|].
    split; [intros Hne; contradiction|constructor].
  - cbn [blurb_lines_draw fold_left]. cbv zeta.
    specialize (IH (y + (text_height fnt line + line_gap))).
    destruct (blurb_lines_draw self fnt x line_gap rest
                (y + (text_height fnt line + line_gap))) as [ops y'].
    destruct IH as (Hy' & Hle & Hlen & _ & Hops).
    pose proof (Hheight line) as Hh.
    split; [exact Hy'|]. split; [lia|]. split; [cbn; lia|].
    split; [intros _; lia|].
    constructor.
    + exists line, y. split; [reflexivity|]. lia.
    + eapply line_within_widen; [| |exact Hops]; lia.
Qed.

(** The outer loop advances [y] as [_calculate_blurb_height] advances its
    total, and every line it draws lies between the two values of [y]. *)
Lemma blurb_draw_loop_spec (len : nat) (items : list (nat * str)) :
  forall y,
    let '(ops, y') :=
      blurb_draw_loop self fnt x max_w line_gap para_gap len items y in
    y' = blurb_loop fnt max_w line_gap para_gap len items y /\
    y <= y' /\
    Forall (line_within self fnt x y y') ops.
Proof.
  induction items as [|[idx para] rest IH]; intros y.
  - cbn. split; [reflexivity|]. split; [lia|constructor].
  - cbn [blurb_draw_loop blurb_loop]. cbv zeta.
    pose proof (blurb_lines_draw_spec (_wrap_text_balanced fnt para max_w) y)
      as Hlines.
    destruct (blurb_lines_draw self fnt x line_gap
                (_wrap_text_balanced fnt para max_w) y) as [ops y1].
    destruct Hlines as (Hy1 & Hle1 & _ & Hne & Hops).
    rewrite <- Hy1.
    set (y2 := match _wrap_text_balanced fnt para max_w with
               | [] => y1
               | _ :: _ => y1 - line_gap
               end).
    assert (y <= y2 /\ y1 - line_gap <= y2) as [Hy2 Hy2'].
    { unfold y2. destruct (_wrap_text_balanced fnt para max_w) as [|l0 ls].
      - lia.
      - specialize (Hne ltac:(discriminate)). lia. }
    set (y3 := if bool_decide (idx < len - 1)%nat then y2 + para_gap else y2).
    assert (y2 <= y3) as Hy3 by (unfold y3; destruct (bool_decide _); lia).
    specialize (IH y3).
    destruct (blurb_draw_loop self fnt x max_w line_gap para_gap len rest y3)
      as [more y4].
    destruct IH as (Hy4 & Hle4 & Hmore).
    split; [exact Hy4|]. split; [lia|].
    apply Forall_app. split.
    + eapply line_within_widen; [| |exact Hops]; lia.
    + eapply line_within_widen; [| |exact Hmore]; lia.
Qed.

End BlurbDraw.

Lemma draw_blurb_section_unfold `{Pillow} (self : renderer)
    (blurb_lines : list str) :
  blurb_lines <> [] ->
  _draw_blurb_section self blurb_lines
  = (blurb_draw_loop self
       (_find_optimal_blurb_font_size self blurb_lines
          (self_s self 200 - 2 * self_s self 20)
          (self_s self 169 - 2 * self_s self 20))
       (self_s self 22 + self_s self 20)
       (self_s self 200 - 2 * self_s self 20)
       (self_s self 4) (self_s self 8)
       (length blurb_lines) (enumerate blurb_lines)
       (self_s self 209 + self_s self 20)).1.
Proof.
  intros Hne. unfold _draw_blurb_section.
  destruct blurb_lines; [contradiction|reflexivity].
Qed.

(** Where the lines of the blurb are drawn, against the height measured
    for the chosen font and against the height of the padded box. *)
Lemma blurb_layout `{Pillow} (self : renderer)
    (blurb_lines : list str) (Hscale : (0 < r_scale self)%Q)
    (Hheights : forall size line,
        0 <= size -> 0 <= text_height (load_font size) line) :
  let x := self_s self 22 + self_s self 20 in
  let y := self_s self 209 + self_s self 20 in
  let max_w := self_s self 200 - 2 * self_s self 20 in
  let max_h := self_s self 169 - 2 * self_s self 20 in
  let fnt := _find_optimal_blurb_font_size self blurb_lines max_w max_h in
  let total_height :=
    _calculate_blurb_height fnt blurb_lines max_w
                            (self_s self 4) (self_s self 8) in
  Forall (line_within self fnt x y (y + total_height))
         (_draw_blurb_section self blurb_lines) /\
  ((exists size, 10 <= size <= 24 /\
                 height_at self blurb_lines max_w size <= max_h) ->
   Forall (line_within self fnt x y (y + max_h))
          (_draw_blurb_section self blurb_lines)).
Proof.
  intros x y max_w max_h fnt total_height.
  pose proof (size_scan_desc self blurb_lines max_w max_h 10
                (load_font (self_s self 10)) 15) as Hscan.
  cbv zeta in Hscan. change (rev (seqZ 10 (Z.of_nat 15))) with candidate_sizes in Hscan.
  fold (_find_optimal_blurb_font_size self blurb_lines max_w max_h) in Hscan.
  fold fnt in Hscan.
  assert (exists size, 0 <= size /\ fnt = load_font size) as (sz & Hsz & Hfnt).
  { destruct Hscan as [(size & Hr & _ & _ & ->)|(_ & ->)];
      eexists; (split; [|reflexivity]);
      apply (self_s_nonneg self Hscale); lia. }
  assert (forall line, 0 <= text_height fnt line) as Hh
    by (intros line; rewrite Hfnt; apply Hheights; exact Hsz).
  assert (Forall (line_within self fnt x y (y + total_height))
                 (_draw_blurb_section self blurb_lines)) as Hall.
  { assert (blurb_lines = [] \/ blurb_lines <> []) as [Hb|Hb]
      by (destruct blurb_lines; [left; reflexivity|right; discriminate]).
    { rewrite Hb. constructor. }
    rewrite (draw_blurb_section_unfold self blurb_lines Hb).
    fold x y max_w max_h fnt.
    pose proof (blurb_draw_loop_spec self fnt x max_w (self_s self 4)
                  (self_s self 8) Hh
                  (self_s_nonneg self Hscale 4 ltac:(lia))
                  (self_s_nonneg self Hscale 8 ltac:(lia))
                  (length blurb_lines) (enumerate blurb_lines) y) as Hloop.
    destruct (blurb_draw_loop self fnt x max_w (self_s self 4) (self_s self 8)
                (length blurb_lines) (enumerate blurb_lines) y) as [ops y'].
    destruct Hloop as (Hy' & _ & Hops). cbn [fst].
    assert (y' = y + total_height) as <-; [|exact Hops].
    rewrite Hy'. unfold total_height, _calculate_blurb_height, enumerate.
    rewrite !(blurb_loop_height max_w fnt _ _ (length blurb_lines)
                blurb_lines 0) by reflexivity.
    lia. }
  split; [exact Hall|].
  intros (size & Hsize & Hfit).
  eapply line_within_widen; [| |exact Hall]; [lia|].
  assert (total_height <= max_h); [|lia].
  destruct Hscan as [(size' & _ & Hfit' & _ & Hres)|(Hnone & _)].
  - unfold total_height. rewrite Hres. exact Hfit'.
  - specialize (Hnone size ltac:(lia)). lia.
Qed.

(** X16: the blurb is drawn where its height was measured.  At a positive
    scale and with text heights that are not negative, every line is
    drawn in the chosen font at the left padding of the box, between the
    top padding and the height [_calculate_blurb_height] gives for that
    font below it; when some candidate size from 10 to 24 fits the box,
    every line ends above the bottom padding. *)
Theorem blurb_lines_inside `{Pillow} (self : renderer)
    (blurb_lines : list str) (Hscale : (0 < r_scale self)%Q)
    (Hheights : forall size line,
        0 <= size -> 0 <= text_height (load_font size) line) :
  let x := self_s self 22 + self_s self 20 in
  let y := self_s self 209 + self_s self 20 in
  let max_w := self_s self 200 - 2 * self_s self 20 in
  let max_h := self_s self 169 - 2 * self_s self 20 in
  let fnt := _find_optimal_blurb_font_size self blurb_lines max_w max_h in
  let total_height :=
    _calculate_blurb_height fnt blurb_lines max_w
                            (self_s self 4) (self_s self 8) in
  Forall (line_within self fnt x y (y + total_height))
         (_draw_blurb_section self blurb_lines) /\
  ((exists size, 10 <= size <= 24 /\
                 height_at self blurb_lines max_w size <= max_h) ->
   Forall (line_within self fnt x y (y + max_h))
          (_draw_blurb_section self blurb_lines)).
Proof.
  exact (blurb_layout self blurb_lines Hscale Hheights).
Qed.

Lemma blurb_lines_inside_witness :
  Forall (@line_within fixed_pitch (sample_renderer (2 # 1)) 38 84 458
            (458 + 258))
         (@_draw_blurb_section fixed_pitch (sample_renderer (2 # 1))
            [lit "hello world"; lit "bye"]).
Proof.
  refine (proj2 (@blurb_lines_inside fixed_pitch (sample_renderer (2 # 1))
                   [lit "hello world"; lit "bye"] ltac:(reflexivity) _) _).
  - intros size line Hsize. unfold text_height. cbn. lia.
  - exists 10. split; [lia|]. vm_compute. discriminate.
Defined.

(** ** github_stats.py: language percentages *)

Section LanguagePercentages.
Import GitHubStats.

Lemma insert_by_bytes_perm (x : str * Z) (l : list (str * Z)) :
  insert_by_bytes x l ≡ₚ x :: l.
Proof.
  induction l as [|y r IH]; [reflexivity|].
  cbn [insert_by_bytes]. destruct (x.2 <? y.2); [|reflexivity].
  rewrite IH. apply Permutation_swap.
Qed.

Lemma sorted_by_bytes_perm (l : list (str * Z)) : sorted_by_bytes l ≡ₚ l.
Proof.
  induction l as [|x r IH]; [reflexivity|].
  cbn [sorted_by_bytes foldr]. rewrite insert_by_bytes_perm.
  fold (sorted_by_bytes r). rewrite IH. reflexivity.
Qed.

Lemma insert_by_bytes_descending (x : str * Z) (l : list (str * Z)) :
  bytes_descending l -> bytes_descending (insert_by_bytes x l).
Proof.
  induction l as [|y r IH]; intros Hl.
  - cbn. split; [constructor|exact I].
  - cbn [insert_by_bytes]. destruct Hl as [Hy Hr].
    destruct (Z.ltb_spec x.2 y.2) as [Hlt|Hge].
    + cbn [bytes_descending]. split; [|exact (IH Hr)].
      rewrite insert_by_bytes_perm. constructor; [lia|exact Hy].
    + cbn [bytes_descending]. split; [|split; [exact Hy|exact Hr]].
      constructor; [exact Hge|].
      eapply Forall_impl; [exact Hy|]. intros z Hz. cbn beta in *. lia.
Qed.

Lemma sorted_by_bytes_descending (l : list (str * Z)) :
  bytes_descending (sorted_by_bytes l).
Proof.
  induction l as [|x r IH]; [exact I|].
  cbn [sorted_by_bytes foldr]. apply insert_by_bytes_descending. exact IH.
Qed.

Lemma bytes_descending_take (n : nat) (l : list (str * Z)) :
  bytes_descending l -> bytes_descending (take n l).
Proof.
  revert n. induction l as [|x r IH]; intros n Hl; [destruct n; exact I|].
  destruct n as [|n]; [exact I|]. cbn [take bytes_descending].
  destruct Hl as [Hx Hr]. split; [|exact (IH n Hr)].
  rewrite Forall_forall in *. intros y Hy. apply Hx.
  exact (subseteq_take n r y Hy).
Qed.

Lemma percentages_unfold (language_bytes : list (str * Z)) (top_n : nat)
    (excluded_languages : option (list str)) :
  get_language_percentages language_bytes top_n excluded_languages
  = let kept := without_excluded language_bytes excluded_languages in
    let total_bytes := fold_left Z.add (map snd kept) 0 in
    mapM (fun item : str * Z =>
            let '(lang, bytes_count) := item in
            q ← py_truediv bytes_count total_bytes;
            let percentage := (q * (100 # 1))%Q in
            Some (lang, py_round1 percentage))
         (take top_n (sorted_by_bytes kept)).
Proof.
  unfold get_language_percentages. cbv zeta.
  destruct language_bytes as [|l0 ls].
  - assert (without_excluded [] excluded_languages = []) as ->.
    { unfold without_excluded. destruct excluded_languages as [[|x xs]|];
        try reflexivity.
      cbv zeta. destruct (map _ _); reflexivity. }
    destruct top_n; reflexivity.
  - destruct (without_excluded (l0 :: ls) excluded_languages) as [|k0 ks];
      [destruct top_n; reflexivity|reflexivity].
Qed.

Lemma mapM_map {A B} (f : A -> option B) (g : A -> B) (l : list A) :
  (forall x, f x = Some (g x)) -> mapM f l = Some (map g l).
Proof.
  intros Hf. induction l as [|x r IH]; [reflexivity|].
  cbn [mapM map]. rewrite Hf, IH. reflexivity.
Qed.

Lemma percentages_some (total_bytes : Z) (l : list (str * Z)) :
  total_bytes <> 0 ->
  mapM (fun item : str * Z =>
          let '(lang, bytes_count) := item in
          q ← py_truediv bytes_count total_bytes;
          let percentage := (q * (100 # 1))%Q in
          Some (lang, py_round1 percentage)) l
  = Some (map (fun item : str * Z =>
                 (item.1, percentage_of total_bytes item.2)) l).
Proof.
  intros Ht. apply mapM_map. intros [lang b].
  rewrite py_truediv_some by exact Ht. reflexivity.
Qed.



End LanguagePercentages.


Section PercentageFacts.
Import GitHubStats.

Lemma fold_left_add (l : list Z) :
  forall a, fold_left Z.add l a = a + sumZ l.
Proof.
  induction l as [|x r IH]; intros a; cbn [fold_left]; unfold sumZ in *;
    cbn [foldr]; [lia|]. rewrite IH. lia.
Qed.

Lemma elem_le_sum (l : list Z) (x : Z) :
  Forall (fun z => 0 <= z) l -> x ∈ l -> x <= sumZ l.
Proof.
  induction 1 as [|z r Hz Hr IH]; intros Hin; [inversion Hin|].
  assert (0 <= sumZ r) as Hnn.
  { clear -Hr. induction Hr as [|y r' Hy Hr' IHr]; unfold sumZ in *;
      cbn [foldr]; lia. }
  unfold sumZ in *. cbn [foldr].
  apply elem_of_cons in Hin as [->|Hin]; [lia|]. specialize (IH Hin). lia.
Qed.

Lemma without_excluded_sub (language_bytes : list (str * Z))
    (excluded_languages : option (list str)) (P : str * Z -> Prop) :
  Forall P language_bytes ->
  Forall P (without_excluded language_bytes excluded_languages).
Proof.
  intros Hall. unfold without_excluded.
  destruct excluded_languages as [[|x xs]|]; try exact Hall.
  cbv zeta. destruct (map _ _); [exact Hall|].
  rewrite Forall_forall in *. intros y Hy.
  apply list_elem_of_filter in Hy as [_ Hy]. exact (Hall y Hy).
Qed.

Lemma py_round1_mono (x y : Q) : (x <= y)%Q -> (py_round1 x <= py_round1 y)%Q.
Proof.
  intros Hxy. unfold py_round1.
  assert (py_round (x * (10 # 1)) <= py_round (y * (10 # 1))) as Hr
    by (apply py_round_mono; lra).
  rewrite Zle_Qle in Hr.
  set (a := inject_Z (py_round (x * (10 # 1)))) in *.
  set (b := inject_Z (py_round (y * (10 # 1)))) in *.
  unfold Qdiv. change (/ (10 # 1))%Q with (1 # 10)%Q. lra.
Qed.

Lemma py_round1_range (x : Q) :
  (0 <= x <= 100 # 1)%Q -> (0 <= py_round1 x <= 100 # 1)%Q.
Proof.
  intros [Hlo Hhi]. unfold py_round1.
  assert (0 <= py_round (x * (10 # 1)) <= 1000) as [H1 H2].
  { pose proof (py_round_mono (inject_Z 0) (x * (10 # 1))) as M0.
    pose proof (py_round_mono (x * (10 # 1)) (inject_Z 1000)) as M1.
    rewrite py_round_inject in M0, M1.
    change (inject_Z 0) with 0%Q in M0.
    change (inject_Z 1000) with (1000 # 1)%Q in M1.
    split; [apply M0|apply M1]; lra. }
  rewrite Zle_Qle in H1, H2.
  change (inject_Z 0) with 0%Q in H1.
  change (inject_Z 1000) with (1000 # 1)%Q in H2.
  set (a := inject_Z (py_round (x * (10 # 1)))) in *.
  unfold Qdiv. change (/ (10 # 1))%Q with (1 # 10)%Q. lra.
Qed.

Lemma percentage_of_mono (total a b : Z) :
  0 < total -> a <= b ->
  (percentage_of total a <= percentage_of total b)%Q.
Proof.
  intros Ht Hab. unfold percentage_of, py_float. apply py_round1_mono.
  assert (0 < inject_Z total)%Q as Htq
    by (change 0%Q with (inject_Z 0); rewrite <- Zlt_Qlt; exact Ht).
  rewrite Zle_Qle in Hab.
  apply Qmult_le_compat_r; [|lra].
  unfold Qdiv. apply Qmult_le_compat_r; [exact Hab|].
  apply Qlt_le_weak, Qinv_lt_0_compat. exact Htq.
Qed.

Lemma percentage_of_range (total b : Z) :
  0 < total -> 0 <= b <= total ->
  (0 <= percentage_of total b <= 100 # 1)%Q.
Proof.
  intros Ht [Hb0 Hbt]. unfold percentage_of, py_float. apply py_round1_range.
  assert (0 < inject_Z total)%Q as Htq
    by (change 0%Q with (inject_Z 0); rewrite <- Zlt_Qlt; exact Ht).
  rewrite Zle_Qle in Hb0, Hbt. change (inject_Z 0) with 0%Q in Hb0.
  assert (0 <= inject_Z b / inject_Z total)%Q as Hq0
    by (apply Qle_shift_div_l; [exact Htq|lra]).
  assert (inject_Z b / inject_Z total <= 1)%Q as Hq1
    by (apply Qle_shift_div_r; [exact Htq|lra]).
  set (q := (inject_Z b / inject_Z total)%Q) in *. lra.
Qed.

Lemma percentages_descending (total : Z) (l : list (str * Z)) :
  0 < total -> bytes_descending l ->
  descending (map snd (map (fun item : str * Z =>
                              (item.1, percentage_of total item.2)) l)).
Proof.
  intros Ht. induction l as [|x r IH]; intros Hl; [exact I|].
  destruct Hl as [Hx Hr]. cbn [map descending snd]. split; [|exact (IH Hr)].
  rewrite !Forall_map. eapply Forall_impl; [exact Hx|].
  intros y Hy. cbn beta. cbn [snd]. apply percentage_of_mono; assumption.
Qed.

End PercentageFacts.

(** X19: for byte counts that are not negative and a positive total over
    the languages left, the percentages returned lie between 0 and 100,
    never increase along the list, and are at most [top_n] in number. *)
Theorem language_percentages_range (language_bytes : list (str * Z))
    (top_n : nat) (excluded_languages : option (list str))
    (Hnonneg : Forall (fun lb => 0 <= lb.2) language_bytes)
    (Htotal : 0 < fold_left Z.add
                    (map snd (GitHubStats.without_excluded
                                language_bytes excluded_languages)) 0) :
  exists res,
    GitHubStats.get_language_percentages language_bytes top_n
                                         excluded_languages = Some res /\
    (length res <= top_n)%nat /\
    descending (map snd res) /\
    Forall (fun lp => (0 <= lp.2 <= 100 # 1)%Q) res.
Proof.
  set (kept := GitHubStats.without_excluded language_bytes
                                            excluded_languages) in *.
  set (total := fold_left Z.add (map snd kept) 0) in *.
  eexists. rewrite percentages_unfold. cbv zeta. fold kept total.
  rewrite percentages_some by lia. split; [reflexivity|].
  split; [|split].
  - rewrite length_map, length_take. lia.
  - apply percentages_descending; [exact Htotal|].
    apply bytes_descending_take, sorted_by_bytes_descending.
  - apply Forall_map. rewrite Forall_forall. intros item Hitem.
    cbn beta. cbn [snd].
    apply percentage_of_range; [exact Htotal|].
    assert (item ∈ kept) as Hk.
    { rewrite <- (sorted_by_bytes_perm kept).
      exact (subseteq_take _ _ _ Hitem). }
    pose proof (without_excluded_sub language_bytes excluded_languages
                  _ Hnonneg) as Hkn.
    fold kept in Hkn. rewrite Forall_forall in Hkn.
    split; [exact (Hkn item Hk)|].
    unfold total. rewrite fold_left_add, Z.add_0_l.
    apply elem_le_sum.
    + apply Forall_map. rewrite Forall_forall. intros y Hy.
      exact (Hkn y Hy).
    + apply list_elem_of_In, in_map, list_elem_of_In. exact Hk.
Qed.

Lemma language_percentages_range_witness :
  exists res,
    GitHubStats.get_language_percentages
      [(lit "Go", 100); (lit "Python", 300); (lit "C", 100)] 2
      (Some [lit "c "]) = Some res /\
    (length res <= 2)%nat /\
    descending (map snd res) /\
    Forall (fun lp => (0 <= lp.2 <= 100 # 1)%Q) res.
Proof.
  apply (language_percentages_range
           [(lit "Go", 100); (lit "Python", 300); (lit "C", 100)] 2
           (Some [lit "c "])).
  - repeat constructor; discriminate.
  - reflexivity.
Defined.

(** The names in the result are names of languages left after the
    exclusions. *)
Lemma percentages_names (language_bytes : list (str * Z)) (top_n : nat)
    (excluded_languages : option (list str)) (res : list (str * Q)) :
  GitHubStats.get_language_percentages language_bytes top_n
                                       excluded_languages = Some res ->
  (length res <= top_n)%nat /\
  Forall (fun lp =>
            exists b, (lp.1, b) ∈ GitHubStats.without_excluded
                                    language_bytes excluded_languages) res.
Proof.
  rewrite percentages_unfold. cbv zeta. intros Hres.
  apply mapM_Some in Hres. split.
  - rewrite <- (Forall2_length _ _ _ Hres), length_take. lia.
  - rewrite Forall_forall. intros lp Hlp.
    apply list_elem_of_lookup in Hlp as [i Hi].
    destruct (Forall2_lookup_r _ _ _ _ _ Hres Hi) as ([lang b] & Hx & Hf).
    exists b.
    destruct (py_truediv b _); [|discriminate].
    cbn in Hf. injection Hf as <-. cbn [fst].
    rewrite <- (sorted_by_bytes_perm _).
    apply list_elem_of_lookup_2 in Hx.
    exact (subseteq_take _ _ _ Hx).
Qed.

Lemma filter_Forall {A} (P : A -> Prop) `{!forall x, Decision (P x)}
    (l : list A) :
  Forall P l -> filter P l = l.
Proof.
  induction 1 as [|x r Hx Hr IH]; [reflexivity|].
  rewrite filter_cons_True by exact Hx. rewrite IH. reflexivity.
Qed.

(** What the stats section works with is one filter of the list under
    the key [languages]. *)
Lemma section_languages_filter (st : stats) (languages : list (str * Q))
    (excluded : list str) :
  st_languages st = Some languages ->
  st_excluded_languages st = Some excluded ->
  section_languages st
  = filter (fun lp => _normalize_language_name lp.1
                      ∉ map _normalize_language_name
                            (filter (fun x => x <> []) excluded))
           languages.
Proof.
  intros Hl He. unfold section_languages. rewrite Hl, He.
  cbn [default from_option id]. cbv zeta.
  destruct excluded as [|x xs].
  - symmetry. apply filter_all. intros lp Hin. inversion Hin.
  - apply filter_languages_unfold.
Qed.

(** No language left by the exclusion step of [get_language_percentages]
    has an excluded name. *)
Lemma without_excluded_kept (language_bytes : list (str * Z))
    (excluded : list str) :
  Forall (fun lb => _normalize_language_name lb.1
                    ∉ map _normalize_language_name
                          (filter (fun x => x <> []) excluded))
         (GitHubStats.without_excluded language_bytes (Some excluded)).
Proof.
  unfold GitHubStats.without_excluded.
  destruct excluded as [|x xs].
  - rewrite Forall_forall. intros lb _ Hin. inversion Hin.
  - cbv zeta.
    change GitHubStats._normalize_language_name
      with _normalize_language_name.
    destruct (map _normalize_language_name
                  (filter (fun x => x <> []) (x :: xs))) as [|e es].
    + rewrite Forall_forall. intros lb _ Hin. inversion Hin.
    + rewrite Forall_forall. intros lb Hlb.
      apply list_elem_of_filter in Hlb as [Hlb _]. exact Hlb.
Qed.

(** X20: fresh statistics need no second filter.  When [main] passes the
    same exclusion list to [get_all_stats], which asks for five entries,
    and to the renderer, the languages the stats section works with are
    the ones [get_language_percentages] returned, and the first five of
    them are all of them. *)
Theorem fresh_stats_unfiltered (language_bytes : list (str * Z))
    (excluded_languages : list str) (res : list (str * Q)) (st : stats)
    (Hres : GitHubStats.get_language_percentages language_bytes 5
              (Some excluded_languages) = Some res)
    (Hlanguages : st_languages st = Some res)
    (Hexcluded : st_excluded_languages st = Some excluded_languages) :
  section_languages st = res /\ take 5 res = res.
Proof.
  destruct (percentages_names _ _ _ _ Hres) as [Hlen Hnames].
  split; [|apply take_ge; exact Hlen].
  rewrite (section_languages_filter st res excluded_languages
             Hlanguages Hexcluded).
  apply filter_Forall.
  pose proof (without_excluded_kept language_bytes excluded_languages)
    as Hkept.
  rewrite Forall_forall in Hkept.
  eapply Forall_impl; [exact Hnames|].
  intros lp (b & Hb). exact (Hkept _ Hb).
Qed.

Lemma fresh_stats_unfiltered_witness :
  section_languages
    {| st_languages := Some [(lit "Python", 750 # 10); (lit "Go", 250 # 10)];
       st_excluded_languages := Some [lit "c "];
       st_scale_language_bars := None;
       st_language_gradient := None;
       st_language_bar_border := None |}
  = [(lit "Python", 750 # 10); (lit "Go", 250 # 10)].
Proof.
  refine (proj1 (fresh_stats_unfiltered
                   [(lit "Go", 100); (lit "Python", 300); (lit "C", 100)]
                   [lit "c "]
                   [(lit "Python", 750 # 10); (lit "Go", 250 # 10)]
                   {| st_languages :=
                        Some [(lit "Python", 750 # 10); (lit "Go", 250 # 10)];
                      st_excluded_languages := Some [lit "c "];
                      st_scale_language_bars := None;
                      st_language_gradient := None;
                      st_language_bar_border := None |}
                   _ eq_refl eq_refl)).
  vm_compute. reflexivity.
Defined.

(** ** Balanced wrap: no word is lost, whatever the font *)

Lemma greedy_groups `{Pillow} (fnt : font) (text : str) (max_width : Z) :
  exists groups,
    _wrap_text_to_width fnt text max_width = map (join SPACE) groups /\
    concat groups = split text /\
    Forall (line_ok fnt max_width) groups.
Proof.
  unfold _wrap_text_to_width. rewrite <- (split_strip text).
  destruct (strip text) as [|c r] eqn:Hs.
  - exists []. repeat split. constructor.
  - rewrite <- Hs.
    destruct (greedy_fold fnt max_width (split (strip text))
                (split_good _) [] [])
      as (g' & c' & Hf & H1 & H2 & H3 & H4);
      [constructor|constructor|left; reflexivity|].
    change (map (join SPACE) [], join SPACE []) with (@nil str, @nil ascii) in Hf.
    rewrite Hf. cbn in H4.
    destruct c' as [|w c''].
    + exists g'. rewrite app_nil_r in H4. repeat split; assumption.
    + set (cur := w :: c'') in *.
      assert (join SPACE cur <> []) as Hjoin
        by (apply trimmed_not_nil, join_trimmed; [discriminate|assumption]).
      destruct (join SPACE cur) as [|jc jr] eqn:Hj; [contradiction|].
      rewrite <- Hj. exists (g' ++ [cur]).
      rewrite map_app, concat_app. cbn. rewrite app_nil_r.
      split; [reflexivity|]. split; [exact H4|].
      apply Forall_app. split; [exact H1|].
      constructor; [|constructor].
      destruct H3 as [Hnil|H3]; [discriminate|exact H3].
Qed.

Section ChainProps.
Context `{Pillow} (fnt : font) (words : list str) (max_width : Z).

Local Abbreviation n := (length words).

Lemma inf_pos : 0 < inf.
Proof. reflexivity. Qed.

Lemma chain_inv_init :
  chain_inv fnt words max_width
            (<[n := 0]> (replicate (S n) inf)) (replicate n n).
Proof.
  unfold chain_inv. rewrite length_insert, !length_replicate.
  split; [reflexivity|]. split; [reflexivity|].
  split; [apply list_lookup_total_insert_eq; rewrite length_replicate; lia|].
  assert (forall i, (i < n)%nat ->
            <[n := 0]> (replicate (S n) inf) !!! i = inf) as Hinf.
  { intros i Hi. rewrite list_lookup_total_insert_ne by lia.
    apply lookup_total_replicate_2. lia. }
  split; [|split].
  - intros i Hi. destruct (decide (i = n)) as [->|Hne].
    + rewrite list_lookup_total_insert_eq by (rewrite length_replicate; lia).
      pose proof inf_pos. lia.
    + rewrite Hinf by lia. pose proof inf_pos. lia.
  - intros i Hi. rewrite lookup_total_replicate_2 by exact Hi. lia.
  - intros i Hi Hlt. rewrite Hinf in Hlt by exact Hi. lia.
Qed.

Lemma inner_loop_chain (i : nat) (Hi : (i < n)%nat) (js : list nat) :
  Forall (fun j => (i < j <= n)%nat) js ->
  forall cost breaks,
    chain_inv fnt words max_width cost breaks ->
    chain_inv fnt words max_width
              (inner_loop fnt words max_width i js cost breaks).1
              (inner_loop fnt words max_width i js cost breaks).2.
Proof.
  induction 1 as [|j js' Hj Hjs IH]; intros cost breaks Hinv; [exact Hinv|].
  cbn [inner_loop]. cbv zeta.
  destruct (Z.gtb_spec (line_width fnt words i j) max_width) as [Hwide|Hfit];
    [exact Hinv|].
  set (pen := (max_width - line_width fnt words i j)
              * (max_width - line_width fnt words i j)).
  destruct (Z.ltb_spec (pen + cost !!! j) (cost !!! i)) as [Hlt|Hge];
    [|exact (IH _ _ Hinv)].
  apply IH. destruct Hinv as (Hlc & Hlb & Hn & Hrange & Hbr & Hchain).
  assert (0 <= pen) as Hpen by (unfold pen; apply Z.square_nonneg).
  pose proof (Hrange i ltac:(lia)) as [Hi0 Hi1].
  pose proof (Hrange j ltac:(lia)) as [Hj0 Hj1].
  unfold chain_inv. rewrite !length_insert.
  split; [exact Hlc|]. split; [exact Hlb|].
  split; [rewrite list_lookup_total_insert_ne by lia; exact Hn|].
  split; [|split].
  - intros k Hk. destruct (decide (k = i)) as [->|Hne].
    + rewrite list_lookup_total_insert_eq by lia. lia.
    + rewrite list_lookup_total_insert_ne by lia. exact (Hrange k Hk).
  - intros k Hk. destruct (decide (k = i)) as [->|Hne].
    + rewrite list_lookup_total_insert_eq by lia. lia.
    + rewrite list_lookup_total_insert_ne by lia. exact (Hbr k Hk).
  - intros k Hk. destruct (decide (k = i)) as [->|Hne].
    + rewrite !list_lookup_total_insert_eq by lia. intros _.
      rewrite list_lookup_total_insert_ne by lia. lia.
    + rewrite (list_lookup_total_insert_ne cost) by lia.
      rewrite (list_lookup_total_insert_ne breaks) by lia.
      intros Hlt'. destruct (Hchain k Hk Hlt') as [Hw Hc].
      split; [exact Hw|].
      destruct (decide (breaks !!! k = i)) as [->|Hne'].
      * rewrite list_lookup_total_insert_eq by lia. lia.
      * rewrite list_lookup_total_insert_ne by lia. exact Hc.
Qed.

Lemma dp_table_chain :
  chain_inv fnt words max_width
            (dp_table fnt words max_width).1 (dp_table fnt words max_width).2.
Proof.
  unfold dp_table. cbv zeta.
  assert (forall k, (k <= n)%nat ->
            forall cb : list Z * list nat,
              chain_inv fnt words max_width cb.1 cb.2 ->
              chain_inv fnt words max_width
                (fold_left
                   (fun cb i => inner_loop fnt words max_width i
                                           (seq (S i) (n - i)) cb.1 cb.2)
                   (rev (seq 0 k)) cb).1
                (fold_left
                   (fun cb i => inner_loop fnt words max_width i
                                           (seq (S i) (n - i)) cb.1 cb.2)
                   (rev (seq 0 k)) cb).2) as Hloop.
  { induction k as [|k IH]; intros Hk cb Hinv; [exact Hinv|].
    rewrite seq_S, rev_app_distr. cbn [rev app fold_left Nat.add].
    apply IH; [lia|]. cbn [fst snd].
    apply inner_loop_chain; [lia| |exact Hinv].
    rewrite Forall_forall. intros j Hj. apply elem_of_seq in Hj. lia. }
  apply (Hloop n (Nat.le_refl _) (_, _)). cbn [fst snd].
  apply chain_inv_init.
Qed.

(** From an index whose cost is below the sentinel, the [while] loop
    reads off lines that fit and that hold the words from that index on. *)
Lemma collect_lines_chain (cost : list Z) (breaks : list nat) :
  chain_inv fnt words max_width cost breaks ->
  forall fuel idx lines,
    (idx <= n)%nat -> (n - idx <= fuel)%nat -> cost !!! idx < inf ->
    exists groups,
      collect_lines words fuel breaks idx lines
      = lines ++ map (join SPACE) groups /\
      concat groups = drop idx words /\
      Forall (fun g => g <> [] /\
                       text_width fnt (join SPACE g) <= max_width) groups.
Proof.
  intros (Hlc & Hlb & Hn & Hrange & Hbr & Hchain).
  induction fuel as [|fuel IH]; intros idx lines Hidx Hfuel Hcost.
  - exists []. cbn [collect_lines map concat]. rewrite app_nil_r.
    split; [reflexivity|]. split; [|constructor].
    symmetry. apply drop_ge. lia.
  - cbn [collect_lines].
    destruct (decide (idx < n)%nat) as [Hlt|Hge].
    + rewrite bool_decide_eq_true_2 by exact Hlt. cbv zeta.
      pose proof (Hbr idx Hlt) as [Hb1 Hb2].
      destruct (Hchain idx Hlt Hcost) as [Hw Hc].
      rewrite bool_decide_eq_false_2 by lia.
      destruct (IH (breaks !!! idx)
                   (lines ++ [join SPACE (slice words idx (breaks !!! idx))])
                   Hb2 ltac:(lia) Hc) as (groups & Hres & Hcat & Hall).
      exists (slice words idx (breaks !!! idx) :: groups).
      rewrite Hres, <- app_assoc. split; [reflexivity|].
      split; [|constructor; [split|exact Hall]].
      * cbn [concat]. rewrite Hcat. unfold slice.
        replace (drop (breaks !!! idx) words)
          with (drop (breaks !!! idx - idx) (drop idx words))
          by (rewrite drop_drop; f_equal; lia).
        apply take_drop.
      * intros Hnil. apply (f_equal length) in Hnil. unfold slice in Hnil.
        rewrite length_take, length_drop in Hnil. cbn [length] in Hnil. lia.
      * exact Hw.
    + rewrite bool_decide_eq_false_2 by exact Hge.
      exists []. cbn [map concat]. rewrite app_nil_r.
      split; [reflexivity|]. split; [|constructor].
      symmetry. apply drop_ge. lia.
Qed.

End ChainProps.

(** X21: whatever the font measures, the balanced wrapper loses no word:
    its lines are the words of the text, in order and grouped, so that
    joining the lines with single blanks gives the same string as joining
    the words; every line fits the maximum width, except a line that is
    one word wider than the maximum. *)
Theorem balanced_wrap_keeps_words `{Pillow} (fnt : font) (text : str)
    (max_width : Z) :
  exists groups,
    _wrap_text_balanced fnt text max_width = map (join SPACE) groups /\
    concat groups = split text /\
    Forall (line_ok fnt max_width) groups /\
    join SPACE (_wrap_text_balanced fnt text max_width)
    = join SPACE (split text).
Proof.
  assert (exists groups,
            _wrap_text_balanced fnt text max_width = map (join SPACE) groups /\
            concat groups = split text /\
            Forall (line_ok fnt max_width) groups) as (groups & Hw & Hc & Hok).
  { assert (split (strip text) = [] \/ split (strip text) <> []) as [Hnil|Hne]
      by (destruct (split (strip text)); [left; reflexivity|right; discriminate]).
    { exists []. rewrite (balanced_nil fnt text max_width Hnil).
      rewrite <- (split_strip text), Hnil. repeat split. constructor. }
    rewrite (balanced_unfold fnt text max_width Hne). cbv zeta.
    destruct (existsb _ _); [apply greedy_groups|].
    destruct (Z.leb_spec inf
                ((dp_table fnt (split (strip text)) max_width).1 !!! 0%nat))
      as [Hinf|Hlt]; [apply greedy_groups|].
    destruct (collect_lines_chain fnt (split (strip text)) max_width _ _
                (dp_table_chain fnt (split (strip text)) max_width)
                (length (split (strip text))) 0 []
                ltac:(lia) ltac:(lia) Hlt) as (groups & Hres & Hcat & Hall).
    rewrite Hres. cbn [app].
    destruct (map (join SPACE) groups) as [|l0 ls] eqn:Hm;
      [apply greedy_groups|].
    rewrite <- Hm. exists groups. split; [reflexivity|].
    split; [rewrite Hcat, drop_0; apply split_strip|].
    eapply Forall_impl; [exact Hall|].
    intros g [Hg Hfit]. split; [exact Hg|left; exact Hfit]. }
  exists groups. split; [exact Hw|]. split; [exact Hc|]. split; [exact Hok|].
  rewrite Hw, <- Hc. apply join_concat.
  eapply Forall_impl; [exact Hok|]. intros g [Hg _]. exact Hg.
Qed.

(** ** Contents and containers *)

(** Scaling two lengths one by one and adding them differs by at most one
    pixel from scaling their sum. *)
Lemma self_s_sum (self : renderer) (a b : Z) :
  self_s self (a + b) - 1 <= self_s self a + self_s self b
  <= self_s self (a + b) + 1.
Proof.
  pose proof (self_s_near self a) as [A1 A2].
  pose proof (self_s_near self b) as [B1 B2].
  pose proof (self_s_near self (a + b)) as [C1 C2].
  rewrite inject_Z_plus in C1, C2.
  assert (inject_Z (self_s self (a + b)) - (2 # 1)
          < inject_Z (self_s self a) + inject_Z (self_s self b)
          < inject_Z (self_s self (a + b)) + (2 # 1))%Q as [L U].
  { set (x := inject_Z (self_s self a)) in *.
    set (y := inject_Z (self_s self b)) in *.
    set (z := inject_Z (self_s self (a + b))) in *.
    set (p := inject_Z a) in *. set (q := inject_Z b) in *.
    split; lra. }
  change (2 # 1)%Q with (inject_Z 2) in L, U.
  rewrite <- inject_Z_plus in L, U.
  unfold Qminus in L. change (- inject_Z 2)%Q with (inject_Z (-2)) in L.
  rewrite <- inject_Z_plus in L, U.
  rewrite <- Zlt_Qlt in L, U. lia.
Qed.

Lemma self_s_lower (self : renderer) (v k : Z) :
  (1 <= r_scale self)%Q -> k < v -> 0 <= v -> k <= self_s self v.
Proof.
  intros Hs Hk Hv.
  pose proof (self_s_near self v) as [_ N].
  assert (inject_Z v <= inject_Z v * r_scale self)%Q as Hm.
  { assert (0 <= inject_Z v)%Q
      by (change 0%Q with (inject_Z 0); rewrite <- Zle_Qle; exact Hv).
    nra. }
  assert (inject_Z (k + 1) <= inject_Z v)%Q as Hkv
    by (rewrite <- Zle_Qle; lia).
  rewrite inject_Z_plus in Hkv. change (inject_Z 1) with 1%Q in Hkv.
  assert (inject_Z (k - 1) < inject_Z (self_s self v))%Q as Hlt.
  { unfold Z.sub. rewrite inject_Z_plus.
    rewrite inject_Z_opp. change (inject_Z 1) with 1%Q.
    set (x := inject_Z (self_s self v)) in *.
    set (y := inject_Z v) in *. set (z := inject_Z k) in *. lra. }
  rewrite <- Zlt_Qlt in Hlt. lia.
Qed.

Lemma team_sprite_size_default (self : renderer) (n : Z) :
  (1 <= r_scale self)%Q -> 1 <= n <= 6 ->
  team_sprite_size self n = self_s self 55.
Proof.
  intros Hs Hn. pose proof (header_row_fits self n Hs Hn) as Hfit.
  unfold team_sprite_size. cbv zeta.
  change Scaler.BASE_POKEMON_SPRITE_SIZE with 55.
  destruct (Z.gtb_spec (n * self_s self 55 + (n - 1) * team_spacing self)
                       (team_available_w self)); [lia|reflexivity].
Qed.

(** X23: at a scale of one or more every sprite of the team header lies
    inside the header box that [_draw_layout_containers] draws, although
    the header adds the scaled position and the scaled width while the
    box scales their sum. *)
Theorem team_inside_header_box `{PillowImage} (self : renderer)
    (sprites : list (option image)) (Hscale : (1 <= r_scale self)%Q) :
  Forall (fun op => box_contains (header_box self) (paste_x op) (paste_y op)
                                 (self_s self 55) (self_s self 55))
         (_draw_team_header self sprites).
Proof.
  assert (0 < r_scale self)%Q as Hpos by lra.
  unfold _draw_team_header. cbv zeta.
  destruct (team_of sprites) as [|t0 rest] eqn:Ht; [constructor|].
  destruct (_ <=? 0); [constructor|].
  set (n := Z.of_nat (length (t0 :: rest))).
  assert (1 <= n <= 6) as Hn.
  { unfold n. pose proof (team_of_length sprites) as H6.
    rewrite Ht in H6. cbn [length] in *. lia. }
  rewrite (team_sprite_size_default self n Hscale Hn).
  pose proof (self_s_nonneg self Hpos 55 ltac:(lia)) as H55.
  pose proof (team_spacing_nonneg self Hpos) as Hsp.
  pose proof (team_start_x_lower self n) as Hstart.
  pose proof (self_s_sum self 236 555) as [_ Hx].
  pose proof (self_s_sum self 24 84) as [_ Hy].
  pose proof (self_s_lower self 24 1 Hscale ltac:(lia) ltac:(lia)) as H24.
  pose proof (self_s_nonneg self Hpos 236 ltac:(lia)) as H236.
  assert (2 <= self_s self 84 - self_s self 55) as Hgap.
  { pose proof (self_s_sum self 55 29) as [_ Hd].
    pose proof (self_s_lower self 29 3 Hscale ltac:(lia) ltac:(lia)).
    change (55 + 29) with 84 in Hd. lia. }
  eapply Forall_impl;
    [apply (team_loop_inside (team_start_x self n) (self_s self 55)
              (team_spacing self)); lia|].
  intros op (Hx1 & Hx2 & Hy1). unfold box_contains, header_box.
  rewrite Hy1.
  assert (1 <= (self_s self 84 - self_s self 55) `div` 2)
    by (apply Z.div_le_lower_bound; lia).
  assert (2 * ((self_s self 84 - self_s self 55) `div` 2)
          <= self_s self 84 - self_s self 55)
    by (apply Z.mul_div_le; lia).
  lia.
Qed.

Lemma team_inside_header_box_witness :
  Forall (fun op => 472 <= @paste_x sized_images op /\
                    paste_x op + 110 <= 1582 /\
                    48 <= paste_y op /\ paste_y op + 110 <= 216)
         (@_draw_team_header sized_images (sample_renderer (2 # 1))
            [Some (96, 96); None; Some (110, 110)]).
Proof.
  exact (@team_inside_header_box sized_images (sample_renderer (2 # 1))
           [Some (96, 96); None; Some (110, 110)] ltac:(discriminate)).
Defined.

(** X24: at a scale of one or more, when some candidate size from 10 to 24
    fits, every line of the blurb is drawn inside the speech bubble that
    [_draw_layout_containers] draws: it starts right of the bubble's left
    edge and below its top edge, ends above its bottom edge, and a line
    no wider than the wrapping width ends left of its right edge. *)
Theorem blurb_inside_bubble `{Pillow} (self : renderer)
    (blurb_lines : list str) (Hscale : (1 <= r_scale self)%Q)
    (Hheights : forall size line,
        0 <= size -> 0 <= text_height (load_font size) line)
    (Hfits : exists size,
        10 <= size <= 24 /\
        height_at self blurb_lines
                  (self_s self 200 - 2 * self_s self 20) size
        <= self_s self 169 - 2 * self_s self 20) :
  let max_w := self_s self 200 - 2 * self_s self 20 in
  let max_h := self_s self 169 - 2 * self_s self 20 in
  let fnt := _find_optimal_blurb_font_size self blurb_lines max_w max_h in
  Forall (fun op =>
            exists line x y,
              op = Text (x, y) line fnt (text_color self) /\
              box_contains (bubble_box self) x y 0 (text_height fnt line) /\
              (text_width fnt line <= max_w ->
               box_contains (bubble_box self) x y (text_width fnt line)
                            (text_height fnt line)))
         (_draw_blurb_section self blurb_lines).
Proof.
  intros max_w max_h fnt.
  assert (0 < r_scale self)%Q as Hpos by lra.
  pose proof (proj2 (blurb_layout self blurb_lines Hpos Hheights) Hfits)
    as Hall.
  cbv zeta in Hall. fold max_w max_h fnt in Hall.
  pose proof (self_s_sum self 22 200) as [_ Hx].
  pose proof (self_s_sum self 209 169) as [_ Hy].
  pose proof (self_s_lower self 20 1 Hscale ltac:(lia) ltac:(lia)) as H20.
  eapply Forall_impl; [exact Hall|].
  intros op (line & y & -> & Hlo & Hhi).
  exists line, (self_s self 22 + self_s self 20), y.
  split; [reflexivity|].
  assert (1 <= self_s self 200 - 2 * self_s self 20) as Hwide.
  { pose proof (self_s_sum self 20 20) as [_ H40].
    pose proof (self_s_sum self 40 160) as [_ H200].
    pose proof (self_s_lower self 160 3 Hscale ltac:(lia) ltac:(lia)).
    change (20 + 20) with 40 in H40. change (40 + 160) with 200 in H200.
    lia. }
  unfold box_contains, bubble_box. cbv beta iota zeta.
  unfold max_w, max_h in *.
  split; [lia|]. intros Hw. lia.
Qed.

Lemma blurb_inside_bubble_witness :
  Forall (fun op =>
            exists line x y,
              op = @Text fixed_pitch (x, y) line 38 (192, 202, 245, 255) /\
              box_contains (44, 418, 444, 756) x y 0
                           (@text_height fixed_pitch 38 line) /\
              (@text_width fixed_pitch 38 line <= 320 ->
               box_contains (44, 418, 444, 756) x y
                            (@text_width fixed_pitch 38 line)
                            (@text_height fixed_pitch 38 line)))
         (@_draw_blurb_section fixed_pitch (sample_renderer (2 # 1))
            [lit "hello world"; lit "bye"]).
Proof.
  refine (@blurb_inside_bubble fixed_pitch (sample_renderer (2 # 1))
            [lit "hello world"; lit "bye"] ltac:(discriminate) _ _).
  - intros size line Hsize. unfold text_height. cbn. lia.
  - exists 10. split; [lia|]. vm_compute. discriminate.
Defined.

(** ** Instances of the statements above *)

Lemma scaler_monotone_witness :
  (0 < Scaler.coerce_scale (Scaler.ScaleNum (-1 # 1)))%Q /\
  Scaler._s (Scaler.coerce_scale (Scaler.ScaleNum (-1 # 1))) 55
  <= Scaler._s (Scaler.coerce_scale (Scaler.ScaleNum (-1 # 1))) 84.
Proof.
  destruct (scaler_monotone (Scaler.ScaleNum (-1 # 1)))
    as (Hpos & Hmono & _ & _).
  split; [exact Hpos|]. apply Hmono. lia.
Defined.

Lemma multicolor_text_layout_witness :
  exists ops,
    @_draw_multicolor_text fixed_pitch 72 106 (lit "emzinnia") 72
    = Some (ops, 576) /\
    ops !! 7%nat
    = Some (@Text fixed_pitch (72 + 504, 106) (lit "a") 72
              (255, 107, 107, 255)).
Proof.
  destruct (@multicolor_text_layout fixed_pitch 72 106 (lit "emzinnia") 72)
    as (ops & Hops & _ & Hat).
  exists ops. split; [exact Hops|].
  destruct (Hat 7%nat "a"%char eq_refl) as (color & Hc & _ & Hop).
  vm_compute in Hc. injection Hc as <-. exact Hop.
Defined.


(** * Part IV: binary64 arithmetic and the computations that depend on it *)

(** ** Binary64: facts about rounding *)

Section Binary64Facts.
Import B64.

Lemma two_neq_0 : ~ (2 # 1 == 0)%Q.
Proof. discriminate. Qed.

Lemma pow2_pos (k : Z) : (0 < pow2 k)%Q.
Proof. apply Qpower_0_lt. reflexivity. Qed.

Lemma pow2_add (a b : Z) : (pow2 (a + b) == pow2 a * pow2 b)%Q.
Proof. apply Qpower_plus, two_neq_0. Qed.

Lemma pow2_sub (a b : Z) : (pow2 (a - b) == pow2 a / pow2 b)%Q.
Proof. apply Qpower_minus, two_neq_0. Qed.

Lemma pow2_le (a b : Z) : a <= b -> (pow2 a <= pow2 b)%Q.
Proof. intros H. apply Qpower_le_compat_l; [exact H|discriminate]. Qed.

Lemma pow2_lt (a b : Z) : a < b -> (pow2 a < pow2 b)%Q.
Proof. intros H. apply Qpower_lt_compat_l; [exact H|reflexivity]. Qed.

Lemma pow2_lt_inv (a b : Z) : (pow2 a < pow2 b)%Q -> a < b.
Proof. intros H. apply (Qpower_lt_compat_l_inv _ _ _ H). reflexivity. Qed.

Lemma pow2_le_inv (a b : Z) : (pow2 a <= pow2 b)%Q -> a <= b.
Proof. intros H. apply (Qpower_le_compat_l_inv _ _ _ H). reflexivity. Qed.

Lemma pow2_inject (k : Z) : 0 <= k -> (pow2 k == inject_Z (2 ^ k))%Q.
Proof. intros H. unfold pow2. rewrite Zpower_Qpower by exact H. reflexivity. Qed.

Lemma pow2_succ (k : Z) : (pow2 (k + 1) == (2 # 1) * pow2 k)%Q.
Proof. rewrite pow2_add. change (pow2 1) with (2 # 1)%Q. ring. Qed.

Lemma pow2_0 : pow2 0 = 1%Q.
Proof. reflexivity. Qed.

(** [ilog2] is the exponent of the binade of a positive rational. *)
Lemma ilog2_spec (x : Q) :
  (0 < x)%Q -> (pow2 (ilog2 x) <= x < pow2 (ilog2 x + 1))%Q.
Proof.
  intros Hx. destruct x as [n d].
  assert (0 < n) as Hn by (unfold Qlt in Hx; cbn in Hx; lia).
  unfold ilog2. cbn [Qnum Qden].
  set (a := Z.log2 n). set (b := Z.log2 (Zpos d)).
  destruct (Z.log2_spec n Hn) as [Ha1 Ha2]. fold a in Ha1, Ha2.
  destruct (Z.log2_spec (Zpos d) ltac:(lia)) as [Hb1 Hb2].
  fold b in Hb1, Hb2.
  assert (0 <= a) as Ha0 by apply Z.log2_nonneg.
  assert (0 <= b) as Hb0 by apply Z.log2_nonneg.
  assert (pow2 a <= inject_Z n)%Q as Qa1
    by (rewrite pow2_inject by lia; rewrite <- Zle_Qle; exact Ha1).
  assert (inject_Z n < pow2 (a + 1))%Q as Qa2.
  { rewrite pow2_inject by lia. rewrite <- Zlt_Qlt.
    replace (a + 1) with (Z.succ a) by lia. exact Ha2. }
  assert (pow2 b <= inject_Z (Zpos d))%Q as Qb1
    by (rewrite pow2_inject by lia; rewrite <- Zle_Qle; exact Hb1).
  assert (inject_Z (Zpos d) < pow2 (b + 1))%Q as Qb2.
  { rewrite pow2_inject by lia. rewrite <- Zlt_Qlt.
    replace (b + 1) with (Z.succ b) by lia. exact Hb2. }
  assert (0 < inject_Z (Zpos d))%Q as Hd by reflexivity.
  assert (n # d == inject_Z n / inject_Z (Zpos d))%Q as E
    by apply Qmake_Qdiv.
  assert (n # d < pow2 (a - b + 1))%Q as Hup.
  { rewrite E. apply Qlt_shift_div_r; [exact Hd|].
    eapply Qlt_le_trans; [exact Qa2|].
    replace (a + 1) with ((a - b + 1) + b) by lia. rewrite pow2_add.
    apply Qmult_le_l; [apply pow2_pos|exact Qb1]. }
  assert (pow2 (a - b - 1) < n # d)%Q as Hlo.
  { rewrite E. apply Qlt_shift_div_l; [exact Hd|].
    eapply Qlt_le_trans; [|exact Qa1].
    replace a with ((a - b - 1) + (b + 1)) at 2 by lia. rewrite pow2_add.
    apply Qmult_lt_l; [apply pow2_pos|exact Qb2]. }
  destruct (Qle_bool (pow2 (a - b)) (n # d)) eqn:Hc.
  - apply Qle_bool_iff in Hc. split; [exact Hc|exact Hup].
  - assert (n # d < pow2 (a - b))%Q as Hlt.
    { apply Qnot_le_lt. intros Hle. apply Qle_bool_iff in Hle. congruence. }
    replace (a - b - 1 + 1) with (a - b) by lia.
    split; [apply Qlt_le_weak; exact Hlo|exact Hlt].
Qed.

Lemma ilog2_unique (x : Q) (e : Z) :
  (pow2 e <= x < pow2 (e + 1))%Q -> ilog2 x = e.
Proof.
  intros [H1 H2].
  assert (0 < x)%Q as Hx by (eapply Qlt_le_trans; [apply pow2_pos|exact H1]).
  destruct (ilog2_spec x Hx) as [S1 S2].
  assert (ilog2 x < e + 1)
    by (apply pow2_lt_inv; eapply Qle_lt_trans; [exact S1|exact H2]).
  assert (e < ilog2 x + 1)
    by (apply pow2_lt_inv; eapply Qle_lt_trans; [exact H1|exact S2]).
  lia.
Qed.

Lemma ilog2_proper (x y : Q) : (0 < x)%Q -> (x == y)%Q -> ilog2 x = ilog2 y.
Proof.
  intros Hx E. apply ilog2_unique. rewrite E.
  apply ilog2_spec. rewrite <- E. exact Hx.
Qed.

Lemma ilog2_mono (x y : Q) : (0 < x)%Q -> (x <= y)%Q -> ilog2 x <= ilog2 y.
Proof.
  intros Hx Hxy.
  destruct (ilog2_spec x Hx) as [S1 _].
  destruct (ilog2_spec y ltac:(lra)) as [_ T2].
  assert (ilog2 x < ilog2 y + 1)
    by (apply pow2_lt_inv; lra).
  lia.
Qed.

Lemma ilog2_double (x : Q) : (0 < x)%Q -> ilog2 ((2 # 1) * x) = ilog2 x + 1.
Proof.
  intros Hx. destruct (ilog2_spec x Hx) as [S1 S2].
  apply ilog2_unique. rewrite !pow2_succ. rewrite pow2_succ in S2. lra.
Qed.

End Binary64Facts.

Section Binary64Rounding.
Import B64.

Lemma py_round_nonneg (x : Q) : (0 <= x)%Q -> 0 <= py_round x.
Proof.
  intros Hx. rewrite <- (py_round_inject 0). apply py_round_mono.
  change (inject_Z 0) with 0%Q. exact Hx.
Qed.

Lemma py_round_integer (x : Q) (n : Z) : (x == inject_Z n)%Q -> py_round x = n.
Proof. intros E. rewrite (py_round_proper _ _ E). apply py_round_inject. Qed.

Lemma ulp_exp_lower (x : Q) : -1074 <= ulp_exp x.
Proof. unfold ulp_exp. lia. Qed.

Lemma ulp_exp_mono (x y : Q) :
  (0 < x)%Q -> (x <= y)%Q -> ulp_exp x <= ulp_exp y.
Proof.
  intros Hx Hxy. unfold ulp_exp. pose proof (ilog2_mono x y Hx Hxy). lia.
Qed.

Lemma ulp_exp_proper (x y : Q) :
  (0 < x)%Q -> (x == y)%Q -> ulp_exp x = ulp_exp y.
Proof.
  intros Hx E. unfold ulp_exp. rewrite (ilog2_proper x y Hx E). reflexivity.
Qed.

Lemma round_pos_proper (x y : Q) :
  (0 < x)%Q -> (x == y)%Q -> (round_pos x == round_pos y)%Q.
Proof.
  intros Hx E. unfold round_pos. cbv zeta.
  rewrite (ulp_exp_proper x y Hx E).
  assert (x / pow2 (ulp_exp y) == y / pow2 (ulp_exp y))%Q as E'
    by (rewrite E; reflexivity).
  rewrite (py_round_proper _ _ E'). reflexivity.
Qed.

(** The significand, [x] counted in units in the last place, lies below
    [2^53], and from [2^52] on for a normal value. *)
Lemma scaled_upper (x : Q) :
  (0 < x)%Q -> (x / pow2 (ulp_exp x) < pow2 53)%Q.
Proof.
  intros Hx. apply Qlt_shift_div_r; [apply pow2_pos|].
  destruct (ilog2_spec x Hx) as [_ S2].
  eapply Qlt_le_trans; [exact S2|].
  rewrite <- pow2_add. apply pow2_le. unfold ulp_exp. lia.
Qed.

Lemma scaled_lower (x : Q) :
  (0 < x)%Q -> -1074 <= ilog2 x - 52 ->
  (pow2 52 <= x / pow2 (ulp_exp x))%Q.
Proof.
  intros Hx Hn. apply Qle_shift_div_l; [apply pow2_pos|].
  destruct (ilog2_spec x Hx) as [S1 _].
  eapply Qle_trans; [|exact S1].
  rewrite <- pow2_add. apply pow2_le. unfold ulp_exp. lia.
Qed.

Lemma significand_upper (x : Q) :
  (0 < x)%Q -> 0 <= py_round (x / pow2 (ulp_exp x)) <= 2 ^ 53.
Proof.
  intros Hx. pose proof (scaled_upper x Hx) as Hu.
  assert (0 < x / pow2 (ulp_exp x))%Q as Hp.
  { apply Qlt_shift_div_l; [apply pow2_pos|]. rewrite Qmult_0_l. exact Hx. }
  split; [apply py_round_nonneg; lra|].
  rewrite <- (py_round_inject (2 ^ 53)). apply py_round_mono.
  rewrite <- pow2_inject by lia. lra.
Qed.

Lemma significand_lower (x : Q) :
  (0 < x)%Q -> -1074 <= ilog2 x - 52 ->
  2 ^ 52 <= py_round (x / pow2 (ulp_exp x)).
Proof.
  intros Hx Hn. pose proof (scaled_lower x Hx Hn) as Hl.
  rewrite <- (py_round_inject (2 ^ 52)). apply py_round_mono.
  rewrite <- pow2_inject by lia. exact Hl.
Qed.

Lemma round_pos_nonneg (x : Q) : (0 < x)%Q -> (0 <= round_pos x)%Q.
Proof.
  intros Hx. unfold round_pos. cbv zeta.
  destruct (significand_upper x Hx) as [H0 _].
  apply Qmult_le_0_compat; [|apply Qlt_le_weak, pow2_pos].
  change 0%Q with (inject_Z 0). rewrite <- Zle_Qle. exact H0.
Qed.

Lemma round_pos_upper (x : Q) :
  (0 < x)%Q -> (round_pos x <= pow2 (ulp_exp x + 53))%Q.
Proof.
  intros Hx. unfold round_pos. cbv zeta.
  destruct (significand_upper x Hx) as [_ H1].
  rewrite Zle_Qle in H1. rewrite <- pow2_inject in H1 by lia.
  rewrite (Z.add_comm (ulp_exp x) 53), pow2_add.
  apply Qmult_le_compat_r; [exact H1|apply Qlt_le_weak, pow2_pos].
Qed.

Lemma round_pos_lower (x : Q) :
  (0 < x)%Q -> -1074 <= ilog2 x - 52 ->
  (pow2 (ulp_exp x + 52) <= round_pos x)%Q.
Proof.
  intros Hx Hn. unfold round_pos. cbv zeta.
  pose proof (significand_lower x Hx Hn) as H1.
  rewrite Zle_Qle in H1. rewrite <- pow2_inject in H1 by lia.
  rewrite (Z.add_comm (ulp_exp x) 52), pow2_add.
  apply Qmult_le_compat_r; [exact H1|apply Qlt_le_weak, pow2_pos].
Qed.

(** Rounding keeps the order. *)
Lemma round_pos_mono (x y : Q) :
  (0 < x)%Q -> (x <= y)%Q -> (round_pos x <= round_pos y)%Q.
Proof.
  intros Hx Hxy. assert (0 < y)%Q as Hy by lra.
  pose proof (ulp_exp_mono x y Hx Hxy) as He.
  destruct (Z.eq_dec (ulp_exp x) (ulp_exp y)) as [Heq|Hne].
  - unfold round_pos. cbv zeta. rewrite Heq.
    apply Qmult_le_compat_r; [|apply Qlt_le_weak, pow2_pos].
    rewrite <- Zle_Qle. apply py_round_mono.
    apply Qmult_le_compat_r; [exact Hxy|].
    apply Qlt_le_weak, Qinv_lt_0_compat, pow2_pos.
  - assert (-1074 <= ilog2 y - 52) as Hn.
    { pose proof (ulp_exp_lower x). unfold ulp_exp in *. lia. }
    eapply Qle_trans; [apply (round_pos_upper x Hx)|].
    eapply Qle_trans; [|apply (round_pos_lower y Hy Hn)].
    apply pow2_le. lia.
Qed.

(** A value with a significand of at most 53 bits, at or above the
    spacing of the subnormal values, is left as it is. *)
Lemma round_pos_exact (x : Q) (m k : Z) :
  0 < m < 2 ^ 53 -> -1074 <= k ->
  (x == inject_Z m * pow2 k)%Q -> (round_pos x == x)%Q.
Proof.
  intros [Hm0 Hm1] Hk E.
  assert (0 < inject_Z m)%Q as Hmq
    by (change 0%Q with (inject_Z 0); rewrite <- Zlt_Qlt; exact Hm0).
  assert (0 < x)%Q as Hx.
  { rewrite E. apply Qmult_lt_0_compat; [exact Hmq|apply pow2_pos]. }
  destruct (ilog2_spec x Hx) as [S1 _].
  assert (x < pow2 (53 + k))%Q as Hup.
  { rewrite E, pow2_add. apply Qmult_lt_compat_r; [apply pow2_pos|].
    rewrite pow2_inject by lia. rewrite <- Zlt_Qlt. exact Hm1. }
  assert (ilog2 x < 53 + k) as Hlog by (apply pow2_lt_inv; lra).
  assert (ulp_exp x <= k) as He by (unfold ulp_exp; lia).
  unfold round_pos. cbv zeta.
  set (e := ulp_exp x) in *.
  assert (x / pow2 e == inject_Z (m * 2 ^ (k - e)))%Q as Hint.
  { rewrite E, inject_Z_mult, <- pow2_inject by lia.
    rewrite pow2_sub. field. apply Qnot_eq_sym, Qlt_not_eq, pow2_pos. }
  rewrite (py_round_integer _ _ Hint).
  rewrite E, inject_Z_mult, <- pow2_inject by lia.
  rewrite pow2_sub. field. apply Qnot_eq_sym, Qlt_not_eq, pow2_pos.
Qed.

(** What rounding returns is zero or has such a significand. *)
Lemma round_pos_repr (x : Q) :
  (0 < x)%Q ->
  (round_pos x == 0)%Q \/
  exists m k, 0 < m < 2 ^ 53 /\ -1074 <= k /\
              (round_pos x == inject_Z m * pow2 k)%Q.
Proof.
  intros Hx. destruct (significand_upper x Hx) as [H0 H1].
  pose proof (ulp_exp_lower x) as He.
  unfold round_pos. cbv zeta.
  set (N := py_round (x / pow2 (ulp_exp x))) in *.
  destruct (Z.eq_dec N 0) as [Hz|Hnz].
  - left. rewrite Hz. ring.
  - right. destruct (Z.eq_dec N (2 ^ 53)) as [Htop|Hlt].
    + exists (2 ^ 52), (ulp_exp x + 1). split; [lia|]. split; [lia|].
      rewrite Htop, pow2_succ.
      change (inject_Z (2 ^ 53)) with ((2 # 1) * inject_Z (2 ^ 52))%Q. ring.
    + exists N, (ulp_exp x). split; [lia|]. split; [lia|reflexivity].
Qed.

Lemma round_pos_idem (x : Q) :
  (0 < x)%Q -> (0 < round_pos x)%Q ->
  (round_pos (round_pos x) == round_pos x)%Q.
Proof.
  intros Hx Hr. destruct (round_pos_repr x Hx) as [Hz|(m & k & Hm & Hk & E)].
  - lra.
  - exact (round_pos_exact _ m k Hm Hk E).
Qed.

(** Doubling a normal value doubles its rounding. *)
Lemma round_pos_double (x : Q) :
  (0 < x)%Q -> -1074 <= ilog2 x - 52 ->
  (round_pos ((2 # 1) * x) == (2 # 1) * round_pos x)%Q.
Proof.
  intros Hx Hn. unfold round_pos. cbv zeta.
  assert (ulp_exp ((2 # 1) * x) = ulp_exp x + 1) as ->
    by (unfold ulp_exp; rewrite ilog2_double by exact Hx; lia).
  assert ((2 # 1) * x / pow2 (ulp_exp x + 1) == x / pow2 (ulp_exp x))%Q as E.
  { rewrite pow2_succ. field. apply Qnot_eq_sym, Qlt_not_eq, pow2_pos. }
  rewrite (py_round_proper _ _ E), pow2_succ. ring.
Qed.

End Binary64Rounding.

Section Binary64Signed.
Import B64.

Lemma rne_pos (x : Q) : (0 < x)%Q -> rne x = round_pos x.
Proof.
  intros Hx. unfold rne.
  destruct (Qcompare_spec x 0) as [E|L|G]; [lra|lra|reflexivity].
Qed.

Lemma rne_neg (x : Q) : (x < 0)%Q -> rne x = (- round_pos (- x))%Q.
Proof.
  intros Hx. unfold rne.
  destruct (Qcompare_spec x 0) as [E|L|G]; [lra|reflexivity|lra].
Qed.

Lemma rne_zero (x : Q) : (x == 0)%Q -> rne x = 0%Q.
Proof.
  intros Hx. unfold rne.
  destruct (Qcompare_spec x 0) as [E|L|G]; [reflexivity|lra|lra].
Qed.

Lemma rne_nonneg (x : Q) : (0 <= x)%Q -> (0 <= rne x)%Q.
Proof.
  intros Hx. destruct (Qlt_le_dec 0 x) as [Hp|Hz].
  - rewrite rne_pos by exact Hp. apply round_pos_nonneg. exact Hp.
  - rewrite rne_zero by lra. lra.
Qed.

Lemma rne_nonpos (x : Q) : (x <= 0)%Q -> (rne x <= 0)%Q.
Proof.
  intros Hx. destruct (Qlt_le_dec x 0) as [Hn|Hz].
  - rewrite rne_neg by exact Hn.
    pose proof (round_pos_nonneg (- x) ltac:(lra)). lra.
  - rewrite rne_zero by lra. lra.
Qed.

Lemma rne_opp (x : Q) : (rne (- x) == - rne x)%Q.
Proof.
  destruct (Q_dec x 0) as [[Hn|Hp]|Hz].
  - rewrite (rne_neg x Hn), (rne_pos (- x)) by lra. ring.
  - rewrite (rne_pos x Hp), (rne_neg (- x)) by lra.
    rewrite (round_pos_proper (- - x) x) by (lra || ring). reflexivity.
  - rewrite (rne_zero x Hz), (rne_zero (- x)) by lra. reflexivity.
Qed.

Lemma rne_proper (x y : Q) : (x == y)%Q -> (rne x == rne y)%Q.
Proof.
  intros E. destruct (Q_dec x 0) as [[Hn|Hp]|Hz].
  - rewrite (rne_neg x Hn), (rne_neg y) by lra.
    rewrite (round_pos_proper (- x) (- y)) by lra. reflexivity.
  - rewrite (rne_pos x Hp), (rne_pos y) by lra.
    apply round_pos_proper; assumption.
  - rewrite (rne_zero x Hz), (rne_zero y) by lra. reflexivity.
Qed.

(** Rounding keeps the order. *)
Lemma rne_mono (x y : Q) : (x <= y)%Q -> (rne x <= rne y)%Q.
Proof.
  intros Hxy. destruct (Q_dec x 0) as [[Hxn|Hxp]|Hxz].
  - destruct (Qlt_le_dec y 0) as [Hyn|Hyp].
    + rewrite (rne_neg x Hxn), (rne_neg y Hyn).
      pose proof (round_pos_mono (- y) (- x) ltac:(lra) ltac:(lra)). lra.
    + pose proof (rne_nonpos x ltac:(lra)).
      pose proof (rne_nonneg y Hyp). lra.
  - rewrite (rne_pos x Hxp), (rne_pos y) by lra.
    apply round_pos_mono; assumption.
  - rewrite (rne_zero x Hxz). apply rne_nonneg. lra.
Qed.

(** Values that rounding leaves as they are. *)
Lemma rne_exact (x : Q) (m k : Z) :
  Z.abs m < 2 ^ 53 -> -1074 <= k ->
  (x == inject_Z m * pow2 k)%Q -> (rne x == x)%Q.
Proof.
  intros Hm Hk E.
  pose proof (pow2_pos k) as Hp.
  destruct (Z.lt_trichotomy m 0) as [Hn|[Hz|Hpos]].
  - assert (inject_Z m < 0)%Q
      by (change 0%Q with (inject_Z 0); rewrite <- Zlt_Qlt; exact Hn).
    assert (x < 0)%Q as Hx by (rewrite E; nra).
    rewrite (rne_neg x Hx).
    rewrite (round_pos_exact (- x) (- m) k); [ring|lia|exact Hk|].
    rewrite E, inject_Z_opp. ring.
  - subst m. rewrite rne_zero; [|rewrite E; ring].
    rewrite E. ring.
  - assert (0 < inject_Z m)%Q
      by (change 0%Q with (inject_Z 0); rewrite <- Zlt_Qlt; exact Hpos).
    assert (0 < x)%Q as Hx by (rewrite E; nra).
    rewrite (rne_pos x Hx).
    apply (round_pos_exact x m k); [lia|exact Hk|exact E].
Qed.

Lemma rne_int (n : Z) :
  Z.abs n <= 2 ^ 53 -> (rne (inject_Z n) == inject_Z n)%Q.
Proof.
  intros Hn. destruct (Z.eq_dec (Z.abs n) (2 ^ 53)) as [Htop|Hlt].
  - apply (rne_exact _ (n / 2) 1); [|lia|].
    + assert (n = 2 ^ 53 \/ n = - 2 ^ 53) as [-> | ->] by lia;
        vm_compute; reflexivity.
    + assert (n = 2 ^ 53 \/ n = - 2 ^ 53) as [-> | ->] by lia;
        vm_compute; reflexivity.
  - apply (rne_exact _ n 0); [lia|lia|]. rewrite pow2_0. ring.
Qed.

Lemma rne_idem (x : Q) : (rne (rne x) == rne x)%Q.
Proof.
  assert (forall y, (0 < y)%Q -> (rne (rne y) == rne y)%Q) as Hpos.
  { intros y Hy. rewrite (rne_pos y Hy).
    destruct (Qlt_le_dec 0 (round_pos y)) as [Hr|Hr].
    - rewrite (rne_pos _ Hr). apply round_pos_idem; assumption.
    - pose proof (round_pos_nonneg y Hy).
      rewrite rne_zero by lra. lra. }
  destruct (Q_dec x 0) as [[Hn|Hp]|Hz].
  - assert (rne x == - rne (- x))%Q as E
      by (rewrite rne_opp; ring).
    rewrite (rne_proper _ _ E), rne_opp, (Hpos (- x)%Q) by lra.
    rewrite rne_opp. ring.
  - apply Hpos. exact Hp.
  - rewrite (rne_zero x Hz). reflexivity.
Qed.

(** Doubling a value that is not subnormal doubles its rounding. *)
Lemma rne_double (x : Q) :
  (pow2 (-1022) <= x)%Q -> (rne ((2 # 1) * x) == (2 # 1) * rne x)%Q.
Proof.
  intros Hx. pose proof (pow2_pos (-1022)).
  assert (0 < x)%Q as Hp by lra.
  rewrite (rne_pos x Hp), (rne_pos ((2 # 1) * x)) by lra.
  apply round_pos_double; [exact Hp|].
  assert (-1022 < ilog2 x + 1).
  { apply pow2_lt_inv. destruct (ilog2_spec x Hp) as [_ S2]. lra. }
  lia.
Qed.

End Binary64Signed.

(** ** Rounding errors *)

Section Binary64Errors.
Import B64.

(** Half a unit in the last place. *)
Lemma round_pos_near (x : Q) :
  (0 < x)%Q ->
  (round_pos x - pow2 (ulp_exp x) * (1 # 2) <= x
   <= round_pos x + pow2 (ulp_exp x) * (1 # 2))%Q.
Proof.
  intros Hx. unfold round_pos. cbv zeta.
  pose proof (pow2_pos (ulp_exp x)) as He.
  pose proof (py_round_near (x / pow2 (ulp_exp x))) as [N1 N2].
  assert (x == x / pow2 (ulp_exp x) * pow2 (ulp_exp x))%Q as E
    by (field; lra).
  set (y := (x / pow2 (ulp_exp x))%Q) in *.
  set (r := inject_Z (py_round y)) in *.
  set (e := pow2 (ulp_exp x)) in *.
  rewrite E. split; nra.
Qed.

Lemma pow2_half (k : Z) : (pow2 k * (1 # 2) == pow2 (k - 1))%Q.
Proof.
  rewrite pow2_sub. change (pow2 1) with (2 # 1)%Q. field.
Qed.

Lemma ilog2_lower (x : Q) (k : Z) : (pow2 k <= x)%Q -> k <= ilog2 x.
Proof.
  intros Hk. pose proof (pow2_pos k) as Hp.
  destruct (ilog2_spec x ltac:(lra)) as [_ S2].
  assert (pow2 k < pow2 (ilog2 x + 1))%Q as Hlt by lra.
  apply pow2_lt_inv in Hlt. lia.
Qed.

(** In the normal range the relative error of rounding is at most
    [2^-53]. *)
Lemma round_pos_rel (x : Q) :
  (pow2 (-1022) <= x)%Q ->
  (x * (1 - pow2 (-53)) <= round_pos x <= x * (1 + pow2 (-53)))%Q.
Proof.
  intros Hn. pose proof (pow2_pos (-1022)) as Hp.
  assert (0 < x)%Q as Hx by lra.
  pose proof (ilog2_lower x (-1022) Hn) as Hi.
  pose proof (round_pos_near x Hx) as [N1 N2].
  rewrite pow2_half in N1, N2.
  assert (ulp_exp x - 1 = ilog2 x + -53) as E by (unfold ulp_exp; lia).
  rewrite E, pow2_add in N1, N2.
  destruct (ilog2_spec x Hx) as [S1 _].
  pose proof (pow2_pos (-53)) as Hu.
  set (u := pow2 (-53)) in *. set (b := pow2 (ilog2 x)) in *.
  set (r := round_pos x) in *.
  split; nra.
Qed.

Lemma rne_rel (x : Q) :
  (pow2 (-1022) <= x)%Q ->
  (x * (1 - pow2 (-53)) <= rne x <= x * (1 + pow2 (-53)))%Q.
Proof.
  intros Hn. pose proof (pow2_pos (-1022)) as Hp.
  rewrite rne_pos by lra. apply round_pos_rel. exact Hn.
Qed.

(** For any value that is not negative the error is at most the relative
    error [2^-53] and half the spacing of the subnormal values. *)
Lemma rne_near (x : Q) :
  (0 <= x)%Q ->
  (x * (1 - pow2 (-53)) - pow2 (-1075) <= rne x
   <= x * (1 + pow2 (-53)) + pow2 (-1075))%Q.
Proof.
  intros H0. pose proof (pow2_pos (-53)) as Hu.
  pose proof (pow2_pos (-1075)) as Hs.
  destruct (Qlt_le_dec 0 x) as [Hx|Hz].
  - destruct (Qlt_le_dec x (pow2 (-1022))) as [Hsub|Hnorm].
    + rewrite rne_pos by exact Hx.
      pose proof (round_pos_near x Hx) as [N1 N2].
      rewrite pow2_half in N1, N2.
      assert (ulp_exp x = -1074) as E.
      { destruct (ilog2_spec x Hx) as [S1 _].
        assert (pow2 (ilog2 x) < pow2 (-1022))%Q as Hlt by lra.
        apply pow2_lt_inv in Hlt. unfold ulp_exp. lia. }
      rewrite E in N1, N2. change (-1074 - 1) with (-1075) in N1, N2.
      set (u := pow2 (-53)) in *. set (s := pow2 (-1075)) in *.
      set (r := round_pos x) in *.
      assert (u < 1)%Q as Hu1
        by (unfold u; change 1%Q with (pow2 0); apply pow2_lt; lia).
      split; nra.
    + pose proof (rne_rel x Hnorm) as [R1 R2]. split; lra.
  - rewrite (rne_zero x) by lra.
    assert (x == 0)%Q as -> by lra. split; lra.
Qed.

End Binary64Errors.

(** ** Binary64 values *)

Section Binary64Values.
Import B64.

Lemma fl_finite (x : Q) :
  (Qabs (rne x) < pow2 1024)%Q -> fl x = Fin (rne x).
Proof.
  intros H. unfold fl. cbv zeta.
  destruct (Qle_bool (pow2 1024) (Qabs (rne x))) eqn:E; [|reflexivity].
  apply Qle_bool_iff in E. lra.
Qed.

Lemma fl_overflow (x : Q) :
  (pow2 1024 <= Qabs (rne x))%Q -> fl x = Inf (is_negative x).
Proof.
  intros H. unfold fl. cbv zeta.
  apply Qle_bool_iff in H. rewrite H. reflexivity.
Qed.

Lemma of_int_small (n : Z) :
  Z.abs n <= 2 ^ 53 ->
  exists q, of_int n = Some (Fin q) /\ (q == inject_Z n)%Q.
Proof.
  intros Hn. exists (rne (inject_Z n)). split; [|apply rne_int; exact Hn].
  unfold of_int. rewrite fl_finite; [reflexivity|].
  rewrite (Qabs_wd _ _ (rne_int n Hn)).
  apply Qabs_Qlt_condition.
  assert (inject_Z (- 2 ^ 53) <= inject_Z n <= inject_Z (2 ^ 53))%Q as [L U]
    by (rewrite <- !Zle_Qle; lia).
  assert (inject_Z (2 ^ 53) < pow2 1024)%Q
    by (rewrite <- pow2_inject by lia; apply pow2_lt; lia).
  rewrite inject_Z_opp in L. split; lra.
Qed.

Lemma rne_one : (rne 1 == 1)%Q.
Proof. apply (rne_int 1). lia. Qed.

Lemma fl_bounded (x b : Q) :
  (0 <= x <= b)%Q -> (rne b == b)%Q -> (b < pow2 1024)%Q ->
  fl x = Fin (rne x) /\ (0 <= rne x <= b)%Q.
Proof.
  intros [H0 H1] Hb Hlt.
  assert (0 <= rne x)%Q as Hn by (apply rne_nonneg; exact H0).
  assert (rne x <= b)%Q as Hu by (rewrite <- Hb; apply rne_mono; exact H1).
  split; [|split; assumption].
  apply fl_finite. rewrite Qabs_pos by exact Hn. lra.
Qed.

Lemma pow2_float (k : Z) : -1074 <= k -> (rne (pow2 k) == pow2 k)%Q.
Proof.
  intros Hk. apply (rne_exact (pow2 k) 1 k); [lia|exact Hk|].
  change (inject_Z 1) with 1%Q. ring.
Qed.

Lemma inject_Z_range (z lo hi : Z) :
  lo <= z <= hi -> (inject_Z lo <= inject_Z z <= inject_Z hi)%Q.
Proof. intros [L U]. split; rewrite <- Zle_Qle; assumption. Qed.

Lemma pow2_31_lt : (inject_Z (2 ^ 31) < pow2 1024)%Q.
Proof. rewrite <- pow2_inject by lia. apply pow2_lt. lia. Qed.

Lemma size_bounds (z : Z) (lo : Z) :
  lo <= z <= 2 ^ 31 ->
  (inject_Z lo <= inject_Z z <= 2147483648 # 1)%Q.
Proof.
  intros Hz. change (2147483648 # 1)%Q with (inject_Z (2 ^ 31)).
  apply inject_Z_range. exact Hz.
Qed.

Lemma unit_roundoff :
  (0 < pow2 (-53))%Q /\ ((2147483648 # 1) * pow2 (-53) <= 1 # 4)%Q.
Proof.
  split; [apply pow2_pos|].
  change (2147483648 # 1)%Q with (pow2 31). rewrite <- pow2_add.
  change (1 # 4)%Q with (pow2 (-2)). apply pow2_le. lia.
Qed.

Lemma small_constants :
  (0 < pow2 (-53))%Q /\ (0 < pow2 (-1075))%Q /\
  (pow2 (-1075) <= pow2 (-53))%Q /\
  (pow2 (-53) == 1 # 9007199254740992)%Q /\
  (pow2 (-19) == 1 # 524288)%Q.
Proof.
  split; [apply pow2_pos|]. split; [apply pow2_pos|].
  split; [apply pow2_le; lia|]. split; reflexivity.
Qed.

Lemma pow2_small : (pow2 (-1075) <= pow2 (-53))%Q /\
                   (pow2 (-44) == (512 # 1) * pow2 (-53))%Q /\
                   (0 < pow2 (-53))%Q /\ (0 < pow2 (-1075))%Q.
Proof.
  split; [apply pow2_le; lia|]. split; [|split; apply pow2_pos].
  change (512 # 1)%Q with (pow2 9). rewrite <- pow2_add. reflexivity.
Qed.

Lemma hundred_float : (rne (100 # 1) == 100 # 1)%Q /\ (100 # 1 < pow2 1024)%Q.
Proof.
  split; [exact (rne_int 100 ltac:(lia))|].
  apply Qlt_trans with (pow2 7); [reflexivity|apply pow2_lt; lia].
Qed.

End Binary64Values.

(** ** Coordinate scaler in binary64 *)

Section Scaler64Props.
Import B64 Scaler64.

(** [_s] on a positive finite scale: the rounded binary64 product, or an
    [OverflowError] from [round] when the product is infinite. *)
Lemma s_finite (s : Q) (base : Z) :
  (0 < s)%Q -> 0 <= base <= 2 ^ 53 ->
  (rne (inject_Z base * s) < pow2 1024)%Q ->
  _s (Fin s) base = Some (round_of_product base s).
Proof.
  intros Hs Hb Hfin. unfold _s.
  destruct (of_int_small base ltac:(lia)) as (q & -> & Eq).
  cbn [mbind option_bind fmul].
  assert (q * s == inject_Z base * s)%Q as E by (rewrite Eq; reflexivity).
  assert (0 <= inject_Z base)%Q
    by (change 0%Q with (inject_Z 0); rewrite <- Zle_Qle; lia).
  assert (0 <= rne (q * s))%Q as Hnn by (apply rne_nonneg; rewrite E; nra).
  rewrite fl_finite.
  - cbn [round_int]. unfold round_of_product. f_equal.
    apply py_round_proper, rne_proper. exact E.
  - rewrite Qabs_pos by exact Hnn. rewrite (rne_proper _ _ E). exact Hfin.
Qed.

Lemma s_overflow (s : Q) (base : Z) :
  (0 < s)%Q -> 0 <= base <= 2 ^ 53 ->
  (pow2 1024 <= rne (inject_Z base * s))%Q ->
  _s (Fin s) base = None.
Proof.
  intros Hs Hb Hinf. unfold _s.
  destruct (of_int_small base ltac:(lia)) as (q & -> & Eq).
  cbn [mbind option_bind fmul].
  assert (q * s == inject_Z base * s)%Q as E by (rewrite Eq; reflexivity).
  rewrite fl_overflow; [reflexivity|].
  rewrite (Qabs_wd _ _ (rne_proper _ _ E)).
  eapply Qle_trans; [exact Hinf|apply Qle_Qabs].
Qed.

Lemma coerce_scale_positive_float (s : Q) :
  (0 < s)%Q -> coerce_scale (ScaleFloat (Fin s)) = Some (Fin s).
Proof.
  intros Hs. unfold coerce_scale, fle.
  destruct (Qle_bool s 0) eqn:E; [|reflexivity].
  apply Qle_bool_iff in E. lra.
Qed.

Lemma coerce_scale_nonpositive_float (q : Q) :
  (q <= 0)%Q -> coerce_scale (ScaleFloat (Fin q)) = Some (Fin (2 # 1)).
Proof.
  intros Hq. unfold coerce_scale, fle.
  apply Qle_bool_iff in Hq. rewrite Hq. reflexivity.
Qed.

Lemma product_below (s : Q) (base : Z) :
  (0 < s)%Q -> 0 <= base <= 800 ->
  (rne (inject_Z base * s) <= rne (inject_Z 800 * s))%Q.
Proof.
  intros Hs Hb. apply rne_mono.
  apply Qmult_le_compat_r; [|lra]. rewrite <- Zle_Qle. lia.
Qed.

(** The constructor on a positive finite scale. *)
Lemma init_finite (s : Q) :
  (0 < s)%Q -> (rne (inject_Z 800 * s) < pow2 1024)%Q ->
  init (ScaleFloat (Fin s))
  = Some {| scale := Fin s;
            CARD_WIDTH := round_of_product 800 s;
            CARD_HEIGHT := round_of_product 400 s;
            PADDING := round_of_product 30 s;
            CORNER_RADIUS := round_of_product 20 s;
            POKEMON_SPRITE_SIZE := round_of_product 55 s;
            POKEMON_SPACING := round_of_product 5 s;
            STATS_START_X := round_of_product 320 s;
            LANGUAGE_BAR_WIDTH := round_of_product 11 s;
            LANGUAGE_BAR_HEIGHT := round_of_product 201 s |}.
Proof.
  intros Hs Hfin. unfold init.
  rewrite (coerce_scale_positive_float s Hs). cbn [mbind option_bind].
  assert (forall base, 0 <= base <= 800 ->
            _s (Fin s) base = Some (round_of_product base s)) as Hall.
  { intros base Hb. apply s_finite; [exact Hs|lia|].
    eapply Qle_lt_trans; [apply product_below; [exact Hs|exact Hb]|exact Hfin]. }
  unfold Scaler.BASE_CARD_WIDTH, Scaler.BASE_CARD_HEIGHT, Scaler.BASE_PADDING,
    Scaler.BASE_CORNER_RADIUS, Scaler.BASE_POKEMON_SPRITE_SIZE,
    Scaler.BASE_POKEMON_SPACING, Scaler.BASE_STATS_START_X,
    Scaler.BASE_LANGUAGE_BAR_WIDTH, Scaler.BASE_LANGUAGE_BAR_HEIGHT.
  rewrite !Hall by lia. reflexivity.
Qed.

Lemma init_overflow (s : Q) :
  (0 < s)%Q -> (pow2 1024 <= rne (inject_Z 800 * s))%Q ->
  init (ScaleFloat (Fin s)) = None.
Proof.
  intros Hs Hinf. unfold init.
  rewrite (coerce_scale_positive_float s Hs). cbn [mbind option_bind].
  unfold Scaler.BASE_CARD_WIDTH.
  rewrite (s_overflow s 800 Hs ltac:(lia) Hinf). reflexivity.
Qed.

End Scaler64Props.

Section Scaler64Doubling.
Import B64 Scaler64.

Lemma float_double (s : Q) :
  (0 < s)%Q -> (rne s == s)%Q -> (rne ((2 # 1) * s) == (2 # 1) * s)%Q.
Proof.
  intros Hs Hr. rewrite (rne_pos s Hs) in Hr.
  destruct (round_pos_repr s Hs) as [Hz|(m & k & Hm & Hk & E)]; [lra|].
  apply (rne_exact _ m (k + 1)); [lia|lia|].
  rewrite pow2_succ, <- Hr, E. ring.
Qed.

Lemma py_round_small (x : Q) : (0 <= x <= 1 # 4)%Q -> py_round x = 0.
Proof.
  intros [H0 H1]. pose proof (py_round_near x) as [Hlo Hhi].
  assert (inject_Z (-1) < inject_Z (py_round x) < inject_Z 1)%Q as [L U].
  { change (inject_Z (-1)) with (- (1))%Q. change (inject_Z 1) with 1%Q.
    set (r := inject_Z (py_round x)) in *. split; lra. }
  rewrite <- Zlt_Qlt in L, U. lia.
Qed.

Lemma tiny_product (y : Q) :
  (0 <= y <= pow2 (-1021))%Q -> py_round (rne y) = 0.
Proof.
  intros [H0 H1]. apply py_round_small. split; [apply rne_nonneg; exact H0|].
  eapply Qle_trans; [apply rne_mono; exact H1|].
  rewrite (rne_exact (pow2 (-1021)) 1 (-1021)); [|lia|lia|ring].
  change (1 # 4)%Q with (pow2 (-2)). apply pow2_le. lia.
Qed.

Lemma py_round_double_near (x : Q) :
  Z.abs (py_round ((2 # 1) * x) - 2 * py_round x) <= 1.
Proof.
  pose proof (py_round_near x) as [Hlo Hhi].
  pose proof (py_round_within_one ((2 # 1) * x) (2 * py_round x)) as Hw.
  rewrite inject_Z_mult in Hw. change (inject_Z 2) with (2 # 1)%Q in Hw.
  assert (2 * py_round x - 1 <= py_round ((2 # 1) * x) <= 2 * py_round x + 1)
    by (apply Hw; split; lra).
  lia.
Qed.

(** The rounded product at twice the scale, against twice the rounded
    product. *)
Lemma product_double (s : Q) (base : Z) :
  (0 < s)%Q -> 0 <= base ->
  (rne (inject_Z base * ((2 # 1) * s)) == (2 # 1) * rne (inject_Z base * s))%Q
  \/ (round_of_product base ((2 # 1) * s) = 0 /\ round_of_product base s = 0).
Proof.
  intros Hs Hb.
  assert (0 <= inject_Z base)%Q as Hbq
    by (change 0%Q with (inject_Z 0); rewrite <- Zle_Qle; exact Hb).
  assert (inject_Z base * ((2 # 1) * s) == (2 # 1) * (inject_Z base * s))%Q
    as E by ring.
  destruct (Qlt_le_dec (inject_Z base * s) (pow2 (-1022))) as [Hsub|Hnorm].
  - right. unfold round_of_product.
    assert (pow2 (-1021) == (2 # 1) * pow2 (-1022))%Q as P
      by (rewrite <- pow2_succ; reflexivity).
    pose proof (pow2_pos (-1022)).
    split; apply tiny_product; split; try nra; rewrite ?E, ?P; nra.
  - left. rewrite (rne_proper _ _ E). apply rne_double. exact Hnorm.
Qed.

Lemma round_of_product_double (s : Q) (base : Z) :
  (0 < s)%Q -> 0 <= base ->
  Z.abs (round_of_product base ((2 # 1) * s) - 2 * round_of_product base s)
  <= 1.
Proof.
  intros Hs Hb. destruct (product_double s base Hs Hb) as [E|[-> ->]]; [|lia].
  unfold round_of_product. rewrite (py_round_proper _ _ E).
  apply py_round_double_near.
Qed.

Lemma round_of_product_double_exact (s : Q) (base k : Z) :
  (0 < s)%Q -> 0 <= base ->
  (rne (inject_Z base * s) == inject_Z k)%Q ->
  round_of_product base ((2 # 1) * s) = 2 * round_of_product base s.
Proof.
  intros Hs Hb Hk. destruct (product_double s base Hs Hb) as [E|[-> ->]]; [|lia].
  unfold round_of_product. rewrite (py_round_proper _ _ E).
  rewrite (py_round_integer _ k Hk).
  apply py_round_integer. rewrite Hk, inject_Z_mult. reflexivity.
Qed.

Lemma round_of_product_proper (base : Z) (s t : Q) :
  (s == t)%Q -> round_of_product base s = round_of_product base t.
Proof.
  intros E. unfold round_of_product. apply py_round_proper, rne_proper.
  rewrite E. reflexivity.
Qed.

(** What the constructor returns on a positive finite scale, when it
    returns. *)
Lemma init_some (s : Q) (d : dims) :
  (0 < s)%Q -> init (ScaleFloat (Fin s)) = Some d ->
  (rne (inject_Z 800 * s) < pow2 1024)%Q /\
  scale d = Fin s /\
  CARD_WIDTH d = round_of_product 800 s /\
  CARD_HEIGHT d = round_of_product 400 s /\
  PADDING d = round_of_product 30 s /\
  CORNER_RADIUS d = round_of_product 20 s /\
  POKEMON_SPRITE_SIZE d = round_of_product 55 s /\
  POKEMON_SPACING d = round_of_product 5 s /\
  STATS_START_X d = round_of_product 320 s /\
  LANGUAGE_BAR_WIDTH d = round_of_product 11 s /\
  LANGUAGE_BAR_HEIGHT d = round_of_product 201 s.
Proof.
  intros Hs Hd.
  destruct (Qlt_le_dec (rne (inject_Z 800 * s)) (pow2 1024)) as [Hfin|Hinf].
  - rewrite (init_finite s Hs Hfin) in Hd. injection Hd as <-.
    split; [exact Hfin|]. cbn. repeat split; reflexivity.
  - rewrite (init_overflow s Hs Hinf) in Hd. discriminate.
Qed.

End Scaler64Doubling.

Section Scaler64Limits.
Import B64 Scaler64.

Lemma round_of_product_zero (s : Q) (base e : Z) :
  (0 < s)%Q -> 0 <= base -> -1074 <= e <= -2 ->
  (inject_Z base * s <= pow2 e)%Q -> round_of_product base s = 0.
Proof.
  intros Hs Hb He Hle. unfold round_of_product. apply py_round_small.
  assert (0 <= inject_Z base)%Q
    by (change 0%Q with (inject_Z 0); rewrite <- Zle_Qle; exact Hb).
  split; [apply rne_nonneg; nra|].
  eapply Qle_trans; [apply rne_mono; exact Hle|].
  rewrite (rne_exact (pow2 e) 1 e); [|lia|lia|ring].
  change (1 # 4)%Q with (pow2 (-2)). apply pow2_le. lia.
Qed.

Lemma doubled_scale (s : Q) :
  (0 < s)%Q -> is_float (Fin s) ->
  fmul (Fin (2 # 1)) (Fin s) = Inf false \/
  exists t, fmul (Fin (2 # 1)) (Fin s) = Fin t /\ (t == (2 # 1) * s)%Q.
Proof.
  intros Hs [Hr _]. cbn [fmul]. unfold fl. cbv zeta.
  destruct (Qle_bool (pow2 1024) (Qabs (rne ((2 # 1) * s)))).
  - left. f_equal. unfold is_negative.
    destruct (Qcompare_spec ((2 # 1) * s) 0); [reflexivity|lra|reflexivity].
  - right. eexists. split; [reflexivity|]. apply float_double; assumption.
Qed.

Lemma init_infinite : init (ScaleFloat (Inf false)) = None.
Proof. reflexivity. Qed.

End Scaler64Limits.

(** C4, counterexample: at the scale 2049/2048, a binary64 value, the
    card is 800 pixels wide, and at twice that scale it is 1601 pixels
    wide, not 1600. *)
Lemma scaler_doubling_counterexample :
  B64.is_float (B64.Fin (2049 # 2048)) /\
  Scaler64.CARD_WIDTH
    <$> Scaler64.init (Scaler64.ScaleFloat (B64.Fin (2049 # 2048)))
  = Some 800 /\
  Scaler64.CARD_WIDTH
    <$> Scaler64.init
          (Scaler64.ScaleFloat
             (B64.fmul (B64.Fin (2 # 1)) (B64.Fin (2049 # 2048))))
  = Some 1601.
Proof. vm_compute. repeat split; congruence. Qed.

(** C4, as amended: for a positive finite scale [s], a binary64 value,
    the scaled dimensions are computed without error when the binary64
    product [800 * s] is finite, and every one of them is then
    [round(base * s)] of its base constant, the product being the
    binary64 one; [round] raises [OverflowError] when that product is
    infinite.  When the dimensions are computed for [s] and for [2 * s],
    each canvas dimension at [2 * s] is within one pixel of its double,
    and is exactly its double when the binary64 product [400 * s] is an
    integer.  A scale that is not positive, [-inf] included, or not
    numeric is replaced by 2.0; on [nan], on [+inf] and on an integer
    beyond the range of floats the constructor raises. *)
Theorem scaler_dimensions (s : Q) (Hs : (0 < s)%Q)
    (Hfloat : B64.is_float (B64.Fin s)) :
  let init := Scaler64.init in
  let arg (f : B64.float) := Scaler64.ScaleFloat f in
  let default := arg (B64.Fin (2 # 1)) in
  ((B64.rne (inject_Z 800 * s) < B64.pow2 1024)%Q ->
   init (arg (B64.Fin s))
   = Some {| Scaler64.scale := B64.Fin s;
             Scaler64.CARD_WIDTH := round_of_product 800 s;
             Scaler64.CARD_HEIGHT := round_of_product 400 s;
             Scaler64.PADDING := round_of_product 30 s;
             Scaler64.CORNER_RADIUS := round_of_product 20 s;
             Scaler64.POKEMON_SPRITE_SIZE := round_of_product 55 s;
             Scaler64.POKEMON_SPACING := round_of_product 5 s;
             Scaler64.STATS_START_X := round_of_product 320 s;
             Scaler64.LANGUAGE_BAR_WIDTH := round_of_product 11 s;
             Scaler64.LANGUAGE_BAR_HEIGHT := round_of_product 201 s |}) /\
  ((B64.pow2 1024 <= B64.rne (inject_Z 800 * s))%Q ->
   init (arg (B64.Fin s)) = None) /\
  (forall d d2,
     init (arg (B64.Fin s)) = Some d ->
     init (arg (B64.fmul (B64.Fin (2 # 1)) (B64.Fin s))) = Some d2 ->
     Z.abs (Scaler64.CARD_WIDTH d2 - 2 * Scaler64.CARD_WIDTH d) <= 1 /\
     Z.abs (Scaler64.CARD_HEIGHT d2 - 2 * Scaler64.CARD_HEIGHT d) <= 1 /\
     (forall k : Z,
        (B64.rne (inject_Z 400 * s) == inject_Z k)%Q ->
        Scaler64.CARD_WIDTH d2 = 2 * Scaler64.CARD_WIDTH d /\
        Scaler64.CARD_HEIGHT d2 = 2 * Scaler64.CARD_HEIGHT d)) /\
  (forall q : Q, (q <= 0)%Q -> init (arg (B64.Fin q)) = init default) /\
  init (arg (B64.Inf true)) = init default /\
  init Scaler64.ScaleNotNumeric = init default /\
  (exists d, init default = Some d /\
             Scaler64.CARD_WIDTH d = 1600 /\ Scaler64.CARD_HEIGHT d = 800) /\
  init (arg B64.NaN) = None /\
  init (arg (B64.Inf false)) = None /\
  init Scaler64.ScaleTooLarge = None.
Proof.
  intros init arg default. subst init arg default.
  split; [intros Hfin; apply init_finite; assumption|].
  split; [intros Hinf; apply init_overflow; assumption|].
  split.
  - intros d d2 Hd Hd2.
    destruct (init_some s d Hs Hd) as (_ & _ & Hw & Hh & _).
    destruct (doubled_scale s Hs Hfloat) as [Hinf|(t & Ht & Et)].
    { rewrite Hinf in Hd2. discriminate. }
    rewrite Ht in Hd2.
    assert (0 < t)%Q as Htpos by lra.
    destruct (init_some t d2 Htpos Hd2) as (_ & _ & Hw2 & Hh2 & _).
    rewrite Hw, Hh, Hw2, Hh2.
    rewrite !(round_of_product_proper _ t _ Et).
    split; [apply round_of_product_double; [exact Hs|lia]|].
    split; [apply round_of_product_double; [exact Hs|lia]|].
    intros k Hk.
    assert (forall u, (inject_Z 800 * u == inject_Z 400 * ((2 # 1) * u))%Q)
      as E800.
    { intros u. change (inject_Z 800) with (800 # 1)%Q.
      change (inject_Z 400) with (400 # 1)%Q. ring. }
    destruct (Qlt_le_dec (inject_Z 400 * s) (B64.pow2 (-1022)))
      as [Hsub|Hnorm].
    + assert (B64.pow2 (-1021) == (2 # 1) * B64.pow2 (-1022))%Q as P1
        by (rewrite <- pow2_succ; reflexivity).
      assert (B64.pow2 (-1020) == (2 # 1) * B64.pow2 (-1021))%Q as P2
        by (rewrite <- pow2_succ; reflexivity).
      pose proof (E800 s) as E1. pose proof (E800 ((2 # 1) * s)%Q) as E2.
      assert (round_of_product 400 s = 0) as ->
        by (apply (round_of_product_zero s 400 (-1022)); [lra|lia|lia|lra]).
      assert (round_of_product 800 s = 0) as ->
        by (apply (round_of_product_zero s 800 (-1021)); [lra|lia|lia|lra]).
      assert (round_of_product 400 ((2 # 1) * s) = 0) as ->
        by (apply (round_of_product_zero _ 400 (-1021)); [lra|lia|lia|lra]).
      assert (round_of_product 800 ((2 # 1) * s) = 0) as ->
        by (apply (round_of_product_zero _ 800 (-1020)); [lra|lia|lia|lra]).
      split; reflexivity.
    + assert (B64.rne (inject_Z 800 * s) == inject_Z (2 * k))%Q as Hk2.
      { rewrite (rne_proper _ _ (E800 s)).
        assert (inject_Z 400 * ((2 # 1) * s) == (2 # 1) * (inject_Z 400 * s))%Q
          as E by ring.
        rewrite (rne_proper _ _ E), (rne_double _ Hnorm), Hk, inject_Z_mult.
        reflexivity. }
      split.
      * apply (round_of_product_double_exact s 800 (2 * k)); [exact Hs|lia|].
        exact Hk2.
      * apply (round_of_product_double_exact s 400 k); [exact Hs|lia|].
        exact Hk.
  - split.
    { intros q Hq. unfold Scaler64.init.
      rewrite (coerce_scale_nonpositive_float q Hq). reflexivity. }
    split; [reflexivity|]. split; [reflexivity|].
    split; [eexists; split; [vm_compute; reflexivity|split; reflexivity]|].
    split; [reflexivity|]. split; reflexivity.
Qed.

Lemma scaler_dimensions_witness :
  Scaler64.init (Scaler64.ScaleFloat (B64.Fin (3 # 2)))
  = Some {| Scaler64.scale := B64.Fin (3 # 2);
            Scaler64.CARD_WIDTH := 1200;
            Scaler64.CARD_HEIGHT := 600;
            Scaler64.PADDING := 45;
            Scaler64.CORNER_RADIUS := 30;
            Scaler64.POKEMON_SPRITE_SIZE := 82;
            Scaler64.POKEMON_SPACING := 8;
            Scaler64.STATS_START_X := 480;
            Scaler64.LANGUAGE_BAR_WIDTH := 16;
            Scaler64.LANGUAGE_BAR_HEIGHT := 302 |}.
Proof.
  assert (0 < 3 # 2)%Q as Hs by reflexivity.
  assert (B64.is_float (B64.Fin (3 # 2))) as Hf
    by (split; vm_compute; reflexivity).
  destruct (scaler_dimensions (3 # 2) Hs Hf) as (Hfin & _).
  rewrite Hfin by (vm_compute; reflexivity).
  vm_compute. reflexivity.
Defined.

(** ** Segment sizing in binary64 *)

Section Bar64Props.
Import B64 Bar64.

(** The product [(percentage / total_pct) * h] of a share is a finite
    value between 0 and [h]. *)
Lemma product_bounds (h : Z) (total_pct percentage : float) :
  0 <= h <= 2 ^ 53 -> positive_total total_pct ->
  share_of total_pct percentage ->
  exists r, proportional_product h total_pct percentage = Some (Fin r) /\
            (0 <= r <= inject_Z h)%Q.
Proof.
  intros Hh Ht Hp. destruct percentage as [p| |]; try contradiction.
  destruct Hp as [Hp0 Hle]. unfold proportional_product.
  destruct (of_int_small h ltac:(lia)) as (hq & Hof & Ehq).
  assert (0 <= inject_Z h)%Q as Hh0
    by (change 0%Q with (inject_Z 0); rewrite <- Zle_Qle; lia).
  assert (rne (inject_Z h) == inject_Z h)%Q as Hrh by (apply rne_int; lia).
  assert (inject_Z h < pow2 1024)%Q as Hhlt.
  { apply Qle_lt_trans with (inject_Z (2 ^ 53)); [rewrite <- Zle_Qle; lia|].
    rewrite <- pow2_inject by lia. apply pow2_lt. lia. }
  destruct total_pct as [t|neg|]; try contradiction.
  - cbn in Ht. cbn [fle] in Hle. apply Qle_bool_iff in Hle.
    cbn [fdiv]. unfold is_zero.
    destruct (Qeq_bool t 0) eqn:Ez; [apply Qeq_bool_iff in Ez; lra|].
    cbn [mbind option_bind]. rewrite Hof. cbn [mbind option_bind].
    assert (0 <= p / t <= 1)%Q as Hratio.
    { split; [apply Qle_shift_div_l; lra|apply Qle_shift_div_r; lra]. }
    destruct (fl_bounded (p / t) 1 Hratio rne_one) as [-> [Hr0 Hr1]];
      [change 1%Q with (pow2 0); apply pow2_lt; lia|].
    cbn [fmul].
    assert (0 <= rne (p / t) * hq <= inject_Z h)%Q as Hprod
      by (rewrite Ehq; split; nra).
    destruct (fl_bounded _ _ Hprod Hrh Hhlt) as [-> Hb].
    eexists. split; [reflexivity|exact Hb].
  - cbn in Ht. subst neg. cbn [fdiv mbind option_bind].
    rewrite Hof. cbn [mbind option_bind fmul].
    assert (0 <= 0 * hq <= inject_Z h)%Q as Hprod by (split; lra).
    destruct (fl_bounded _ _ Hprod Hrh Hhlt) as [-> Hb].
    eexists. split; [reflexivity|exact Hb].
Qed.

(** The height of a share: the floor of that product. *)
Lemma share_height (h : Z) (total_pct percentage : float)
    (num : nat) (cy : Z) (i : nat) :
  0 <= h <= 2 ^ 53 -> positive_total total_pct ->
  share_of total_pct percentage ->
  exists r, proportional_product h total_pct percentage = Some (Fin r) /\
            segment_height h true num total_pct cy i percentage
            = Some (Qfloor r) /\
            0 <= Qfloor r <= h.
Proof.
  intros Hh Ht Hp.
  destruct (product_bounds h total_pct percentage Hh Ht Hp)
    as (r & Hr & Hr0 & Hr1).
  exists r. split; [exact Hr|]. unfold segment_height. rewrite Hr.
  cbn [mbind option_bind to_int]. rewrite (py_int_floor r Hr0).
  split; [reflexivity|]. split.
  - rewrite <- (Qfloor_Z 0). apply Qfloor_resp_le. exact Hr0.
  - rewrite <- (Qfloor_Z h). apply Qfloor_resp_le. exact Hr1.
Qed.

End Bar64Props.

Section Bar64Loop.
Context `{LanguageTable}.
Hypothesis Htable :
  Forall (fun kv => is_hex_color kv.2 = true) GITHUB_LANGUAGE_COLORS.
Import B64 Bar64.

(** Proportional mode: the loop keeps, in order, the heights that are at
    least one pixel, each segment starting where the one before ends. *)
Lemma proportional_loop64 (h : Z) (num : nat) (total_pct : float)
    (items : list (nat * (str * float))) (heights : list Z) :
  Forall2 (fun item z =>
             forall cy, segment_height h true num total_pct cy item.1
                                       item.2.2 = Some z)
          items heights ->
  forall current_y segments,
    chained 0 segments -> total_height segments = current_y ->
    exists out,
      segments_loop h true num total_pct items current_y segments = Some out /\
      map seg_height out
      = map seg_height segments ++ filter (fun z => 1 <= z) heights /\
      chained 0 out.
Proof.
  induction 1 as [|[i [lang pct]] z rest zs Hz Hrest IH];
    intros cy segs Hc Hsum.
  - exists segs. split; [reflexivity|]. cbn. rewrite app_nil_r.
    split; [reflexivity|exact Hc].
  - cbn [segments_loop]. cbn [fst snd] in Hz. rewrite (Hz cy).
    cbn [mbind option_bind]. rewrite filter_cons.
    destruct (Z.ltb_spec z 1) as [Hlt|Hge].
    + rewrite decide_False by lia. exact (IH cy segs Hc Hsum).
    + rewrite decide_True by lia.
      destruct (entry_color_some Htable lang i) as [color ->].
      cbn [mbind option_bind].
      destruct (IH (cy + z) (segs ++ [(cy, cy + z, color)]))
        as (out & -> & Hout & Hcout).
      * apply chained_snoc; [exact Hc| |];
          unfold seg_start, seg_end; cbn [fst snd]; lia.
      * rewrite total_height_snoc. unfold seg_height, seg_start, seg_end.
        cbn [fst snd]. lia.
      * exists out. split; [reflexivity|]. split; [|exact Hcout].
        rewrite Hout, map_app, <- app_assoc. cbn [map app].
        do 2 f_equal. unfold seg_height, seg_end, seg_start. cbn [fst snd].
        f_equal. lia.
Qed.

End Bar64Loop.

Section Bar64Sum.
Import B64 Bar64.

Lemma fle_trans (a b c : float) :
  fle a b = true -> fle b c = true -> fle a c = true.
Proof.
  destruct a as [x|[|]|], b as [y|[|]|], c as [z|[|]|]; cbn;
    try congruence; try reflexivity.
  rewrite !Qle_bool_iff. intros; lra.
Qed.

(** Adding a non-negative value to a non-negative sum gives a
    non-negative sum that is at least either of them. *)
Lemma fadd_nonneg (acc p : float) :
  nonneg_sum acc -> nonneg_binary64 p ->
  nonneg_sum (fadd acc p) /\
  fle acc (fadd acc p) = true /\ fle p (fadd acc p) = true.
Proof.
  intros Ha Hp. destruct p as [y| |]; try contradiction.
  destruct Hp as [Hy [Ey _]].
  destruct acc as [x|neg|]; try contradiction.
  - destruct Ha as [Hx Ex]. cbn [fadd].
    assert (x <= rne (x + y))%Q as Lx
      by (rewrite <- Ex at 1; apply rne_mono; lra).
    assert (y <= rne (x + y))%Q as Ly
      by (rewrite <- Ey at 1; apply rne_mono; lra).
    unfold fl. cbv zeta.
    destruct (Qle_bool (pow2 1024) (Qabs (rne (x + y)))) eqn:E.
    + assert (is_negative (x + y) = false) as ->.
      { unfold is_negative.
        destruct (Qcompare_spec (x + y) 0); try reflexivity. lra. }
      cbn. repeat split.
    + cbn. rewrite !Qle_bool_iff. repeat split; try assumption.
      * lra.
      * apply rne_idem.
  - cbn in Ha. subst neg. cbn. repeat split.
Qed.

Lemma fold_fadd_nonneg (percentages : list float) :
  Forall nonneg_binary64 percentages ->
  forall acc, nonneg_sum acc ->
    nonneg_sum (fold_left fadd percentages acc) /\
    fle acc (fold_left fadd percentages acc) = true /\
    Forall (fun p => fle p (fold_left fadd percentages acc) = true)
           percentages.
Proof.
  induction 1 as [|p rest Hp Hrest IH]; intros acc Ha.
  - cbn. split; [exact Ha|]. split; [|constructor].
    destruct acc as [x|[|]|]; cbn in *; try congruence; try contradiction.
    apply Qle_bool_iff. lra.
  - cbn [fold_left].
    destruct (fadd_nonneg acc p Ha Hp) as (Hn & Hacc & Hple).
    destruct (IH (fadd acc p) Hn) as (Hn' & Hle' & Hall).
    split; [exact Hn'|]. split; [exact (fle_trans _ _ _ Hacc Hle')|].
    constructor; [exact (fle_trans _ _ _ Hple Hle')|exact Hall].
Qed.

(** The total that the bar computes by adding the percentages one after
    the other is positive, and every percentage is a share of it, as soon
    as the percentages are non-negative and the total is not zero. *)
Lemma sum_pct_shares (visible_languages : list (str * float)) :
  Forall (fun lp => nonneg_binary64 lp.2) visible_languages ->
  feq_zero (sum_pct visible_languages) = false ->
  positive_total (sum_pct visible_languages) /\
  Forall (fun lp => share_of (sum_pct visible_languages) lp.2)
         visible_languages.
Proof.
  intros Hall Hnz. unfold sum_pct in *.
  assert (Forall nonneg_binary64 (map snd visible_languages)) as Hall'
    by (apply Forall_map; exact Hall).
  assert (nonneg_sum (Fin 0)) as H0
    by (split; [lra|rewrite (rne_zero 0); reflexivity]).
  destruct (fold_fadd_nonneg _ Hall' (Fin 0) H0) as (Hn & _ & Hle).
  split.
  - destruct (fold_left fadd (map snd visible_languages) (Fin 0))
      as [t|neg|]; cbn in *; try contradiction; [|exact Hn].
    destruct Hn as [Ht _]. unfold is_zero in Hnz.
    destruct (Qeq_dec t 0) as [E|E]; [|lra].
    apply Qeq_bool_iff in E. congruence.
  - apply Forall_map in Hle.
    rewrite Forall_forall in Hall, Hle |- *. intros lp Hin.
    specialize (Hall lp Hin). specialize (Hle lp Hin). cbn in Hle.
    destruct (lp.2) as [p| |]; try contradiction.
    split; [exact (proj1 Hall)|exact Hle].
Qed.

End Bar64Sum.

Section Bar64Segments.
Context `{LanguageTable}.
Hypothesis Htable :
  Forall (fun kv => is_hex_color kv.2 = true) GITHUB_LANGUAGE_COLORS.
Import B64 Bar64.

Lemma enumerate_from_heights {A} (P : nat -> A -> Z -> Prop)
    (l : list A) (heights : list Z) :
  Forall2 (fun a z => forall i, P i a z) l heights ->
  forall k, Forall2 (fun item z => P item.1 item.2 z)
                    (zip (seq k (length l)) l) heights.
Proof.
  induction 1 as [|a z l zs Ha Hl IH]; intros k; [constructor|].
  cbn [length seq zip zip_with]. constructor; [exact (Ha k)|exact (IH (S k))].
Qed.

(** Proportional mode for any positive total of which every percentage
    is a share: each entry has the height [floor] of its binary64
    product, between 0 and [h]; the segments are, in order, the entries
    whose height is at least one pixel, stacked from row 0. *)
Lemma proportional_for_total (h : Z) (visible_languages : list (str * float))
    (total_pct : float) :
  0 <= h <= 2 ^ 53 -> positive_total total_pct ->
  Forall (fun lp => share_of total_pct lp.2) visible_languages ->
  exists heights segments,
    Forall2 (fun lp z =>
               exists r,
                 proportional_product h total_pct lp.2 = Some (Fin r) /\
                 z = Qfloor r /\ 0 <= z <= h)
            visible_languages heights /\
    compute_segments h true visible_languages total_pct = Some segments /\
    map seg_height segments = filter (fun z => 1 <= z) heights /\
    chained 0 segments /\
    Forall (fun s => 1 <= seg_height s <= h) segments.
Proof.
  intros Hh Ht Hall.
  assert (exists heights,
            Forall2 (fun lp z =>
                       (exists r,
                          proportional_product h total_pct lp.2
                          = Some (Fin r) /\ z = Qfloor r /\ 0 <= z <= h) /\
                       forall (i : nat) cy,
                         segment_height h true (length visible_languages)
                                        total_pct cy i lp.2 = Some z)
                    visible_languages heights) as (heights & Hheights).
  { generalize (length visible_languages) as num.
    induction Hall as [|lp rest Hlp Hrest IH]; intros num.
    - exists []. constructor.
    - destruct (IH num) as (zs & Hzs).
      destruct (share_height h total_pct lp.2 num 0 0%nat Hh Ht Hlp)
        as (r & Hr & _ & Hb).
      exists (Qfloor r :: zs). constructor; [|exact Hzs]. split.
      + exists r. split; [exact Hr|]. split; [reflexivity|exact Hb].
      + intros i cy.
        destruct (share_height h total_pct lp.2 num cy i Hh Ht Hlp)
          as (r' & Hr' & Hs' & _).
        rewrite Hr in Hr'. injection Hr' as <-. exact Hs'. }
  exists heights.
  assert (Forall2 (fun item z =>
                     forall cy,
                       segment_height h true (length visible_languages)
                                      total_pct cy item.1 item.2.2 = Some z)
                  (enumerate visible_languages) heights) as Hloop.
  { apply (enumerate_from_heights
             (fun i lp z => forall cy,
                  segment_height h true (length visible_languages)
                                 total_pct cy i lp.2 = Some z)).
    eapply Forall2_impl; [exact Hheights|].
    intros lp z [_ Hs] i cy. exact (Hs i cy). }
  destruct (proportional_loop64 Htable h (length visible_languages) total_pct
              (enumerate visible_languages) heights Hloop 0 [] I eq_refl)
    as (segments & Hsegs & Hmap & Hc).
  exists segments. cbn [map app] in Hmap.
  split; [eapply Forall2_impl; [exact Hheights|]; intros lp z [Hr _]; exact Hr|].
  split; [exact Hsegs|]. split; [exact Hmap|]. split; [exact Hc|].
  apply (Forall_map seg_height (fun z => 1 <= z <= h)). rewrite Hmap.
  rewrite Forall_forall. intros z Hz.
  apply list_elem_of_filter in Hz as [Hz1 Hz].
  split; [exact Hz1|].
  apply list_elem_of_lookup in Hz as [j Hj].
  destruct (Forall2_lookup_r _ _ _ _ _ Hheights Hj)
    as (lp & _ & (r & _ & _ & Hb) & _).
  lia.
Qed.

End Bar64Segments.

(** C1, counterexample: for the shares 99.8 and 0.2 of a bar of 328
    pixels the products are 327.344 and 0.656 pixels.  The renderer
    truncates them to 327 and 0 and makes one segment, of Python; with
    [round] the heights are 327 and 1, and Go has a segment as well.
    What is drawn shows it: in gradient mode all the 328 rows are in the
    colour of Python, and in block mode the one rectangle is. *)
Lemma proportional_rounding_counterexample :
  let visible := [(lit "Python", B64.fl (998 # 10));
                  (lit "Go", B64.fl (2 # 10))] in
  let python := (53, 114, 165, 255) in
  let bar use_gradient :=
    @Bar64._draw_vertical_language_bar sample_table fixed_pitch
       (sample_renderer (2 # 1)) 0 0 22 328 visible true use_gradient false in
  B64.fle (B64.Fin (100 # 1)) (Bar64.sum_pct visible) = true /\
  B64.fle (Bar64.sum_pct visible) (B64.Fin (100 # 1)) = true /\
  @Bar64.compute_segments sample_table 328 true visible
    (Bar64.sum_pct visible)
  = Some [(0, 327, python)] /\
  map (fun lp => spec_segment_height 328 (Bar64.sum_pct visible) lp.2)
      visible
  = [Some 327; Some 1] /\
  bar true
  = Some [RoundedRectangle (0, 0, 22, 328) 11 (Some (86, 95, 137, 255))
                           None 1;
          PasteMasked
            (map (fun row_y => Line (0, row_y) (22, row_y) python)
                 (seqZ 0 328))
            (22, 328) 11 (0, 0)] /\
  bar false
  = Some [RoundedRectangle (0, 0, 22, 328) 11 (Some (86, 95, 137, 255))
                           None 1;
          PasteMasked [Rectangle (0, 0, 22, 327) python]
                      (22, 328) 11 (0, 0)].
Proof. vm_compute. repeat split; reflexivity. Qed.

(** C1, as amended: in proportional mode, for visible languages whose
    percentages are finite binary64 values, none negative, and whose
    total (the percentages added from left to right) is not zero, the
    segments are computed without error.  Each entry has the height
    [int((percentage / total) * bar_height)]: the floor of the binary64
    product, a value between 0 and [bar_height].  The segments
    [(start, end, colour)] computed are, in order, the entries whose
    height is at least 1, the others being left out; they are stacked
    from row 0, [end - start] is the height of the entry, and no height
    exceeds [bar_height]. *)
Theorem proportional_segments `{LanguageTable}
    (Htable : Forall (fun kv => is_hex_color kv.2 = true)
                     GITHUB_LANGUAGE_COLORS)
    (h : Z) (Hh : 0 <= h <= 2 ^ 53)
    (visible_languages : list (str * B64.float))
    (Hnonneg : Forall (fun lp => nonneg_binary64 lp.2) visible_languages)
    (Hsum : B64.feq_zero (Bar64.sum_pct visible_languages) = false) :
  let total_pct := Bar64.sum_pct visible_languages in
  exists heights segments,
    Forall2 (fun lp z =>
               exists r,
                 Bar64.proportional_product h total_pct lp.2
                 = Some (B64.Fin r) /\
                 z = Qfloor r /\ 0 <= z <= h)
            visible_languages heights /\
    Bar64.compute_segments h true visible_languages total_pct
    = Some segments /\
    map seg_height segments = filter (fun z => 1 <= z) heights /\
    chained 0 segments /\
    Forall (fun s => 1 <= seg_height s <= h) segments.
Proof.
  intros total_pct.
  destruct (sum_pct_shares visible_languages Hnonneg Hsum) as [Ht Hall].
  exact (proportional_for_total Htable h visible_languages total_pct
           Hh Ht Hall).
Qed.

Lemma proportional_segments_witness :
  exists heights segments,
    @Bar64.compute_segments sample_table 328 true
       [(lit "Python", B64.Fin (725 # 8)); (lit "Go", B64.Fin (75 # 8))]
       (Bar64.sum_pct
          [(lit "Python", B64.Fin (725 # 8)); (lit "Go", B64.Fin (75 # 8))])
    = Some segments /\
    map seg_height segments = filter (fun z => 1 <= z) heights /\
    Forall (fun s => 1 <= seg_height s <= 328) segments.
Proof.
  destruct (@proportional_segments sample_table
              ltac:(repeat constructor) 328 ltac:(lia)
              [(lit "Python", B64.Fin (725 # 8)); (lit "Go", B64.Fin (75 # 8))]
              ltac:(repeat constructor; vm_compute; congruence)
              ltac:(reflexivity))
    as (heights & segments & _ & Hs & Hm & _ & Hall).
  exists heights, segments. split; [exact Hs|]. split; [exact Hm|exact Hall].
Defined.

Section Bar64NeverRaises.
Context `{LanguageTable} `{Pillow}.
Hypothesis Htable :
  Forall (fun kv => is_hex_color kv.2 = true) GITHUB_LANGUAGE_COLORS.
Import B64 Bar64.

(** In equal mode the loop ends without error, whatever the
    percentages. *)
Lemma equal_loop_some (h : Z) (num : nat) (total_pct : float)
    (items : list (nat * (str * float))) :
  forall current_y segments,
    is_Some (segments_loop h false num total_pct items current_y segments).
Proof.
  induction items as [|[i [lang pct]] rest IH]; intros cy segs.
  - eexists; reflexivity.
  - cbn [segments_loop segment_height mbind option_bind]. cbv zeta.
    match goal with |- context [?z <? 1] => destruct (z <? 1) end;
      [apply IH|].
    destruct (entry_color_some Htable lang i) as [color ->].
    cbn [mbind option_bind]. apply IH.
Qed.

(** The loop keeps its segments chained from row 0. *)
Lemma segments_loop64_chained h scale_bars num total items :
  forall current_y segments out,
    segments_loop h scale_bars num total items current_y segments = Some out ->
    chained 0 segments ->
    total_height segments = current_y ->
    chained 0 out.
Proof.
  induction items as [|[i [lang pct]] rest IH]; intros cy segs out Hout Hc Hsum.
  - injection Hout as <-. exact Hc.
  - cbn [segments_loop] in Hout.
    destruct (segment_height h scale_bars num total cy i pct) as [sh|];
      [|discriminate].
    cbn [mbind option_bind] in Hout.
    destruct (Z.ltb_spec sh 1) as [Hlt|Hge].
    + exact (IH _ _ _ Hout Hc Hsum).
    + destruct (entry_color lang i) as [color|]; [|discriminate].
      cbn [mbind option_bind] in Hout.
      apply (IH _ _ _ Hout).
      * apply chained_snoc; [exact Hc| |];
          unfold seg_start, seg_end; cbn [fst snd]; lia.
      * rewrite total_height_snoc. unfold seg_height, seg_start, seg_end.
        cbn [fst snd]. lia.
Qed.

Lemma fill_some (self : renderer) (w h : Z) (segments : list segment)
    (use_gradient : bool) :
  chained 0 segments ->
  exists fill,
    (if use_gradient then gradient_rows self w h segments
     else Some (block_fill w segments)) = Some fill.
Proof.
  intros Hc. destruct use_gradient; [|eexists; reflexivity].
  unfold gradient_rows; cbv zeta.
  destruct (mapM (fun row_y =>
                    c ← row_color self segments (self_s self 8) row_y;
                    Some (Line (0, row_y) (w, row_y) c)) (seqZ 0 h))
    as [ops|] eqn:Hm; [eexists; reflexivity|].
  exfalso. apply mapM_None in Hm. rewrite Exists_exists in Hm.
  destruct Hm as (row_y & _ & Hnone).
  destruct (row_scan_some self segments (self_s self 8) row_y 0 Hc
              segments [] eq_refl) as [c Hcol].
  unfold row_color in Hnone. cbn [length] in Hcol.
  unfold segment in *. rewrite Hcol in Hnone. discriminate.
Qed.

Lemma bar64_shape (self : renderer) (x y w h : Z)
    (languages : list (str * float))
    (scale_bars use_gradient show_border : bool) :
  0 <= w -> 0 <= h <= 2 ^ 53 ->
  Forall (fun lp => nonneg_binary64 lp.2) languages ->
  let radius := Z.max 1 (w `div` 2) in
  let background :=
    RoundedRectangle (x, y, x + w, y + h) radius
                     (Some (secondary_color self)) None 1 in
  exists ops,
    _draw_vertical_language_bar self x y w h languages
                                scale_bars use_gradient show_border
    = Some (background :: ops) /\
    (length ops <= 2)%nat /\
    (show_border = false -> (length ops <= 1)%nat) /\
    (feq_zero (sum_pct (take 5 languages)) = true -> ops = []).
Proof.
  intros Hw Hh Hall. cbv zeta. unfold _draw_vertical_language_bar. cbv zeta.
  assert (Forall (fun lp => nonneg_binary64 lp.2) (take 5 languages))
    as Hvisible by (apply Forall_take; exact Hall).
  destruct (take 5 languages) as [|l0 vis] eqn:Hvis.
  { exists []. split; [reflexivity|]. cbn [length]. repeat split; lia. }
  destruct (feq_zero (sum_pct (l0 :: vis))) eqn:Hz.
  { exists []. split; [reflexivity|]. cbn [length]. repeat split; lia. }
  unfold image_new.
  assert ((w <? 0) || (h <? 0) = false) as ->
    by (apply orb_false_intro; apply Z.ltb_ge; lia).
  cbn [mbind option_bind].
  assert (exists segments,
            compute_segments h scale_bars (l0 :: vis) (sum_pct (l0 :: vis))
            = Some segments /\ chained 0 segments) as (segments & Hsegs & Hc).
  { destruct scale_bars.
    - destruct (sum_pct_shares _ Hvisible Hz) as [Ht Hshares].
      destruct (proportional_for_total Htable h _ _ Hh Ht Hshares)
        as (heights & segments & _ & Hsegs & _ & Hc & _).
      exists segments. split; assumption.
    - destruct (equal_loop_some h (length (l0 :: vis)) (sum_pct (l0 :: vis))
                  (enumerate (l0 :: vis)) 0 []) as [segments Hsegs].
      exists segments. split; [exact Hsegs|].
      exact (segments_loop64_chained _ _ _ _ _ _ _ _ Hsegs I eq_refl). }
  unfold segment in *. rewrite Hsegs. cbn [mbind option_bind].
  destruct segments as [|s0 segs] eqn:Hs.
  { exists []. split; [reflexivity|]. cbn [length].
    split; [lia|]. split; [lia|discriminate]. }
  rewrite <- Hs in *.
  destruct (fill_some self w h segments use_gradient Hc) as (fill & Hfill).
  unfold segment in *. rewrite Hfill. cbn [mbind option_bind].
  eexists. split; [reflexivity|].
  destruct show_border; cbn [length app]; repeat split; try lia;
    discriminate.
Qed.

End Bar64NeverRaises.

(** X11: with a colour table of [#rrggbb] values, a width and a height
    that are not negative and percentages that are finite binary64
    values, none negative, the bar does not raise, whatever the position,
    the number of languages and the three flags: it returns after the
    background track, at most one pasted fill and at most one border;
    the border is drawn only when asked for, and nothing follows the
    background when the visible percentages sum to zero. *)
Theorem language_bar_never_raises `{LanguageTable} `{Pillow}
    (Htable : Forall (fun kv => is_hex_color kv.2 = true)
                     GITHUB_LANGUAGE_COLORS)
    (self : renderer) (x y w h : Z) (Hw : 0 <= w) (Hh : 0 <= h <= 2 ^ 53)
    (languages : list (str * B64.float))
    (Hlanguages : Forall (fun lp => nonneg_binary64 lp.2) languages)
    (scale_bars use_gradient show_border : bool) :
  exists ops,
    Bar64._draw_vertical_language_bar self x y w h languages
                                      scale_bars use_gradient show_border
    = Some (RoundedRectangle (x, y, x + w, y + h) (Z.max 1 (w `div` 2))
                             (Some (secondary_color self)) None 1 :: ops) /\
    (length ops <= 2)%nat /\
    (show_border = false -> (length ops <= 1)%nat) /\
    (B64.feq_zero (Bar64.sum_pct (take 5 languages)) = true -> ops = []).
Proof.
  exact (bar64_shape Htable self x y w h languages
                     scale_bars use_gradient show_border Hw Hh Hlanguages).
Qed.

Lemma language_bar_never_raises_witness :
  exists ops,
    @Bar64._draw_vertical_language_bar sample_table fixed_pitch
       (sample_renderer (2 # 1)) 1116 360 22 328
       [(lit "Python", B64.Fin (60 # 1)); (lit "Go", B64.Fin (40 # 1))]
       true true false
    = Some (RoundedRectangle (1116, 360, 1116 + 22, 360 + 328)
              (Z.max 1 (22 `div` 2))
              (Some (secondary_color (sample_renderer (2 # 1)))) None 1
            :: ops) /\
    (length ops <= 2)%nat.
Proof.
  destruct (@language_bar_never_raises sample_table fixed_pitch
              ltac:(repeat constructor) (sample_renderer (2 # 1))
              1116 360 22 328 ltac:(lia) ltac:(lia)
              [(lit "Python", B64.Fin (60 # 1)); (lit "Go", B64.Fin (40 # 1))]
              ltac:(repeat constructor; vm_compute; congruence)
              true true false) as (ops & Hops & Hlen & _).
  exists ops. split; [exact Hops|exact Hlen].
Defined.

(** ** Proportional segments stay within the bar, in binary64 *)

Section Bar64Errors.
Import B64 Bar64.

(** Rounding a quotient between 0 and 1. *)
Lemma rne_unit_interval (e : Q) :
  (0 <= e <= 1)%Q ->
  (0 <= rne e <= 1)%Q /\
  (e - (2 # 9007199254740992) <= rne e <= e + (2 # 9007199254740992))%Q.
Proof.
  intros [H0 H1]. destruct small_constants as (Hu & Hs & Hsu & Eu & _).
  split.
  - split; [apply rne_nonneg; exact H0|].
    rewrite <- rne_one. apply rne_mono. exact H1.
  - pose proof (rne_near e H0) as [N1 N2].
    set (u := pow2 (-53)) in *. set (s := pow2 (-1075)) in *.
    assert (0 <= e * u <= u)%Q as [A1 A2] by (split; nra).
    split; lra.
Qed.

(** Rounding a product of at most [2^31]. *)
Lemma rne_pixels (x : Q) :
  (0 <= x <= 2147483648 # 1)%Q ->
  (x - (1 # 2097152) <= rne x <= x + (1 # 2097152))%Q.
Proof.
  intros [H0 H1]. destruct small_constants as (Hu & Hs & Hsu & Eu & _).
  pose proof (rne_near x H0) as [N1 N2].
  set (u := pow2 (-53)) in *. set (s := pow2 (-1075)) in *.
  assert (0 <= x * u <= (2147483648 # 1) * u)%Q as [A1 A2] by (split; nra).
  split; lra.
Qed.

(** The binary64 product of a share is within [2^-19] of the exact
    one. *)
Lemma product_error (h : Z) (t p : Q) :
  0 <= h <= 2 ^ 31 -> (0 < t)%Q -> (0 <= p <= t)%Q ->
  exists r,
    proportional_product h (Fin t) (Fin p) = Some (Fin r) /\
    (p * (inject_Z h / t) - (1 # 524288) <= r
     <= p * (inject_Z h / t) + (1 # 524288))%Q.
Proof.
  intros Hh Ht [Hp0 Hp1].
  destruct (of_int_small h ltac:(lia)) as (hq & Hof & Ehq).
  destruct (size_bounds h 0 Hh) as [Hh0 Hh1].
  change (inject_Z 0) with 0%Q in Hh0.
  set (e := (p / t)%Q).
  assert (0 <= e <= 1)%Q as He.
  { unfold e. split; [apply Qle_shift_div_l|apply Qle_shift_div_r]; lra. }
  destruct (rne_unit_interval e He) as [[Hq0 Hq1] [Eq1 Eq2]].
  assert (fl e = Fin (rne e)) as Hfl.
  { apply fl_finite. rewrite Qabs_pos by exact Hq0.
    apply Qle_lt_trans with 1%Q; [exact Hq1|].
    change 1%Q with (pow2 0). apply pow2_lt. lia. }
  set (q := rne e) in *.
  assert (0 <= q * hq <= 2147483648 # 1)%Q as Hprod
    by (rewrite Ehq; split; nra).
  pose proof (rne_pixels _ Hprod) as [R1 R2].
  assert (fl (q * hq) = Fin (rne (q * hq))) as Hfl2.
  { apply fl_finite. rewrite Qabs_pos by (apply rne_nonneg; lra).
    apply Qle_lt_trans with ((2147483648 # 1) + 1)%Q; [lra|].
    apply Qlt_trans with (pow2 32); [reflexivity|apply pow2_lt; lia]. }
  exists (rne (q * hq)). split.
  - unfold proportional_product. cbn [fdiv]. unfold is_zero.
    destruct (Qeq_bool t 0) eqn:Ez; [apply Qeq_bool_iff in Ez; lra|].
    cbn [mbind option_bind]. rewrite Hof. cbn [mbind option_bind].
    fold e. rewrite Hfl. cbn [fmul]. rewrite Hfl2. reflexivity.
  - assert (p * (inject_Z h / t) == e * inject_Z h)%Q as ->
      by (unfold e; field; lra).
    set (r := rne (q * hq)) in *. rewrite Ehq in R1, R2.
    set (H := inject_Z h) in *.
    assert ((e - (2 # 9007199254740992)) * H <= q * H)%Q as B1
      by (apply Qmult_le_compat_r; lra).
    assert (q * H <= (e + (2 # 9007199254740992)) * H)%Q as B2
      by (apply Qmult_le_compat_r; lra).
    split; lra.
Qed.

End Bar64Errors.

Section Bar64SumError.
Import B64 Bar64.

Lemma exact_sum_cons (p : Q) (rest : list float) :
  exact_sum (Fin p :: rest) = (p + exact_sum rest)%Q.
Proof. reflexivity. Qed.

Lemma exact_sum_nonneg (percentages : list float) :
  Forall ordinary_percentage percentages -> (0 <= exact_sum percentages)%Q.
Proof.
  induction 1 as [|a rest Ha Hrest IH]; [unfold exact_sum; cbn; lra|].
  destruct a as [p| |]; try contradiction. rewrite exact_sum_cons.
  destruct Ha as [_ [Hz|[Hn _]]]; [lra|].
  pose proof (pow2_pos (-1022)). lra.
Qed.

(** One addition of the sum: the accumulated value stays a binary64 value
    that is zero or normal, and the error grows by at most [2^-52] of
    the largest partial sum. *)
Lemma sum_step (j : nat) (t0 p S0 Smax : Q) :
  (j < 5)%nat ->
  (rne t0 == t0)%Q -> (0 <= t0)%Q ->
  ((t0 == 0)%Q \/ (pow2 (-1022) <= t0)%Q) ->
  (t0 <= pow2 (1000 + Z.of_nat j))%Q ->
  (rne p == p)%Q ->
  ((p == 0)%Q \/ (pow2 (-1022) <= p <= pow2 1000)%Q) ->
  (0 <= S0)%Q -> (S0 + p <= Smax)%Q ->
  (S0 - inject_Z (Z.of_nat j) * ((2 # 9007199254740992) * Smax) <= t0
   <= S0 + inject_Z (Z.of_nat j) * ((2 # 9007199254740992) * Smax))%Q ->
  exists t1,
    fadd (Fin t0) (Fin p) = Fin t1 /\
    (rne t1 == t1)%Q /\ (0 <= t1)%Q /\
    ((t1 == 0)%Q \/ (pow2 (-1022) <= t1)%Q) /\
    (t1 <= pow2 (1000 + Z.of_nat (S j)))%Q /\
    (S0 + p - inject_Z (Z.of_nat (S j)) * ((2 # 9007199254740992) * Smax)
     <= t1
     <= S0 + p
        + inject_Z (Z.of_nat (S j)) * ((2 # 9007199254740992) * Smax))%Q.
Proof.
  intros Hj Et0 Ht0 Hn0 Hmax Ep Hp HS0 HSmax [L U].
  destruct small_constants as (Hu & Hs & Hsu & Eu & _).
  pose proof (pow2_pos (-1022)) as Hmin.
  assert (0 <= p)%Q as Hp0 by (destruct Hp as [Hz|[Hn _]]; lra).
  assert (p <= pow2 1000)%Q as Hp1.
  { destruct Hp as [Hz|[_ Hn]]; [|exact Hn].
    pose proof (pow2_pos 1000). lra. }
  assert (inject_Z (Z.of_nat (S j)) == inject_Z (Z.of_nat j) + 1)%Q as EJ.
  { rewrite Nat2Z.inj_succ. unfold Z.succ. rewrite inject_Z_plus.
    reflexivity. }
  assert (0 <= inject_Z (Z.of_nat j) <= 4 # 1)%Q as [J0 J4].
  { split; [change 0%Q with (inject_Z 0)|change (4 # 1)%Q with (inject_Z 4)];
      rewrite <- Zle_Qle; lia. }
  assert (t0 + p <= pow2 (1000 + Z.of_nat (S j)))%Q as Hsum.
  { assert (pow2 1000 <= pow2 (1000 + Z.of_nat j))%Q as H1
      by (apply pow2_le; lia).
    assert (pow2 (1000 + Z.of_nat (S j))
            == (2 # 1) * pow2 (1000 + Z.of_nat j))%Q as ->.
    { replace (1000 + Z.of_nat (S j)) with (1 + (1000 + Z.of_nat j)) by lia.
      rewrite pow2_add. reflexivity. }
    lra. }
  assert (rne (t0 + p) <= pow2 (1000 + Z.of_nat (S j)))%Q as Hr1.
  { rewrite <- (pow2_float (1000 + Z.of_nat (S j))) by lia.
    apply rne_mono. exact Hsum. }
  assert (0 <= rne (t0 + p))%Q as Hr0 by (apply rne_nonneg; lra).
  exists (rne (t0 + p)). split.
  { cbn [fadd]. apply fl_finite. rewrite Qabs_pos by exact Hr0.
    eapply Qle_lt_trans; [exact Hr1|]. apply pow2_lt. lia. }
  split; [apply rne_idem|]. split; [exact Hr0|].
  assert (0 <= Smax)%Q as HSm by lra.
  destruct (Qeq_dec (t0 + p) 0) as [Ez|Enz].
  - rewrite (rne_zero _ Ez). split; [left; reflexivity|].
    split; [apply Qlt_le_weak, pow2_pos|].
    assert (p == 0)%Q as Ep0 by lra. assert (t0 == 0)%Q as Et by lra.
    rewrite EJ.
    set (J := inject_Z (Z.of_nat j)) in *.
    assert (0 <= J * ((2 # 9007199254740992) * Smax))%Q by nra.
    split; lra.
  - assert (pow2 (-1022) <= t0 + p)%Q as Hnorm.
    { destruct Hn0 as [Hz|Hn]; [|lra].
      destruct Hp as [Hpz|[Hpn _]]; [exfalso; apply Enz; lra|lra]. }
    split.
    { right. rewrite <- (pow2_float (-1022)) by lia.
      apply rne_mono. exact Hnorm. }
    split; [exact Hr1|].
    pose proof (rne_rel _ Hnorm) as [R1 R2]. rewrite Eu in R1, R2.
    rewrite EJ.
    set (J := inject_Z (Z.of_nat j)) in *. set (r := rne (t0 + p)) in *.
    assert (0 <= J * Smax <= (4 # 1) * Smax)%Q as [JS0 JS4]
      by (split; nra).
    split; lra.
Qed.

(** The binary64 total of at most five ordinary percentages: a binary64
    value within [10 * 2^-52] of the exact sum, relatively. *)
Lemma sum_error (percentages : list float) :
  Forall ordinary_percentage percentages ->
  forall (j : nat) (t0 S0 Smax : Q),
    (j + length percentages <= 5)%nat ->
    (rne t0 == t0)%Q -> (0 <= t0)%Q ->
    ((t0 == 0)%Q \/ (pow2 (-1022) <= t0)%Q) ->
    (t0 <= pow2 (1000 + Z.of_nat j))%Q ->
    (0 <= S0)%Q -> (S0 + exact_sum percentages <= Smax)%Q ->
    (S0 - inject_Z (Z.of_nat j) * ((2 # 9007199254740992) * Smax) <= t0
     <= S0 + inject_Z (Z.of_nat j) * ((2 # 9007199254740992) * Smax))%Q ->
    exists t,
      fold_left fadd percentages (Fin t0) = Fin t /\ (0 <= t)%Q /\
      (S0 + exact_sum percentages
         - (5 # 1) * ((2 # 9007199254740992) * Smax) <= t
       <= S0 + exact_sum percentages
          + (5 # 1) * ((2 # 9007199254740992) * Smax))%Q.
Proof.
  induction 1 as [|a rest Ha Hrest IH];
    intros j t0 S0 Smax Hlen Et0 Ht0 Hn0 Hmax HS0 HSmax [L U].
  - exists t0. split; [reflexivity|]. split; [exact Ht0|].
    unfold exact_sum in *. cbn [map sumQ foldr] in *.
    assert (0 <= inject_Z (Z.of_nat j) <= 5 # 1)%Q as [J0 J5].
    { split; [change 0%Q with (inject_Z 0)|change (5 # 1)%Q with (inject_Z 5)];
        rewrite <- Zle_Qle; cbn [length] in Hlen; lia. }
    set (J := inject_Z (Z.of_nat j)) in *.
    assert (0 <= Smax)%Q as HSm by lra.
    assert (0 <= J * Smax <= (5 # 1) * Smax)%Q as [JS0 JS5] by (split; nra).
    split; lra.
  - destruct a as [p| |]; try contradiction. destruct Ha as [Ep Hp].
    cbn [length] in Hlen. rewrite exact_sum_cons in HSmax |- *.
    pose proof (exact_sum_nonneg rest Hrest) as Hrest0.
    assert (0 <= p)%Q as Hp0.
    { destruct Hp as [Hz|[Hn _]]; [lra|].
      pose proof (pow2_pos (-1022)). lra. }
    destruct (sum_step j t0 p S0 Smax ltac:(lia) Et0 Ht0 Hn0 Hmax Ep Hp HS0
                ltac:(lra) (conj L U))
      as (t1 & Hadd & Et1 & Ht1 & Hn1 & Hmax1 & B1).
    destruct (IH (S j) t1 (S0 + p)%Q Smax ltac:(lia) Et1 Ht1 Hn1 Hmax1
                ltac:(lra) ltac:(lra) B1) as (t & Hfold & Ht & B).
    exists t. cbn [fold_left]. rewrite Hadd. split; [exact Hfold|].
    split; [exact Ht|]. destruct B as [B2 B3]. split; lra.
Qed.

End Bar64SumError.

Section Bar64Within.
Context `{LanguageTable}.
Hypothesis Htable :
  Forall (fun kv => is_hex_color kv.2 = true) GITHUB_LANGUAGE_COLORS.
Import B64 Bar64.

Lemma ordinary_nonneg (a : float) :
  ordinary_percentage a -> nonneg_binary64 a.
Proof.
  destruct a as [p| |]; try contradiction. intros [Ep Hp].
  pose proof (pow2_pos (-1022)) as Hmin.
  assert (0 <= p)%Q as Hp0 by (destruct Hp as [Hz|[Hn _]]; lra).
  split; [exact Hp0|]. split; [exact Ep|].
  rewrite Qabs_pos by exact Hp0.
  destruct Hp as [Hz|[_ Hn]].
  - rewrite Hz. apply pow2_pos.
  - eapply Qle_lt_trans; [exact Hn|]. apply pow2_lt. lia.
Qed.

(** Heights that are the floors of products within [2^-19] of the exact
    ones sum to the exact sum, but for that error and one pixel for
    each. *)
Lemma heights_sum (h : Z) (t : Q) (percentages : list float)
    (heights : list Z) :
  Forall2 (fun a z =>
             exists p r,
               a = Fin p /\ z = Qfloor r /\
               (p * (inject_Z h / t) - (1 # 524288) <= r
                <= p * (inject_Z h / t) + (1 # 524288))%Q)
          percentages heights ->
  (exact_sum percentages * (inject_Z h / t)
     - inject_Z (Z.of_nat (length percentages)) * ((1 # 524288) + 1)
   <= inject_Z (sumZ heights)
   <= exact_sum percentages * (inject_Z h / t)
      + inject_Z (Z.of_nat (length percentages)) * (1 # 524288))%Q.
Proof.
  induction 1 as [|a z rest zs (p & r & -> & -> & R1 & R2) Hrest [IH1 IH2]].
  - unfold exact_sum, sumZ, sumQ. cbn [map foldr length Z.of_nat].
    change (inject_Z (Z.of_nat 0)) with 0%Q. change (inject_Z 0) with 0%Q.
    split; lra.
  - rewrite exact_sum_cons. cbn [length]. unfold sumZ in *. cbn [foldr].
    rewrite Nat2Z.inj_succ. unfold Z.succ. rewrite !inject_Z_plus.
    change (inject_Z 1) with 1%Q.
    pose proof (Qfloor_le r) as F1. pose proof (Qlt_floor r) as F2.
    rewrite inject_Z_plus in F2. change (inject_Z 1) with 1%Q in F2.
    set (k := (inject_Z h / t)%Q) in *.
    set (n := inject_Z (Z.of_nat (length rest))) in *.
    set (zq := inject_Z (Qfloor r)) in *.
    set (sq := inject_Z (foldr Z.add 0 zs)) in *.
    set (S := exact_sum rest) in *.
    split; lra.
Qed.

(** The segments of at most five ordinary percentages end at most
    [count] rows before the end of the bar, and not after it. *)
Lemma within_bar (h : Z) (visible_languages : list (str * float)) :
  0 <= h <= 2 ^ 31 -> (length visible_languages <= 5)%nat ->
  Forall (fun lp => ordinary_percentage lp.2) visible_languages ->
  feq_zero (sum_pct visible_languages) = false ->
  exists segments,
    compute_segments h true visible_languages (sum_pct visible_languages)
    = Some segments /\
    chained 0 segments /\
    total_height segments <= h /\
    h - total_height segments <= Z.of_nat (length visible_languages).
Proof.
  intros Hh Hlen Hord Hnz.
  assert (Forall (fun lp => nonneg_binary64 lp.2) visible_languages) as Hnn.
  { eapply Forall_impl; [exact Hord|]. intros lp. apply ordinary_nonneg. }
  destruct (sum_pct_shares visible_languages Hnn Hnz) as [Hpos Hshares].
  assert (Forall ordinary_percentage (map snd visible_languages)) as Hord'
    by (apply Forall_map; exact Hord).
  set (S := exact_sum (map snd visible_languages)).
  pose proof (exact_sum_nonneg _ Hord') as HS0. fold S in HS0.
  destruct (sum_error (map snd visible_languages) Hord' 0 0%Q 0%Q S)
    as (t & Hsum & Ht0 & T1 & T2).
  { rewrite length_map. lia. }
  { apply (rne_int 0). lia. }
  { lra. }
  { left; reflexivity. }
  { apply Qlt_le_weak, pow2_pos. }
  { lra. }
  { fold S. lra. }
  { change (inject_Z (Z.of_nat 0)) with 0%Q. split; lra. }
  fold S in T1, T2.
  assert (sum_pct visible_languages = Fin t) as Etotal by exact Hsum.
  rewrite Etotal in *. cbn in Hpos. clear Hnz.
  destruct (proportional_for_total Htable h visible_languages (Fin t)
              ltac:(lia) Hpos Hshares)
    as (heights & segments & Hheights & Hsegs & Hmap & Hc & _).
  exists segments. split; [exact Hsegs|]. split; [exact Hc|].
  assert (Forall (fun z => 0 <= z) heights) as Hh0.
  { rewrite Forall_forall. intros z Hz.
    apply list_elem_of_lookup in Hz as [j Hj].
    destruct (Forall2_lookup_r _ _ _ _ _ Hheights Hj)
      as (lp & _ & r & _ & _ & Hb). lia. }
  assert (total_height segments = sumZ heights) as ->
    by (rewrite total_height_sumZ, Hmap; apply sumZ_filter_pos; exact Hh0).
  assert (Forall2 (fun a z =>
                     exists p r,
                       a = Fin p /\ z = Qfloor r /\
                       (p * (inject_Z h / t) - (1 # 524288) <= r
                        <= p * (inject_Z h / t) + (1 # 524288))%Q)
                  (map snd visible_languages) heights) as Hnear.
  { apply Forall2_fmap_l.
    clear -Hheights Hshares Hh Hpos.
    induction Hheights as [|lp z ls zs (r & Hr & Hz & _) Hrest IH];
      [constructor|].
    apply Forall_cons in Hshares as [Hlp Hshares].
    constructor; [|exact (IH Hshares)].
    cbn beta. destruct (lp.2) as [p| |] eqn:Ep; try contradiction.
    destruct Hlp as [Hp0 Hle]. cbn [fle] in Hle. apply Qle_bool_iff in Hle.
    destruct (product_error h t p Hh Hpos (conj Hp0 Hle))
      as (r' & Hr' & Hb).
    rewrite Hr in Hr'. injection Hr' as <-.
    exists p, r. split; [exact Ep|]. split; [exact Hz|exact Hb]. }
  pose proof (heights_sum h t _ heights Hnear) as [Z1 Z2].
  rewrite length_map in Z1, Z2. fold S in Z1, Z2.
  destruct (size_bounds h 0 Hh) as [Hq0 Hq1].
  change (inject_Z 0) with 0%Q in Hq0.
  assert (0 <= inject_Z (Z.of_nat (length visible_languages)) <= 5 # 1)%Q
    as [N0 N5].
  { split; [change 0%Q with (inject_Z 0)|change (5 # 1)%Q with (inject_Z 5)];
      rewrite <- Zle_Qle; lia. }
  set (k := (inject_Z h / t)%Q) in *.
  assert (0 <= k)%Q as Hk0 by (unfold k; apply Qle_shift_div_l; lra).
  assert (t * k == inject_Z h)%Q as Etk by (unfold k; field; lra).
  set (Y := (S * k)%Q) in *.
  assert ((S - (5 # 1) * ((2 # 9007199254740992) * S)) * k <= t * k)%Q as Y1
    by (apply Qmult_le_compat_r; lra).
  assert (t * k <= (S + (5 # 1) * ((2 # 9007199254740992) * S)) * k)%Q as Y2
    by (apply Qmult_le_compat_r; lra).
  assert ((S - (5 # 1) * ((2 # 9007199254740992) * S)) * k
          == Y - (10 # 9007199254740992) * Y)%Q as E1 by (unfold Y; ring).
  assert ((S + (5 # 1) * ((2 # 9007199254740992) * S)) * k
          == Y + (10 # 9007199254740992) * Y)%Q as E2 by (unfold Y; ring).
  rewrite E1, Etk in Y1. rewrite E2, Etk in Y2.
  set (n := inject_Z (Z.of_nat (length visible_languages))) in *.
  set (hq := inject_Z h) in *. set (z := inject_Z (sumZ heights)) in *.
  assert (z < hq + 1)%Q as Hup by lra.
  assert (hq - n - 1 < z)%Q as Hlow by lra.
  unfold z, hq, n in Hup, Hlow.
  change 1%Q with (inject_Z 1) in Hup, Hlow.
  rewrite <- inject_Z_plus, <- Zlt_Qlt in Hup.
  unfold Qminus in Hlow. rewrite <- !inject_Z_opp, <- !inject_Z_plus in Hlow.
  rewrite <- Zlt_Qlt in Hlow. lia.
Qed.

End Bar64Within.

(** X9: in proportional mode, for at most five visible languages whose
    percentages are binary64 values that are zero or normal and at most
    [2^1000], with a total that is not zero, and a bar of at most [2^31]
    rows: the segments computed never reach past the bar, and the last
    of them ends at most as many rows before the end of the bar as there
    are visible languages. *)
Theorem proportional_within_bar `{LanguageTable}
    (Htable : Forall (fun kv => is_hex_color kv.2 = true)
                     GITHUB_LANGUAGE_COLORS)
    (h : Z) (Hh : 0 <= h <= 2 ^ 31)
    (visible_languages : list (str * B64.float))
    (Hcount : (length visible_languages <= 5)%nat)
    (Hordinary : Forall (fun lp => ordinary_percentage lp.2)
                        visible_languages)
    (Hsum : B64.feq_zero (Bar64.sum_pct visible_languages) = false) :
  exists segments,
    Bar64.compute_segments h true visible_languages
                           (Bar64.sum_pct visible_languages)
    = Some segments /\
    total_height segments <= h /\
    h - total_height segments <= Z.of_nat (length visible_languages) /\
    Forall (fun s => 0 <= seg_start s /\ seg_end s <= h) segments.
Proof.
  destruct (within_bar Htable h visible_languages Hh Hcount Hordinary Hsum)
    as (segments & Hsegs & Hc & Hle & Hgap).
  exists segments. split; [exact Hsegs|]. split; [exact Hle|].
  split; [exact Hgap|].
  eapply Forall_impl; [apply (chained_bounds _ 0 Hc)|].
  intros s (H1 & H2 & H3). cbn beta. lia.
Qed.

Lemma proportional_within_bar_witness :
  exists segments,
    @Bar64.compute_segments sample_table 328 true
       [(lit "Python", B64.fl (32 # 10)); (lit "Go", B64.fl (9 # 10))]
       (Bar64.sum_pct
          [(lit "Python", B64.fl (32 # 10)); (lit "Go", B64.fl (9 # 10))])
    = Some segments /\
    total_height segments <= 328 /\ 328 - total_height segments <= 2.
Proof.
  destruct (@proportional_within_bar sample_table ltac:(repeat constructor)
              328 ltac:(lia)
              [(lit "Python", B64.fl (32 # 10)); (lit "Go", B64.fl (9 # 10))]
              ltac:(cbn [length]; lia)
              ltac:(constructor; [|constructor; [|constructor]];
                    (split; [vm_compute; reflexivity|];
                     right; split; vm_compute; congruence))
              ltac:(vm_compute; reflexivity))
    as (segments & Hs & Hle & Hgap & _).
  exists segments. split; [exact Hs|]. split; [exact Hle|exact Hgap].
Defined.

(** ** Percentages in binary64 *)

Section Percentages64.
Import B64 GitHubStats64.

(** The percentage of a count out of a positive total of which it is a
    part. *)
Lemma percentage_reported (total_bytes bytes_count : Z) :
  0 <= bytes_count <= total_bytes -> 0 < total_bytes ->
  exists value,
    percentage total_bytes bytes_count = Some value /\
    reported_percentage total_bytes bytes_count value.
Proof.
  intros [Hb0 Hb1] Ht.
  destruct pow2_small as (Hsu & H44 & Hu & Hs).
  destruct hundred_float as [H100 H100lt].
  assert (0 < inject_Z total_bytes)%Q as HT
    by (change 0%Q with (inject_Z 0); rewrite <- Zlt_Qlt; exact Ht).
  assert (0 <= inject_Z bytes_count <= inject_Z total_bytes)%Q as [HB0 HB1].
  { split; [change 0%Q with (inject_Z 0)|]; rewrite <- Zle_Qle; assumption. }
  set (e := (inject_Z bytes_count / inject_Z total_bytes)%Q).
  assert (0 <= e <= 1)%Q as He.
  { unfold e. split; [apply Qle_shift_div_l|apply Qle_shift_div_r]; lra. }
  destruct (fl_bounded e 1 He rne_one) as [Hq [Hq0 Hq1]];
    [change 1%Q with (pow2 0); apply pow2_lt; lia|].
  pose proof (rne_near e (proj1 He)) as [Eq1 Eq2].
  set (q := rne e) in *.
  assert (0 <= q * (100 # 1) <= 100 # 1)%Q as Hm by (split; lra).
  destruct (fl_bounded _ _ Hm H100 H100lt) as [Hv [Hv0 Hv1]].
  pose proof (rne_near _ (proj1 Hm)) as [Ev1 Ev2].
  set (v := rne (q * (100 # 1))) in *.
  set (k := py_round (v * (10 # 1))).
  assert (0 <= k <= 1000) as Hk.
  { unfold k. split.
    - apply py_round_nonneg. lra.
    - rewrite <- (py_round_inject 1000). apply py_round_mono.
      change (inject_Z 1000) with (1000 # 1)%Q. lra. }
  assert (0 <= inject_Z k <= 1000 # 1)%Q as [Hk0 Hk1].
  { split; [change 0%Q with (inject_Z 0)|change (1000 # 1)%Q with (inject_Z 1000)];
      rewrite <- Zle_Qle; lia. }
  assert (0 <= inject_Z k / (10 # 1) <= 100 # 1)%Q as Hr.
  { split; [apply Qle_shift_div_l|apply Qle_shift_div_r]; lra. }
  destruct (fl_bounded _ _ Hr H100 H100lt) as [Hres _].
  exists (Fin (rne (inject_Z k / (10 # 1)))). split.
  - unfold percentage, int_truediv.
    destruct (Z.eqb_spec total_bytes 0) as [E|_]; [lia|].
    fold e. rewrite Hq. cbn [mbind option_bind fmul]. fold q.
    rewrite Hv. fold v. cbn [round1]. unfold GitHubStats.py_round1.
    fold k. rewrite Hres. reflexivity.
  - exists k. split; [exact Hk|]. split; [reflexivity|].
    pose proof (py_round_near (v * (10 # 1))) as [N1 N2]. fold k in N1, N2.
    assert (inject_Z k / (10 # 1) == inject_Z k * (1 # 10))%Q as ->
      by (field).
    assert ((100 # 1) * inject_Z bytes_count / inject_Z total_bytes
            == (100 # 1) * e)%Q as -> by (unfold e; field; lra).
    set (u := pow2 (-53)) in *. set (s := pow2 (-1075)) in *.
    set (p := pow2 (-44)) in *. set (kq := inject_Z k) in *.
    assert (0 <= e * u <= u)%Q as [Heu0 Heu1] by (split; nra).
    assert (0 <= q * u <= u)%Q as [Hqu0 Hqu1] by (split; nra).
    split; lra.
Qed.

Lemma percentages64_unfold (language_bytes : list (str * Z)) (top_n : nat)
    (excluded_languages : option (list str)) :
  GitHubStats.without_excluded language_bytes excluded_languages <> [] ->
  get_language_percentages language_bytes top_n excluded_languages
  = let kept :=
      GitHubStats.without_excluded language_bytes excluded_languages in
    let total_bytes := fold_left Z.add (map snd kept) 0 in
    mapM (fun item : str * Z =>
            let '(lang, bytes_count) := item in
            value ← percentage total_bytes bytes_count;
            Some (lang, value))
         (take top_n (GitHubStats.sorted_by_bytes kept)).
Proof.
  intros Hkept. unfold get_language_percentages. cbv zeta.
  destruct language_bytes as [|l0 ls].
  - exfalso. apply Hkept. destruct excluded_languages as [[|x xs]|];
      cbn; try reflexivity.
    destruct (map _ _); reflexivity.
  - destruct (GitHubStats.without_excluded (l0 :: ls) excluded_languages)
      eqn:E; [contradiction|reflexivity].
Qed.

Lemma percentages64_loop (total_bytes : Z) (l : list (str * Z)) :
  0 < total_bytes ->
  Forall (fun item => 0 <= item.2 <= total_bytes) l ->
  exists res,
    mapM (fun item : str * Z =>
            let '(lang, bytes_count) := item in
            value ← percentage total_bytes bytes_count;
            Some (lang, value)) l = Some res /\
    map fst res = map fst l /\
    Forall2 (fun item lp => reported_percentage total_bytes item.2 lp.2)
            l res.
Proof.
  intros Ht. induction 1 as [|[lang b] r Hb Hr IH].
  - exists []. repeat split; constructor.
  - destruct IH as (res & Hres & Hnames & Hvals).
    destruct (percentage_reported total_bytes b Hb Ht) as (value & Hv & Hrep).
    exists ((lang, value) :: res). cbn [mapM]. rewrite Hv.
    cbn [mbind option_bind]. rewrite Hres. cbn [mbind option_bind].
    split; [reflexivity|]. split; [cbn [map fst]; rewrite Hnames; reflexivity|].
    constructor; [exact Hrep|exact Hvals].
Qed.

End Percentages64.

(** X18: for byte counts that are not negative and a positive total over
    the languages left after the exclusions, the result names the
    [top_n] languages with the most bytes, largest first: the languages
    left can be arranged in descending order of bytes so that the result
    is made of the first [top_n] of them (all of them when they are
    fewer).  The value given with each is its percentage rounded to one
    decimal as binary64 arithmetic computes it: the binary64 value
    nearest to a whole number of tenths between 0 and 100 that is within
    [0.05 + 2^-44] of the exact percentage. *)
Theorem language_percentages_top (language_bytes : list (str * Z))
    (top_n : nat) (excluded_languages : option (list str))
    (Hnonneg : Forall (fun lb => 0 <= lb.2) language_bytes)
    (Htotal : 0 < fold_left Z.add
                    (map snd (GitHubStats.without_excluded
                                language_bytes excluded_languages)) 0) :
  let kept := GitHubStats.without_excluded language_bytes excluded_languages in
  let total_bytes := fold_left Z.add (map snd kept) 0 in
  exists top rest res,
    GitHubStats64.get_language_percentages language_bytes top_n
                                           excluded_languages
    = Some res /\
    map fst res = map fst top /\
    Forall2 (fun item lp => reported_percentage total_bytes item.2 lp.2)
            top res /\
    length top = Nat.min top_n (length kept) /\
    top ++ rest ≡ₚ kept /\
    bytes_descending (top ++ rest).
Proof.
  intros kept total_bytes.
  assert (kept <> []) as Hkept.
  { intros E. unfold kept in E. rewrite E in Htotal. cbn in Htotal. lia. }
  pose proof (without_excluded_sub language_bytes excluded_languages
                _ Hnonneg) as Hkn.
  fold kept in Hkn.
  assert (Forall (fun item : str * Z => 0 <= item.2 <= total_bytes)
                 (take top_n (GitHubStats.sorted_by_bytes kept))) as Hparts.
  { rewrite Forall_forall in Hkn |- *. intros item Hitem.
    assert (item ∈ kept) as Hk.
    { rewrite <- (sorted_by_bytes_perm kept).
      exact (subseteq_take _ _ _ Hitem). }
    split; [exact (Hkn item Hk)|].
    unfold total_bytes. rewrite fold_left_add, Z.add_0_l.
    apply elem_le_sum.
    - apply Forall_map. rewrite Forall_forall. intros y Hy.
      exact (Hkn y Hy).
    - apply list_elem_of_In, in_map, list_elem_of_In. exact Hk. }
  destruct (percentages64_loop total_bytes _ Htotal Hparts)
    as (res & Hres & Hnames & Hvals).
  exists (take top_n (GitHubStats.sorted_by_bytes kept)),
         (drop top_n (GitHubStats.sorted_by_bytes kept)), res.
  rewrite percentages64_unfold by exact Hkept. cbv zeta.
  fold kept total_bytes.
  split; [exact Hres|]. split; [exact Hnames|]. split; [exact Hvals|].
  rewrite take_drop.
  split; [|split; [apply sorted_by_bytes_perm
                  |apply sorted_by_bytes_descending]].
  rewrite length_take.
  rewrite (Permutation_length (sorted_by_bytes_perm kept)). reflexivity.
Qed.

Lemma language_percentages_top_witness :
  exists top rest res,
    GitHubStats64.get_language_percentages
      [(lit "Go", 23); (lit "Python", 57)] 1 None = Some res /\
    map fst res = map fst top /\
    Forall2 (fun item lp => reported_percentage 80 item.2 lp.2) top res /\
    length top = 1%nat /\
    top ++ rest ≡ₚ [(lit "Go", 23); (lit "Python", 57)] /\
    bytes_descending (top ++ rest).
Proof.
  exact (language_percentages_top
           [(lit "Go", 23); (lit "Python", 57)] 1 None
           ltac:(repeat constructor; discriminate) ltac:(reflexivity)).
Defined.

(** ** The team sprites in binary64 *)

Section Sprites64.
Import B64 PokemonFetcher.

(** The quotient of two sizes: a binary64 value with relative error at
    most [2^-53]. *)
Lemma ratio_float (s d : Z) :
  0 <= s <= 2 ^ 31 -> 1 <= d <= 2 ^ 31 ->
  exists A,
    int_truediv s d = Some (Fin A) /\
    (inject_Z s / inject_Z d * (1 - pow2 (-53)) <= A
     <= inject_Z s / inject_Z d * (1 + pow2 (-53)))%Q.
Proof.
  intros Hs Hd.
  destruct (inject_Z_range s 0 (2 ^ 31) Hs) as [Hs0 Hs1].
  destruct (inject_Z_range d 1 (2 ^ 31) Hd) as [Hd0 Hd1].
  change (inject_Z 0) with 0%Q in Hs0. change (inject_Z 1) with 1%Q in Hd0.
  set (a := (inject_Z s / inject_Z d)%Q).
  assert (0 <= a <= inject_Z (2 ^ 31))%Q as Ha.
  { unfold a. split; [apply Qle_shift_div_l; lra|].
    apply Qle_shift_div_r; [lra|]. nra. }
  destruct (fl_bounded a (inject_Z (2 ^ 31)) Ha
              (rne_int (2 ^ 31) ltac:(lia)) pow2_31_lt) as [Hfl _].
  exists (rne a). split.
  - unfold int_truediv. destruct (Z.eqb_spec d 0) as [E|_]; [lia|].
    fold a. rewrite Hfl. reflexivity.
  - destruct (Z.eq_dec s 0) as [->|Hnz].
    + assert (a == 0)%Q as Ea by (unfold a; field; lra).
      rewrite (rne_zero a Ea), Ea. split; lra.
    + apply rne_rel.
      assert (1 <= inject_Z s)%Q as Hs1'
        by (change 1%Q with (inject_Z 1); rewrite <- Zle_Qle; lia).
      apply Qle_trans with (pow2 (-31)); [apply pow2_le; lia|].
      unfold a. apply Qle_shift_div_l; [lra|].
      assert (pow2 (-31) * inject_Z (2 ^ 31) == 1)%Q as E.
      { rewrite <- pow2_inject by lia. rewrite <- pow2_add. reflexivity. }
      assert (0 < pow2 (-31))%Q by apply pow2_pos.
      nra.
Qed.

(** One side of the new size: [int(side * scale_factor)] for a product
    that is at most half a pixel above a bound. *)
Lemma scaled_side (d bound : Z) (sf : Q) :
  1 <= d <= 2 ^ 31 -> 0 <= bound <= 2 ^ 31 -> (0 <= sf)%Q ->
  (inject_Z d * sf <= inject_Z bound + (1 # 2))%Q ->
  exists wf r,
    of_int d = Some wf /\ fmul wf (Fin sf) = Fin r /\
    0 <= py_int r <= bound /\
    forall z : Z, 0 <= z <= 2 ^ 31 -> (inject_Z z <= inject_Z d * sf)%Q ->
                  z <= py_int r.
Proof.
  intros Hd Hb Hsf Hle.
  destruct (of_int_small d ltac:(lia)) as (dq & Hof & Edq).
  destruct (inject_Z_range d 1 (2 ^ 31) Hd) as [Hd0 _].
  destruct (inject_Z_range bound 0 (2 ^ 31) Hb) as [Hb0 Hb1].
  change (inject_Z 0) with 0%Q in Hb0. change (inject_Z 1) with 1%Q in Hd0.
  set (bb := (inject_Z bound + (1 # 2))%Q) in *.
  assert (rne bb == bb)%Q as Ebb.
  { apply (rne_exact bb (2 * bound + 1) (-1)); [lia|lia|].
    unfold bb. rewrite inject_Z_plus, inject_Z_mult.
    change (pow2 (-1)) with (1 # 2)%Q. change (inject_Z 2) with (2 # 1)%Q.
    change (inject_Z 1) with 1%Q. ring. }
  assert (bb < pow2 1024)%Q as Hbb.
  { pose proof pow2_31_lt.
    assert (inject_Z (2 ^ 31) + 1 <= pow2 32)%Q.
    { rewrite (pow2_inject 32) by lia.
      change 1%Q with (inject_Z 1). rewrite <- inject_Z_plus.
      rewrite <- Zle_Qle. lia. }
    assert (pow2 32 < pow2 1024)%Q by (apply pow2_lt; lia).
    unfold bb. lra. }
  assert (0 <= dq * sf <= bb)%Q as Hprod
    by (rewrite Edq; split; [nra|exact Hle]).
  destruct (fl_bounded _ _ Hprod Ebb Hbb) as [Hfl [Hr0 Hr1]].
  exists (Fin dq), (rne (dq * sf)).
  split; [exact Hof|]. split; [exact Hfl|].
  rewrite (py_int_floor _ Hr0). split.
  - split.
    + rewrite <- (Qfloor_Z 0). apply Qfloor_resp_le. exact Hr0.
    + pose proof (Qfloor_le (rne (dq * sf))) as Hfl'.
      assert (inject_Z (Qfloor (rne (dq * sf))) < inject_Z (bound + 1))%Q
        as Hlt.
      { rewrite inject_Z_plus. change (inject_Z 1) with 1%Q.
        unfold bb in Hr1. lra. }
      rewrite <- Zlt_Qlt in Hlt. lia.
  - intros z Hz Hzle.
    rewrite <- (Qfloor_Z z). apply Qfloor_resp_le.
    rewrite <- (rne_int z) by lia. apply rne_mono. rewrite Edq. exact Hzle.
Qed.

Lemma fmin_fin (A B : Q) :
  exists sf, fmin (Fin A) (Fin B) = Fin sf /\
             (sf <= A)%Q /\ (sf <= B)%Q /\ (sf = A \/ sf = B).
Proof.
  unfold fmin, flt, fle. destruct (Qle_bool A B) eqn:E; cbn [negb].
  - apply Qle_bool_iff in E. exists A. repeat split; try lra. left; reflexivity.
  - exists B.
    assert (~ (A <= B)%Q) as N by (rewrite <- Qle_bool_iff; congruence).
    repeat split; try lra. right; reflexivity.
Qed.

End Sprites64.

Section SpriteFit64.
Import B64 PokemonFetcher.

(** The scaled side of a sprite stays at or above one pixel when it is
    more than one pixel before rounding. *)
Lemma scaled_above_one (d s e : Q) (A : Q) :
  (1 <= d <= 2147483648 # 1)%Q -> (1 <= e <= 2147483648 # 1)%Q ->
  (e + 1 <= d * s)%Q ->
  (s / e * (1 - pow2 (-53)) <= A)%Q -> (1 <= d * A)%Q.
Proof.
  intros [Hd0 Hd1] [He0 He1] Hds HA.
  destruct unit_roundoff as [Hu Hu31]. set (u := pow2 (-53)) in *.
  set (c := (d * (s / e))%Q).
  assert (c * e == d * s)%Q as Ec by (unfold c; field; lra).
  assert (1 <= c * (1 - u))%Q as Hc.
  { destruct (Qlt_le_dec (c * (1 - u)) 1) as [Hlt|Hge]; [|exact Hge].
    exfalso.
    assert (e * (c * (1 - u)) < e * 1)%Q as H1
      by (apply Qmult_lt_l; lra).
    assert (e * (c * (1 - u)) == (c * e) * (1 - u))%Q as E2 by ring.
    rewrite E2, Ec in H1.
    assert ((e + 1) * (1 - u) <= d * s * (1 - u))%Q as H2
      by (apply Qmult_le_compat_r; lra).
    assert (e * u <= 1 # 4)%Q as H3 by nra.
    assert (u <= 1 # 4)%Q as H4 by nra.
    lra. }
  assert (d * (s / e * (1 - u)) <= d * A)%Q as H5.
  { rewrite !(Qmult_comm d). apply Qmult_le_compat_r; lra. }
  assert (d * (s / e * (1 - u)) == c * (1 - u))%Q as E3 by (unfold c; ring).
  lra.
Qed.

(** The size asked of [resize] fits the target, reaches it within one
    pixel in one direction at least, and has no side of zero pixels
    unless the sprite is very long or the target very small. *)
Lemma new_size_fits (sw sh width height : Z) :
  1 <= sw <= 2 ^ 31 -> 1 <= sh <= 2 ^ 31 ->
  1 <= width <= 2 ^ 31 -> 1 <= height <= 2 ^ 31 ->
  exists nw nh,
    new_size (sw, sh) (width, height) = Some (nw, nh) /\
    0 <= nw <= sw /\ 0 <= nh <= sh /\
    (sw - 1 <= nw \/ sh - 1 <= nh) /\
    (2 <= sw -> 2 <= sh -> height < width * sh -> width < height * sw ->
     1 <= nw /\ 1 <= nh).
Proof.
  intros Hsw Hsh Hw Hh.
  destruct (ratio_float sw width ltac:(lia) Hw) as (A & HfA & A1 & A2).
  destruct (ratio_float sh height ltac:(lia) Hh) as (B & HfB & B1 & B2).
  destruct (fmin_fin A B) as (sf & Hmin & HsA & HsB & Hsf).
  destruct unit_roundoff as [Hu Hu31].
  destruct (size_bounds sw 1 Hsw) as [SW0 SW1].
  destruct (size_bounds sh 1 Hsh) as [SH0 SH1].
  destruct (size_bounds width 1 Hw) as [W0 W1].
  destruct (size_bounds height 1 Hh) as [H0 H1].
  change (inject_Z 1) with 1%Q in *.
  assert (inject_Z width * (inject_Z sw / inject_Z width) == inject_Z sw)%Q
    as Ea by (field; lra).
  assert (inject_Z height * (inject_Z sh / inject_Z height) == inject_Z sh)%Q
    as Eb by (field; lra).
  set (W := inject_Z width) in *. set (H := inject_Z height) in *.
  set (SW := inject_Z sw) in *. set (SH := inject_Z sh) in *.
  set (a := (SW / W)%Q) in *. set (b := (SH / H)%Q) in *.
  set (u := pow2 (-53)) in *.
  assert (SW * u <= 1 # 4)%Q as HuW by nra.
  assert (SH * u <= 1 # 4)%Q as HuH by nra.
  assert (0 <= a)%Q as Ha0 by (unfold a; apply Qle_shift_div_l; lra).
  assert (0 <= b)%Q as Hb0 by (unfold b; apply Qle_shift_div_l; lra).
  assert (u <= 1 # 4)%Q as Hu4 by nra.
  assert (0 <= A)%Q as HA0 by nra.
  assert (0 <= B)%Q as HB0 by nra.
  assert (0 <= sf)%Q as Hsf0 by (destruct Hsf as [-> | ->]; assumption).
  assert (W * A <= SW + (1 # 4))%Q as HWA.
  { assert (W * A <= W * (a * (1 + u)))%Q as H2
      by (rewrite !(Qmult_comm W); apply Qmult_le_compat_r; lra).
    assert (W * (a * (1 + u)) == (W * a) * (1 + u))%Q as E2 by ring.
    rewrite E2, Ea in H2. lra. }
  assert (H * B <= SH + (1 # 4))%Q as HHB.
  { assert (H * B <= H * (b * (1 + u)))%Q as H2
      by (rewrite !(Qmult_comm H); apply Qmult_le_compat_r; lra).
    assert (H * (b * (1 + u)) == (H * b) * (1 + u))%Q as E2 by ring.
    rewrite E2, Eb in H2. lra. }
  assert (SW - (1 # 4) <= W * A)%Q as LWA.
  { assert (W * (a * (1 - u)) <= W * A)%Q as H2
      by (rewrite !(Qmult_comm W); apply Qmult_le_compat_r; lra).
    assert (W * (a * (1 - u)) == (W * a) * (1 - u))%Q as E2 by ring.
    rewrite E2, Ea in H2. lra. }
  assert (SH - (1 # 4) <= H * B)%Q as LHB.
  { assert (H * (b * (1 - u)) <= H * B)%Q as H2
      by (rewrite !(Qmult_comm H); apply Qmult_le_compat_r; lra).
    assert (H * (b * (1 - u)) == (H * b) * (1 - u))%Q as E2 by ring.
    rewrite E2, Eb in H2. lra. }
  assert (W * sf <= SW + (1 # 2))%Q as HWs.
  { assert (W * sf <= W * A)%Q
      by (rewrite !(Qmult_comm W); apply Qmult_le_compat_r; lra).
    lra. }
  assert (H * sf <= SH + (1 # 2))%Q as HHs.
  { assert (H * sf <= H * B)%Q
      by (rewrite !(Qmult_comm H); apply Qmult_le_compat_r; lra).
    lra. }
  destruct (scaled_side width sw sf Hw ltac:(lia) Hsf0 HWs)
    as (wf & rw & Hwf & Hrw & Hnw & Lnw).
  destruct (scaled_side height sh sf Hh ltac:(lia) Hsf0 HHs)
    as (hf & rh & Hhf & Hrh & Hnh & Lnh).
  exists (py_int rw), (py_int rh).
  split.
  { unfold new_size. cbn [fst snd]. rewrite HfA, HfB.
    cbn [mbind option_bind]. rewrite Hmin, Hwf. cbn [mbind option_bind].
    rewrite Hrw. cbn [to_int mbind option_bind]. rewrite Hhf.
    cbn [mbind option_bind]. rewrite Hrh. reflexivity. }
  split; [exact Hnw|]. split; [exact Hnh|]. split.
  - destruct Hsf as [-> | ->].
    + left. apply Lnw; [lia|]. fold W. unfold Z.sub.
      rewrite inject_Z_plus. fold SW. rewrite inject_Z_opp. change (inject_Z 1) with 1%Q.
      lra.
    + right. apply Lnh; [lia|]. fold H. unfold Z.sub.
      rewrite inject_Z_plus. fold SH. rewrite inject_Z_opp. change (inject_Z 1) with 1%Q.
      lra.
  - intros Hsw2 Hsh2 Hhw Hwh.
    assert (2 <= SW)%Q as SW2
      by (unfold SW; change 2%Q with (inject_Z 2); rewrite <- Zle_Qle; lia).
    assert (2 <= SH)%Q as SH2
      by (unfold SH; change 2%Q with (inject_Z 2); rewrite <- Zle_Qle; lia).
    assert (H + 1 <= W * SH)%Q as Hq1.
    { unfold H, W, SH. change 1%Q with (inject_Z 1).
      rewrite <- inject_Z_plus, <- inject_Z_mult, <- Zle_Qle. lia. }
    assert (W + 1 <= H * SW)%Q as Hq2.
    { unfold H, W, SW. change 1%Q with (inject_Z 1).
      rewrite <- inject_Z_plus, <- inject_Z_mult, <- Zle_Qle. lia. }
    assert (1 <= W * B)%Q as HWB
      by (apply (scaled_above_one W SH H B); [split; lra|split; lra| |]; assumption).
    assert (1 <= H * A)%Q as HHA
      by (apply (scaled_above_one H SW W A); [split; lra|split; lra| |]; assumption).
    assert (1 <= W * sf)%Q as H1w by (destruct Hsf as [-> | ->]; lra).
    assert (1 <= H * sf)%Q as H1h by (destruct Hsf as [-> | ->]; lra).
    split; [apply Lnw|apply Lnh]; try lia; change (inject_Z 1) with 1%Q;
      assumption.
Qed.

End SpriteFit64.

Section TeamSprites64.
Import B64 PokemonFetcher.

Lemma fit_sprite_fails (sw sh width height nw nh : Z) :
  1 <= width -> 1 <= height ->
  new_size (sw, sh) (width, height) = Some (nw, nh) ->
  nw < 1 \/ nh < 1 ->
  fit_sprite (sw, sh) (Some (width, height)) = None.
Proof.
  intros Hw Hh Hnew Hzero. unfold fit_sprite. rewrite Hnew.
  cbn [mbind option_bind]. unfold resize. cbn [fst snd].
  rewrite bool_decide_eq_false_2 by (intros [= -> ->]; lia).
  assert ((nw <? 1) || (nh <? 1) = true) as ->; [|reflexivity].
  apply orb_true_iff. rewrite !Z.ltb_lt. exact Hzero.
Qed.

Lemma fit_sprite_centres (sw sh width height nw nh : Z) :
  0 <= sw -> 0 <= sh ->
  new_size (sw, sh) (width, height) = Some (nw, nh) ->
  1 <= nw <= sw -> 1 <= nh <= sh ->
  fit_sprite (sw, sh) (Some (width, height))
  = Some (PokemonFetcher.Centered (sw, sh) (nw, nh)
            ((sw - nw) `div` 2, (sh - nh) `div` 2)) /\
  0 <= (sw - nw) `div` 2 /\ 0 <= (sh - nh) `div` 2 /\
  (sw - nw) `div` 2 + nw <= sw /\ (sh - nh) `div` 2 + nh <= sh.
Proof.
  intros Hsw Hsh Hnew Hnw Hnh. split.
  - unfold fit_sprite. rewrite Hnew. cbn [mbind option_bind].
    assert (resize (width, height) (nw, nh) = Some (nw, nh)) as ->.
    { unfold resize. cbn [fst snd]. destruct (bool_decide _); [reflexivity|].
      assert ((nw <? 1) || (nh <? 1) = false) as ->; [|reflexivity].
      apply orb_false_intro; apply Z.ltb_ge; lia. }
    cbn [mbind option_bind fst snd]. unfold image_new.
    assert ((sw <? 0) || (sh <? 0) = false) as ->; [|reflexivity].
    apply orb_false_intro; apply Z.ltb_ge; lia.
  - pose proof (Z.div_pos (sw - nw) 2 ltac:(lia) ltac:(lia)).
    pose proof (Z.div_pos (sh - nh) 2 ltac:(lia) ltac:(lia)).
    pose proof (Z.div_le_upper_bound (sw - nw) 2 (sw - nw) ltac:(lia)
                  ltac:(lia)).
    pose proof (Z.div_le_upper_bound (sh - nh) 2 (sh - nh) ltac:(lia)
                  ltac:(lia)).
    lia.
Qed.

End TeamSprites64.

(** X22: a fetched sprite and a target size with sides from 1 to
    [2^31].  The size asked of [resize], computed in binary64, fits the
    target in both directions and reaches it within one pixel in one of
    them.  When one of its sides is 0 the call raises [ValueError];
    otherwise the resized sprite is centred in the target: the offsets
    are not negative and the pasted sprite ends within the target.  No
    side is 0 when the target is at least 2 by 2 pixels and the sprite is
    neither so wide nor so high that its shorter side scales to one
    pixel or less; a team of such sprites and failed fetches gives one
    image for each member. *)
Theorem team_sprite_fits (sw sh width height : Z)
    (Hsw : 1 <= sw <= 2 ^ 31) (Hsh : 1 <= sh <= 2 ^ 31)
    (Hw : 1 <= width <= 2 ^ 31) (Hh : 1 <= height <= 2 ^ 31) :
  exists nw nh,
    PokemonFetcher.new_size (sw, sh) (width, height) = Some (nw, nh) /\
    0 <= nw <= sw /\ 0 <= nh <= sh /\
    (sw - 1 <= nw \/ sh - 1 <= nh) /\
    (nw < 1 \/ nh < 1 ->
     PokemonFetcher.fit_sprite (sw, sh) (Some (width, height)) = None) /\
    (1 <= nw -> 1 <= nh ->
     exists ox oy,
       PokemonFetcher.fit_sprite (sw, sh) (Some (width, height))
       = Some (PokemonFetcher.Centered (sw, sh) (nw, nh) (ox, oy)) /\
       0 <= ox /\ 0 <= oy /\ ox + nw <= sw /\ oy + nh <= sh) /\
    (2 <= sw -> 2 <= sh -> height < width * sh -> width < height * sw ->
     1 <= nw /\ 1 <= nh) /\
    (2 <= sw -> 2 <= sh ->
     forall fetched,
       Forall (fun s => forall w h,
                 s = Some (w, h) ->
                 1 <= w <= 2 ^ 31 /\ 1 <= h <= 2 ^ 31 /\
                 h < w * sh /\ w < h * sw) fetched ->
       exists sprites,
         PokemonFetcher.get_team_sprites fetched (sw, sh) = Some sprites /\
         length sprites = length fetched).
Proof.
  destruct (new_size_fits sw sh width height Hsw Hsh Hw Hh)
    as (nw & nh & Hnew & Hnw & Hnh & Htight & Hone).
  exists nw, nh. split; [exact Hnew|]. split; [exact Hnw|].
  split; [exact Hnh|]. split; [exact Htight|]. split.
  { apply (fit_sprite_fails sw sh width height nw nh); [lia|lia|exact Hnew]. }
  split.
  { intros H1w H1h.
    destruct (fit_sprite_centres sw sh width height nw nh ltac:(lia)
                ltac:(lia) Hnew ltac:(lia) ltac:(lia)) as (Hfit & Hbounds).
    eexists _, _. split; [exact Hfit|exact Hbounds]. }
  split; [exact Hone|].
  intros Hsw2 Hsh2 fetched Hall.
  unfold PokemonFetcher.get_team_sprites.
  induction Hall as [|s r Hs Hr IH].
  - exists []. split; reflexivity.
  - destruct IH as (sprites & Hsp & Hlen). cbn [mapM]. rewrite Hsp.
    destruct s as [[w h]|].
    + destruct (Hs w h eq_refl) as (Hw' & Hh' & Hwide & Hhigh).
      destruct (new_size_fits sw sh w h Hsw Hsh Hw' Hh')
        as (nw' & nh' & Hnew' & Hnw' & Hnh' & _ & Hone').
      destruct (Hone' Hsw2 Hsh2 Hwide Hhigh) as [H1w H1h].
      destruct (fit_sprite_centres sw sh w h nw' nh' ltac:(lia)
                  ltac:(lia) Hnew' ltac:(lia) ltac:(lia)) as (-> & _).
      eexists. split; [reflexivity|]. cbn [length]. rewrite Hlen. reflexivity.
    + unfold PokemonFetcher.fit_sprite, image_new. cbn [fst snd].
      assert ((sw <? 0) || (sh <? 0) = false) as ->
        by (apply orb_false_intro; apply Z.ltb_ge; lia).
      eexists. split; [reflexivity|]. cbn [length]. rewrite Hlen. reflexivity.
Qed.

Lemma team_sprite_fits_witness :
  exists nw nh,
    PokemonFetcher.new_size (96, 96) (47, 47) = Some (nw, nh) /\
    0 <= nw <= 96 /\ 0 <= nh <= 96 /\
    (96 - 1 <= nw \/ 96 - 1 <= nh) /\
    (1 <= nw /\ 1 <= nh).
Proof.
  destruct (team_sprite_fits 96 96 47 47 ltac:(lia) ltac:(lia) ltac:(lia)
              ltac:(lia))
    as (nw & nh & H1 & H2 & H3 & H4 & _ & _ & H7 & _).
  exists nw, nh. split; [exact H1|]. split; [exact H2|]. split; [exact H3|].
  split; [exact H4|]. apply H7; lia.
Defined.
